(** * pyrad.utils.visualization: colormap helpers

    A shallow embedding of [apply_colormap] and [apply_depth_colormap]
    (src/pyrad/utils/visualization.py) together with the properties of
    the two functions.

    Tensors hold torch's default dtype [float32]; their elements are
    IEEE-754 binary32 numbers, modelled with the standard library's
    [spec_float] operations at precision 24 and maximal exponent 128.
    Python [float] arguments ([near_plane], [far_plane], the literal
    [1e-10]) are binary64 numbers; where a Python number meets a
    tensor, torch first rounds it to the tensor's dtype.  Index tensors
    ([.long()]) hold mathematical integers in the int64 range. *)

From Stdlib Require Import String ZArith QArith Qpower List Bool Lia.
From Stdlib Require Import Floats.SpecFloat DecimalString.
Import ListNotations.

Open Scope Z_scope.

(** ** Errors and the result monad *)

Inductive error : Type :=
| ColormapError                      (* cm.get_cmap / .colors failed *)
| RuntimeError                       (* torch: reduction of an empty tensor, shapes that do not broadcast *)
| IndexError                         (* index out of range *)
| AssertionError (msg : string).     (* a failed [assert] with its message *)

Inductive result (A : Type) : Type :=
| Ok (a : A)
| Err (e : error).
Arguments Ok {A} a.
Arguments Err {A} e.

Definition bind {A B} (r : result A) (k : A -> result B) : result B :=
  match r with
  | Ok a => k a
  | Err e => Err e
  end.

Notation "x <- c ;; k" := (bind c (fun x => k))
  (at level 61, c at next level, right associativity).
Notation "c ;;; k" := (bind c (fun _ => k))
  (at level 61, right associativity).

Definition py_assert (b : bool) (msg : string) : result unit :=
  if b then Ok tt else Err (AssertionError msg).

Definition is_ok {A} (r : result A) : bool :=
  match r with Ok _ => true | Err _ => false end.

Fixpoint mapM {A B} (f : A -> result B) (l : list A) : result (list B) :=
  match l with
  | [] => Ok []
  | x :: r => y <- f x ;; ys <- mapM f r ;; Ok (y :: ys)
  end.

(** Decimal rendering of an integer, as an f-string renders it. *)
Definition show_Z (z : Z) : string := NilZero.string_of_int (Z.to_int z).

(** ** Floating-point numbers *)

(** torch.float32 *)
Definition f32 := spec_float.
Definition f32_valid : f32 -> bool := valid_binary 24 128.
Definition f32_mul : f32 -> f32 -> f32 := SFmul 24 128.
Definition f32_add : f32 -> f32 -> f32 := SFadd 24 128.
Definition f32_sub : f32 -> f32 -> f32 := SFsub 24 128.
Definition f32_div : f32 -> f32 -> f32 := SFdiv 24 128.
Definition f32_of_Z (z : Z) : f32 := binary_normalize 24 128 z 0 false.

(** Python float (binary64) *)
Definition f64 := spec_float.
Definition f64_valid : f64 -> bool := valid_binary 53 1024.
Definition f64_add : f64 -> f64 -> f64 := SFadd 53 1024.
Definition f64_sub : f64 -> f64 -> f64 := SFsub 53 1024.
Definition f64_div : f64 -> f64 -> f64 := SFdiv 53 1024.
Definition f64_of_Z (z : Z) : f64 := binary_normalize 53 1024 z 0 false.

(** The Python literal [m / 10^k] for integers that a double holds
    exactly: the division is correctly rounded, and so is the literal. *)
Definition f64_decimal (m : Z) (k : Z) : f64 := f64_div (f64_of_Z m) (f64_of_Z (10 ^ k)).

(** The literal [1e-10] of line 53. *)
Definition py_1e_10 : f64 := Eval vm_compute in f64_decimal 1 10.

(** Rounding a Python number to float32 (round to nearest even), and
    the exact embedding of a float32 into the doubles. *)
Definition f32_of_f64 (x : f64) : f32 :=
  match x with
  | S754_finite s m e => binary_round 24 128 s m e
  | _ => x
  end.

Definition f64_of_f32 (x : f32) : f64 :=
  match x with
  | S754_finite s m e => binary_round 53 1024 s m e
  | _ => x
  end.

Definition is_nan (x : spec_float) : bool :=
  match x with S754_nan => true | _ => false end.

Definition is_finite (x : spec_float) : bool :=
  match x with S754_zero _ | S754_finite _ _ _ => true | _ => false end.

Definition f32_zero : f32 := S754_zero false.

(** The float32 that [1e-10] becomes next to a tensor. *)
Definition f32_eps : f32 := Eval vm_compute in f32_of_f64 py_1e_10.
Definition f32_one : f32 := Eval vm_compute in f32_of_Z 1.
Definition f32_255 : f32 := Eval vm_compute in f32_of_Z 255.

(** IEEE comparisons [<], [<=], [==]; all false on NaN. *)
Definition flt : spec_float -> spec_float -> bool := SFltb.
Definition fle : spec_float -> spec_float -> bool := SFleb.
Definition feq : spec_float -> spec_float -> bool := SFeqb.

(** The value of a float as a rational; zero for what is not finite. *)
Definition F2Q (x : spec_float) : Q :=
  match x with
  | S754_finite s m e => inject_Z (cond_Zopp s (Z.pos m)) * Qpower 2 e
  | _ => 0
  end%Q.

(** [0 <= x <= 1], as IEEE comparisons. *)
Definition in_unit (x : spec_float) : bool := fle f32_zero x && fle x f32_one.

(** A key whose lexicographic order is the IEEE order of the numbers
    that are not NaN: class, then exponent, then mantissa. *)
Definition fkey (x : spec_float) : Z * Z * Z :=
  match x with
  | S754_infinity true => (-2, 0, 0)
  | S754_finite true m e => (-1, - e, - Z.pos m)
  | S754_zero _ => (0, 0, 0)
  | S754_nan => (0, 0, 0)
  | S754_finite false m e => (1, e, Z.pos m)
  | S754_infinity false => (2, 0, 0)
  end.

Definition key_le (a b : Z * Z * Z) : Prop :=
  let '(a1, a2, a3) := a in
  let '(b1, b2, b3) := b in
  a1 < b1 \/ (a1 = b1 /\ (a2 < b2 \/ (a2 = b2 /\ a3 <= b3))).

(** [lo] is a least (greatest) element of [l] in the IEEE order. *)
Definition is_least (lo : spec_float) (l : list spec_float) : Prop :=
  In lo l /\ forall y, In y l -> fle lo y = true.

Definition is_greatest (hi : spec_float) (l : list spec_float) : Prop :=
  In hi l /\ forall y, In y l -> fle y hi = true.

(** Equal as IEEE numbers and of one representation: the same float,
    or two zeros. *)
Definition same_number (x y : spec_float) : Prop :=
  x = y \/ ((exists s, x = S754_zero s) /\ (exists s, y = S754_zero s)).

(** Python truthiness of a float: [bool(x)] is [x != 0.0]. *)
Definition truthy (x : f64) : bool := negb (feq x (S754_zero false)).

(** *** Conversion to int64 *)

(** Truncation toward zero of a finite float. *)
Definition trunc (x : spec_float) : Z :=
  match x with
  | S754_finite s m e =>
      cond_Zopp s (if 0 <=? e then Z.pos m * 2 ^ e else Z.pos m / 2 ^ (- e))
  | _ => 0
  end.

Definition int64_min : Z := - 2 ^ 63.
Definition int64_max : Z := 2 ^ 63 - 1.
Definition in_int64 (z : Z) : bool := (int64_min <=? z) && (z <=? int64_max).

(** ** Rounding, in integers

    The quantities that describe what [binary_round_aux] of the
    standard library computes. *)

(** The record after [k] halvings of the integer [N]. *)
Definition shr_repr (N : Z) (k : Z) (r : shr_record) : Prop :=
  1 <= k /\ shr_m r = N / 2 ^ k /\
  shr_r r = Z.testbit N (k - 1) /\
  shr_s r = negb (N mod 2 ^ (k - 1) =? 0).

(** [M / 2^n] rounded to nearest, ties to even. *)
Definition rne (M n : Z) : Z :=
  let q := M / 2 ^ n in
  let rem := M mod 2 ^ n in
  if (2 ^ n <? 2 * rem) || ((2 ^ n =? 2 * rem) && Z.odd q) then q + 1 else q.

(** The last stage of [binary_round_aux] on a rounded mantissa: a
    carry into bit [prec] is renormalised, an exponent beyond the
    format overflows to infinity. *)
Definition finish (prec emax : Z) (s : bool) (m1 e1 : Z) : spec_float :=
  if m1 =? 0 then S754_zero s
  else if m1 <? 2 ^ prec
       then (if e1 <=? emax - prec then S754_finite s (Z.to_pos m1) e1 else S754_infinity s)
       else (if e1 + 1 <=? emax - prec
             then S754_finite s (Z.to_pos (2 ^ (prec - 1))) (e1 + 1) else S754_infinity s).

(** The value [m * 2^e] of a float32 mantissa and exponent, scaled by
    [2^400] so that it is an integer. *)
Definition scaled (m e : Z) : Z := m * 2 ^ (e + 400).

(** ** The environment of the two functions

    [cast_undefined] is what the hardware conversion yields for a NaN, an
    infinity or a value outside int64, where the C++ cast behind
    [.long()] is undefined.  [cm_colors name] is the table
    [cm.get_cmap(name).colors] of matplotlib, already as float32 rows. *)

Definition rgb : Type := f32 * f32 * f32.

Class Runtime : Type := {
  cast_undefined : f32 -> Z;
  cm_colors : string -> option (list rgb)
}.

(** ** Tensors: a shape and the elements in row-major order *)

Record tensor (A : Type) : Type := mkTensor { shape : list nat; data : list A }.
Arguments mkTensor {A} shape data.
Arguments shape {A} t.
Arguments data {A} t.

Definition numel (s : list nat) : nat := fold_right Nat.mul 1%nat s.

Definition tensor_wf {A} (t : tensor A) : Prop :=
  length (data t) = numel (shape t).

Definition tmap {A B} (f : A -> B) (t : tensor A) : tensor B :=
  mkTensor (shape t) (map f (data t)).

(** A reduction over all elements; torch refuses the empty tensor. *)
Definition reduce {A} (f : A -> A -> A) (l : list A) : result A :=
  match l with
  | [] => Err RuntimeError
  | x :: r => Ok (fold_left f r x)
  end.

(** torch.min / torch.max of a float tensor propagate NaN. *)
Definition fmin (a b : f32) : f32 :=
  if is_nan a then a else if is_nan b then b else if flt b a then b else a.
Definition fmax (a b : f32) : f32 :=
  if is_nan a then a else if is_nan b then b else if flt a b then b else a.

Definition torch_min (t : tensor f32) : result f32 := reduce fmin (data t).
Definition torch_max (t : tensor f32) : result f32 := reduce fmax (data t).
Definition torch_min_long (t : tensor Z) : result Z := reduce Z.min (data t).
Definition torch_max_long (t : tensor Z) : result Z := reduce Z.max (data t).

(** torch.clip(t, lo, hi) with scalar bounds; NaN stays NaN. *)
Definition clip1 (lo hi x : f32) : f32 :=
  if is_nan x then x else
  let y := if flt x lo then lo else x in
  if flt hi y then hi else y.

Definition torch_clip (t : tensor f32) (lo hi : Z) : tensor f32 :=
  tmap (clip1 (f32_of_Z lo) (f32_of_Z hi)) t.

(** [t[..., 0]]: drop the last dimension, keeping its first entry. *)
Fixpoint strided {A} (n k : nat) (l : list A) : list A :=
  match n with
  | O => []
  | S n' =>
      match l with
      | [] => []
      | x :: _ => x :: strided n' k (skipn k l)
      end
  end.

Definition select_last0 {A} (t : tensor A) : result (tensor A) :=
  match rev (shape t) with
  | [] => Err IndexError
  | O :: _ => Err IndexError
  | S k :: lead => Ok (mkTensor (rev lead) (strided (numel (rev lead)) (S k) (data t)))
  end.

(** [table[idx]] for an index tensor: one row per index. *)
Definition table_row (table : list rgb) (i : Z) : result rgb :=
  if (0 <=? i) && (i <? Z.of_nat (length table))
  then match nth_error table (Z.to_nat i) with
       | Some c => Ok c
       | None => Err IndexError
       end
  else Err IndexError.

Definition rgb_list (c : rgb) : list f32 :=
  let '(r, g, b) := c in [r; g; b].

(** Row [i] of a table that has it. *)
Definition color_at (table : list rgb) (i : Z) : rgb :=
  nth (Z.to_nat i) table (f32_zero, f32_zero, f32_zero).

(** The pixels of a color image whose rows are [rows]. *)
Definition pixels (rows : list rgb) : list f32 := concat (map rgb_list rows).

Definition index_rows (table : list rgb) (idx : tensor Z) : result (tensor f32) :=
  rows <- mapM (table_row table) (data idx) ;;
  Ok (mkTensor (shape idx ++ [3%nat]) (concat (map rgb_list rows))).

(** *** Broadcasting of two tensors *)

Definition pad_left (n : nat) (s : list nat) : list nat :=
  repeat 1%nat (n - length s) ++ s.

Fixpoint broadcast_shape (s1 s2 : list nat) : option (list nat) :=
  match s1, s2 with
  | [], [] => Some []
  | a :: r1, b :: r2 =>
      match broadcast_shape r1 r2 with
      | None => None
      | Some r =>
          if Nat.eqb a b then Some (a :: r)
          else if Nat.eqb a 1 then Some (b :: r)
          else if Nat.eqb b 1 then Some (a :: r)
          else None
      end
  | _, _ => None
  end.

Fixpoint chunks {A} (n k : nat) (l : list A) : list (list A) :=
  match n with
  | O => []
  | S n' => firstn k l :: chunks n' k (skipn k l)
  end.

(** The elements of a tensor of shape [from] seen at shape [to']. *)
Fixpoint expand {A} (from to' : list nat) (d : list A) : list A :=
  match from, to' with
  | n :: from', m :: to'' =>
      if Nat.eqb n m
      then concat (map (expand from' to'') (chunks n (numel from') d))
      else concat (repeat (expand from' to'' d) m)
  | _, _ => d
  end.

Fixpoint zip_with {A B C} (f : A -> B -> C) (l1 : list A) (l2 : list B) : list C :=
  match l1, l2 with
  | x :: r1, y :: r2 => f x y :: zip_with f r1 r2
  | _, _ => []
  end.

Definition broadcast2 {A B C} (f : A -> B -> C) (x : tensor A) (y : tensor B)
  : result (tensor C) :=
  let n := Nat.max (length (shape x)) (length (shape y)) in
  let sx := pad_left n (shape x) in
  let sy := pad_left n (shape y) in
  match broadcast_shape sx sy with
  | None => Err RuntimeError
  | Some s => Ok (mkTensor s (zip_with f (expand sx s (data x)) (expand sy s (data y))))
  end.

(** ** Scalars that meet a tensor

    After line 50 a plane is either the Python number the caller gave,
    or the zero-dimensional float32 tensor of [torch.min]/[torch.max]. *)

Inductive scalar : Type :=
| PyFloat (x : f64)
| Tensor0 (x : f32).

(** The float32 a scalar contributes to a float32 tensor operation. *)
Definition as_f32 (s : scalar) : f32 :=
  match s with
  | PyFloat x => f32_of_f64 x
  | Tensor0 x => x
  end.

(** The value of a scalar, as a double. *)
Definition scalar_value (s : scalar) : f64 :=
  match s with
  | PyFloat x => x
  | Tensor0 x => f64_of_f32 x
  end.

(** The payload of a plane is a valid float32 when it is a tensor. *)
Definition scalar_valid (s : scalar) : Prop :=
  match s with
  | PyFloat _ => True
  | Tensor0 x => f32_valid x = true
  end.

(** [a - b] and [a + b] on scalars: Python arithmetic on two Python
    numbers, float32 arithmetic as soon as one side is a tensor. *)
Definition scalar_sub (a b : scalar) : scalar :=
  match a, b with
  | PyFloat x, PyFloat y => PyFloat (f64_sub x y)
  | _, _ => Tensor0 (f32_sub (as_f32 a) (as_f32 b))
  end.

Definition scalar_add (a b : scalar) : scalar :=
  match a, b with
  | PyFloat x, PyFloat y => PyFloat (f64_add x y)
  | _, _ => Tensor0 (f32_add (as_f32 a) (as_f32 b))
  end.

Definition tensor_sub_scalar (t : tensor f32) (s : scalar) : tensor f32 :=
  tmap (fun x => f32_sub x (as_f32 s)) t.

Definition tensor_div_scalar (t : tensor f32) (s : scalar) : tensor f32 :=
  tmap (fun x => f32_div x (as_f32 s)) t.

(** [x or default] on an optional Python float: the default is only
    evaluated when [x] is None or falsy. *)
Definition py_or (x : option f64) (default : result f32) : result scalar :=
  match x with
  | Some v => if truthy v then Ok (PyFloat v) else (m <- default ;; Ok (Tensor0 m))
  | None => m <- default ;; Ok (Tensor0 m)
  end.

Section Program.
Context {RT : Runtime}.

(** [.long()]: truncation toward zero where the result fits int64. *)
Definition to_long (x : f32) : Z :=
  match x with
  | S754_zero _ => 0
  | S754_finite _ _ _ => if in_int64 (trunc x) then trunc x else cast_undefined x
  | _ => cast_undefined x
  end.

Definition get_colors (cmap : string) : result (list rgb) :=
  match cm_colors cmap with
  | Some t => Ok t
  | None => Err ColormapError
  end.

(** ** apply_colormap (lines 9-27) *)

(** Line 22 on one element: [(x * 255).long()]. *)
Definition pixel_index (x : f32) : Z := to_long (f32_mul x f32_255).

Definition scale_long (image : tensor f32) : tensor Z := tmap pixel_index image.

Definition apply_colormap (image : tensor f32) (cmap : string) : result (tensor f32) :=
  colormap <- get_colors cmap ;;
  let image_long := scale_long image in
  image_long_min <- torch_min_long image_long ;;
  image_long_max <- torch_max_long image_long ;;
  py_assert (0 <=? image_long_min) (String.append "the min value is " (show_Z image_long_min)) ;;;
  py_assert (image_long_max <=? 255) (String.append "the max value is " (show_Z image_long_max)) ;;;
  idx <- select_last0 image_long ;;
  index_rows colormap idx.

(** ** apply_depth_colormap (lines 30-62) *)

Definition choose_near (depth : tensor f32) (near_plane : option f64) : result scalar :=
  py_or near_plane (torch_min depth).

Definition choose_far (depth : tensor f32) (far_plane : option f64) : result scalar :=
  py_or far_plane (torch_max depth).

(** Lines 53-54 for planes already chosen. *)
Definition normalize (depth : tensor f32) (near far : scalar) : tensor f32 :=
  let den := scalar_add (scalar_sub far near) (PyFloat py_1e_10) in
  torch_clip (tensor_div_scalar (tensor_sub_scalar depth near) den) 0 1.

(** Line 60 on one element: [c * a + (1 - a)]. *)
Definition blend1 (c a : f32) : f32 := f32_add (f32_mul c a) (f32_sub f32_one a).

(** Line 60: [colored_image * accumulation + (1 - accumulation)]. *)
Definition blend (colored_image accumulation : tensor f32) : result (tensor f32) :=
  prod <- broadcast2 f32_mul colored_image accumulation ;;
  broadcast2 f32_add prod (tmap (fun a => f32_sub f32_one a) accumulation).

Definition apply_depth_colormap (depth : tensor f32) (accumulation : option (tensor f32))
    (near_plane far_plane : option f64) (cmap : string) : result (tensor f32) :=
  near <- choose_near depth near_plane ;;
  far <- choose_far depth far_plane ;;
  let depth := normalize depth near far in
  colored_image <- apply_colormap depth cmap ;;
  match accumulation with
  | Some acc => blend colored_image acc
  | None => Ok colored_image
  end.

(** Lines 53-62 for planes already chosen. *)
Definition colorize (depth : tensor f32) (accumulation : option (tensor f32))
    (near far : scalar) (cmap : string) : result (tensor f32) :=
  colored_image <- apply_colormap (normalize depth near far) cmap ;;
  match accumulation with
  | Some acc => blend colored_image acc
  | None => Ok colored_image
  end.

End Program.

(** The plane of the specification: the caller's number when it is
    given and truthy, the extreme value of the data otherwise. *)
Definition spec_plane (given : option f64) (extreme : f32) : scalar :=
  match given with
  | Some v => if truthy v then PyFloat v else Tensor0 extreme
  | None => Tensor0 extreme
  end.

(** ** The two functions on an object store

    Python passes tensors by reference.  The store is the list of the
    tensor objects allocated so far, a reference is a position in it,
    and every torch operation of the two functions ([*], [-], [/],
    [.long()], [torch.clip], indexing with an index tensor) is out of
    place: it reads its operands and allocates its result.  Reductions
    and assertions allocate nothing that outlives them, and [t[..., 0]]
    is a view. *)

Inductive object : Type :=
| FloatTensor (t : tensor f32)
| LongTensor (t : tensor Z).

Definition heap : Type := list object.
Definition ref : Type := nat.

(** State and exceptions; an exception keeps the store. *)
Definition M (A : Type) : Type := heap -> result A * heap.

Definition bindM {A B} (m : M A) (k : A -> M B) : M B :=
  fun h => match m h with
           | (Ok a, h') => k a h'
           | (Err e, h') => (Err e, h')
           end.

Definition lift {A} (r : result A) : M A := fun h => (r, h).

Definition alloc (o : object) : M ref := fun h => (Ok (length h), h ++ [o]).

Definition load_float (r : ref) : M (tensor f32) :=
  fun h => match nth_error h r with
           | Some (FloatTensor t) => (Ok t, h)
           | _ => (Err RuntimeError, h)
           end.

Definition load_long (r : ref) : M (tensor Z) :=
  fun h => match nth_error h r with
           | Some (LongTensor t) => (Ok t, h)
           | _ => (Err RuntimeError, h)
           end.

Notation "x <~ c ;; k" := (bindM c (fun x => k))
  (at level 61, c at next level, right associativity).

(** An elementwise operation: read the operand, allocate the result. *)
Definition float_op (f : tensor f32 -> tensor f32) (r : ref) : M ref :=
  t <~ load_float r ;; alloc (FloatTensor (f t)).

Section Store.
Context {RT : Runtime}.

Definition apply_colormap_st (image : ref) (cmap : string) : M ref :=
  colormap <~ lift (get_colors cmap) ;;
  scaled <~ float_op (tmap (fun x => f32_mul x f32_255)) image ;;
  image_long <~ (t <~ load_float scaled ;; alloc (LongTensor (tmap to_long t))) ;;
  il <~ load_long image_long ;;
  image_long_min <~ lift (torch_min_long il) ;;
  image_long_max <~ lift (torch_max_long il) ;;
  _ <~ lift (py_assert (0 <=? image_long_min)
               (String.append "the min value is " (show_Z image_long_min))) ;;
  _ <~ lift (py_assert (image_long_max <=? 255)
               (String.append "the max value is " (show_Z image_long_max))) ;;
  idx <~ lift (select_last0 il) ;;
  out <~ lift (index_rows colormap idx) ;;
  alloc (FloatTensor out).

Definition apply_depth_colormap_st (depth : ref) (accumulation : option ref)
    (near_plane far_plane : option f64) (cmap : string) : M ref :=
  d <~ load_float depth ;;
  near <~ lift (choose_near d near_plane) ;;
  far <~ lift (choose_far d far_plane) ;;
  let den := scalar_add (scalar_sub far near) (PyFloat py_1e_10) in
  shifted <~ float_op (fun t => tensor_sub_scalar t near) depth ;;
  divided <~ float_op (fun t => tensor_div_scalar t den) shifted ;;
  clipped <~ float_op (fun t => torch_clip t 0 1) divided ;;
  colored_image <~ apply_colormap_st clipped cmap ;;
  match accumulation with
  | Some acc =>
      c <~ load_float colored_image ;;
      a <~ load_float acc ;;
      prod <~ lift (broadcast2 f32_mul c a) ;;
      p <~ alloc (FloatTensor prod) ;;
      one_minus <~ float_op (tmap (fun x => f32_sub f32_one x)) acc ;;
      om <~ load_float one_minus ;;
      sum <~ lift (broadcast2 f32_add prod om) ;;
      alloc (FloatTensor sum)
  | None => lift (Ok colored_image)
  end.

End Store.

(** The store [h'] is [h] with new objects behind it: nothing that was
    in [h] has changed. *)
Definition extends (h h' : heap) : Prop := exists new, h' = h ++ new.

(** The defaults of the two signatures. *)
Definition default_cmap : string := "viridis".
Definition default_depth_cmap : string := "turbo".

(** ** A concrete runtime

    An x86-64 CPU: the truncating conversion instruction yields the
    "integer indefinite" value [-2^63] for a NaN, an infinity and a
    value outside int64.  matplotlib's tables are not part of the
    repository; a gray ramp of 256 rows stands in for both names. *)

(** The float32 nearest to [i / 255]. *)
Definition quotient255 (i : Z) : f32 := f32_div (f32_of_Z i) f32_255.

(** The Python float [i / 255] as a float32 element, as
    [torch.tensor(i / 255)] holds it: rounded to a double, then to
    float32. *)
Definition python_quotient255 (i : Z) : f32 :=
  f32_of_f64 (f64_div (f64_of_Z i) (f64_of_Z 255)).

Definition gray (i : Z) : rgb := (quotient255 i, quotient255 i, quotient255 i).

Definition gray_ramp : list rgb :=
  Eval vm_compute in map (fun n => gray (Z.of_nat n)) (seq 0 256).

Definition x86_64 : Runtime := {|
  cast_undefined := fun _ => int64_min;
  cm_colors := fun name =>
    if String.eqb name "viridis" || String.eqb name "turbo" then Some gray_ramp else None
|}.

(** [torch.tensor([[x1], [x2], ...])] of Python floats: a column of
    shape [(n, 1)] whose elements are rounded to float32. *)
Definition column (l : list f64) : tensor f32 :=
  mkTensor [length l; 1%nat] (map f32_of_f64 l).

(** Two shapes of the same rank where each dimension of the first is
    that of the second, or 1. *)
Definition expands_to (from to' : list nat) : Prop :=
  Forall2 (fun a b => a = b \/ a = 1%nat) from to'.

Definition is_neg_zero (x : spec_float) : bool :=
  match x with S754_zero true => true | _ => false end.

(** The mask of shape [lead + (1,)] that holds [v] everywhere. *)
Definition full (lead : list nat) (v : f32) : tensor f32 :=
  mkTensor (lead ++ [1%nat]) (repeat v (numel lead)).

(** The image of the same shape that is white, (1,1,1), everywhere. *)
Definition white_like (t : tensor f32) : tensor f32 :=
  mkTensor (shape t) (map (fun _ => f32_one) (data t)).

(** A table entry an all-ones blend gives back bit for bit: a finite
    float32 other than the negative zero. *)
Definition plain_color (c : rgb) : bool :=
  forallb (fun x => f32_valid x && is_finite x && negb (is_neg_zero x)) (rgb_list c).

(** A color is a triple of float32 numbers in [0,1]; a table of colors
    has 256 of them. *)
Definition color_ok (c : rgb) : bool :=
  forallb (fun x => f32_valid x && in_unit x) (rgb_list c).

Definition table_ok (table : list rgb) : bool :=
  Nat.eqb (length table) 256 && forallb color_ok table.

(** ** Notions used in the statements *)

(** The mask of line 60 seen at the shape of the colored image: each
    value once for each of the three channels of its pixel. *)
Definition per_channel {A} (l : list A) : list A := flat_map (fun a => [a; a; a]) l.

(** The divisor of line 53, as the float32 the division uses. *)
Definition divisor (near far : scalar) : f32 :=
  as_f32 (scalar_add (scalar_sub far near) (PyFloat py_1e_10)).

(** Zero of either sign, a negative number, or minus infinity. *)
Definition nonpos (x : spec_float) : bool :=
  match x with
  | S754_zero _ => true
  | S754_finite true _ _ => true
  | S754_infinity true => true
  | _ => false
  end.

(** Zero of either sign, a positive number, or plus infinity. *)
Definition nonneg (x : spec_float) : bool :=
  match x with
  | S754_zero _ => true
  | S754_finite false _ _ => true
  | S754_infinity false => true
  | _ => false
  end.

(** The least and the greatest float32 that line 22 sends to an index
    of 0..255: [-8421504 * 2^-31], just above [-1/255], and
    [8421504 * 2^-23 = 1.0039215...], just below [256/255]. *)
Definition accepted_lo : f32 := S754_finite true 8421504 (-31).
Definition accepted_hi : f32 := S754_finite false 8421504 (-23).

(** The float32 before [accepted_lo] and the one after [accepted_hi]. *)
Definition below_accepted : f32 := S754_finite true 8421505 (-31).
Definition above_accepted : f32 := S754_finite false 8421505 (-23).

(** [A / D] rounded to nearest, ties to even. *)
Definition rne_q (A D : Z) : Z :=
  let q := A / D in
  let r := A mod D in
  if (D <? 2 * r) || ((D =? 2 * r) && Z.odd q) then q + 1 else q.

(** The two bits that a location stands for, below a mantissa. *)
Definition loc_code (l : location) : Z :=
  match l with
  | loc_Exact => 0
  | loc_Inexact Lt => 1
  | loc_Inexact Eq => 2
  | loc_Inexact Gt => 3
  end.

(** [2^-9 = 0.001953125]: from this number on, the float32 addition of
    line 53 absorbs the [1e-10]. *)
Definition absorbs_eps : f32 := S754_finite false 8388608 (-32).

(** A runtime in which the colormap [name] has the table [t]. *)
Definition with_table (name : string) (t : list rgb) (RT : Runtime) : Runtime := {|
  cast_undefined := @cast_undefined RT;
  cm_colors := fun n => if String.eqb n name then Some t else @cm_colors RT n
|}.

(** The first ten rows of the gray ramp: a table as short as that of
    matplotlib's qualitative colormaps. *)
Definition short_ramp : list rgb := Eval vm_compute in firstn 10 gray_ramp.

(** * Facts about the model *)

(** ** Binary digits *)

Lemma digits2_pos_bounds (p : positive) :
  2 ^ (Z.pos (digits2_pos p) - 1) <= Z.pos p < 2 ^ Z.pos (digits2_pos p).
Proof.
  induction p as [p IH | p IH |]; cbn [digits2_pos].
  - rewrite Pos2Z.inj_succ.
    replace (Z.succ (Z.pos (digits2_pos p)) - 1) with (Z.succ (Z.pos (digits2_pos p) - 1)) by lia.
    rewrite !Z.pow_succ_r by lia. lia.
  - rewrite Pos2Z.inj_succ.
    replace (Z.succ (Z.pos (digits2_pos p)) - 1) with (Z.succ (Z.pos (digits2_pos p) - 1)) by lia.
    rewrite !Z.pow_succ_r by lia. lia.
  - cbn. lia.
Qed.

Lemma Zdigits2_log2 (m : Z) : 0 < m -> Zdigits2 m = Z.log2 m + 1.
Proof.
  intros Hm. destruct m as [|p|p]; try lia. cbn [Zdigits2].
  pose proof (digits2_pos_bounds p) as [H1 H2].
  symmetry. assert (Z.log2 (Z.pos p) = Z.pos (digits2_pos p) - 1); [|lia].
  apply Z.log2_unique; [lia|]. split; [exact H1|].
  replace (Z.succ (Z.pos (digits2_pos p) - 1)) with (Z.pos (digits2_pos p)) by lia. exact H2.
Qed.

Lemma Zdigits2_bounds (m : Z) :
  0 < m -> 2 ^ (Zdigits2 m - 1) <= m < 2 ^ Zdigits2 m.
Proof.
  intros Hm. destruct m as [|p|p]; try lia. apply digits2_pos_bounds.
Qed.

Lemma Zdigits2_nonneg (m : Z) : 0 <= Zdigits2 m.
Proof. destruct m; cbn; lia. Qed.

Lemma Zdigits2_pos (m : Z) : 0 < m -> 0 < Zdigits2 m.
Proof. destruct m; cbn; lia. Qed.

Lemma Zdigits2_unique (m k : Z) : 2 ^ (k - 1) <= m < 2 ^ k -> 0 < m -> Zdigits2 m = k.
Proof.
  intros H Hm. rewrite Zdigits2_log2 by exact Hm.
  assert (0 < k).
  { destruct (Z.ltb_spec 0 k); [lia|]. rewrite (Z.pow_neg_r 2 (k-1)) in H by lia.
    destruct (Z.eq_dec k 0) as [->|]; [cbn in H; lia|]. rewrite Z.pow_neg_r in H by lia. lia. }
  assert (Z.log2 m = k - 1); [|lia].
  apply Z.log2_unique; [lia|]. replace (Z.succ (k - 1)) with k by lia. exact H.
Qed.

Lemma Zdigits2_le (a b : Z) : 0 <= a <= b -> Zdigits2 a <= Zdigits2 b.
Proof.
  intros [Ha Hab]. destruct (Z.eq_dec a 0) as [->|]; [apply Zdigits2_nonneg|].
  rewrite !Zdigits2_log2 by lia. pose proof (Z.log2_le_mono a b Hab). lia.
Qed.

(* digits after dividing by a power of two *)
Lemma Zdigits2_div_pow2 (m n : Z) :
  0 < m -> 0 <= n -> n < Zdigits2 m -> Zdigits2 (m / 2 ^ n) = Zdigits2 m - n.
Proof.
  intros Hm Hn Hd. pose proof (Zdigits2_bounds m Hm) as [H1 H2].
  assert (Hp : 0 < 2 ^ n) by (apply Z.pow_pos_nonneg; lia).
  assert (Hq : 2 ^ (Zdigits2 m - n - 1) <= m / 2 ^ n < 2 ^ (Zdigits2 m - n)).
  { split.
    - apply Z.div_le_lower_bound; [lia|]. rewrite <- Z.pow_add_r by lia.
      replace (n + (Zdigits2 m - n - 1)) with (Zdigits2 m - 1) by lia. exact H1.
    - apply Z.div_lt_upper_bound; [lia|]. rewrite <- Z.pow_add_r by lia.
      replace (n + (Zdigits2 m - n)) with (Zdigits2 m) by lia. exact H2. }
  apply Zdigits2_unique; [exact Hq|].
  assert (0 < 2 ^ (Zdigits2 m - n - 1)) by (apply Z.pow_pos_nonneg; lia). lia.
Qed.

Lemma div_pow2_small (m n : Z) : 0 <= m -> Zdigits2 m <= n -> m / 2 ^ n = 0.
Proof.
  intros Hm Hd. destruct (Z.eq_dec m 0) as [->|]; [apply Z.div_0_l; pose proof (Z.pow_pos_nonneg 2 n); pose proof (Zdigits2_nonneg 0); lia|].
  pose proof (Zdigits2_bounds m ltac:(lia)) as [_ H2].
  apply Z.div_small. split; [lia|]. eapply Z.lt_le_trans; [exact H2|].
  apply Z.pow_le_mono_r; lia.
Qed.

(** ** Halving a mantissa: [shr_1] and its iteration *)
Lemma shr_1_m r : 0 <= shr_m r -> shr_m (shr_1 r) = shr_m r / 2.
Proof.
  destruct r as [m rr s]; cbn [shr_m]. intros Hm.
  destruct m as [|[p|p|]|p]; cbn [shr_1 shr_m].
  all: try (exfalso; lia).
  all: try (apply Z.div_unique with 1; lia).
  all: apply Z.div_unique with 0; lia.
Qed.

Lemma shr_1_r r : 0 <= shr_m r -> shr_r (shr_1 r) = Z.odd (shr_m r).
Proof.
  destruct r as [m rr s]; cbn [shr_m]. intros Hm.
  destruct m as [|[p|p|]|p]; cbn [shr_1 shr_r]; try reflexivity; lia.
Qed.

Lemma shr_1_s r : shr_s (shr_1 r) = shr_r r || shr_s r.
Proof.
  destruct r as [m rr s]. destruct m as [|[p|p|]|[p|p|]]; reflexivity.
Qed.

Lemma iter_pos_inv {A} (f : A -> A) (Q : Z -> A -> Prop) :
  (forall k x, Q k x -> Q (k + 1) (f x)) ->
  forall p k x, Q k x -> Q (k + Z.pos p) (iter_pos f p x).
Proof.
  intros Hstep. induction p as [p IH | p IH |]; intros k x Hq; cbn [iter_pos].
  - replace (k + Z.pos p~1) with (k + 1 + Z.pos p + Z.pos p) by lia.
    apply IH, IH, Hstep, Hq.
  - replace (k + Z.pos p~0) with (k + Z.pos p + Z.pos p) by lia.
    apply IH, IH, Hq.
  - apply Hstep, Hq.
Qed.

Lemma shr_repr_step N k r : 0 <= N -> shr_repr N k r -> shr_repr N (k + 1) (shr_1 r).
Proof.
  intros HN (Hk & Hm & Hr & Hs).
  assert (Hp : 0 < 2 ^ k) by (apply Z.pow_pos_nonneg; lia).
  assert (Hp1 : 0 < 2 ^ (k - 1)) by (apply Z.pow_pos_nonneg; lia).
  assert (Hm0 : 0 <= shr_m r) by (rewrite Hm; apply Z.div_pos; lia).
  repeat split.
  - lia.
  - rewrite shr_1_m by exact Hm0. rewrite Hm, Z.pow_add_r by lia.
    rewrite Z.div_div by lia. reflexivity.
  - rewrite shr_1_r by exact Hm0. rewrite Hm.
    replace (k + 1 - 1) with k by lia.
    rewrite Z.testbit_odd, Z.shiftr_div_pow2 by lia. reflexivity.
  - rewrite shr_1_s, Hr, Hs. replace (k + 1 - 1) with k by lia.
    assert (E : 2 ^ k = 2 ^ (k - 1) * 2).
    { pose proof (Z.pow_succ_r 2 (k - 1) ltac:(lia)) as E.
      replace (Z.succ (k - 1)) with k in E by lia. lia. }
    rewrite E.
    rewrite Z.rem_mul_r by lia.
    rewrite Z.testbit_odd, Z.shiftr_div_pow2 by lia.
    rewrite <- Z.bit0_mod, Z.bit0_odd.
    pose proof (Z.mod_pos_bound N (2 ^ (k - 1)) Hp1).
    destruct (Z.odd (N / 2 ^ (k - 1))); cbn [Z.b2z orb].
    + symmetry. apply negb_true_iff. apply Z.eqb_neq. lia.
    + rewrite Z.mul_0_r, Z.add_0_r. reflexivity.
Qed.

Lemma shr_repr_iter N p k r :
  0 <= N -> shr_repr N k r -> shr_repr N (k + Z.pos p) (iter_pos shr_1 p r).
Proof.
  intros HN. apply (iter_pos_inv shr_1 (shr_repr N)).
  intros; apply shr_repr_step; assumption.
Qed.

Lemma shr_m_iter p r :
  0 <= shr_m r -> shr_m (iter_pos shr_1 p r) = shr_m r / 2 ^ Z.pos p.
Proof.
  intros Hm.
  assert (H : forall k x, (0 <= k /\ shr_m x = shr_m r / 2 ^ k) ->
                (0 <= k + 1 /\ shr_m (shr_1 x) = shr_m r / 2 ^ (k + 1))).
  { intros k x [Hk Hx]. split; [lia|].
    assert (0 < 2 ^ k) by (apply Z.pow_pos_nonneg; lia).
    rewrite shr_1_m by (rewrite Hx; apply Z.div_pos; lia).
    rewrite Hx, Z.pow_add_r, Z.div_div by lia. reflexivity. }
  pose proof (iter_pos_inv shr_1 (fun k x => 0 <= k /\ shr_m x = shr_m r / 2 ^ k) H p 0 r) as HH.
  cbn beta in HH. rewrite Z.add_0_l in HH. apply HH. split; [lia|].
  rewrite Z.pow_0_r, Z.div_1_r. reflexivity.
Qed.

(** ** Rounding to nearest, ties to even *)

Lemma shr_m_of_loc m l : shr_m (shr_record_of_loc m l) = m.
Proof. destruct l as [|[]]; reflexivity. Qed.

Lemma rne_range M n : M / 2 ^ n <= rne M n <= M / 2 ^ n + 1.
Proof. unfold rne. destruct (_ || _); lia. Qed.

Lemma round_nearest_even_range m l : m <= round_nearest_even m l <= m + 1.
Proof. destruct l as [|[]]; cbn; try lia. destruct (Z.even m); lia. Qed.

Lemma pow2_pos n : 0 <= n -> 0 < 2 ^ n.
Proof. intros; apply Z.pow_pos_nonneg; lia. Qed.

Lemma pow2_split a b : 0 <= a <= b -> 2 ^ b = 2 ^ a * 2 ^ (b - a).
Proof. intros. rewrite <- Z.pow_add_r by lia. f_equal. lia. Qed.

Lemma pow2_double n : 1 <= n -> 2 ^ n = 2 * 2 ^ (n - 1).
Proof.
  intros. pose proof (Z.pow_succ_r 2 (n - 1) ltac:(lia)) as E.
  replace (Z.succ (n - 1)) with n in E by lia. exact E.
Qed.

Lemma rne_exact m n : 0 <= n -> rne (m * 2 ^ n) n = m.
Proof.
  intros Hn. pose proof (pow2_pos n Hn). unfold rne.
  rewrite Z.div_mul, Z.mod_mul by lia.
  destruct (Z.ltb_spec (2 ^ n) (2 * 0)); [lia|].
  destruct (Z.eqb_spec (2 ^ n) (2 * 0)); [lia|]. reflexivity.
Qed.

Lemma rne_0 M : rne M 0 = M.
Proof. replace M with (M * 2 ^ 0) at 1 by (rewrite Z.pow_0_r; lia). apply rne_exact. lia. Qed.

(** The rounded mantissa is within half a unit of the exact quotient. *)
Lemma rne_error M n : 0 <= n ->
  2 * M - 2 ^ n <= 2 * (rne M n * 2 ^ n) <= 2 * M + 2 ^ n.
Proof.
  intros Hn. pose proof (pow2_pos n Hn) as Hp. unfold rne.
  pose proof (Z.div_mod M (2 ^ n) ltac:(lia)) as Hdm.
  pose proof (Z.mod_pos_bound M (2 ^ n) Hp) as Hb.
  destruct (Z.ltb_spec (2 ^ n) (2 * (M mod 2 ^ n))); cbn [orb].
  - nia.
  - destruct (Z.eqb_spec (2 ^ n) (2 * (M mod 2 ^ n))); cbn [andb]; [destruct (Z.odd _)|]; nia.
Qed.

(** Below the midpoint above [mb] the quotient rounds to at most [mb]. *)
Lemma rne_below M n mb : 0 <= n -> 2 * M < (2 * mb + 1) * 2 ^ n -> rne M n <= mb.
Proof.
  intros Hn Hlt. pose proof (pow2_pos n Hn) as Hp. unfold rne.
  pose proof (Z.div_mod M (2 ^ n) ltac:(lia)) as Hdm.
  pose proof (Z.mod_pos_bound M (2 ^ n) Hp) as Hb.
  assert (Hq : M / 2 ^ n <= mb) by nia.
  destruct (Z.ltb_spec (2 ^ n) (2 * (M mod 2 ^ n))); cbn [orb].
  - nia.
  - destruct (Z.eqb_spec (2 ^ n) (2 * (M mod 2 ^ n))); cbn [andb]; [destruct (Z.odd _)|]; nia.
Qed.

Lemma rne_above M n ma : 0 <= n -> (2 * ma - 1) * 2 ^ n < 2 * M -> ma <= rne M n.
Proof.
  intros Hn Hlt. pose proof (pow2_pos n Hn) as Hp. unfold rne.
  pose proof (Z.div_mod M (2 ^ n) ltac:(lia)) as Hdm.
  pose proof (Z.mod_pos_bound M (2 ^ n) Hp) as Hb.
  assert (Hq : ma - 1 <= M / 2 ^ n) by nia.
  destruct (Z.ltb_spec (2 ^ n) (2 * (M mod 2 ^ n))); cbn [orb].
  - nia.
  - destruct (Z.eqb_spec (2 ^ n) (2 * (M mod 2 ^ n))); cbn [andb]; [destruct (Z.odd _)|]; nia.
Qed.

Lemma stage1_exact_rne prec emax M E :
  0 <= M -> E <= fexp prec emax (Zdigits2 M + E) ->
  round_nearest_even (shr_m (fst (shr_fexp prec emax M E loc_Exact)))
    (loc_of_shr_record (fst (shr_fexp prec emax M E loc_Exact)))
  = rne M (fexp prec emax (Zdigits2 M + E) - E).
Proof.
  intros HM HE. unfold shr_fexp, shr.
  destruct (fexp prec emax (Zdigits2 M + E) - E) as [|p|p] eqn:En; cbn [fst].
  - cbn. rewrite rne_0. reflexivity.
  - assert (H0 : shr_repr (2 * M) 1 (shr_record_of_loc M loc_Exact)).
    { unfold shr_repr. cbn [shr_record_of_loc shr_m shr_r shr_s]. repeat split.
      + lia.
      + change (2 ^ 1) with 2. rewrite (Z.mul_comm 2 M), Z.div_mul by lia. reflexivity.
      + change (1 - 1) with 0. rewrite Z.testbit_even_0. reflexivity.
      + change (2 ^ (1 - 1)) with 1. rewrite Z.mod_1_r. reflexivity. }
    pose proof (shr_repr_iter (2 * M) p 1 _ ltac:(lia) H0) as (Hk & Hm & Hr & Hs).
    set (r := iter_pos shr_1 p (shr_record_of_loc M loc_Exact)) in *.
    set (n := Z.pos p) in *.
    assert (Hn : 1 <= n) by (unfold n; lia).
    pose proof (pow2_pos (n - 1) ltac:(lia)) as Hp1.
    pose proof (pow2_double n Hn) as Hdbl.
    replace (1 + n - 1) with (Z.succ (n - 1)) in Hr, Hs by lia.
    rewrite Z.double_bits_succ in Hr.
    replace (Z.succ (n - 1)) with n in Hs by lia.
    rewrite Hdbl in Hs. rewrite Z.mul_mod_distr_l in Hs by lia.
    replace (2 ^ (1 + n)) with (2 * 2 ^ n) in Hm.
    2:{ rewrite Z.pow_add_r by lia. reflexivity. }
    rewrite Z.div_mul_cancel_l in Hm by (pose proof (pow2_pos n); lia).
    rewrite Z.testbit_odd, Z.shiftr_div_pow2 in Hr by lia.
    unfold rne.
    assert (Hrem : M mod 2 ^ n = M mod 2 ^ (n - 1) + 2 ^ (n - 1) * ((M / 2 ^ (n - 1)) mod 2)).
    { rewrite Hdbl. rewrite (Z.mul_comm 2). apply Z.rem_mul_r; lia. }
    rewrite <- Z.bit0_mod, Z.bit0_odd in Hrem.
    pose proof (Z.mod_pos_bound M (2 ^ (n - 1)) Hp1) as Hlo.
    rewrite Hrem, <- Hm.
    destruct r as [m rr ss]. cbn [shr_m shr_r shr_s] in *.
    rewrite <- Hr.
    destruct rr, ss; cbn [loc_of_shr_record round_nearest_even Z.b2z].
    + symmetry in Hs. apply negb_true_iff, Z.eqb_neq in Hs.
      destruct (Z.ltb_spec (2 ^ n) (2 * (M mod 2 ^ (n - 1) + 2 ^ (n - 1) * 1))); [reflexivity|lia].
    + symmetry in Hs. apply negb_false_iff, Z.eqb_eq in Hs.
      destruct (Z.ltb_spec (2 ^ n) (2 * (M mod 2 ^ (n - 1) + 2 ^ (n - 1) * 1))); [lia|].
      destruct (Z.eqb_spec (2 ^ n) (2 * (M mod 2 ^ (n - 1) + 2 ^ (n - 1) * 1))); [|lia].
      cbn [orb andb]. rewrite <- Z.negb_odd. destruct (Z.odd m); reflexivity.
    + symmetry in Hs. apply negb_true_iff, Z.eqb_neq in Hs.
      destruct (Z.ltb_spec (2 ^ n) (2 * (M mod 2 ^ (n - 1) + 2 ^ (n - 1) * 0))); [lia|].
      destruct (Z.eqb_spec (2 ^ n) (2 * (M mod 2 ^ (n - 1) + 2 ^ (n - 1) * 0))); [lia|].
      reflexivity.
    + symmetry in Hs. apply negb_false_iff, Z.eqb_eq in Hs.
      destruct (Z.ltb_spec (2 ^ n) (2 * (M mod 2 ^ (n - 1) + 2 ^ (n - 1) * 0))); [lia|].
      destruct (Z.eqb_spec (2 ^ n) (2 * (M mod 2 ^ (n - 1) + 2 ^ (n - 1) * 0))); [lia|].
      reflexivity.
  - lia.
Qed.

(** ** [binary_round_aux] in any format

    [prec] and [emax] are those of the standard library's operations;
    float32 is 24 and 128, the Python float 53 and 1024. *)

Section Round.
Variables prec emax : Z.
Hypothesis Hprec : 0 < prec.
Hypothesis Hemax : prec < emax.

Local Abbreviation fexp := (fexp prec emax).
Local Abbreviation emin := (emin prec emax).

Lemma fexp_mono a b : a <= b -> fexp a <= fexp b.
Proof. unfold SpecFloat.fexp. lia. Qed.

Lemma fexp_ge_emin a : emin <= fexp a.
Proof. unfold SpecFloat.fexp. lia. Qed.

Lemma shr_fexp_spec m e l :
  0 <= m -> e <= fexp (Zdigits2 m + e) ->
  snd (shr_fexp prec emax m e l) = fexp (Zdigits2 m + e) /\
  shr_m (fst (shr_fexp prec emax m e l)) = m / 2 ^ (fexp (Zdigits2 m + e) - e).
Proof.
  intros Hm He. unfold shr_fexp, shr.
  destruct (fexp (Zdigits2 m + e) - e) as [|p|p] eqn:En; cbn [fst snd].
  - split; [lia|]. rewrite shr_m_of_loc, Z.pow_0_r, Z.div_1_r. reflexivity.
  - split; [lia|]. rewrite shr_m_iter by (rewrite shr_m_of_loc; exact Hm).
    rewrite shr_m_of_loc. reflexivity.
  - lia.
Qed.

(** Facts on the mantissa after the first shift. *)
Lemma stage1_bounds m e :
  0 <= m -> e <= fexp (Zdigits2 m + e) ->
  let e1 := fexp (Zdigits2 m + e) in
  let q := m / 2 ^ (e1 - e) in
  0 <= q < 2 ^ prec /\ (emin < e1 -> 2 ^ (prec - 1) <= q).
Proof.
  intros Hm He e1 q.
  assert (Hn : 0 <= e1 - e) by (unfold e1; lia).
  assert (Hp : 0 < 2 ^ (e1 - e)) by (apply Z.pow_pos_nonneg; lia).
  assert (Hpp : 0 < 2 ^ prec) by (apply Z.pow_pos_nonneg; lia).
  assert (Hq0 : 0 <= q) by (apply Z.div_pos; lia).
  destruct (Z.eq_dec m 0) as [->|Hm0].
  { unfold q. rewrite Z.div_0_l by lia. split; [lia|].
    intros Hlt. exfalso. unfold e1, SpecFloat.fexp in *. cbn [Zdigits2] in *. lia. }
  pose proof (Zdigits2_pos m ltac:(lia)) as Hd.
  destruct (Z_lt_le_dec (e1 - e) (Zdigits2 m)) as [Hlt|Hge].
  - pose proof (Zdigits2_div_pow2 m (e1 - e) ltac:(lia) Hn Hlt) as Hdq.
    fold q in Hdq.
    assert (Hqpos : 0 < q).
    { destruct (Z.eq_dec q 0) as [E|]; [|lia]. rewrite E in Hdq. cbn in Hdq. lia. }
    pose proof (Zdigits2_bounds q Hqpos) as [Hb1 Hb2]. rewrite Hdq in Hb1, Hb2.
    split.
    + split; [lia|]. eapply Z.lt_le_trans; [exact Hb2|].
      apply Z.pow_le_mono_r; [lia|]. unfold e1, SpecFloat.fexp. lia.
    + intros Hgt.
      assert (e1 = Zdigits2 m + e - prec) by (unfold e1, SpecFloat.fexp in *; lia).
      replace (Zdigits2 m - (e1 - e) - 1) with (prec - 1) in Hb1 by lia. exact Hb1.
  - assert (q = 0) by (apply div_pow2_small; lia).
    split; [lia|]. intros Hgt. exfalso. unfold e1, SpecFloat.fexp in *. lia.
Qed.

(** The second shift and the final test. *)
Lemma stage2 s m1 e1 :
  emin <= e1 -> 0 <= m1 <= 2 ^ prec -> (emin < e1 -> 2 ^ (prec - 1) <= m1) ->
  (let '(mrs, e2) := shr_fexp prec emax m1 e1 loc_Exact in
   match shr_m mrs with
   | Z0 => S754_zero s
   | Zpos m => if Z.leb e2 (emax - prec) then S754_finite s m e2 else S754_infinity s
   | _ => S754_nan
   end) = finish prec emax s m1 e1.
Proof.
  intros He1 Hm1 Hnorm. unfold finish.
  assert (Hpp : 0 < 2 ^ prec) by (apply Z.pow_pos_nonneg; lia).
  destruct (Z.eqb_spec m1 0) as [->|Hne].
  { unfold shr_fexp, shr. cbn [Zdigits2].
    destruct (fexp (0 + e1) - e1) as [|p|p] eqn:En; cbn; try reflexivity.
    unfold SpecFloat.fexp in En. lia. }
  destruct (Z.ltb_spec m1 (2 ^ prec)) as [Hlt|Hge].
  - assert (Hd : Zdigits2 m1 <= prec).
    { destruct (Z_le_gt_dec (Zdigits2 m1) prec); [assumption|].
      pose proof (Zdigits2_bounds m1 ltac:(lia)) as [Hb _].
      assert (2 ^ prec <= 2 ^ (Zdigits2 m1 - 1)) by (apply Z.pow_le_mono_r; lia). lia. }
    unfold shr_fexp, shr.
    destruct (fexp (Zdigits2 m1 + e1) - e1) as [|p|p] eqn:En.
    + cbn [shr_record_of_loc shr_m]. destruct m1 as [|p|p]; try lia. reflexivity.
    + unfold SpecFloat.fexp in En. lia.
    + cbn [shr_record_of_loc shr_m]. destruct m1 as [|p'|p']; try lia. reflexivity.
  - assert (m1 = 2 ^ prec) by lia. subst m1.
    assert (Hd : Zdigits2 (2 ^ prec) = prec + 1).
    { apply Zdigits2_unique; [|lia]. replace (prec + 1 - 1) with prec by lia.
      split; [lia|]. apply Z.pow_lt_mono_r; lia. }
    unfold shr_fexp, shr. rewrite Hd.
    assert (En : fexp (prec + 1 + e1) - e1 = 1) by (unfold SpecFloat.fexp; lia).
    rewrite En. cbn [iter_pos shr_record_of_loc].
    assert (Hhalf : 2 ^ prec = 2 * 2 ^ (prec - 1)).
    { pose proof (Z.pow_succ_r 2 (prec - 1) ltac:(lia)) as E.
      replace (Z.succ (prec - 1)) with prec in E by lia. exact E. }
    assert (Hh : 0 < 2 ^ (prec - 1)) by (apply Z.pow_pos_nonneg; lia).
    rewrite Hhalf.
    destruct (2 ^ (prec - 1)) as [|h|h] eqn:Eh; try lia.
    cbn [Z.mul shr_1 shr_m Z.to_pos]. reflexivity.
Qed.

Lemma binary_round_aux_finish s m e l :
  0 <= m -> e <= fexp (Zdigits2 m + e) ->
  exists m1, m / 2 ^ (fexp (Zdigits2 m + e) - e) <= m1 <= m / 2 ^ (fexp (Zdigits2 m + e) - e) + 1 /\
    m1 = round_nearest_even (shr_m (fst (shr_fexp prec emax m e l)))
           (loc_of_shr_record (fst (shr_fexp prec emax m e l))) /\
    binary_round_aux prec emax s m e l = finish prec emax s m1 (fexp (Zdigits2 m + e)).
Proof.
  intros Hm He.
  pose proof (shr_fexp_spec m e l Hm He) as [He1 Hq].
  pose proof (stage1_bounds m e Hm He) as [Hqb Hqn]. cbn zeta in Hqb, Hqn.
  unfold binary_round_aux.
  destruct (shr_fexp prec emax m e l) as [mrs e1] eqn:E1. cbn [fst snd] in *.
  subst e1.
  pose proof (round_nearest_even_range (shr_m mrs) (loc_of_shr_record mrs)) as Hr.
  exists (round_nearest_even (shr_m mrs) (loc_of_shr_record mrs)).
  split; [lia|]. split; [reflexivity|].
  apply stage2.
  - apply fexp_ge_emin.
  - lia.
  - intros H. specialize (Hqn H). lia.
Qed.

Lemma finish_valid s m1 e1 :
  emin <= e1 -> 0 <= m1 <= 2 ^ prec -> (emin < e1 -> 2 ^ (prec - 1) <= m1) ->
  valid_binary prec emax (finish prec emax s m1 e1) = true.
Proof.
  intros He1 Hm1 Hnorm. unfold finish.
  assert (Hpp : 0 < 2 ^ prec) by (apply Z.pow_pos_nonneg; lia).
  assert (Hh : 0 < 2 ^ (prec - 1)) by (apply Z.pow_pos_nonneg; lia).
  destruct (Z.eqb_spec m1 0); [reflexivity|].
  destruct (Z.ltb_spec m1 (2 ^ prec)) as [Hlt|Hge].
  - destruct (Z.leb_spec e1 (emax - prec)); [|reflexivity].
    cbn [valid_binary]. unfold bounded, canonical_mantissa.
    apply andb_true_intro. split; [|apply Z.leb_le; lia].
    apply Z.eqb_eq.
    change (Z.pos (digits2_pos (Z.to_pos m1))) with (Zdigits2 (Z.pos (Z.to_pos m1))).
    rewrite Z2Pos.id by lia.
    assert (Hd : Zdigits2 m1 <= prec).
    { destruct (Z_le_gt_dec (Zdigits2 m1) prec); [assumption|].
      pose proof (Zdigits2_bounds m1 ltac:(lia)) as [Hb _].
      assert (2 ^ prec <= 2 ^ (Zdigits2 m1 - 1)) by (apply Z.pow_le_mono_r; lia). lia. }
    destruct (Z.eq_dec e1 emin) as [E|E].
    + unfold SpecFloat.fexp. lia.
    + assert (Hd' : Zdigits2 m1 = prec).
      { apply Zdigits2_unique; [|lia]. split; [apply Hnorm; lia|lia]. }
      unfold SpecFloat.fexp. lia.
  - destruct (Z.leb_spec (e1 + 1) (emax - prec)); [|reflexivity].
    cbn [valid_binary]. unfold bounded, canonical_mantissa.
    apply andb_true_intro. split; [|apply Z.leb_le; lia].
    apply Z.eqb_eq.
    change (Z.pos (digits2_pos (Z.to_pos (2 ^ (prec - 1))))) with (Zdigits2 (Z.pos (Z.to_pos (2 ^ (prec - 1))))).
    rewrite Z2Pos.id by lia.
    assert (Hd' : Zdigits2 (2 ^ (prec - 1)) = prec).
    { apply Zdigits2_unique; [|lia]. split; [lia|]. apply Z.pow_lt_mono_r; lia. }
    rewrite Hd'. unfold SpecFloat.fexp. lia.
Qed.

Lemma binary_round_aux_exact s M E :
  0 <= M -> E <= fexp (Zdigits2 M + E) ->
  binary_round_aux prec emax s M E loc_Exact
  = finish prec emax s (rne M (fexp (Zdigits2 M + E) - E)) (fexp (Zdigits2 M + E)).
Proof.
  intros HM HE.
  destruct (binary_round_aux_finish s M E loc_Exact HM HE) as (m1 & _ & Hm1 & Hr).
  rewrite Hr, Hm1. rewrite stage1_exact_rne by assumption. reflexivity.
Qed.

Lemma binary_round_aux_valid s m e l :
  0 <= m -> e <= fexp (Zdigits2 m + e) ->
  valid_binary prec emax (binary_round_aux prec emax s m e l) = true.
Proof.
  intros Hm He.
  destruct (binary_round_aux_finish s m e l Hm He) as (m1 & Hrange & _ & Hr).
  rewrite Hr.
  pose proof (stage1_bounds m e Hm He) as [Hqb Hqn]. cbn zeta in *.
  apply finish_valid; try assumption.
  - apply fexp_ge_emin.
  - lia.
  - intros H. specialize (Hqn H). lia.
Qed.

(** Canonical mantissas. *)
Lemma bounded_facts m e :
  bounded prec emax m e = true ->
  fexp (Zdigits2 (Z.pos m) + e) = e /\ e <= emax - prec /\ emin <= e /\
  Z.pos m < 2 ^ prec /\ (emin < e -> 2 ^ (prec - 1) <= Z.pos m).
Proof.
  unfold bounded, canonical_mantissa. intros H.
  apply andb_true_iff in H. destruct H as [Hc Hb].
  apply Z.eqb_eq in Hc. apply Z.leb_le in Hb.
  change (Z.pos (digits2_pos m)) with (Zdigits2 (Z.pos m)) in Hc.
  pose proof (Zdigits2_bounds (Z.pos m) ltac:(lia)) as [Hb1 Hb2].
  assert (Hd : Zdigits2 (Z.pos m) <= prec) by (unfold SpecFloat.fexp in Hc; lia).
  repeat split; try assumption.
  - unfold SpecFloat.fexp in Hc. lia.
  - eapply Z.lt_le_trans; [exact Hb2|]. apply Z.pow_le_mono_r; lia.
  - intros Hlt. assert (Zdigits2 (Z.pos m) = prec) by (unfold SpecFloat.fexp in Hc; lia).
    replace (prec - 1) with (Zdigits2 (Z.pos m) - 1) by lia. exact Hb1.
Qed.

Lemma SFleb_pos_finite m1 e1 m2 e2 :
  SFleb (S754_finite false m1 e1) (S754_finite false m2 e2) = true <->
  e1 < e2 \/ (e1 = e2 /\ Z.pos m1 <= Z.pos m2).
Proof.
  unfold SFleb, SFcompare.
  destruct (Z.compare_spec e1 e2) as [E|E|E].
  - change (Pos.compare_cont Eq m1 m2) with (Pos.compare m1 m2).
    destruct (Pos.compare_spec m1 m2) as [P|P|P]; split; intros H; try reflexivity; try discriminate; lia.
  - split; intros; [lia|reflexivity].
  - split; intros H; [discriminate|lia].
Qed.

Lemma SFleb_finish_pos m1 e1 mb eb :
  0 <= m1 -> e1 <= emax - prec ->
  m1 < 2 ^ prec ->
  e1 < eb \/ (e1 = eb /\ m1 <= Z.pos mb) ->
  SFleb (finish prec emax false m1 e1) (S754_finite false mb eb) = true.
Proof.
  intros H0 He Hlt Hcmp. unfold finish.
  destruct (Z.eqb_spec m1 0); [reflexivity|].
  destruct (Z.ltb_spec m1 (2 ^ prec)); [|lia].
  destruct (Z.leb_spec e1 (emax - prec)); [|lia].
  apply SFleb_pos_finite. rewrite Z2Pos.id by lia. exact Hcmp.
Qed.

(** Rounding is monotone up to the midpoint above a representable bound:
    an exact value [M * 2^E] below [(mb + 1/2) * 2^eb] rounds to at most
    the float [(mb, eb)]. *)
Lemma round_le_bound M E mb eb :
  0 <= M -> E <= fexp (Zdigits2 M + E) ->
  bounded prec emax mb eb = true ->
  2 * M * 2 ^ (E - Z.min E eb) < (2 * Z.pos mb + 1) * 2 ^ (eb - Z.min E eb) ->
  SFleb (binary_round_aux prec emax false M E loc_Exact) (S754_finite false mb eb) = true.
Proof.
  intros HM HE HB Hlt.
  rewrite binary_round_aux_exact by assumption.
  destruct (bounded_facts mb eb HB) as (Hcb & Hbe & Hbmin & Hbm & Hbn).
  set (e1 := fexp (Zdigits2 M + E)) in *.
  pose proof (stage1_bounds M E HM HE) as [Hqb Hqn]. cbn zeta in Hqb, Hqn. fold e1 in Hqb, Hqn.
  pose proof (rne_range M (e1 - E)) as Hr.
  set (m1 := rne M (e1 - E)) in *.
  destruct (Z.eq_dec M 0) as [HM0|HM0].
  { subst M. unfold m1, rne. rewrite Z.div_0_l, Z.mod_0_l by (pose proof (pow2_pos (e1 - E)); lia).
    destruct (_ || _) eqn:Eb.
    - exfalso. apply orb_true_iff in Eb. pose proof (pow2_pos (e1 - E) ltac:(lia)).
      destruct Eb as [Eb|Eb]; [apply Z.ltb_lt in Eb; lia|].
      apply andb_true_iff in Eb. destruct Eb as [Eb _]. apply Z.eqb_eq in Eb. lia.
    - reflexivity. }
  set (c := Z.min E eb) in *.
  pose proof (Zdigits2_bounds M ltac:(lia)) as [Hd1 Hd2].
  pose proof (Zdigits2_bounds (Z.pos mb) ltac:(lia)) as [Hdb1 Hdb2].
  pose proof (Zdigits2_pos M ltac:(lia)) as Hdpos.
  pose proof (Zdigits2_pos (Z.pos mb) ltac:(lia)) as Hdbpos.
  assert (HA : Zdigits2 M + E <= Zdigits2 (Z.pos mb) + eb).
  { destruct (Z_le_gt_dec (Zdigits2 M + E) (Zdigits2 (Z.pos mb) + eb)) as [|Hgt]; [assumption|exfalso].
    assert (Hpw : 2 ^ (Zdigits2 (Z.pos mb) + 1) * 2 ^ (eb - c) <= 2 ^ Zdigits2 M * 2 ^ (E - c)).
    { rewrite <- !Z.pow_add_r by (unfold c; lia). apply Z.pow_le_mono_r; lia. }
    pose proof (pow2_double (Zdigits2 M) ltac:(lia)) as D1.
    pose proof (pow2_pos (E - c) ltac:(unfold c; lia)).
    pose proof (pow2_pos (eb - c) ltac:(unfold c; lia)).
    rewrite Z.pow_add_r in Hpw by lia. change (2 ^ 1) with 2 in Hpw.
    nia. }
  assert (HB1 : e1 <= eb).
  { rewrite <- Hcb. apply fexp_mono. exact HA. }
  pose proof (pow2_pos prec ltac:(lia)) as Hpp.
  destruct (Z.eq_dec e1 eb) as [Heq|Hne].
  - assert (Hm1 : m1 <= Z.pos mb).
    { apply rne_below; [lia|].
      assert (c = E) by (unfold c; lia).
      replace (E - c) with 0 in Hlt by lia. replace (eb - c) with (e1 - E) in Hlt by lia.
      rewrite Z.pow_0_r in Hlt. lia. }
    apply SFleb_finish_pos; lia.
  - unfold finish.
    destruct (Z.eqb_spec m1 0); [reflexivity|].
    destruct (Z.ltb_spec m1 (2 ^ prec)).
    + destruct (Z.leb_spec e1 (emax - prec)); [|lia].
      apply SFleb_pos_finite. lia.
    + destruct (Z.leb_spec (e1 + 1) (emax - prec)); [|lia].
      apply SFleb_pos_finite.
      pose proof (pow2_pos (prec - 1) ltac:(lia)).
      rewrite Z2Pos.id by lia.
      destruct (Z.eq_dec (e1 + 1) eb); [right|left; lia].
      split; [assumption|]. apply Hbn. pose proof (fexp_ge_emin (Zdigits2 M + E)). fold e1 in H1. lia.
Qed.

Lemma Zdigits2_mul_ge a b :
  0 < a -> 0 < b -> Zdigits2 a + Zdigits2 b - 1 <= Zdigits2 (a * b).
Proof.
  intros Ha Hb.
  pose proof (Zdigits2_bounds a Ha) as [Ha1 _].
  pose proof (Zdigits2_bounds b Hb) as [Hb1 _].
  pose proof (Zdigits2_bounds (a * b) ltac:(nia)) as [_ Hab].
  pose proof (Zdigits2_pos a Ha). pose proof (Zdigits2_pos b Hb).
  pose proof (Zdigits2_pos (a * b) ltac:(nia)).
  destruct (Z_le_gt_dec (Zdigits2 a + Zdigits2 b - 1) (Zdigits2 (a * b))) as [|Hgt]; [assumption|exfalso].
  assert (Hp : 2 ^ Zdigits2 (a * b) <= 2 ^ (Zdigits2 a - 1) * 2 ^ (Zdigits2 b - 1)).
  { rewrite <- Z.pow_add_r by lia. apply Z.pow_le_mono_r; lia. }
  pose proof (pow2_pos (Zdigits2 a - 1) ltac:(lia)).
  pose proof (pow2_pos (Zdigits2 b - 1) ltac:(lia)).
  nia.
Qed.

Lemma Zdigits2_mul_pow2 m k : 0 < m -> 0 <= k -> Zdigits2 (m * 2 ^ k) = Zdigits2 m + k.
Proof.
  intros Hm Hk. pose proof (Zdigits2_bounds m Hm) as [H1 H2].
  pose proof (Zdigits2_pos m Hm). pose proof (pow2_pos k Hk).
  apply Zdigits2_unique; [|nia].
  replace (Zdigits2 m + k - 1) with (Zdigits2 m - 1 + k) by lia.
  rewrite !Z.pow_add_r by lia. nia.
Qed.

Lemma pos_iter_xO m d : Z.pos (Pos.iter xO m d) = Z.pos m * 2 ^ Z.pos d.
Proof.
  revert m. induction d as [|d IH] using Pos.peano_ind; intros m.
  - cbn. lia.
  - rewrite Pos.iter_succ. rewrite Pos2Z.inj_succ, Z.pow_succ_r by lia.
    rewrite Pos2Z.pos_xO, IH. lia.
Qed.

Lemma shl_align_spec m e e' :
  snd (shl_align m e e') = Z.min e e' /\
  Z.pos (fst (shl_align m e e')) = Z.pos m * 2 ^ (e - Z.min e e').
Proof.
  unfold shl_align. destruct (e' - e) as [|p|p] eqn:E; cbn [fst snd].
  - split; [lia|]. replace (e - Z.min e e') with 0 by lia. rewrite Z.pow_0_r. lia.
  - split; [lia|]. replace (e - Z.min e e') with 0 by lia. rewrite Z.pow_0_r. lia.
  - split; [lia|]. rewrite pos_iter_xO. f_equal. f_equal. lia.
Qed.

(** [binary_round] hands [binary_round_aux] an aligned mantissa. *)
Lemma binary_round_aligned m e :
  let mz := fst (shl_align m e (fexp (Zdigits2 (Z.pos m) + e))) in
  let ez := snd (shl_align m e (fexp (Zdigits2 (Z.pos m) + e))) in
  ez <= fexp (Zdigits2 (Z.pos mz) + ez) /\
  Zdigits2 (Z.pos mz) + ez = Zdigits2 (Z.pos m) + e /\
  Z.pos mz = Z.pos m * 2 ^ (e - ez) /\ ez <= e.
Proof.
  intros mz ez.
  destruct (shl_align_spec m e (fexp (Zdigits2 (Z.pos m) + e))) as [He Hm].
  fold mz in Hm. fold ez in He. rewrite <- He in Hm.
  assert (Hd : Zdigits2 (Z.pos mz) + ez = Zdigits2 (Z.pos m) + e).
  { rewrite Hm. rewrite Zdigits2_mul_pow2 by lia. lia. }
  repeat split; try assumption; try lia.
  rewrite Hd. lia.
Qed.

Lemma binary_round_eq s m e :
  binary_round prec emax s m e =
  binary_round_aux prec emax s
    (Z.pos (fst (shl_align m e (fexp (Zdigits2 (Z.pos m) + e)))))
    (snd (shl_align m e (fexp (Zdigits2 (Z.pos m) + e)))) loc_Exact.
Proof.
  unfold binary_round. cbn [Zdigits2].
  destruct (shl_align m e _) as [mz ez]. reflexivity.
Qed.

Lemma binary_round_valid s m e : valid_binary prec emax (binary_round prec emax s m e) = true.
Proof.
  rewrite binary_round_eq.
  destruct (binary_round_aligned m e) as (H1 & _).
  apply binary_round_aux_valid; [lia|exact H1].
Qed.

Lemma binary_normalize_valid m e sz :
  valid_binary prec emax (binary_normalize prec emax m e sz) = true.
Proof. destruct m; cbn [binary_normalize]; [reflexivity| |]; apply binary_round_valid. Qed.

Lemma finish_not_nan s m1 e1 :
  match finish prec emax s m1 e1 with S754_nan => False | _ => True end.
Proof.
  unfold finish. destruct (m1 =? 0); [exact I|].
  destruct (m1 <? 2 ^ prec); [destruct (e1 <=? emax - prec); exact I|].
  destruct (e1 + 1 <=? emax - prec); exact I.
Qed.

Lemma binary_round_aux_not_nan s m e l :
  0 <= m -> e <= fexp (Zdigits2 m + e) ->
  match binary_round_aux prec emax s m e l with S754_nan => False | _ => True end.
Proof.
  intros Hm He.
  destruct (binary_round_aux_finish s m e l Hm He) as (m1 & _ & _ & Hr).
  rewrite Hr. apply finish_not_nan.
Qed.

Lemma binary_round_not_nan s m e :
  match binary_round prec emax s m e with S754_nan => False | _ => True end.
Proof.
  rewrite binary_round_eq.
  destruct (binary_round_aligned m e) as (H1 & _).
  apply binary_round_aux_not_nan; [lia|exact H1].
Qed.

Lemma binary_normalize_not_nan m e sz :
  match binary_normalize prec emax m e sz with S754_nan => False | _ => True end.
Proof. destruct m; cbn [binary_normalize]; [exact I| |]; apply binary_round_not_nan. Qed.

(** *** Multiplication *)

Lemma mul_aligned mx ex my ey :
  bounded prec emax mx ex = true -> bounded prec emax my ey = true ->
  ex + ey <= fexp (Zdigits2 (Z.pos (mx * my)) + (ex + ey)).
Proof.
  intros Hx Hy.
  destruct (bounded_facts mx ex Hx) as (Hcx & _ & Hminx & Hltx & Hnx).
  destruct (bounded_facts my ey Hy) as (Hcy & _ & Hminy & Hlty & Hny).
  pose proof (Zdigits2_mul_ge (Z.pos mx) (Z.pos my) ltac:(lia) ltac:(lia)) as Hd.
  rewrite Pos2Z.inj_mul.
  pose proof (Zdigits2_pos (Z.pos mx) ltac:(lia)).
  pose proof (Zdigits2_pos (Z.pos my) ltac:(lia)).
  unfold SpecFloat.fexp in *. unfold SpecFloat.emin in *. lia.
Qed.

Lemma SFmul_valid x y :
  valid_binary prec emax x = true -> valid_binary prec emax y = true ->
  valid_binary prec emax (SFmul prec emax x y) = true.
Proof.
  intros Hx Hy. destruct x as [sx|sx| |sx mx ex], y as [sy|sy| |sy my ey]; try reflexivity.
  cbn [SFmul]. apply binary_round_aux_valid; [lia|]. apply mul_aligned; assumption.
Qed.

Lemma SFmul_finite_eq sx mx ex sy my ey :
  bounded prec emax mx ex = true -> bounded prec emax my ey = true ->
  SFmul prec emax (S754_finite sx mx ex) (S754_finite sy my ey) =
  finish prec emax (xorb sx sy)
    (rne (Z.pos mx * Z.pos my) (fexp (Zdigits2 (Z.pos mx * Z.pos my) + (ex + ey)) - (ex + ey)))
    (fexp (Zdigits2 (Z.pos mx * Z.pos my) + (ex + ey))).
Proof.
  intros Hx Hy. cbn [SFmul]. rewrite binary_round_aux_exact.
  - rewrite Pos2Z.inj_mul. reflexivity.
  - lia.
  - apply mul_aligned; assumption.
Qed.

(** *** Addition and subtraction *)

Lemma SFopp_valid_finite s s' m e :
  valid_binary prec emax (S754_finite s m e) = true ->
  valid_binary prec emax (S754_finite s' m e) = true.
Proof. intros H; exact H. Qed.

Lemma SFadd_valid x y :
  valid_binary prec emax x = true -> valid_binary prec emax y = true ->
  valid_binary prec emax (SFadd prec emax x y) = true.
Proof.
  intros Hx Hy. destruct x as [sx|sx| |sx mx ex], y as [sy|sy| |sy my ey];
    try reflexivity; try assumption.
  - destruct sx, sy; reflexivity.
  - destruct sx, sy; reflexivity.
  - cbn [SFadd]. apply binary_normalize_valid.
Qed.

Lemma SFsub_valid x y :
  valid_binary prec emax x = true -> valid_binary prec emax y = true ->
  valid_binary prec emax (SFsub prec emax x y) = true.
Proof.
  intros Hx Hy. destruct x as [sx|sx| |sx mx ex], y as [sy|sy| |sy my ey];
    try reflexivity; try assumption.
  - destruct sx, sy; reflexivity.
  - destruct sx, sy; reflexivity.
  - cbn [SFsub]. apply binary_normalize_valid.
Qed.

Lemma SFadd_not_nan x y :
  is_finite x = true -> is_finite y = true -> is_nan (SFadd prec emax x y) = false.
Proof.
  intros Hx Hy. destruct x as [sx|sx| |sx mx ex], y as [sy|sy| |sy my ey];
    try discriminate; try reflexivity.
  - destruct sx, sy; reflexivity.
  - cbn [SFadd].
    match goal with |- is_nan ?t = false =>
      pose proof (binary_normalize_not_nan
        (cond_Zopp sx (Z.pos (fst (shl_align mx ex (Z.min ex ey)))) +
         cond_Zopp sy (Z.pos (fst (shl_align my ey (Z.min ex ey))))) (Z.min ex ey) false) as H;
      destruct t; try reflexivity; contradiction
    end.
Qed.

Lemma SFsub_not_nan x y :
  is_finite x = true -> is_finite y = true -> is_nan (SFsub prec emax x y) = false.
Proof.
  intros Hx Hy. destruct x as [sx|sx| |sx mx ex], y as [sy|sy| |sy my ey];
    try discriminate; try reflexivity.
  - destruct sx, sy; reflexivity.
  - cbn [SFsub].
    match goal with |- is_nan ?t = false =>
      pose proof (binary_normalize_not_nan
        (cond_Zopp sx (Z.pos (fst (shl_align mx ex (Z.min ex ey)))) -
         cond_Zopp sy (Z.pos (fst (shl_align my ey (Z.min ex ey))))) (Z.min ex ey) false) as H;
      destruct t; try reflexivity; contradiction
    end.
Qed.

(** *** Division *)

Lemma SFdiv_core_aligned m1 e1 m2 e2 :
  let r := SFdiv_core_binary prec emax (Z.pos m1) e1 (Z.pos m2) e2 in
  0 <= fst (fst r) /\ snd (fst r) <= fexp (Zdigits2 (fst (fst r)) + snd (fst r)).
Proof.
  unfold SFdiv_core_binary.
  set (d1 := Zdigits2 (Z.pos m1)). set (d2 := Zdigits2 (Z.pos m2)).
  set (X := d1 + e1 - (d2 + e2)).
  set (e' := Z.min (fexp X) (e1 - e2)).
  set (sh := e1 - e2 - e').
  assert (Hsh : 0 <= sh) by (unfold sh, e'; lia).
  set (m' := match sh with Z.pos _ => Z.shiftl (Z.pos m1) sh | 0 => Z.pos m1 | Z.neg _ => 0 end).
  assert (Hm' : m' = Z.pos m1 * 2 ^ sh).
  { unfold m'. destruct sh as [|p|p] eqn:E.
    - rewrite Z.pow_0_r. lia.
    - rewrite Z.shiftl_mul_pow2 by lia. reflexivity.
    - lia. }
  clearbody m'.
  destruct (Z.div_eucl m' (Z.pos m2)) as [q r] eqn:Ed. cbn [fst snd].
  assert (Hq : q = m' / Z.pos m2) by (unfold Z.div; rewrite Ed; reflexivity).
  pose proof (pow2_pos sh Hsh) as Hps.
  assert (Hq0 : 0 <= q) by (rewrite Hq; apply Z.div_pos; nia).
  split; [exact Hq0|].
  pose proof (Zdigits2_bounds (Z.pos m1) ltac:(lia)) as [Ha1 Ha2]. fold d1 in Ha1, Ha2.
  pose proof (Zdigits2_bounds (Z.pos m2) ltac:(lia)) as [Hb1 Hb2]. fold d2 in Hb1, Hb2.
  pose proof (Zdigits2_pos (Z.pos m1) ltac:(lia)) as Hd1. fold d1 in Hd1.
  pose proof (Zdigits2_pos (Z.pos m2) ltac:(lia)) as Hd2. fold d2 in Hd2.
  assert (Hmul : 2 ^ (d1 - 1 + sh) <= m').
  { rewrite Hm', Z.pow_add_r by lia. nia. }
  destruct (Z.eq_dec q 0) as [Hz|Hnz].
  - (* a zero quotient: the exponent is already the least one *)
    rewrite Hz. cbn [Zdigits2].
    assert (Hlt : m' < Z.pos m2).
    { pose proof (Z.div_mod m' (Z.pos m2) ltac:(lia)) as Hdm.
      pose proof (Z.mod_pos_bound m' (Z.pos m2) ltac:(lia)). rewrite <- Hq, Hz in Hdm. lia. }
    assert (Hs : d1 + sh <= d2).
    { destruct (Z_le_gt_dec (d1 + sh) d2); [assumption|exfalso].
      assert (2 ^ d2 <= 2 ^ (d1 - 1 + sh)) by (apply Z.pow_le_mono_r; lia). lia. }
    unfold SpecFloat.fexp in *. unfold sh, e', X in *. unfold SpecFloat.fexp in *. lia.
  - assert (Hdq : d1 + sh - d2 <= Zdigits2 q).
    { pose proof (Zdigits2_pos q ltac:(lia)) as Hdqp.
      destruct (Z_le_gt_dec (d1 + sh - d2) (Zdigits2 q)) as [|Hgt]; [assumption|exfalso].
      pose proof (Zdigits2_bounds q ltac:(lia)) as [_ Hq2].
      (* q < 2^k with k <= d1+sh-d2-1, so m' < (q+1) * m2 <= 2^k * 2^d2 <= 2^(d1-1+sh) *)
      assert (Hk : 2 ^ Zdigits2 q * 2 ^ d2 <= 2 ^ (d1 - 1 + sh)).
      { rewrite <- Z.pow_add_r by lia. apply Z.pow_le_mono_r; lia. }
      pose proof (Z.div_mod m' (Z.pos m2) ltac:(lia)) as Hdm.
      pose proof (Z.mod_pos_bound m' (Z.pos m2) ltac:(lia)). rewrite <- Hq in Hdm.
      pose proof (pow2_pos (Zdigits2 q) ltac:(lia)).
      nia. }
    eapply Z.le_trans; [|apply fexp_mono with (a := X); unfold X, sh, e' in *; lia].
    unfold e'. lia.
Qed.

Lemma SFdiv_valid x y :
  valid_binary prec emax (SFdiv prec emax x y) = true.
Proof.
  destruct x as [sx|sx| |sx mx ex], y as [sy|sy| |sy my ey]; try reflexivity.
  cbn [SFdiv].
  pose proof (SFdiv_core_aligned mx ex my ey) as H. cbn zeta in H.
  destruct (SFdiv_core_binary prec emax (Z.pos mx) ex (Z.pos my) ey) as [[q e'] l].
  cbn [fst snd] in H. destruct H as [H0 H1].
  apply binary_round_aux_valid; assumption.
Qed.

(** A quotient is NaN only for 0/0, inf/inf or a NaN operand. *)
Lemma SFdiv_not_nan x sy my ey :
  is_nan x = false ->
  is_nan (SFdiv prec emax x (S754_finite sy my ey)) = false.
Proof.
  intros Hx. destruct x as [sx|sx| |sx mx ex]; try reflexivity; try discriminate.
  cbn [SFdiv].
  pose proof (SFdiv_core_aligned mx ex my ey) as H. cbn zeta in H.
  destruct (SFdiv_core_binary prec emax (Z.pos mx) ex (Z.pos my) ey) as [[q e'] l].
  cbn [fst snd] in H. destruct H as [H0 H1].
  pose proof (binary_round_aux_not_nan (xorb sx sy) q e' l H0 H1) as Hn.
  destruct (binary_round_aux prec emax (xorb sx sy) q e' l); try reflexivity. contradiction.
Qed.

End Round.

(** ** Signs and magnitudes *)

Lemma finish_cases prec emax s m1 e1 :
  finish prec emax s m1 e1 = S754_zero s \/ finish prec emax s m1 e1 = S754_infinity s \/
  exists m e, finish prec emax s m1 e1 = S754_finite s m e.
Proof.
  unfold finish. destruct (m1 =? 0); [left; reflexivity|].
  destruct (m1 <? 2 ^ prec).
  - destruct (e1 <=? emax - prec); [right; right; eauto|right; left; reflexivity].
  - destruct (e1 + 1 <=? emax - prec); [right; right; eauto|right; left; reflexivity].
Qed.

Lemma SFabs_finish prec emax s m1 e1 :
  SFabs (finish prec emax s m1 e1) = finish prec emax false m1 e1.
Proof.
  unfold finish. destruct (m1 =? 0); [reflexivity|].
  destruct (m1 <? 2 ^ prec).
  - destruct (e1 <=? emax - prec); reflexivity.
  - destruct (e1 + 1 <=? emax - prec); reflexivity.
Qed.

Lemma SFabs_valid prec emax x :
  valid_binary prec emax x = true -> valid_binary prec emax (SFabs x) = true.
Proof. destruct x; intros H; exact H. Qed.

Lemma trunc_abs x : trunc x = match x with
                              | S754_finite s _ _ => cond_Zopp s (trunc (SFabs x))
                              | _ => 0 end.
Proof. destruct x; reflexivity. Qed.

(** ** float32 *)

Lemma f32_mul_valid x y :
  f32_valid x = true -> f32_valid y = true -> f32_valid (f32_mul x y) = true.
Proof. apply SFmul_valid; reflexivity. Qed.

Lemma f32_add_valid x y :
  f32_valid x = true -> f32_valid y = true -> f32_valid (f32_add x y) = true.
Proof. apply SFadd_valid; reflexivity. Qed.

Lemma f32_sub_valid x y :
  f32_valid x = true -> f32_valid y = true -> f32_valid (f32_sub x y) = true.
Proof. apply SFsub_valid; reflexivity. Qed.

Lemma f32_div_valid x y : f32_valid (f32_div x y) = true.
Proof. apply SFdiv_valid; reflexivity. Qed.

Lemma f32_of_f64_valid x : f64_valid x = true -> f32_valid (f32_of_f64 x) = true.
Proof.
  destruct x; intros H; try reflexivity. cbn [f32_of_f64].
  apply binary_round_valid; reflexivity.
Qed.

Lemma f32_bounded_facts m e :
  bounded 24 128 m e = true ->
  -149 <= e <= 104 /\ Z.pos m < 2 ^ 24 /\ (-149 < e -> 2 ^ 23 <= Z.pos m).
Proof.
  intros H. destruct (bounded_facts 24 128 eq_refl m e H) as (_ & H1 & H2 & H3 & H4).
  change (SpecFloat.emin 24 128) with (-149) in *. change (128 - 24) with 104 in H1.
  change (24 - 1) with 23 in H4. lia.
Qed.

(** The magnitude of a float below [2^k], truncated. *)
Lemma trunc_pos_small m e k :
  0 <= k -> e < 0 -> Z.pos m < 2 ^ (k - e) -> 0 <= trunc (S754_finite false m e) < 2 ^ k.
Proof.
  intros Hk He Hm. cbn [trunc cond_Zopp].
  destruct (Z.leb_spec 0 e); [lia|].
  pose proof (pow2_pos (- e) ltac:(lia)). pose proof (pow2_pos k Hk).
  split; [apply Z.div_pos; lia|].
  apply Z.div_lt_upper_bound; [lia|].
  rewrite <- Z.pow_add_r by lia. replace (- e + k) with (k - e) by lia. exact Hm.
Qed.

Section ToLong.
Context {RT : Runtime}.

Lemma to_long_trunc x :
  is_finite x = true -> in_int64 (trunc x) = true -> to_long x = trunc x.
Proof.
  destruct x; try discriminate; intros _ H; cbn [to_long].
  - reflexivity.
  - rewrite H. reflexivity.
Qed.

(** A valid non-negative float32 that is at most 255 truncates into
    the table's index range. *)
Lemma to_long_le_255 r :
  f32_valid r = true -> fle f32_zero r = true -> fle r f32_255 = true ->
  0 <= to_long r <= 255.
Proof.
  intros Hv H0 H1. destruct r as [s|s| |s m e].
  - cbn. lia.
  - destruct s; discriminate.
  - discriminate.
  - destruct s; [discriminate|].
    unfold fle, f32_255 in H1. apply SFleb_pos_finite in H1.
    destruct (f32_bounded_facts m e Hv) as (He & Hm & Hn).
    assert (Ht : 0 <= trunc (S754_finite false m e) <= 255).
    { destruct H1 as [Hlt|[Heq Hle]].
      - pose proof (trunc_pos_small m e 7 ltac:(lia) ltac:(lia)) as T.
        assert (Z.pos m < 2 ^ (7 - e)).
        { eapply Z.lt_le_trans; [exact Hm|]. apply Z.pow_le_mono_r; lia. }
        specialize (T H). change (2 ^ 7) with 128 in T. lia.
      - subst e. cbn [trunc cond_Zopp]. change (0 <=? -16) with false. cbv iota.
        change (2 ^ (- -16)) with 65536.
        split; [apply Z.div_pos; lia|].
        assert (Z.pos m / 65536 < 256) by (apply Z.div_lt_upper_bound; lia). lia. }
    rewrite to_long_trunc; [exact Ht|reflexivity|].
    unfold in_int64, int64_min, int64_max. apply andb_true_intro.
    split; apply Z.leb_le; lia.
Qed.

End ToLong.

(** [x <= 1] on a valid positive float32, on its mantissa. *)
Lemma le_one_mantissa m e :
  bounded 24 128 m e = true ->
  fle (S754_finite false m e) f32_one = true ->
  e <= -23 /\ Z.pos m <= 2 ^ (- e).
Proof.
  intros Hv H. unfold fle, f32_one in H. apply SFleb_pos_finite in H.
  destruct (f32_bounded_facts m e Hv) as (He & Hm & Hn).
  destruct H as [Hlt|[Heq Hle]].
  - split; [lia|]. assert (2 ^ 24 <= 2 ^ (- e)) by (apply Z.pow_le_mono_r; lia). lia.
  - subst e. split; [lia|]. change (2 ^ (- -23)) with 8388608. lia.
Qed.

(** Scaling a float32 of [0,1] by 255 stays at or below 255. *)
Lemma mul255_le x :
  f32_valid x = true -> fle f32_zero x = true -> fle x f32_one = true ->
  fle f32_zero (f32_mul x f32_255) = true /\ fle (f32_mul x f32_255) f32_255 = true.
Proof.
  intros Hv H0 H1. destruct x as [s|s| |s m e].
  - destruct s; split; reflexivity.
  - destruct s; discriminate.
  - discriminate.
  - destruct s; [discriminate|].
    cbn [f32_valid valid_binary] in Hv.
    destruct (le_one_mantissa m e Hv H1) as [He Hm].
    assert (Hb255 : bounded 24 128 16711680 (-16) = true) by reflexivity.
    split.
    + unfold f32_mul, f32_255. rewrite (SFmul_finite_eq 24 128 eq_refl eq_refl) by assumption.
      cbn [xorb].
      destruct (finish_cases 24 128 false
        (rne (Z.pos m * 16711680) (fexp 24 128 (Zdigits2 (Z.pos m * 16711680) + (e + -16)) - (e + -16)))
        (fexp 24 128 (Zdigits2 (Z.pos m * 16711680) + (e + -16)))) as [E|[E|(m' & e' & E)]];
        rewrite E; reflexivity.
    + unfold f32_mul, f32_255, fle. cbn [SFmul xorb].
      apply (round_le_bound 24 128 eq_refl).
      * lia.
      * apply (mul_aligned 24 128 eq_refl eq_refl); assumption.
      * exact Hb255.
      * replace (Z.min (e + -16) (-16)) with (e + -16) by lia.
        replace (e + -16 - (e + -16)) with 0 by lia.
        replace (-16 - (e + -16)) with (- e) by lia.
        rewrite Z.pow_0_r, Pos2Z.inj_mul.
        pose proof (pow2_pos (- e) ltac:(lia)). nia.
Qed.

Lemma Qpower2_nonneg e : 0 <= e -> (Qpower 2 e == inject_Z (2 ^ e))%Q.
Proof. intros H. rewrite Zpower_Qpower by exact H. reflexivity. Qed.

Lemma Qpower2_neg e : e < 0 -> (Qpower 2 e == / inject_Z (2 ^ (- e)))%Q.
Proof.
  intros H. replace e with (- (- e)) at 1 by lia.
  rewrite Qpower_opp, Zpower_Qpower by lia. reflexivity.
Qed.

Lemma F2Q_pos_nonneg m e : (0 <= F2Q (S754_finite false m e))%Q.
Proof.
  cbn [F2Q cond_Zopp]. apply Qmult_le_0_compat.
  - unfold Qle; cbn. lia.
  - apply Qlt_le_weak, Qpower_0_lt. reflexivity.
Qed.

(** A negative float above [-1/255], on its mantissa and exponent. *)
Lemma F2Q_neg_bound m e :
  (- (1 # 255) < F2Q (S754_finite true m e))%Q -> e < 0 /\ 255 * Z.pos m < 2 ^ (- e).
Proof.
  cbn [F2Q cond_Zopp]. intros H.
  destruct (Z_lt_le_dec e 0) as [He|He].
  - split; [exact He|].
    rewrite Qpower2_neg in H by exact He.
    pose proof (pow2_pos (- e) ltac:(lia)) as Hp.
    destruct (2 ^ (- e)) as [|p|p]; try lia.
    unfold Qlt in H. cbn in H. lia.
  - exfalso. rewrite Qpower2_nonneg in H by exact He.
    pose proof (pow2_pos e He) as Hp.
    rewrite <- inject_Z_mult in H. unfold Qlt in H. cbn [Qnum Qden inject_Z Qopp] in H.
    nia.
Qed.

Section SmallNegative.
Context {RT : Runtime}.

(** Values strictly between -1/255 and 0 scale and truncate to index 0. *)
Lemma pixel_index_small_negative x :
  f32_valid x = true -> (- (1 # 255) < F2Q x)%Q -> (F2Q x < 0)%Q ->
  pixel_index x = 0.
Proof.
  intros Hv Hlo Hhi. destruct x as [s|s| |s m e]; try (exfalso; revert Hhi; cbn; unfold Qlt; cbn; lia).
  destruct s.
  2:{ exfalso. pose proof (F2Q_pos_nonneg m e) as Hp. apply (Qlt_not_le _ _ Hhi Hp). }
  destruct (F2Q_neg_bound m e Hlo) as [He Hm].
  cbn [f32_valid valid_binary] in Hv.
  destruct (f32_bounded_facts m e Hv) as (Hbe & Hbm & Hbn).
  assert (Hb255 : bounded 24 128 16711680 (-16) = true) by reflexivity.
  unfold pixel_index.
  pose proof (f32_mul_valid (S754_finite true m e) f32_255 Hv eq_refl) as Hvr.
  unfold f32_mul, f32_255 in *.
  rewrite (SFmul_finite_eq 24 128 eq_refl eq_refl) in * by assumption.
  cbn [xorb] in *.
  set (e1 := fexp 24 128 (Zdigits2 (Z.pos m * 16711680) + (e + -16))) in *.
  set (m1 := rne (Z.pos m * 16711680) (e1 - (e + -16))) in *.
  (* the magnitude is at most 1 - 2^-24 *)
  assert (Hle : SFleb (finish 24 128 false m1 e1) (S754_finite false 16777215 (-24)) = true).
  { unfold m1, e1. rewrite <- (binary_round_aux_exact 24 128 eq_refl).
    - apply (round_le_bound 24 128 eq_refl).
      + lia.
      + rewrite <- Pos2Z.inj_mul. apply (mul_aligned 24 128 eq_refl eq_refl); assumption.
      + reflexivity.
      + assert (Hcase : e <= -32 \/ -31 <= e <= -8 \/ -7 <= e) by lia.
        destruct Hcase as [Hc|[Hc|Hc]].
        * (* far below: the mantissa bound suffices *)
          replace (Z.min (e + -16) (-24)) with (e + -16) by lia.
          replace (e + -16 - (e + -16)) with 0 by lia.
          replace (-24 - (e + -16)) with (- e - 32 + 24) by lia.
          rewrite Z.pow_0_r, Z.pow_add_r by lia.
          pose proof (pow2_pos (- e - 32) ltac:(lia)).
          change (2 ^ 24) with 16777216 in *. nia.
        * assert (Hk : exists k, 0 <= k <= 23 /\ e = -8 - k) by (exists (-8 - e); lia).
          destruct Hk as (k & Hk & ->).
          replace (- (-8 - k)) with (8 + k) in Hm by lia.
          replace (Z.min (-8 - k + -16) (-24)) with (-24 - k) by lia.
          replace (-8 - k + -16 - (-24 - k)) with 0 by lia.
          replace (-24 - (-24 - k)) with k by lia.
          rewrite Z.pow_0_r.
          assert (Hcases : k = 0 \/ k = 1 \/ k = 2 \/ k = 3 \/ k = 4 \/ k = 5 \/ k = 6 \/ k = 7 \/
                           k = 8 \/ k = 9 \/ k = 10 \/ k = 11 \/ k = 12 \/ k = 13 \/ k = 14 \/ k = 15 \/
                           k = 16 \/ k = 17 \/ k = 18 \/ k = 19 \/ k = 20 \/ k = 21 \/ k = 22 \/ k = 23) by lia.
          repeat (destruct Hcases as [->|Hcases]; [cbn in Hm |- *; lia|]).
          subst k. cbn in Hm |- *. lia.
        * exfalso. assert (2 ^ (- e) <= 2 ^ 7) by (apply Z.pow_le_mono_r; lia).
          change (2 ^ 7) with 128 in *. lia.
    - lia.
    - rewrite <- Pos2Z.inj_mul. apply (mul_aligned 24 128 eq_refl eq_refl); assumption. }
  destruct (finish_cases 24 128 true m1 e1) as [E|[E|(m' & e' & E)]].
  - rewrite E. reflexivity.
  - exfalso. pose proof (SFabs_finish 24 128 true m1 e1) as Ha. rewrite E in Ha. cbn in Ha.
    rewrite <- Ha in Hle. discriminate.
  - pose proof (SFabs_finish 24 128 true m1 e1) as Ha. rewrite E in Ha. cbn [SFabs] in Ha.
    rewrite <- Ha in Hle. apply SFleb_pos_finite in Hle.
    rewrite E in Hvr |- *. cbn [valid_binary] in Hvr.
    destruct (f32_bounded_facts m' e' Hvr) as (Hbe' & Hbm' & Hbn').
    assert (Ht : trunc (S754_finite false m' e') = 0).
    { pose proof (trunc_pos_small m' e' 0 ltac:(lia) ltac:(lia)) as T.
      assert (Z.pos m' < 2 ^ (0 - e')).
      { eapply Z.lt_le_trans; [exact Hbm'|]. apply Z.pow_le_mono_r; lia. }
      specialize (T H). change (2 ^ 0) with 1 in T. lia. }
    assert (Ht' : trunc (S754_finite true m' e') = 0).
    { cbn [trunc cond_Zopp] in Ht |- *. rewrite Ht. reflexivity. }
    rewrite to_long_trunc; [exact Ht'|reflexivity|rewrite Ht'; reflexivity].
Qed.

End SmallNegative.

(** ** Lists and tensors *)

Lemma fold_left_Zmin_spec l x :
  In (fold_left Z.min l x) (x :: l) /\ forall y, In y (x :: l) -> fold_left Z.min l x <= y.
Proof.
  revert x. induction l as [|a l IH]; intros x; cbn [fold_left].
  - split; [left; reflexivity|]. intros y [<-|[]]. lia.
  - destruct (IH (Z.min x a)) as [Hin Hle]. split.
    + destruct Hin as [E|Hin]; [|right; right; exact Hin].
      rewrite <- E. destruct (Z.min_spec x a) as [[_ ->]|[_ ->]]; [left|right; left]; reflexivity.
    + intros y Hy. assert (Hm : fold_left Z.min l (Z.min x a) <= Z.min x a) by (apply Hle; left; reflexivity).
      destruct Hy as [<-|[<-|Hy]]; [lia|lia|]. apply Hle. right. exact Hy.
Qed.

Lemma fold_left_Zmax_spec l x :
  In (fold_left Z.max l x) (x :: l) /\ forall y, In y (x :: l) -> y <= fold_left Z.max l x.
Proof.
  revert x. induction l as [|a l IH]; intros x; cbn [fold_left].
  - split; [left; reflexivity|]. intros y [<-|[]]. lia.
  - destruct (IH (Z.max x a)) as [Hin Hle]. split.
    + destruct Hin as [E|Hin]; [|right; right; exact Hin].
      rewrite <- E. destruct (Z.max_spec x a) as [[_ ->]|[_ ->]]; [right; left|left]; reflexivity.
    + intros y Hy. assert (Hm : Z.max x a <= fold_left Z.max l (Z.max x a)) by (apply Hle; left; reflexivity).
      destruct Hy as [<-|[<-|Hy]]; [lia|lia|]. apply Hle. right. exact Hy.
Qed.

Lemma reduce_min_spec l :
  l <> [] -> exists m, reduce Z.min l = Ok m /\ In m l /\ forall y, In y l -> m <= y.
Proof.
  destruct l as [|x l]; [congruence|]. intros _.
  exists (fold_left Z.min l x). split; [reflexivity|]. apply fold_left_Zmin_spec.
Qed.

Lemma reduce_max_spec l :
  l <> [] -> exists m, reduce Z.max l = Ok m /\ In m l /\ forall y, In y l -> y <= m.
Proof.
  destruct l as [|x l]; [congruence|]. intros _.
  exists (fold_left Z.max l x). split; [reflexivity|]. apply fold_left_Zmax_spec.
Qed.

Lemma numel_app s1 s2 : numel (s1 ++ s2) = (numel s1 * numel s2)%nat.
Proof.
  unfold numel. induction s1 as [|a s IH]; cbn [app fold_right].
  - rewrite Nat.mul_1_l. reflexivity.
  - rewrite IH. apply Nat.mul_assoc.
Qed.

Lemma strided_1 {A} (l : list A) n : length l = n -> strided n 1 l = l.
Proof.
  revert l. induction n as [|n IH]; intros l H; destruct l as [|x l]; cbn in *; try reflexivity; try discriminate.
  f_equal. apply IH. lia.
Qed.

Lemma select_last0_unit {A} (lead : list nat) (d : list A) :
  length d = numel lead ->
  select_last0 (mkTensor (lead ++ [1%nat]) d) = Ok (mkTensor lead d).
Proof.
  intros H. unfold select_last0. cbn [shape data]. rewrite rev_app_distr. cbn [rev app].
  rewrite rev_involutive, strided_1 by assumption. reflexivity.
Qed.

Lemma table_row_ok table i :
  0 <= i < Z.of_nat (length table) -> table_row table i = Ok (color_at table i).
Proof.
  intros H. unfold table_row, color_at.
  destruct (Z.leb_spec 0 i); [|lia]. destruct (Z.ltb_spec i (Z.of_nat (length table))); [|lia].
  cbn [andb]. destruct (nth_error table (Z.to_nat i)) eqn:E.
  - rewrite (nth_error_nth _ _ _ E). reflexivity.
  - apply nth_error_None in E. lia.
Qed.

Lemma mapM_table_row table l :
  (forall i, In i l -> 0 <= i < Z.of_nat (length table)) ->
  mapM (table_row table) l = Ok (map (color_at table) l).
Proof.
  induction l as [|i l IH]; intros H; cbn [mapM map]; [reflexivity|].
  rewrite table_row_ok by (apply H; left; reflexivity). cbn [bind].
  rewrite IH by (intros; apply H; right; assumption). reflexivity.
Qed.

Lemma mapM_ok_inv {A B} (f : A -> result B) l rows :
  mapM f l = Ok rows -> Forall2 (fun x y => f x = Ok y) l rows.
Proof.
  revert rows. induction l as [|x l IH]; intros rows H; cbn [mapM] in H.
  - injection H as <-. constructor.
  - destruct (f x) as [y|] eqn:E; [|discriminate]. cbn [bind] in H.
    destruct (mapM f l) as [ys|] eqn:E2; [|discriminate]. cbn [bind] in H.
    injection H as <-. constructor; [exact E|]. apply IH. reflexivity.
Qed.

Lemma table_row_inv table i c : table_row table i = Ok c -> In c table.
Proof.
  unfold table_row. destruct (_ && _); [|discriminate].
  destruct (nth_error table (Z.to_nat i)) eqn:E; [|discriminate].
  intros H. injection H as <-. eapply nth_error_In. exact E.
Qed.

Section Colormap.
Context {RT : Runtime}.

(** What [apply_colormap] returns when every index is in range. *)
Lemma apply_colormap_ok image cmap table lead :
  cm_colors cmap = Some table -> length table = 256%nat ->
  shape image = lead ++ [1%nat] -> tensor_wf image -> data image <> [] ->
  (forall x, In x (data image) -> 0 <= pixel_index x <= 255) ->
  apply_colormap image cmap =
  Ok (mkTensor (lead ++ [3%nat]) (pixels (map (fun x => color_at table (pixel_index x)) (data image)))).
Proof.
  intros Hc Hlen Hs Hwf Hne Hidx. unfold apply_colormap, get_colors. rewrite Hc. cbn [bind].
  assert (Hne' : data (scale_long image) <> []).
  { cbn [scale_long tmap data]. destruct (data image); [congruence|discriminate]. }
  destruct (reduce_min_spec _ Hne') as (m & Em & Hin & _).
  destruct (reduce_max_spec _ Hne') as (M & EM & HinM & _).
  unfold torch_min_long, torch_max_long. rewrite Em, EM. cbn [bind].
  cbn [scale_long tmap data] in Hin, HinM.
  apply in_map_iff in Hin. destruct Hin as (x & <- & Hx).
  apply in_map_iff in HinM. destruct HinM as (y & <- & Hy).
  pose proof (Hidx x Hx). pose proof (Hidx y Hy).
  unfold py_assert.
  destruct (Z.leb_spec 0 (pixel_index x)); [|lia].
  destruct (Z.leb_spec (pixel_index y) 255); [|lia]. cbn [bind].
  unfold scale_long, tmap. rewrite Hs.
  rewrite select_last0_unit.
  2:{ rewrite length_map. unfold tensor_wf in Hwf. rewrite Hwf, Hs, numel_app. cbn. lia. }
  cbn [bind]. unfold index_rows. cbn [data shape].
  rewrite mapM_table_row.
  2:{ intros i Hi. apply in_map_iff in Hi. destruct Hi as (z & <- & Hz).
      specialize (Hidx z Hz). rewrite Hlen. lia. }
  cbn [bind]. unfold pixels. rewrite !map_map. reflexivity.
Qed.

(** The failure of lines 25-26. *)
Lemma apply_colormap_assert image cmap table :
  cm_colors cmap = Some table -> data image <> [] ->
  (exists x, In x (data image) /\ (pixel_index x < 0 \/ 255 < pixel_index x)) ->
  exists m M,
    torch_min_long (scale_long image) = Ok m /\ torch_max_long (scale_long image) = Ok M /\
    (forall x, In x (data image) -> m <= pixel_index x <= M) /\
    (exists x, In x (data image) /\ pixel_index x = m) /\
    (exists x, In x (data image) /\ pixel_index x = M) /\
    apply_colormap image cmap =
    Err (AssertionError (if m <? 0 then String.append "the min value is " (show_Z m)
                         else String.append "the max value is " (show_Z M))).
Proof.
  intros Hc Hne (x & Hx & Hbad). unfold apply_colormap, get_colors. rewrite Hc. cbn [bind].
  assert (Hne' : data (scale_long image) <> []).
  { cbn [scale_long tmap data]. destruct (data image); [congruence|discriminate]. }
  destruct (reduce_min_spec _ Hne') as (m & Em & Hin & Hmin).
  destruct (reduce_max_spec _ Hne') as (M & EM & HinM & Hmax).
  exists m, M. unfold torch_min_long, torch_max_long. rewrite Em, EM. cbn [bind].
  cbn [scale_long tmap data] in Hin, HinM, Hmin, Hmax.
  assert (Hall : forall z, In z (data image) -> m <= pixel_index z <= M).
  { intros z Hz. split; [apply Hmin|apply Hmax]; apply in_map; exact Hz. }
  apply in_map_iff in Hin. destruct Hin as (a & Ea & Ha).
  apply in_map_iff in HinM. destruct HinM as (b & Eb & Hb).
  repeat split; try reflexivity; try (apply Hall; assumption).
  - exists a; split; assumption.
  - exists b; split; assumption.
  - specialize (Hall x Hx). unfold py_assert.
    destruct (Z.leb_spec 0 m); destruct (Z.ltb_spec m 0); try lia; cbn [bind]; [|reflexivity].
    destruct (Z.leb_spec M 255); [lia|]. reflexivity.
Qed.

(** What a returned image looks like, whatever the input. *)
Lemma apply_colormap_inv image cmap out :
  apply_colormap image cmap = Ok out ->
  exists table idx rows,
    cm_colors cmap = Some table /\
    select_last0 (scale_long image) = Ok idx /\
    mapM (table_row table) (data idx) = Ok rows /\
    out = mkTensor (shape idx ++ [3%nat]) (pixels rows) /\
    (forall x, In x (data image) -> 0 <= pixel_index x <= 255).
Proof.
  unfold apply_colormap, get_colors. destruct (cm_colors cmap) as [table|]; [|discriminate].
  cbn [bind]. unfold torch_min_long, torch_max_long.
  destruct (data (scale_long image)) as [|z zs] eqn:Ed; [discriminate|].
  cbn [reduce bind]. unfold py_assert.
  destruct (Z.leb_spec 0 (fold_left Z.min zs z)); [|discriminate]. cbn [bind].
  destruct (Z.leb_spec (fold_left Z.max zs z) 255); [|discriminate]. cbn [bind].
  destruct (select_last0 (scale_long image)) as [idx|] eqn:Es; [|discriminate]. cbn [bind].
  unfold index_rows. destruct (mapM (table_row table) (data idx)) as [rows|] eqn:Em; [|discriminate].
  cbn [bind]. intros E. injection E as <-.
  exists table, idx, rows. repeat split; try reflexivity; try assumption.
  - assert (Hin : In (pixel_index x) (z :: zs))
      by (rewrite <- Ed; cbn [scale_long tmap data]; apply in_map; assumption).
    pose proof (proj2 (fold_left_Zmin_spec zs z) _ Hin). lia.
  - assert (Hin : In (pixel_index x) (z :: zs))
      by (rewrite <- Ed; cbn [scale_long tmap data]; apply in_map; assumption).
    pose proof (proj2 (fold_left_Zmax_spec zs z) _ Hin). lia.
Qed.

End Colormap.

(** ** The IEEE order *)

Lemma fle_key x y :
  is_nan x = false -> is_nan y = false -> (fle x y = true <-> key_le (fkey x) (fkey y)).
Proof.
  intros Hx Hy. unfold fle, SFleb, SFcompare.
  destruct x as [sx|sx| |sx mx ex], y as [sy|sy| |sy my ey]; try discriminate;
    try (destruct sx); try (destruct sy); cbn [fkey key_le];
    try (split; intros H; [lia|reflexivity]);
    try (split; intros H; [discriminate|lia]).
  - destruct (Z.compare_spec ex ey) as [E|E|E].
    + change (Pos.compare_cont Eq mx my) with (Pos.compare mx my).
      destruct (Pos.compare_spec mx my) as [P|P|P]; cbn [CompOpp];
        split; intros H; try reflexivity; try discriminate; lia.
    + split; intros H; [discriminate|lia].
    + split; intros H; [lia|reflexivity].
  - destruct (Z.compare_spec ex ey) as [E|E|E].
    + change (Pos.compare_cont Eq mx my) with (Pos.compare mx my).
      destruct (Pos.compare_spec mx my) as [P|P|P];
        split; intros H; try reflexivity; try discriminate; lia.
    + split; intros H; [lia|reflexivity].
    + split; intros H; [discriminate|lia].
Qed.

Lemma flt_key x y :
  is_nan x = false -> is_nan y = false -> (flt x y = false <-> key_le (fkey y) (fkey x)).
Proof.
  intros Hx Hy. unfold flt, SFltb, SFcompare.
  destruct x as [sx|sx| |sx mx ex], y as [sy|sy| |sy my ey]; try discriminate;
    try (destruct sx); try (destruct sy); cbn [fkey key_le];
    try (split; intros H; [lia|reflexivity]);
    try (split; intros H; [discriminate|lia]).
  - destruct (Z.compare_spec ex ey) as [E|E|E].
    + change (Pos.compare_cont Eq mx my) with (Pos.compare mx my).
      destruct (Pos.compare_spec mx my) as [P|P|P]; cbn [CompOpp];
        split; intros H; try reflexivity; try discriminate; lia.
    + split; intros H; [lia|reflexivity].
    + split; intros H; [discriminate|lia].
  - destruct (Z.compare_spec ex ey) as [E|E|E].
    + change (Pos.compare_cont Eq mx my) with (Pos.compare mx my).
      destruct (Pos.compare_spec mx my) as [P|P|P];
        split; intros H; try reflexivity; try discriminate; lia.
    + split; intros H; [discriminate|lia].
    + split; intros H; [lia|reflexivity].
Qed.

Lemma key_le_refl a : key_le a a.
Proof. destruct a as [[a1 a2] a3]. cbn. lia. Qed.

Lemma key_le_trans a b c : key_le a b -> key_le b c -> key_le a c.
Proof. destruct a as [[a1 a2] a3], b as [[b1 b2] b3], c as [[c1 c2] c3]. cbn. lia. Qed.

Lemma fmin_cases a b : fmin a b = a \/ fmin a b = b.
Proof. unfold fmin. destruct (is_nan a); [left; reflexivity|]. destruct (is_nan b); [right; reflexivity|]. destruct (flt b a); [right|left]; reflexivity. Qed.

Lemma fmax_cases a b : fmax a b = a \/ fmax a b = b.
Proof. unfold fmax. destruct (is_nan a); [left; reflexivity|]. destruct (is_nan b); [right; reflexivity|]. destruct (flt a b); [right|left]; reflexivity. Qed.

Lemma fmin_le a b :
  is_nan a = false -> is_nan b = false ->
  is_nan (fmin a b) = false /\ key_le (fkey (fmin a b)) (fkey a) /\ key_le (fkey (fmin a b)) (fkey b).
Proof.
  intros Ha Hb. unfold fmin. rewrite Ha, Hb.
  destruct (flt b a) eqn:E.
  - split; [exact Hb|]. split; [|apply key_le_refl].
    destruct (flt a b) eqn:E2.
    + exfalso. unfold flt, SFltb in *.
      destruct a as [sa|sa| |sa ma ea], b as [sb|sb| |sb mb eb]; try discriminate;
        try (destruct sa); try (destruct sb); try discriminate; cbn [SFcompare] in *.
      * destruct (Z.compare_spec ea eb), (Z.compare_spec eb ea); try discriminate; try lia.
        change (Pos.compare_cont Eq ma mb) with (Pos.compare ma mb) in E2.
        change (Pos.compare_cont Eq mb ma) with (Pos.compare mb ma) in E.
        rewrite Pos.compare_antisym in E. destruct (ma ?= mb)%positive; discriminate.
      * destruct (Z.compare_spec ea eb), (Z.compare_spec eb ea); try discriminate; try lia.
        change (Pos.compare_cont Eq ma mb) with (Pos.compare ma mb) in E2.
        change (Pos.compare_cont Eq mb ma) with (Pos.compare mb ma) in E.
        rewrite Pos.compare_antisym in E. destruct (ma ?= mb)%positive; discriminate.
    + apply (flt_key a b Ha Hb). exact E2.
  - split; [exact Ha|]. split; [apply key_le_refl|]. apply (flt_key b a Hb Ha). exact E.
Qed.

Lemma fmax_ge a b :
  is_nan a = false -> is_nan b = false ->
  is_nan (fmax a b) = false /\ key_le (fkey a) (fkey (fmax a b)) /\ key_le (fkey b) (fkey (fmax a b)).
Proof.
  intros Ha Hb. unfold fmax. rewrite Ha, Hb.
  destruct (flt a b) eqn:E.
  - split; [exact Hb|]. split; [|apply key_le_refl].
    destruct (flt b a) eqn:E2.
    + exfalso. unfold flt, SFltb in *.
      destruct a as [sa|sa| |sa ma ea], b as [sb|sb| |sb mb eb]; try discriminate;
        try (destruct sa); try (destruct sb); try discriminate; cbn [SFcompare] in *.
      * destruct (Z.compare_spec ea eb), (Z.compare_spec eb ea); try discriminate; try lia.
        change (Pos.compare_cont Eq ma mb) with (Pos.compare ma mb) in E.
        change (Pos.compare_cont Eq mb ma) with (Pos.compare mb ma) in E2.
        rewrite Pos.compare_antisym in E2. destruct (ma ?= mb)%positive; discriminate.
      * destruct (Z.compare_spec ea eb), (Z.compare_spec eb ea); try discriminate; try lia.
        change (Pos.compare_cont Eq ma mb) with (Pos.compare ma mb) in E.
        change (Pos.compare_cont Eq mb ma) with (Pos.compare mb ma) in E2.
        rewrite Pos.compare_antisym in E2. destruct (ma ?= mb)%positive; discriminate.
    + apply (flt_key b a Hb Ha). exact E2.
  - split; [exact Ha|]. split; [apply key_le_refl|]. apply (flt_key a b Ha Hb). exact E.
Qed.

Lemma fold_fmin_spec l x :
  is_nan x = false -> Forall (fun y => is_nan y = false) l ->
  is_nan (fold_left fmin l x) = false /\ In (fold_left fmin l x) (x :: l) /\
  forall y, In y (x :: l) -> key_le (fkey (fold_left fmin l x)) (fkey y).
Proof.
  revert x. induction l as [|a l IH]; intros x Hx Hl; cbn [fold_left].
  - split; [exact Hx|]. split; [left; reflexivity|]. intros y [<-|[]]. apply key_le_refl.
  - inversion Hl as [|? ? Ha Hl']; subst.
    destruct (fmin_le x a Hx Ha) as (Hn & H1 & H2).
    destruct (IH (fmin x a) Hn Hl') as (Hn' & Hin & Hle).
    split; [exact Hn'|]. split.
    + destruct Hin as [E|Hin]; [|right; right; exact Hin].
      rewrite <- E. destruct (fmin_cases x a) as [->| ->]; [left|right; left]; reflexivity.
    + intros y Hy.
      assert (Hm : key_le (fkey (fold_left fmin l (fmin x a))) (fkey (fmin x a))) by (apply Hle; left; reflexivity).
      destruct Hy as [<-|[<-|Hy]].
      * eapply key_le_trans; eassumption.
      * eapply key_le_trans; eassumption.
      * apply Hle. right. exact Hy.
Qed.

Lemma fold_fmax_spec l x :
  is_nan x = false -> Forall (fun y => is_nan y = false) l ->
  is_nan (fold_left fmax l x) = false /\ In (fold_left fmax l x) (x :: l) /\
  forall y, In y (x :: l) -> key_le (fkey y) (fkey (fold_left fmax l x)).
Proof.
  revert x. induction l as [|a l IH]; intros x Hx Hl; cbn [fold_left].
  - split; [exact Hx|]. split; [left; reflexivity|]. intros y [<-|[]]. apply key_le_refl.
  - inversion Hl as [|? ? Ha Hl']; subst.
    destruct (fmax_ge x a Hx Ha) as (Hn & H1 & H2).
    destruct (IH (fmax x a) Hn Hl') as (Hn' & Hin & Hle).
    split; [exact Hn'|]. split.
    + destruct Hin as [E|Hin]; [|right; right; exact Hin].
      rewrite <- E. destruct (fmax_cases x a) as [->| ->]; [left|right; left]; reflexivity.
    + intros y Hy.
      assert (Hm : key_le (fkey (fmax x a)) (fkey (fold_left fmax l (fmax x a)))) by (apply Hle; left; reflexivity).
      destruct Hy as [<-|[<-|Hy]].
      * eapply key_le_trans; eassumption.
      * eapply key_le_trans; eassumption.
      * apply Hle. right. exact Hy.
Qed.

(** torch.min and torch.max of a non-empty tensor without NaN. *)
Lemma torch_min_least (t : tensor f32) :
  data t <> [] -> Forall (fun y => is_nan y = false) (data t) ->
  exists lo, torch_min t = Ok lo /\ is_least lo (data t).
Proof.
  unfold torch_min. destruct (data t) as [|x l]; [congruence|]. intros _ Hall.
  inversion Hall as [|? ? Hx Hl]; subst.
  destruct (fold_fmin_spec l x Hx Hl) as (Hn & Hin & Hle).
  exists (fold_left fmin l x). split; [reflexivity|]. split; [exact Hin|].
  intros y Hy. apply fle_key; [exact Hn| |apply Hle; exact Hy].
  rewrite Forall_forall in Hall. apply Hall. exact Hy.
Qed.

Lemma torch_max_greatest (t : tensor f32) :
  data t <> [] -> Forall (fun y => is_nan y = false) (data t) ->
  exists hi, torch_max t = Ok hi /\ is_greatest hi (data t).
Proof.
  unfold torch_max. destruct (data t) as [|x l]; [congruence|]. intros _ Hall.
  inversion Hall as [|? ? Hx Hl]; subst.
  destruct (fold_fmax_spec l x Hx Hl) as (Hn & Hin & Hle).
  exists (fold_left fmax l x). split; [reflexivity|]. split; [exact Hin|].
  intros y Hy. apply fle_key; [|exact Hn|apply Hle; exact Hy].
  rewrite Forall_forall in Hall. apply Hall. exact Hy.
Qed.

(** ** Pixels and indices *)

Lemma length_pixels rows : length (pixels rows) = (3 * length rows)%nat.
Proof.
  unfold pixels. induction rows as [|[[r g] b] rows IH]; [reflexivity|].
  cbn [map concat rgb_list app length]. rewrite IH. lia.
Qed.

Lemma pixels_wf lead rows :
  length rows = numel lead -> tensor_wf (mkTensor (lead ++ [3%nat]) (pixels rows)).
Proof.
  intros H. unfold tensor_wf. cbn [data shape]. rewrite length_pixels, numel_app, H. cbn. lia.
Qed.

Section Indices.
Context {RT : Runtime}.

Lemma pixel_index_unit x :
  f32_valid x = true -> in_unit x = true -> 0 <= pixel_index x <= 255.
Proof.
  intros Hv Hu. unfold in_unit in Hu. apply andb_true_iff in Hu. destruct Hu as [H0 H1].
  destruct (mul255_le x Hv H0 H1) as [Ha Hb].
  unfold pixel_index. apply to_long_le_255; try assumption.
  apply f32_mul_valid; [exact Hv|reflexivity].
Qed.

Lemma quotient255_table :
  forallb (fun n => let r := f32_mul (quotient255 (Z.of_nat n)) f32_255 in
                    is_finite r && in_int64 (trunc r) && (trunc r =? Z.of_nat n))
          (seq 0 256) = true.
Proof. vm_compute. reflexivity. Qed.

Lemma pixel_index_quotient255 i : 0 <= i <= 255 -> pixel_index (quotient255 i) = i.
Proof.
  intros Hi. pose proof quotient255_table as H. rewrite forallb_forall in H.
  specialize (H (Z.to_nat i)). rewrite Z2Nat.id in H by lia.
  assert (Hin : In (Z.to_nat i) (seq 0 256)) by (apply in_seq; lia).
  specialize (H Hin). cbn zeta in H.
  apply andb_true_iff in H. destruct H as [H H3].
  apply andb_true_iff in H. destruct H as [H1 H2].
  unfold pixel_index. rewrite to_long_trunc by assumption. apply Z.eqb_eq. exact H3.
Qed.

Lemma python_quotient255_table :
  forallb (fun n => let r := f32_mul (python_quotient255 (Z.of_nat n)) f32_255 in
                    is_finite r && in_int64 (trunc r) && (trunc r =? Z.of_nat n))
          (seq 0 256) = true.
Proof. vm_compute. reflexivity. Qed.

Lemma pixel_index_python_quotient255 i : 0 <= i <= 255 -> pixel_index (python_quotient255 i) = i.
Proof.
  intros Hi. pose proof python_quotient255_table as H. rewrite forallb_forall in H.
  specialize (H (Z.to_nat i)). rewrite Z2Nat.id in H by lia.
  assert (Hin : In (Z.to_nat i) (seq 0 256)) by (apply in_seq; lia).
  specialize (H Hin). cbn zeta in H.
  apply andb_true_iff in H. destruct H as [H H3].
  apply andb_true_iff in H. destruct H as [H1 H2].
  unfold pixel_index. rewrite to_long_trunc by assumption. apply Z.eqb_eq. exact H3.
Qed.

End Indices.

(** ** Broadcasting *)

Lemma chunks_concat {A} n k (l : list A) :
  length l = (n * k)%nat -> concat (chunks n k l) = l.
Proof.
  revert l. induction n as [|n IH]; intros l H; cbn [chunks concat].
  - destruct l; [reflexivity|discriminate].
  - rewrite IH.
    + apply firstn_skipn.
    + rewrite length_skipn. lia.
Qed.

Lemma chunks_length {A} n k (l : list A) c :
  length l = (n * k)%nat -> In c (chunks n k l) -> length c = k.
Proof.
  revert l. induction n as [|n IH]; intros l H Hin; cbn [chunks] in Hin; [contradiction|].
  destruct Hin as [<-|Hin].
  - rewrite length_firstn. lia.
  - apply (IH (skipn k l)); [rewrite length_skipn; lia|exact Hin].
Qed.

Lemma chunks_count {A} n k (l : list A) : length (chunks n k l) = n.
Proof. revert l. induction n as [|n IH]; intros l; cbn [chunks length]; [reflexivity|]. rewrite IH. reflexivity. Qed.

Lemma chunks_In {A} n k (l : list A) c x : In c (chunks n k l) -> In x c -> In x l.
Proof.
  revert l. induction n as [|n IH]; intros l Hc Hx; cbn [chunks] in Hc; [contradiction|].
  destruct Hc as [<-|Hc].
  - rewrite <- (firstn_skipn k l). apply in_or_app. left. exact Hx.
  - rewrite <- (firstn_skipn k l). apply in_or_app. right. apply (IH _ Hc Hx).
Qed.

Lemma chunks_map {A B} (g : A -> B) n k (l : list A) :
  chunks n k (map g l) = map (map g) (chunks n k l).
Proof.
  revert l. induction n as [|n IH]; intros l; cbn [chunks map]; [reflexivity|].
  rewrite firstn_map, skipn_map, IH. reflexivity.
Qed.

Lemma concat_repeat_length {A} (l : list A) m :
  length (concat (repeat l m)) = (m * length l)%nat.
Proof. induction m as [|m IH]; cbn [repeat concat]; [reflexivity|]. rewrite length_app, IH. lia. Qed.

Lemma concat_repeat_In {A} (l : list A) m x : In x (concat (repeat l m)) -> In x l.
Proof.
  induction m as [|m IH]; cbn [repeat concat]; [contradiction|].
  intros H. apply in_app_or in H. destruct H; [assumption|apply IH; assumption].
Qed.

Lemma concat_repeat_map {A B} (g : A -> B) (l : list A) m :
  concat (repeat (map g l) m) = map g (concat (repeat l m)).
Proof. induction m as [|m IH]; cbn [repeat concat]; [reflexivity|]. rewrite map_app, IH. reflexivity. Qed.

Lemma concat_length_const {A} (ll : list (list A)) k :
  (forall c, In c ll -> length c = k) -> length (concat ll) = (length ll * k)%nat.
Proof.
  induction ll as [|c ll IH]; intros H; cbn [concat length]; [reflexivity|].
  rewrite length_app, IH, (H c) by (intros; try apply H; cbn; auto). lia.
Qed.

Lemma expand_id {A} (s : list nat) (d : list A) :
  length d = numel s -> expand s s d = d.
Proof.
  revert d. induction s as [|n s IH]; intros d H; cbn [expand]; [reflexivity|].
  rewrite Nat.eqb_refl.
  change (numel (n :: s)) with (n * numel s)%nat in H.
  rewrite <- (chunks_concat n (numel s) d H) at 2. f_equal.
  rewrite <- (map_id (chunks n (numel s) d)) at 2.
  apply map_ext_in. intros c Hc. apply IH. eapply chunks_length; eassumption.
Qed.

Lemma expand_length {A} (from to' : list nat) (d : list A) :
  expands_to from to' -> length d = numel from -> length (expand from to' d) = numel to'.
Proof.
  intros Hc. revert d. induction Hc as [|n m from to' Hnm Hc IH]; intros d H; cbn [expand]; [exact H|].
  change (numel (n :: from)) with (n * numel from)%nat in H.
  change (numel (m :: to')) with (m * numel to')%nat.
  destruct (Nat.eqb_spec n m) as [->|Hne].
  - rewrite (concat_length_const _ (numel to')).
    + rewrite length_map, chunks_count. reflexivity.
    + intros c Hin. apply in_map_iff in Hin. destruct Hin as (c0 & <- & Hc0).
      apply IH. eapply chunks_length; eassumption.
  - destruct Hnm as [->| ->]; [congruence|].
    rewrite concat_repeat_length, IH by lia. reflexivity.
Qed.

Lemma expand_In {A} (from to' : list nat) (d : list A) x :
  In x (expand from to' d) -> In x d.
Proof.
  revert to' d. induction from as [|n from IH]; intros to' d H; cbn [expand] in H; [exact H|].
  destruct to' as [|m to']; [exact H|].
  destruct (Nat.eqb n m).
  - apply in_concat in H. destruct H as (c & Hc & Hx).
    apply in_map_iff in Hc. destruct Hc as (c0 & <- & Hc0).
    eapply chunks_In; [exact Hc0|]. eapply IH. exact Hx.
  - apply concat_repeat_In in H. eapply IH. exact H.
Qed.

Lemma expand_map {A B} (g : A -> B) (from to' : list nat) (d : list A) :
  expand from to' (map g d) = map g (expand from to' d).
Proof.
  revert to' d. induction from as [|n from IH]; intros to' d; cbn [expand]; [reflexivity|].
  destruct to' as [|m to']; [reflexivity|].
  destruct (Nat.eqb n m).
  - rewrite chunks_map, concat_map, !map_map. f_equal. apply map_ext. intros c. apply IH.
  - rewrite IH. apply concat_repeat_map.
Qed.

Lemma broadcast_shape_expands s1 s2 s :
  broadcast_shape s1 s2 = Some s -> expands_to s1 s /\ expands_to s2 s /\ broadcast_shape s s2 = Some s.
Proof.
  revert s2 s. induction s1 as [|a s1 IH]; intros s2 s H; destruct s2 as [|b s2]; cbn [broadcast_shape] in H; try discriminate.
  - injection H as <-. repeat split; constructor.
  - destruct (broadcast_shape s1 s2) as [r|] eqn:E; [|discriminate].
    destruct (IH s2 r E) as (H1 & H2 & H3).
    destruct (Nat.eqb_spec a b) as [->|Hab].
    + injection H as <-. repeat split; try (constructor; [left; reflexivity|assumption]).
      cbn [broadcast_shape]. rewrite H3, Nat.eqb_refl. reflexivity.
    + destruct (Nat.eqb_spec a 1) as [->|Ha].
      * injection H as <-. repeat split; try (constructor; [auto|assumption]).
        cbn [broadcast_shape]. rewrite H3, Nat.eqb_refl. reflexivity.
      * destruct (Nat.eqb_spec b 1) as [->|Hb]; [|discriminate].
        injection H as <-. repeat split; try (constructor; [auto|assumption]).
        cbn [broadcast_shape]. rewrite H3.
        destruct (Nat.eqb_spec a 1); [congruence|]. reflexivity.
Qed.

Lemma broadcast_shape_length s1 s2 s :
  broadcast_shape s1 s2 = Some s -> length s = length s1 /\ length s = length s2.
Proof.
  intros H. destruct (broadcast_shape_expands _ _ _ H) as (H1 & H2 & _).
  split; symmetry; eapply Forall2_length; eassumption.
Qed.

Lemma numel_pad_left n s : numel (pad_left n s) = numel s.
Proof.
  unfold pad_left. rewrite numel_app.
  assert (H : numel (repeat 1%nat (n - length s)) = 1%nat).
  { induction (n - length s)%nat as [|k IH]; [reflexivity|].
    cbn [repeat]. change (numel (1%nat :: repeat 1%nat k)) with (1 * numel (repeat 1%nat k))%nat.
    rewrite IH. reflexivity. }
  rewrite H. lia.
Qed.

Lemma pad_left_length n s : (length s <= n)%nat -> length (pad_left n s) = n.
Proof. intros H. unfold pad_left. rewrite length_app, repeat_length. lia. Qed.

Lemma pad_left_id n s : length s = n -> pad_left n s = s.
Proof. intros H. unfold pad_left. rewrite H, Nat.sub_diag. reflexivity. Qed.

Lemma zip_with_length {A B C} (f : A -> B -> C) l1 l2 :
  length (zip_with f l1 l2) = Nat.min (length l1) (length l2).
Proof.
  revert l2. induction l1 as [|x l1 IH]; intros [|y l2]; cbn [zip_with length]; try reflexivity.
  rewrite IH. reflexivity.
Qed.

Lemma zip_blend (X Y : list f32) :
  zip_with f32_add (zip_with f32_mul X Y) (map (fun a => f32_sub f32_one a) Y) = zip_with blend1 X Y.
Proof.
  revert Y. induction X as [|x X IH]; intros [|y Y]; cbn [zip_with map]; try reflexivity.
  rewrite IH. reflexivity.
Qed.

Lemma zip_with_Forall {A B C} (f : A -> B -> C) (P : C -> Prop) l1 l2 :
  (forall x y, In x l1 -> In y l2 -> P (f x y)) -> Forall P (zip_with f l1 l2).
Proof.
  revert l2. induction l1 as [|x l1 IH]; intros [|y l2] H; cbn [zip_with]; try constructor.
  - apply H; left; reflexivity.
  - apply IH. intros; apply H; right; assumption.
Qed.

(** Line 60, with the broadcasting written out: every element of the
    result is [blend1 c a] for a color element [c] and the mask element
    [a] at the same position. *)
Lemma blend_spec (colored acc : tensor f32) :
  tensor_wf colored -> tensor_wf acc ->
  let n := Nat.max (length (shape colored)) (length (shape acc)) in
  let sc := pad_left n (shape colored) in
  let sa := pad_left n (shape acc) in
  blend colored acc =
  match broadcast_shape sc sa with
  | None => Err RuntimeError
  | Some s => Ok (mkTensor s (zip_with blend1 (expand sc s (data colored)) (expand sa s (data acc))))
  end.
Proof.
  intros Hwc Hwa n sc sa. unfold blend, broadcast2 at 1. fold n. fold sc. fold sa.
  destruct (broadcast_shape sc sa) as [s|] eqn:Es; [|reflexivity].
  cbn [bind]. unfold broadcast2. cbn [shape data tmap].
  destruct (broadcast_shape_expands _ _ _ Es) as (Hc & Ha & Hidem).
  destruct (broadcast_shape_length _ _ _ Es) as (Hl1 & Hl2).
  assert (Hn : length s = n) by (rewrite Hl1; unfold sc; apply pad_left_length; lia).
  assert (Hmax : Nat.max (length s) (length (shape acc)) = n) by lia.
  rewrite Hmax. rewrite (pad_left_id n s Hn). fold sa. rewrite Hidem.
  f_equal. f_equal.
  assert (HlX : length (expand sc s (data colored)) = numel s).
  { apply expand_length; [exact Hc|]. unfold sc. rewrite numel_pad_left. exact Hwc. }
  assert (HlY : length (expand sa s (data acc)) = numel s).
  { apply expand_length; [exact Ha|]. unfold sa. rewrite numel_pad_left. exact Hwa. }
  rewrite expand_id by (rewrite zip_with_length; lia).
  rewrite expand_map. apply zip_blend.
Qed.

(** ** The value of a rounded result *)

Lemma finish_bounded prec emax s m e :
  0 < prec -> bounded prec emax m e = true ->
  finish prec emax s (Z.pos m) e = S754_finite s m e.
Proof.
  intros Hp Hb. destruct (bounded_facts prec emax Hp m e Hb) as (_ & He & _ & Hm & _).
  unfold finish. cbn [Z.eqb].
  destruct (Z.ltb_spec (Z.pos m) (2 ^ prec)); [|lia].
  destruct (Z.leb_spec e (emax - prec)); [|lia]. reflexivity.
Qed.

(** The value of a finished mantissa. *)
Lemma finish_value prec emax s m1 e1 m e :
  0 < prec -> 0 <= m1 <= 2 ^ prec ->
  finish prec emax s m1 e1 = S754_finite s m e ->
  e1 <= e /\ Z.pos m * 2 ^ (e - e1) = m1.
Proof.
  intros Hp Hm1. unfold finish.
  destruct (Z.eqb_spec m1 0); [discriminate|].
  destruct (Z.ltb_spec m1 (2 ^ prec)).
  - destruct (e1 <=? emax - prec); [|discriminate]. intros Hf. injection Hf as <- <-.
    split; [lia|]. rewrite Z.sub_diag, Z.pow_0_r, Z2Pos.id by lia. lia.
  - destruct (e1 + 1 <=? emax - prec); [|discriminate]. intros Hf. injection Hf as <- <-.
    split; [lia|]. replace (e1 + 1 - e1) with 1 by lia.
    pose proof (pow2_pos (prec - 1) ltac:(lia)).
    rewrite Z2Pos.id by lia. change (2 ^ 1) with 2.
    pose proof (pow2_double prec ltac:(lia)). lia.
Qed.

(** ** Multiplying by one, adding zero *)

Lemma f32_mul_one c : f32_valid c = true -> f32_mul c f32_one = c.
Proof.
  intros Hv. destruct c as [s|s| |s m e]; try (destruct s; reflexivity); try reflexivity.
  cbn [f32_valid valid_binary] in Hv.
  unfold f32_mul, f32_one.
  rewrite (SFmul_finite_eq 24 128 eq_refl eq_refl) by (try assumption; reflexivity).
  destruct (bounded_facts 24 128 eq_refl m e Hv) as (Hc & _).
  change (Z.pos 8388608) with (2 ^ 23).
  rewrite Zdigits2_mul_pow2 by lia.
  replace (Zdigits2 (Z.pos m) + 23 + (e + -23)) with (Zdigits2 (Z.pos m) + e) by lia.
  rewrite Hc. replace (e - (e + -23)) with 23 by lia.
  rewrite rne_exact by lia.
  rewrite xorb_false_r. apply finish_bounded; [reflexivity|exact Hv].
Qed.

Lemma f32_add_zero c : is_neg_zero c = false -> f32_add c f32_zero = c.
Proof. destruct c as [[|]| | |]; try discriminate; reflexivity. Qed.

Lemma blend1_one c :
  f32_valid c = true -> is_neg_zero c = false -> blend1 c f32_one = c.
Proof.
  intros Hv Hz. unfold blend1. rewrite f32_mul_one by exact Hv.
  change (f32_sub f32_one f32_one) with f32_zero. apply f32_add_zero. exact Hz.
Qed.

Lemma blend1_zero c : is_finite c = true -> blend1 c f32_zero = f32_one.
Proof. destruct c as [s|s| |s m e]; try discriminate; intros _; reflexivity. Qed.

(** ** The blend stays in [0,1] *)

Lemma scaled_lt_bound A E B eb :
  -400 <= E -> -400 <= eb ->
  A * 2 ^ (E + 400) < B * 2 ^ (eb + 400) ->
  A * 2 ^ (E - Z.min E eb) < B * 2 ^ (eb - Z.min E eb).
Proof.
  intros HE Heb H. set (c := Z.min E eb).
  assert (Hc : -400 <= c) by (unfold c; lia).
  replace (E + 400) with ((E - c) + (c + 400)) in H by lia.
  replace (eb + 400) with ((eb - c) + (c + 400)) in H by lia.
  rewrite (Z.pow_add_r 2 (E - c) (c + 400)) in H by lia.
  rewrite (Z.pow_add_r 2 (eb - c) (c + 400)) in H by lia.
  pose proof (pow2_pos (c + 400) ltac:(lia)) as HW.
  apply (Z.mul_lt_mono_pos_r (2 ^ (c + 400))); [exact HW|].
  rewrite <- !Z.mul_assoc. exact H.
Qed.

Lemma pow2_le_mono a b : a <= b -> 0 <= a -> 2 ^ a <= 2 ^ b.
Proof. intros. apply Z.pow_le_mono_r; lia. Qed.

(** The IEEE order of two valid positive float32 is the order of their values. *)
Lemma fle_scaled mx ex my ey :
  bounded 24 128 mx ex = true -> bounded 24 128 my ey = true ->
  fle (S754_finite false mx ex) (S754_finite false my ey) = true ->
  scaled (Z.pos mx) ex <= scaled (Z.pos my) ey.
Proof.
  intros Hx Hy H. unfold fle in H. apply SFleb_pos_finite in H.
  destruct (f32_bounded_facts mx ex Hx) as (Hex & Hmx & _).
  destruct (f32_bounded_facts my ey Hy) as (Hey & Hmy & Hny).
  unfold scaled.
  destruct H as [Hlt|[-> Hle]].
  - replace (ey + 400) with ((ey - ex) + (ex + 400)) by lia.
    rewrite (Z.pow_add_r 2 (ey - ex) (ex + 400)) by lia.
    pose proof (pow2_pos (ex + 400) ltac:(lia)).
    assert (2 ^ 1 <= 2 ^ (ey - ex)) by (apply pow2_le_mono; lia).
    change (2 ^ 1) with 2 in *. specialize (Hny ltac:(lia)).
    change (2 ^ 24) with 16777216 in *. change (2 ^ 23) with 8388608 in *.
    assert (Hmid : Z.pos mx <= Z.pos my * 2 ^ (ey - ex)) by nia.
    rewrite Z.mul_assoc. apply Z.mul_le_mono_nonneg_r; [lia|exact Hmid].
  - pose proof (pow2_pos (ey + 400) ltac:(lia)).
    apply Z.mul_le_mono_nonneg_r; lia.
Qed.

Lemma fle_zero_finish s m1 e1 : s = false -> fle f32_zero (finish 24 128 s m1 e1) = true.
Proof.
  intros ->. destruct (finish_cases 24 128 false m1 e1) as [E|[E|(m & e & E)]]; rewrite E; reflexivity.
Qed.

(** Rounding an aligned positive mantissa: the result and its value. *)
Lemma round_pos_value M E :
  0 < M -> E <= fexp 24 128 (Zdigits2 M + E) -> -400 <= E ->
  let r := binary_round_aux 24 128 false M E loc_Exact in
  let e1 := fexp 24 128 (Zdigits2 M + E) in
  f32_valid r = true /\ fle f32_zero r = true /\
  match r with
  | S754_zero _ => True
  | S754_finite s m e =>
      s = false /\ 2 * scaled (Z.pos m) e <= 2 * scaled M E + 2 ^ (e1 + 400)
  | S754_infinity _ => True
  | S754_nan => False
  end.
Proof.
  intros HM HE HK r e1.
  assert (Hv : f32_valid r = true) by (apply (binary_round_aux_valid 24 128 eq_refl); [lia|exact HE]).
  split; [exact Hv|].
  unfold r in *. rewrite (binary_round_aux_exact 24 128 eq_refl) in * by (try lia; exact HE).
  fold e1 in Hv |- *.
  split; [apply fle_zero_finish; reflexivity|].
  set (m1 := rne M (e1 - E)) in *.
  pose proof (stage1_bounds 24 128 eq_refl M E ltac:(lia) HE) as [Hqb _]. cbn zeta in Hqb. fold e1 in Hqb.
  pose proof (rne_range M (e1 - E)) as Hr. fold m1 in Hr.
  pose proof (rne_error M (e1 - E) ltac:(unfold e1; lia)) as Herr. fold m1 in Herr.
  destruct (finish_cases 24 128 false m1 e1) as [Ef|[Ef|(m & e & Ef)]]; rewrite Ef; try exact I.
  split; [reflexivity|].
  destruct (finish_value 24 128 false m1 e1 m e eq_refl ltac:(lia) Ef) as [He Hm].
  unfold scaled.
  assert (Hs1 : Z.pos m * 2 ^ (e + 400) = m1 * 2 ^ (e1 + 400)).
  { rewrite <- Hm. replace (e + 400) with ((e - e1) + (e1 + 400)) by lia.
    rewrite (Z.pow_add_r 2 (e - e1) (e1 + 400)) by lia. lia. }
  rewrite Hs1.
  replace (e1 + 400) with ((e1 - E) + (E + 400)) by lia.
  rewrite (Z.pow_add_r 2 (e1 - E) (E + 400)) by (unfold e1 in *; lia).
  pose proof (pow2_pos (E + 400) ltac:(lia)).
  pose proof (pow2_pos (e1 - E) ltac:(unfold e1 in *; lia)).
  nia.
Qed.

(** [binary_round] of a positive mantissa, as [binary_round_aux] of an
    aligned one with the same value. *)
Lemma binary_round_pos m e :
  -400 <= e ->
  exists Mz Ez,
    binary_round 24 128 false m e = binary_round_aux 24 128 false Mz Ez loc_Exact /\
    0 < Mz /\ Ez <= fexp 24 128 (Zdigits2 Mz + Ez) /\ -400 <= Ez /\
    scaled Mz Ez = scaled (Z.pos m) e /\
    Zdigits2 Mz + Ez = Zdigits2 (Z.pos m) + e.
Proof.
  intros He. rewrite binary_round_eq.
  destruct (binary_round_aligned 24 128 m e) as (H1 & H2 & H3 & H4). cbn zeta in *.
  destruct (shl_align_spec m e (fexp 24 128 (Zdigits2 (Z.pos m) + e))) as [Hs _].
  set (mz := fst (shl_align m e (fexp 24 128 (Zdigits2 (Z.pos m) + e)))) in *.
  set (ez := snd (shl_align m e (fexp 24 128 (Zdigits2 (Z.pos m) + e)))) in *.
  assert (Hez : -400 <= ez) by (rewrite Hs; unfold fexp, emin; lia).
  exists (Z.pos mz), ez. repeat split; try assumption; try lia.
  unfold scaled. rewrite H3.
  replace (e + 400) with ((e - ez) + (ez + 400)) by lia.
  rewrite (Z.pow_add_r 2 (e - ez) (ez + 400)) by lia. lia.
Qed.

Lemma fle_trans x y z :
  is_nan x = false -> is_nan y = false -> is_nan z = false ->
  fle x y = true -> fle y z = true -> fle x z = true.
Proof.
  intros Hx Hy Hz H1 H2. apply fle_key; try assumption.
  eapply key_le_trans; [apply (fle_key x y)|apply (fle_key y z)]; assumption.
Qed.

(** The product of a color in [0,1] and a mask value is at most the mask value. *)
Lemma mul_unit mc ec ma ea :
  bounded 24 128 mc ec = true -> bounded 24 128 ma ea = true ->
  fle (S754_finite false mc ec) f32_one = true ->
  let p := f32_mul (S754_finite false mc ec) (S754_finite false ma ea) in
  f32_valid p = true /\
  (p = S754_zero false \/
   exists mp ep, p = S754_finite false mp ep /\ fle p (S754_finite false ma ea) = true).
Proof.
  intros Hc Ha Hle p.
  assert (Hv : f32_valid p = true) by (apply f32_mul_valid; assumption).
  split; [exact Hv|].
  destruct (le_one_mantissa mc ec Hc Hle) as [Hec Hmc].
  assert (Hfle : fle p (S754_finite false ma ea) = true).
  { unfold p, f32_mul, fle. cbn [SFmul xorb].
    apply (round_le_bound 24 128 eq_refl).
    - lia.
    - apply (mul_aligned 24 128 eq_refl eq_refl); assumption.
    - exact Ha.
    - replace (Z.min (ec + ea) ea) with (ec + ea) by lia.
      replace (ec + ea - (ec + ea)) with 0 by lia.
      replace (ea - (ec + ea)) with (- ec) by lia.
      rewrite Z.pow_0_r, Pos2Z.inj_mul.
      pose proof (pow2_pos (- ec) ltac:(lia)). nia. }
  unfold p, f32_mul in *. rewrite (SFmul_finite_eq 24 128 eq_refl eq_refl) in * by assumption.
  cbn [xorb] in *.
  match goal with |- context [finish 24 128 false ?m1 ?e1] =>
    destruct (finish_cases 24 128 false m1 e1) as [E|[E|(m & e & E)]]; rewrite E in *
  end.
  - left; reflexivity.
  - discriminate.
  - right. exists m, e. split; [reflexivity|exact Hfle].
Qed.

(** [1 - a] for a mask value in (0,1]: at most one, and at most half a
    unit in the last place above the exact difference. *)
Lemma sub_unit ma ea :
  bounded 24 128 ma ea = true ->
  fle (S754_finite false ma ea) f32_one = true ->
  let q := f32_sub f32_one (S754_finite false ma ea) in
  f32_valid q = true /\
  (q = S754_zero false \/
   exists mq eq, q = S754_finite false mq eq /\ fle q f32_one = true /\
     2 * scaled (Z.pos mq) eq <= 2 * (2 ^ 400 - scaled (Z.pos ma) ea) + 2 ^ 376).
Proof.
  intros Ha Hle q.
  assert (Hv : f32_valid q = true) by (apply f32_sub_valid; [reflexivity|exact Ha]).
  split; [exact Hv|].
  destruct (le_one_mantissa ma ea Ha Hle) as [Hea Hma].
  destruct (f32_bounded_facts ma ea Ha) as (Hbe & Hbm & _).
  unfold q, f32_sub, f32_one in *. cbn [SFsub cond_Zopp] in *.
  replace (Z.min (-23) ea) with ea in * by lia.
  destruct (shl_align_spec 8388608 (-23) ea) as [_ H1].
  destruct (shl_align_spec ma ea ea) as [_ H2].
  replace (Z.min (-23) ea) with ea in H1 by lia.
  replace (Z.min ea ea) with ea in H2 by lia.
  replace (ea - ea) with 0 in H2 by lia. rewrite Z.pow_0_r, Z.mul_1_r in H2.
  change (Z.pos 8388608) with (2 ^ 23) in H1.
  rewrite <- Z.pow_add_r in H1 by lia. replace (23 + (-23 - ea)) with (- ea) in H1 by lia.
  rewrite H1, H2 in *.
  destruct (2 ^ (- ea) - Z.pos ma) as [|d|d] eqn:ED; try lia.
  - left; reflexivity.
  - cbn [binary_normalize] in *.
    destruct (binary_round_pos d ea ltac:(lia)) as (Mz & Ez & Er & HMz & Hal & HEz & Hsc & Hdig).
    rewrite Er in *.
    pose proof (round_pos_value Mz Ez HMz Hal HEz) as (_ & _ & Hval). cbn zeta in Hval.
    assert (Hscd : scaled (Z.pos d) ea = 2 ^ 400 - scaled (Z.pos ma) ea).
    { unfold scaled. rewrite <- ED. rewrite Z.mul_sub_distr_r.
      rewrite <- Z.pow_add_r by lia. replace (- ea + (ea + 400)) with 400 by lia. reflexivity. }
    assert (Hpos : 0 < scaled (Z.pos ma) ea).
    { unfold scaled. pose proof (pow2_pos (ea + 400) ltac:(lia)). nia. }
    assert (Hfle1 : fle (binary_round_aux 24 128 false Mz Ez loc_Exact) (S754_finite false 8388608 (-23)) = true).
    { apply (round_le_bound 24 128 eq_refl); [lia|exact Hal|reflexivity|].
      apply scaled_lt_bound; [lia|lia|].
      change (Mz * 2 ^ (Ez + 400)) with (scaled Mz Ez) in *.
      replace (2 * Mz * 2 ^ (Ez + 400)) with (2 * scaled Mz Ez) by (unfold scaled; lia).
      rewrite Hsc, Hscd. change (-23 + 400) with 377.
      change (2 ^ 400) with (2 ^ 377 * 8388608). pose proof (pow2_pos 377 ltac:(lia)). lia. }
    pose proof (binary_round_aux_exact 24 128 eq_refl false Mz Ez ltac:(lia) Hal) as X.
    match type of X with _ = finish 24 128 false ?m1 ?e1 =>
      destruct (finish_cases 24 128 false m1 e1) as [E|[E|(mq & eq & E)]]; rewrite E in X end;
      rewrite X in *.
    + left; reflexivity.
    + discriminate.
    + right. destruct Hval as [_ Hval]. exists mq, eq. split; [reflexivity|]. split; [exact Hfle1|].
      rewrite Hsc, Hscd in Hval.
      assert (He1 : fexp 24 128 (Zdigits2 Mz + Ez) <= -24).
      { rewrite Hdig.
        assert (Zdigits2 (Z.pos d) <= - ea).
        { destruct (Z_le_gt_dec (Zdigits2 (Z.pos d)) (- ea)); [assumption|exfalso].
          pose proof (Zdigits2_bounds (Z.pos d) ltac:(lia)) as [Hb _].
          assert (2 ^ (- ea) <= 2 ^ (Zdigits2 (Z.pos d) - 1)) by (apply pow2_le_mono; lia). lia. }
        unfold fexp, emin. lia. }
      assert (2 ^ (fexp 24 128 (Zdigits2 Mz + Ez) + 400) <= 2 ^ 376).
      { apply pow2_le_mono; [lia|]. unfold fexp, emin. lia. }
      lia.
Qed.

(** A sum of two positive float32 whose exact value is at most
    [1 + 2^-25] rounds to at most one. *)
Lemma add_unit mp ep mq eq :
  bounded 24 128 mp ep = true -> bounded 24 128 mq eq = true ->
  scaled (Z.pos mp) ep + scaled (Z.pos mq) eq <= 2 ^ 400 + 2 ^ 375 ->
  in_unit (f32_add (S754_finite false mp ep) (S754_finite false mq eq)) = true.
Proof.
  intros Hp Hq Hsum.
  destruct (f32_bounded_facts mp ep Hp) as (Hpe & _ & _).
  destruct (f32_bounded_facts mq eq Hq) as (Hqe & _ & _).
  unfold f32_add. cbn [SFadd cond_Zopp].
  set (ez := Z.min ep eq).
  destruct (shl_align_spec mp ep ez) as [_ H1].
  destruct (shl_align_spec mq eq ez) as [_ H2].
  replace (Z.min ep ez) with ez in H1 by (unfold ez; lia).
  replace (Z.min eq ez) with ez in H2 by (unfold ez; lia).
  set (mp' := fst (shl_align mp ep ez)) in *.
  set (mq' := fst (shl_align mq eq ez)) in *.
  change (Z.pos mp' + Z.pos mq') with (Z.pos (mp' + mq')). cbn [binary_normalize].
  destruct (binary_round_pos (mp' + mq') ez ltac:(unfold ez; lia)) as (Mz & Ez & Er & HMz & Hal & HEz & Hsc & Hdig).
  rewrite Er.
  assert (Hs : scaled (Z.pos (mp' + mq')) ez = scaled (Z.pos mp) ep + scaled (Z.pos mq) eq).
  { unfold scaled. rewrite Pos2Z.inj_add, H1, H2, Z.mul_add_distr_r.
    rewrite <- !Z.mul_assoc, <- !Z.pow_add_r by (unfold ez; lia).
    replace (ep - ez + (ez + 400)) with (ep + 400) by lia.
    replace (eq - ez + (ez + 400)) with (eq + 400) by lia. reflexivity. }
  unfold in_unit. apply andb_true_intro. split.
  - rewrite (binary_round_aux_exact 24 128 eq_refl) by (try lia; exact Hal).
    apply fle_zero_finish. reflexivity.
  - unfold f32_one. apply (round_le_bound 24 128 eq_refl); [lia|exact Hal|reflexivity|].
    apply scaled_lt_bound; [lia|lia|].
    replace (2 * Mz * 2 ^ (Ez + 400)) with (2 * scaled Mz Ez) by (unfold scaled; lia).
    rewrite Hsc, Hs. change (-23 + 400) with 377.
    change (2 ^ 400) with (2 ^ 375 * 33554432) in Hsum.
    change (2 ^ 377) with (2 ^ 375 * 4).
    pose proof (pow2_pos 375 ltac:(lia)). lia.
Qed.

Lemma in_unit_cases x :
  in_unit x = true ->
  (exists s, x = S754_zero s) \/
  (exists m e, x = S754_finite false m e /\ fle x f32_one = true).
Proof.
  unfold in_unit. intros H. apply andb_true_iff in H. destruct H as [H0 H1].
  destruct x as [s|s| |s m e].
  - left; eauto.
  - destruct s; discriminate.
  - discriminate.
  - destruct s; [discriminate|]. right. eauto.
Qed.

Lemma in_unit_zero s : in_unit (S754_zero s) = true.
Proof. destruct s; reflexivity. Qed.

Lemma add_zero_l s y : is_nan y = false -> in_unit y = true -> in_unit (f32_add (S754_zero s) y) = true.
Proof.
  intros _ Hy. destruct (in_unit_cases y Hy) as [[s' ->]|(m & e & -> & _)].
  - destruct s, s'; reflexivity.
  - exact Hy.
Qed.

(** Line 60 on one element keeps [0,1]: a color and a mask value of
    [0,1] blend to a float32 of [0,1]. *)
Lemma blend1_unit c a :
  f32_valid c = true -> in_unit c = true ->
  f32_valid a = true -> in_unit a = true ->
  in_unit (blend1 c a) = true.
Proof.
  intros Hvc Hc Hva Ha. unfold blend1.
  destruct (in_unit_cases a Ha) as [[sa ->]|(ma & ea & -> & Hale)].
  - (* a zero mask value: white *)
    destruct (in_unit_cases c Hc) as [[sc ->]|(mc & ec & -> & _)]; destruct sa; try destruct sc; reflexivity.
  - cbn [f32_valid valid_binary] in Hva.
    destruct (sub_unit ma ea Hva Hale) as (Hvq & Hq). cbn zeta in Hq.
    assert (Hqu : in_unit (f32_sub f32_one (S754_finite false ma ea)) = true).
    { destruct Hq as [->|(mq & eq & -> & Hle & _)]; [reflexivity|].
      unfold in_unit. rewrite Hle. reflexivity. }
    destruct (in_unit_cases c Hc) as [[sc ->]|(mc & ec & -> & Hcle)].
    + (* a zero color *)
      change (f32_mul (S754_zero sc) (S754_finite false ma ea)) with (S754_zero (xorb sc false)).
      apply add_zero_l; [|exact Hqu].
      destruct Hq as [->|(mq & eq & -> & _)]; reflexivity.
    + cbn [f32_valid valid_binary] in Hvc.
      destruct (mul_unit mc ec ma ea Hvc Hva Hcle) as (Hvp & Hp). cbn zeta in Hp.
      destruct Hp as [->|(mp & ep & Ep & Hple)].
      * apply add_zero_l; [|exact Hqu].
        destruct Hq as [->|(mq & eq & -> & _)]; reflexivity.
      * rewrite Ep in *. cbn [f32_valid valid_binary] in Hvp.
        destruct Hq as [->|(mq & eq & Eq & Hqle & Hqv)].
        -- (* the mask value is one *)
           cbn [f32_add SFadd]. unfold in_unit. apply andb_true_intro. split; [reflexivity|].
           apply (fle_trans _ (S754_finite false ma ea)); try reflexivity; assumption.
        -- rewrite Eq in *. cbn [f32_valid valid_binary] in Hvq.
           apply add_unit; try assumption.
           pose proof (fle_scaled mp ep ma ea Hvp Hva Hple) as Hpa.
           change (2 ^ 376) with (2 * 2 ^ 375) in Hqv. lia.
Qed.

(** ** Blending a colored image *)

Lemma strided_length {A} n k (l : list A) :
  length l = (n * S k)%nat -> length (strided n (S k) l) = n.
Proof.
  revert l. induction n as [|n IH]; intros l H; [reflexivity|].
  destruct l as [|x l]; [discriminate|]. cbn [strided length]. f_equal.
  apply IH. rewrite length_skipn. cbn [length] in H |- *. rewrite Nat.mul_succ_l in H. lia.
Qed.

Lemma select_last0_wf {A} (t idx : tensor A) :
  tensor_wf t -> select_last0 t = Ok idx -> tensor_wf idx.
Proof.
  unfold tensor_wf, select_last0. intros Hwf H.
  destruct (rev (shape t)) as [|[|k] lead] eqn:E; try discriminate.
  injection H as <-. cbn [data shape].
  apply strided_length.
  assert (Hs : shape t = rev lead ++ [S k]).
  { rewrite <- (rev_involutive (shape t)), E. reflexivity. }
  rewrite Hwf, Hs, numel_app. cbn. lia.
Qed.

Lemma pixels_In rows v : In v (pixels rows) -> exists c, In c rows /\ In v (rgb_list c).
Proof.
  unfold pixels. intros H. apply in_concat in H. destruct H as (l & Hl & Hv).
  apply in_map_iff in Hl. destruct Hl as (c & <- & Hc). eauto.
Qed.

Lemma rows_in_table table l rows :
  mapM (table_row table) l = Ok rows -> length rows = length l /\ forall c, In c rows -> In c table.
Proof.
  intros H. apply mapM_ok_inv in H. split.
  - symmetry. eapply Forall2_length. exact H.
  - induction H as [|i c l rows Hic _ IH]; intros c' Hc'; [contradiction|].
    destruct Hc' as [<-|Hc']; [eapply table_row_inv; exact Hic|apply IH; exact Hc'].
Qed.

Lemma broadcast_shape_last lead :
  broadcast_shape (lead ++ [3%nat]) (lead ++ [1%nat]) = Some (lead ++ [3%nat]).
Proof.
  induction lead as [|a lead IH]; [reflexivity|].
  cbn [app broadcast_shape]. rewrite IH, Nat.eqb_refl. reflexivity.
Qed.

Lemma zip_with_const_r {A B} (f : A -> B -> A) (g : A -> A) (X : list A) (Y : list B) :
  (length X <= length Y)%nat ->
  (forall x y, In x X -> In y Y -> f x y = g x) ->
  zip_with f X Y = map g X.
Proof.
  revert Y. induction X as [|x X IH]; intros [|y Y] Hlen H; cbn [zip_with map]; try reflexivity.
  - cbn in Hlen. lia.
  - rewrite (H x y) by (left; reflexivity). f_equal.
    apply IH; [cbn in Hlen; lia|]. intros; apply H; right; assumption.
Qed.

Section Blend.
Context {RT : Runtime}.

(** The image [apply_colormap] returns on a single-channel tensor. *)
Lemma apply_colormap_rows image cmap table lead out :
  cm_colors cmap = Some table -> shape image = lead ++ [1%nat] -> tensor_wf image ->
  apply_colormap image cmap = Ok out ->
  exists rows, out = mkTensor (lead ++ [3%nat]) (pixels rows) /\
               length rows = numel lead /\ forall c, In c rows -> In c table.
Proof.
  intros Hc Hs Hwf H.
  destruct (apply_colormap_inv image cmap out H) as (table' & idx & rows & Hc' & Hsel & Hm & -> & _).
  rewrite Hc in Hc'. injection Hc' as <-.
  unfold scale_long, tmap in Hsel. rewrite Hs in Hsel.
  rewrite select_last0_unit in Hsel.
  2:{ rewrite length_map. unfold tensor_wf in Hwf. rewrite Hwf, Hs, numel_app. cbn. lia. }
  injection Hsel as <-. cbn [shape data] in *.
  destruct (rows_in_table table _ rows Hm) as [Hl Hin].
  exists rows. split; [reflexivity|]. split; [|exact Hin].
  rewrite Hl, length_map. unfold tensor_wf in Hwf. rewrite Hwf, Hs, numel_app. cbn. lia.
Qed.

(** Blending with a constant mask of the image's leading shape. *)
Lemma blend_full lead rows v (g : f32 -> f32) :
  length rows = numel lead ->
  (forall x, In x (pixels rows) -> blend1 x v = g x) ->
  blend (mkTensor (lead ++ [3%nat]) (pixels rows)) (full lead v) =
  Ok (mkTensor (lead ++ [3%nat]) (map g (pixels rows))).
Proof.
  intros Hlen Hg.
  rewrite blend_spec.
  2:{ apply pixels_wf. exact Hlen. }
  2:{ unfold tensor_wf, full. cbn [data shape]. rewrite repeat_length, numel_app. cbn. lia. }
  cbn zeta. unfold full. cbn [shape data].
  rewrite !length_app. cbn [length]. rewrite Nat.max_id.
  rewrite !pad_left_id by (rewrite length_app; reflexivity).
  rewrite broadcast_shape_last.
  destruct (broadcast_shape_expands _ _ _ (broadcast_shape_last lead)) as (_ & Hexp & _).
  rewrite expand_id by (apply pixels_wf; exact Hlen).
  f_equal. f_equal.
  apply zip_with_const_r.
  - rewrite (expand_length _ _ _ Hexp).
    + rewrite length_pixels, numel_app, Hlen. cbn. lia.
    + rewrite repeat_length, numel_app. cbn. lia.
  - intros x y Hx Hy. apply expand_In in Hy. apply repeat_spec in Hy. subst y. apply Hg. exact Hx.
Qed.

End Blend.

Lemma plain_color_spec table c x :
  forallb plain_color table = true -> In c table -> In x (rgb_list c) ->
  f32_valid x = true /\ is_finite x = true /\ is_neg_zero x = false.
Proof.
  intros Ht Hc Hx. rewrite forallb_forall in Ht. specialize (Ht c Hc).
  unfold plain_color in Ht. rewrite forallb_forall in Ht. specialize (Ht x Hx).
  apply andb_true_iff in Ht. destruct Ht as [Ht H3].
  apply andb_true_iff in Ht. destruct Ht as [H1 H2].
  apply negb_true_iff in H3. auto.
Qed.

Lemma color_ok_spec table c x :
  forallb color_ok table = true -> In c table -> In x (rgb_list c) ->
  f32_valid x = true /\ in_unit x = true.
Proof.
  intros Ht Hc Hx. rewrite forallb_forall in Ht. specialize (Ht c Hc).
  unfold color_ok in Ht. rewrite forallb_forall in Ht. specialize (Ht x Hx).
  apply andb_true_iff in Ht. exact Ht.
Qed.

(** ** Equal planes *)

Lemma feq_same x y : feq x y = true -> same_number x y.
Proof.
  unfold feq, SFeqb, SFcompare, same_number.
  destruct x as [sx|sx| |sx mx ex], y as [sy|sy| |sy my ey]; try discriminate;
    try (destruct sx); try (destruct sy); try discriminate; intros H;
    try (left; reflexivity); try (right; split; eauto; fail).
  - destruct (Z.compare_spec ex ey) as [->|E|E]; try discriminate.
    change (Pos.compare_cont Eq mx my) with (Pos.compare mx my) in H.
    destruct (Pos.compare_spec mx my) as [->|P|P]; try discriminate. left; reflexivity.
  - destruct (Z.compare_spec ex ey) as [->|E|E]; try discriminate.
    change (Pos.compare_cont Eq mx my) with (Pos.compare mx my) in H.
    destruct (Pos.compare_spec mx my) as [->|P|P]; try discriminate. left; reflexivity.
Qed.

Lemma SFsub_same_zero prec emax x y :
  same_number x y -> is_finite x = true -> exists s, SFsub prec emax y x = S754_zero s.
Proof.
  intros [<-|[[s ->] [s' ->]]] Hf.
  - destruct x as [s|s| |s m e]; try discriminate.
    + destruct s; eexists; reflexivity.
    + cbn [SFsub]. rewrite Z.sub_diag. eexists; reflexivity.
  - destruct s, s'; eexists; reflexivity.
Qed.

Lemma same_number_map (f : spec_float -> spec_float) x y :
  (forall s, exists s', f (S754_zero s) = S754_zero s') ->
  same_number x y -> same_number (f x) (f y).
Proof.
  intros Hz [<-|[[s ->] [s' ->]]]; [left; reflexivity|].
  right. split; apply Hz.
Qed.

(** A valid float32 is a double, exactly. *)
Lemma f64_of_f32_finite s m e :
  bounded 24 128 m e = true ->
  exists mz, f64_of_f32 (S754_finite s m e) = S754_finite s mz (Zdigits2 (Z.pos m) + e - 53) /\
             Z.pos mz = Z.pos m * 2 ^ (53 - Zdigits2 (Z.pos m)).
Proof.
  intros Hb.
  destruct (bounded_facts 24 128 eq_refl m e Hb) as (Hc & _ & Hmin & Hm & _).
  change (emin 24 128) with (-149) in Hmin.
  pose proof (Zdigits2_pos (Z.pos m) ltac:(lia)) as Hd.
  assert (Hd24 : Zdigits2 (Z.pos m) <= 24) by (unfold fexp in Hc; lia).
  set (d := Zdigits2 (Z.pos m)) in *.
  assert (Hf : fexp 53 1024 (d + e) = d + e - 53) by (unfold fexp, emin; lia).
  unfold f64_of_f32. rewrite binary_round_eq. fold d. rewrite Hf.
  destruct (shl_align_spec m e (d + e - 53)) as [Hs Hmz].
  replace (Z.min e (d + e - 53)) with (d + e - 53) in Hs, Hmz by lia.
  replace (e - (d + e - 53)) with (53 - d) in Hmz by lia.
  rewrite Hs. set (mz := fst (shl_align m e (d + e - 53))) in *.
  assert (Hdz : Zdigits2 (Z.pos mz) = 53).
  { rewrite Hmz, Zdigits2_mul_pow2 by lia. fold d. lia. }
  exists mz. split; [|exact Hmz].
  rewrite (binary_round_aux_exact 53 1024 eq_refl).
  - rewrite Hdz. replace (53 + (d + e - 53)) with (d + e) by lia. rewrite Hf.
    rewrite Z.sub_diag, rne_0.
    apply finish_bounded; [reflexivity|].
    unfold bounded, canonical_mantissa. apply andb_true_intro. split.
    + apply Z.eqb_eq. change (Z.pos (digits2_pos mz)) with (Zdigits2 (Z.pos mz)).
      rewrite Hdz. replace (53 + (d + e - 53)) with (d + e) by lia. exact Hf.
    + apply Z.leb_le. destruct (f32_bounded_facts m e Hb) as (He & _). lia.
  - lia.
  - rewrite Hdz. replace (53 + (d + e - 53)) with (d + e) by lia. rewrite Hf. lia.
Qed.

Lemma f32_roundtrip x : f32_valid x = true -> f32_of_f64 (f64_of_f32 x) = x.
Proof.
  intros Hv. destruct x as [s|s| |s m e]; try reflexivity.
  cbn [f32_valid valid_binary] in Hv.
  destruct (f64_of_f32_finite s m e Hv) as (mz & -> & Hmz).
  destruct (bounded_facts 24 128 eq_refl m e Hv) as (Hc & _ & Hmin & Hm & _).
  change (emin 24 128) with (-149) in Hmin.
  pose proof (Zdigits2_pos (Z.pos m) ltac:(lia)) as Hd.
  assert (Hd24 : Zdigits2 (Z.pos m) <= 24) by (unfold fexp in Hc; lia).
  set (d := Zdigits2 (Z.pos m)) in *.
  assert (Hdz : Zdigits2 (Z.pos mz) = 53).
  { rewrite Hmz, Zdigits2_mul_pow2 by lia. fold d. lia. }
  unfold f32_of_f64. rewrite binary_round_eq. rewrite Hdz.
  replace (53 + (d + e - 53)) with (d + e) by lia. rewrite Hc.
  destruct (shl_align_spec mz (d + e - 53) e) as [Hs Hmz'].
  replace (Z.min (d + e - 53) e) with (d + e - 53) in Hs, Hmz' by lia.
  rewrite Z.sub_diag, Z.pow_0_r, Z.mul_1_r in Hmz'.
  rewrite Hs, Hmz'.
  rewrite (binary_round_aux_exact 24 128 eq_refl).
  - rewrite Hdz. replace (53 + (d + e - 53)) with (d + e) by lia. rewrite Hc.
    replace (e - (d + e - 53)) with (53 - d) by lia.
    rewrite Hmz, rne_exact by lia.
    apply finish_bounded; [reflexivity|exact Hv].
  - lia.
  - rewrite Hdz. replace (53 + (d + e - 53)) with (d + e) by lia. rewrite Hc. lia.
Qed.

Lemma f64_of_f32_finite_inv x :
  f32_valid x = true -> is_finite (f64_of_f32 x) = true -> is_finite x = true.
Proof. destruct x; intros; try reflexivity; discriminate. Qed.

Lemma f64_of_f32_zero_inv x s :
  f32_valid x = true -> f64_of_f32 x = S754_zero s -> x = S754_zero s.
Proof.
  intros Hv H. destruct x as [s'|s'| |s' m e]; try discriminate; [exact H|].
  cbn [f32_valid valid_binary] in Hv.
  destruct (f64_of_f32_finite s' m e Hv) as (mz & E & _). rewrite E in H. discriminate.
Qed.

Lemma f32_of_f64_zero s : exists s', f32_of_f64 (S754_zero s) = S754_zero s'.
Proof. eexists; reflexivity. Qed.

Lemma f64_of_f32_zero s : exists s', f64_of_f32 (S754_zero s) = S754_zero s'.
Proof. eexists; reflexivity. Qed.

(** Line 53 for equal finite planes: the divisor is [1e-10], as float32. *)
Lemma denominator_equal_planes near far :
  scalar_valid near -> scalar_valid far ->
  feq (scalar_value near) (scalar_value far) = true ->
  is_finite (scalar_value near) = true ->
  as_f32 (scalar_add (scalar_sub far near) (PyFloat py_1e_10)) = f32_eps.
Proof.
  intros Hvn Hvf Heq Hfin. apply feq_same in Heq.
  destruct near as [a|a], far as [b|b]; cbn [scalar_value scalar_valid] in *.
  - destruct (SFsub_same_zero 53 1024 a b Heq Hfin) as [s Hs].
    cbn [scalar_sub scalar_add as_f32]. unfold f64_sub. rewrite Hs. reflexivity.
  - (* near given, far from the data *)
    assert (Hs : exists s, f32_sub b (f32_of_f64 a) = S754_zero s).
    { destruct Heq as [->|[[s ->] [s' Hb]]].
      - rewrite f32_roundtrip by exact Hvf.
        apply (SFsub_same_zero 24 128); [left; reflexivity|].
        apply f64_of_f32_finite_inv; assumption.
      - apply f64_of_f32_zero_inv in Hb; [|exact Hvf]. subst b.
        destruct s, s'; eexists; reflexivity. }
    destruct Hs as [s Hs]. cbn [scalar_sub scalar_add as_f32]. rewrite Hs. reflexivity.
  - (* near from the data, far given *)
    assert (Hfa : is_finite a = true) by (apply f64_of_f32_finite_inv; assumption).
    assert (Hs : exists s, f32_sub (f32_of_f64 b) a = S754_zero s).
    { apply (SFsub_same_zero 24 128); [|exact Hfa].
      rewrite <- (f32_roundtrip a Hvn) at 1.
      apply same_number_map; [apply f32_of_f64_zero|exact Heq]. }
    destruct Hs as [s Hs]. cbn [scalar_sub scalar_add as_f32]. rewrite Hs. reflexivity.
  - assert (Hfa : is_finite a = true) by (apply f64_of_f32_finite_inv; assumption).
    assert (Hs : exists s, f32_sub b a = S754_zero s).
    { apply (SFsub_same_zero 24 128); [|exact Hfa].
      rewrite <- (f32_roundtrip a Hvn), <- (f32_roundtrip b Hvf).
      apply same_number_map; [apply f32_of_f64_zero|exact Heq]. }
    destruct Hs as [s Hs]. cbn [scalar_sub scalar_add as_f32]. rewrite Hs. reflexivity.
Qed.

Lemma as_f32_not_nan s :
  scalar_valid s -> is_finite (scalar_value s) = true ->
  f32_valid (as_f32 s) = true /\ is_nan (as_f32 s) = false.
Proof.
  destruct s as [a|a]; cbn [scalar_valid scalar_value as_f32]; intros Hv Hf.
  - destruct a as [sa|sa| |sa m e]; try discriminate; try (split; reflexivity).
    cbn [f32_of_f64]. split; [apply (binary_round_valid 24 128 eq_refl)|].
    pose proof (binary_round_not_nan 24 128 eq_refl sa m e) as H.
    destruct (binary_round 24 128 sa m e); try reflexivity. contradiction.
  - split; [exact Hv|]. apply f64_of_f32_finite_inv in Hf; [|exact Hv].
    destruct a; try discriminate; reflexivity.
Qed.

Lemma f32_sub_not_nan x y :
  is_finite x = true -> is_nan y = false -> is_nan (f32_sub x y) = false.
Proof.
  intros Hx Hy. destruct y as [sy|sy| |sy my ey]; try discriminate.
  - apply (SFsub_not_nan 24 128 eq_refl); [exact Hx|reflexivity].
  - destruct x; try discriminate; reflexivity.
  - apply (SFsub_not_nan 24 128 eq_refl); [exact Hx|reflexivity].
Qed.

Lemma f32_div_eps_not_nan x : is_nan x = false -> is_nan (f32_div x f32_eps) = false.
Proof. intros H. apply (SFdiv_not_nan 24 128 eq_refl). exact H. Qed.

(** torch.clip(_, 0, 1) of a number puts it into [0,1]. *)
Lemma clip1_unit x :
  f32_valid x = true -> is_nan x = false ->
  f32_valid (clip1 (f32_of_Z 0) (f32_of_Z 1) x) = true /\
  in_unit (clip1 (f32_of_Z 0) (f32_of_Z 1) x) = true.
Proof.
  intros Hv Hn. unfold clip1. rewrite Hn.
  change (f32_of_Z 0) with f32_zero. change (f32_of_Z 1) with f32_one.
  destruct (flt x f32_zero) eqn:E0.
  - split; reflexivity.
  - destruct (flt f32_one x) eqn:E1; [split; reflexivity|].
    split; [exact Hv|]. unfold in_unit. apply andb_true_intro. split.
    + apply fle_key; [reflexivity|exact Hn|]. apply (flt_key x f32_zero); [exact Hn|reflexivity|exact E0].
    + apply fle_key; [exact Hn|reflexivity|]. apply (flt_key f32_one x); [reflexivity|exact Hn|exact E1].
Qed.

(** ** Normalizing with equal planes *)

Lemma in_unit_finite x : in_unit x = true -> is_finite x = true.
Proof. intros H. destruct (in_unit_cases x H) as [[s ->]|(m & e & -> & _)]; reflexivity. Qed.

Lemma color_at_In table i : 0 <= i < Z.of_nat (length table) -> In (color_at table i) table.
Proof. intros H. unfold color_at. apply nth_In. lia. Qed.

Lemma table_ok_spec table :
  table_ok table = true -> length table = 256%nat /\ forallb color_ok table = true.
Proof.
  unfold table_ok. intros H. apply andb_true_iff in H. destruct H as [H1 H2].
  apply Nat.eqb_eq in H1. auto.
Qed.

Section Planes.
Context {RT : Runtime}.

Lemma py_or_spec given (default : result f32) extreme :
  default = Ok extreme -> py_or given default = Ok (spec_plane given extreme).
Proof.
  intros ->. unfold py_or, spec_plane. destruct given as [v|]; [|reflexivity].
  destruct (truthy v); reflexivity.
Qed.

Lemma choose_near_valid depth np near :
  Forall (fun d => f32_valid d = true /\ is_finite d = true) (data depth) ->
  choose_near depth np = Ok near -> scalar_valid near.
Proof.
  intros Hall H. unfold choose_near, py_or in H.
  assert (Hm : forall m, torch_min depth = Ok m -> f32_valid m = true).
  { intros m Hm. unfold torch_min in Hm. destruct (data depth) as [|x l] eqn:E; [discriminate|].
    injection Hm as <-.
    assert (Hnn : Forall (fun y => is_nan y = false) (x :: l)).
    { eapply Forall_impl; [|exact Hall]. intros d [_ Hd]. destruct d; try discriminate; reflexivity. }
    inversion Hnn as [|? ? Hx Hl]; subst.
    destruct (fold_fmin_spec l x Hx Hl) as (_ & Hin & _).
    rewrite Forall_forall in Hall. apply Hall. exact Hin. }
  destruct np as [v|].
  - destruct (truthy v).
    + injection H as <-. exact I.
    + destruct (torch_min depth) as [m|]; [|discriminate]. injection H as <-. apply Hm. reflexivity.
  - destruct (torch_min depth) as [m|]; [|discriminate]. injection H as <-. apply Hm. reflexivity.
Qed.

Lemma choose_far_valid depth fp far :
  Forall (fun d => f32_valid d = true /\ is_finite d = true) (data depth) ->
  choose_far depth fp = Ok far -> scalar_valid far.
Proof.
  intros Hall H. unfold choose_far, py_or in H.
  assert (Hm : forall m, torch_max depth = Ok m -> f32_valid m = true).
  { intros m Hm. unfold torch_max in Hm. destruct (data depth) as [|x l] eqn:E; [discriminate|].
    injection Hm as <-.
    assert (Hnn : Forall (fun y => is_nan y = false) (x :: l)).
    { eapply Forall_impl; [|exact Hall]. intros d [_ Hd]. destruct d; try discriminate; reflexivity. }
    inversion Hnn as [|? ? Hx Hl]; subst.
    destruct (fold_fmax_spec l x Hx Hl) as (_ & Hin & _).
    rewrite Forall_forall in Hall. apply Hall. exact Hin. }
  destruct fp as [v|].
  - destruct (truthy v).
    + injection H as <-. exact I.
    + destruct (torch_max depth) as [m|]; [|discriminate]. injection H as <-. apply Hm. reflexivity.
  - destruct (torch_max depth) as [m|]; [|discriminate]. injection H as <-. apply Hm. reflexivity.
Qed.

(** Lines 53-54 for equal finite planes: every element lands in [0,1]. *)
Lemma normalize_equal_planes depth near far x :
  Forall (fun d => f32_valid d = true /\ is_finite d = true) (data depth) ->
  scalar_valid near -> scalar_valid far ->
  feq (scalar_value near) (scalar_value far) = true ->
  is_finite (scalar_value near) = true ->
  In x (data (normalize depth near far)) ->
  f32_valid x = true /\ in_unit x = true.
Proof.
  intros Hall Hvn Hvf Heq Hfin Hx.
  unfold normalize, torch_clip, tensor_div_scalar, tensor_sub_scalar, tmap in Hx.
  cbn [data] in Hx. rewrite !map_map in Hx.
  apply in_map_iff in Hx. destruct Hx as (d & <- & Hd).
  rewrite Forall_forall in Hall. destruct (Hall d Hd) as [Hvd Hfd].
  rewrite (denominator_equal_planes near far Hvn Hvf Heq Hfin).
  destruct (as_f32_not_nan near Hvn Hfin) as [Hva Hna].
  apply clip1_unit.
  - apply f32_div_valid.
  - apply f32_div_eps_not_nan. apply f32_sub_not_nan; assumption.
Qed.

End Planes.

(** ** The object store *)

Lemma extends_refl h : extends h h.
Proof. exists []. rewrite app_nil_r. reflexivity. Qed.

Lemma extends_app h new : extends h (h ++ new).
Proof. exists new. reflexivity. Qed.

Lemma extends_trans h1 h2 h3 : extends h1 h2 -> extends h2 h3 -> extends h1 h3.
Proof. intros [n1 ->] [n2 ->]. exists (n1 ++ n2). rewrite app_assoc. reflexivity. Qed.

Lemma extends_lookup (h h' : heap) x o : extends h h' -> nth_error h x = Some o -> nth_error h' x = Some o.
Proof.
  intros [new ->] H. rewrite nth_error_app1; [exact H|].
  apply nth_error_Some. rewrite H. discriminate.
Qed.

Lemma lookup_new (h : heap) o new : nth_error (h ++ o :: new) (length h) = Some o.
Proof. rewrite nth_error_app2 by lia. rewrite Nat.sub_diag. reflexivity. Qed.

Lemma lookup_last (h : heap) o : nth_error (h ++ [o]) (length h) = Some o.
Proof. apply lookup_new. Qed.

Lemma bindM_lift {A B} (r : result A) (k : A -> M B) h :
  bindM (lift r) k h = match r with Ok a => k a h | Err e => (Err e, h) end.
Proof. unfold bindM, lift. destruct r; reflexivity. Qed.

Lemma load_float_ok h x t : nth_error h x = Some (FloatTensor t) -> load_float x h = (Ok t, h).
Proof. unfold load_float. intros ->. reflexivity. Qed.

Lemma load_long_ok h x t : nth_error h x = Some (LongTensor t) -> load_long x h = (Ok t, h).
Proof. unfold load_long. intros ->. reflexivity. Qed.

Lemma float_op_ok f h x t :
  nth_error h x = Some (FloatTensor t) ->
  float_op f x h = (Ok (length h), h ++ [FloatTensor (f t)]).
Proof. intros H. unfold float_op, bindM. rewrite (load_float_ok h x t H). reflexivity. Qed.

Lemma tmap_tmap {A B C} (f : A -> B) (g : B -> C) (t : tensor A) :
  tmap g (tmap f t) = tmap (fun x => g (f x)) t.
Proof. unfold tmap. cbn [shape data]. rewrite map_map. reflexivity. Qed.

Lemma bindM_alloc {B} o (k : ref -> M B) h :
  bindM (alloc o) k h = k (length h) (h ++ [o]).
Proof. reflexivity. Qed.

Lemma bindM_load_float {B} (k : tensor f32 -> M B) h x t :
  nth_error h x = Some (FloatTensor t) -> bindM (load_float x) k h = k t h.
Proof. intros H. unfold bindM. rewrite (load_float_ok h x t H). reflexivity. Qed.

Lemma bindM_load_long {B} (k : tensor Z -> M B) h x t :
  nth_error h x = Some (LongTensor t) -> bindM (load_long x) k h = k t h.
Proof. intros H. unfold bindM. rewrite (load_long_ok h x t H). reflexivity. Qed.

Lemma bindM_float_op {B} f (k : ref -> M B) h x t :
  nth_error h x = Some (FloatTensor t) ->
  bindM (float_op f x) k h = k (length h) (h ++ [FloatTensor (f t)]).
Proof. intros H. unfold bindM. rewrite (float_op_ok f h x t H). reflexivity. Qed.

Lemma bindM_run {A B} (m : M A) (k : A -> M B) h r h' :
  m h = (r, h') -> bindM m k h = match r with Ok a => k a h' | Err e => (Err e, h') end.
Proof. intros H. unfold bindM. rewrite H. reflexivity. Qed.

Lemma bindM_assoc {A B C} (m : M A) (f : A -> M B) (g : B -> M C) h :
  bindM (bindM m f) g h = bindM m (fun a => bindM (f a) g) h.
Proof. unfold bindM. destruct (m h) as [[a|e] h']; reflexivity. Qed.

Section StoreFacts.
Context {RT : Runtime}.

(** A run of [apply_colormap_st]: two temporaries, then the image. *)
Lemma apply_colormap_st_run h image t cmap :
  nth_error h image = Some (FloatTensor t) ->
  exists new,
    snd (apply_colormap_st image cmap h) = h ++ new /\
    match apply_colormap t cmap with
    | Ok out =>
        exists out_ref, fst (apply_colormap_st image cmap h) = Ok out_ref /\
                        (length h <= out_ref)%nat /\
                        nth_error (h ++ new) out_ref = Some (FloatTensor out)
    | Err e => fst (apply_colormap_st image cmap h) = Err e
    end.
Proof.
  intros Hi. unfold apply_colormap_st, apply_colormap.
  rewrite bindM_lift.
  destruct (get_colors cmap) as [colormap|e]; cbn [bind].
  2:{ exists []. rewrite app_nil_r. split; reflexivity. }
  rewrite (bindM_float_op _ _ h image t Hi).
  set (h1 := h ++ [FloatTensor (tmap (fun x => f32_mul x f32_255) t)]).
  rewrite bindM_assoc.
  rewrite (bindM_load_float _ h1 (length h) _ (lookup_last h _)).
  rewrite bindM_alloc. rewrite tmap_tmap. fold pixel_index.
  change (tmap (fun x => pixel_index x) t) with (scale_long t).
  set (h2 := h1 ++ [LongTensor (scale_long t)]).
  rewrite (bindM_load_long _ h2 (length h1) _ (lookup_last h1 _)).
  assert (E2 : h2 = h ++ [FloatTensor (tmap (fun x => f32_mul x f32_255) t); LongTensor (scale_long t)]).
  { unfold h2, h1. rewrite <- app_assoc. reflexivity. }
  rewrite bindM_lift.
  destruct (torch_min_long (scale_long t)) as [m|e]; cbn [bind].
  2:{ eexists. split; [exact E2|reflexivity]. }
  rewrite bindM_lift.
  destruct (torch_max_long (scale_long t)) as [mx|e]; cbn [bind].
  2:{ eexists. split; [exact E2|reflexivity]. }
  rewrite bindM_lift.
  destruct (py_assert (0 <=? m) _) as [u|e]; cbn [bind].
  2:{ eexists. split; [exact E2|reflexivity]. }
  rewrite bindM_lift.
  destruct (py_assert (mx <=? 255) _) as [u'|e]; cbn [bind].
  2:{ eexists. split; [exact E2|reflexivity]. }
  rewrite bindM_lift.
  destruct (select_last0 (scale_long t)) as [idx|e]; cbn [bind].
  2:{ eexists. split; [exact E2|reflexivity]. }
  rewrite bindM_lift.
  destruct (index_rows colormap idx) as [out|e]; cbn [bind].
  2:{ eexists. split; [exact E2|reflexivity]. }
  unfold alloc. cbn [fst snd].
  exists [FloatTensor (tmap (fun x => f32_mul x f32_255) t); LongTensor (scale_long t); FloatTensor out].
  split.
  - rewrite E2, <- app_assoc. reflexivity.
  - exists (length h2). split; [reflexivity|]. split.
    + rewrite E2, length_app. lia.
    + replace (h ++ [FloatTensor (tmap (fun x => f32_mul x f32_255) t); LongTensor (scale_long t); FloatTensor out])
        with (h2 ++ [FloatTensor out]) by (rewrite E2, <- app_assoc; reflexivity).
      apply lookup_last.
Qed.

(** A run of [apply_depth_colormap_st]. *)
Lemma apply_depth_colormap_st_run h depth d (acc : option (ref * tensor f32)) np fp cmap :
  nth_error h depth = Some (FloatTensor d) ->
  match acc with
  | Some (a, av) => nth_error h a = Some (FloatTensor av)
  | None => True
  end ->
  exists new,
    snd (apply_depth_colormap_st depth (option_map fst acc) np fp cmap h) = h ++ new /\
    match apply_depth_colormap d (option_map snd acc) np fp cmap with
    | Ok out =>
        exists out_ref,
          fst (apply_depth_colormap_st depth (option_map fst acc) np fp cmap h) = Ok out_ref /\
          (length h <= out_ref)%nat /\
          nth_error (h ++ new) out_ref = Some (FloatTensor out)
    | Err e => fst (apply_depth_colormap_st depth (option_map fst acc) np fp cmap h) = Err e
    end.
Proof.
  intros Hd Hacc. unfold apply_depth_colormap_st, apply_depth_colormap.
  rewrite (bindM_load_float _ h depth d Hd).
  rewrite bindM_lift.
  destruct (choose_near d np) as [near|e]; cbn [bind].
  2:{ exists []. rewrite app_nil_r. split; reflexivity. }
  rewrite bindM_lift.
  destruct (choose_far d fp) as [far|e]; cbn [bind].
  2:{ exists []. rewrite app_nil_r. split; reflexivity. }
  cbn zeta.
  rewrite (bindM_float_op _ _ h depth d Hd).
  set (h1 := h ++ [FloatTensor (tensor_sub_scalar d near)]).
  rewrite (bindM_float_op _ _ h1 (length h) _ (lookup_last h _)).
  set (h2 := h1 ++ [FloatTensor (tensor_div_scalar (tensor_sub_scalar d near)
                       (scalar_add (scalar_sub far near) (PyFloat py_1e_10)))]).
  rewrite (bindM_float_op _ _ h2 (length h1) _ (lookup_last h1 _)).
  fold (normalize d near far).
  set (h3 := h2 ++ [FloatTensor (normalize d near far)]).
  assert (E3 : extends h h3).
  { unfold h3, h2, h1. eapply extends_trans; [|apply extends_app].
    eapply extends_trans; [|apply extends_app]. apply extends_app. }
  destruct (apply_colormap_st_run h3 (length h2) (normalize d near far) cmap (lookup_last h2 _))
    as (new1 & Hs1 & Hr1).
  destruct (apply_colormap_st (length h2) cmap h3) as [r h4] eqn:Erun. cbn [fst snd] in Hs1, Hr1.
  subst h4. rewrite (bindM_run _ _ _ _ _ Erun).
  assert (E4 : extends h (h3 ++ new1)) by (eapply extends_trans; [exact E3|apply extends_app]).
  destruct (apply_colormap (normalize d near far) cmap) as [colored|e]; cbn [bind].
  2:{ rewrite Hr1. destruct E4 as [n4 E4]. exists n4. split; [exact E4|reflexivity]. }
  destruct Hr1 as (cref & -> & Hlen & Hlook).
  assert (Hge : (length h <= cref)%nat).
  { pose proof E3 as [n3 E3']. rewrite E3', length_app in Hlen. lia. }
  destruct acc as [[a av]|]; cbn [option_map fst snd].
  - set (h4 := h3 ++ new1) in *.
    rewrite (bindM_load_float _ h4 cref colored Hlook).
    rewrite (bindM_load_float _ h4 a av (extends_lookup h h4 a _ E4 Hacc)).
    rewrite bindM_lift. unfold blend.
    destruct (broadcast2 f32_mul colored av) as [prod|e]; cbn [bind].
    2:{ destruct E4 as [n4 E4]. exists n4. split; [exact E4|reflexivity]. }
    rewrite bindM_alloc.
    set (h5 := h4 ++ [FloatTensor prod]).
    assert (E5 : extends h h5) by (eapply extends_trans; [exact E4|apply extends_app]).
    rewrite (bindM_float_op _ _ h5 a av (extends_lookup h h5 a _ E5 Hacc)).
    set (h6 := h5 ++ [FloatTensor (tmap (fun x => f32_sub f32_one x) av)]).
    assert (E6 : extends h h6) by (eapply extends_trans; [exact E5|apply extends_app]).
    rewrite (bindM_load_float _ h6 (length h5) _ (lookup_last h5 _)).
    rewrite bindM_lift.
    destruct (broadcast2 f32_add prod (tmap (fun x => f32_sub f32_one x) av)) as [sum|e].
    2:{ destruct E6 as [n6 E6]. exists n6. split; [exact E6|reflexivity]. }
    unfold alloc. cbn [fst snd].
    assert (E7 : extends h (h6 ++ [FloatTensor sum])) by (eapply extends_trans; [exact E6|apply extends_app]).
    destruct E7 as [n7 E7]. exists n7. split; [exact E7|].
    exists (length h6). split; [reflexivity|]. split.
    + destruct E6 as [n6 E6]. rewrite E6, length_app. lia.
    + rewrite <- E7. apply lookup_last.
  - unfold lift. cbn [fst snd].
    destruct E4 as [n4 E4]. exists n4. split; [exact E4|].
    exists cref. split; [reflexivity|]. split; [exact Hge|]. rewrite <- E4. exact Hlook.
Qed.

End StoreFacts.

(** ** The stand-in table *)

Lemma gray_ramp_ok : table_ok gray_ramp = true.
Proof. vm_compute. reflexivity. Qed.

Lemma gray_ramp_plain : forallb plain_color gray_ramp = true.
Proof. vm_compute. reflexivity. Qed.

(** ** Lines 53-54 on the data *)

Lemma map_nonempty {A B} (f : A -> B) (l : list A) : l <> [] -> map f l <> [].
Proof. destruct l; [congruence|discriminate]. Qed.

Lemma normalize_data (depth : tensor f32) near far :
  data (normalize depth near far) =
  map (fun x => clip1 (f32_of_Z 0) (f32_of_Z 1) (f32_div (f32_sub x (as_f32 near)) (divisor near far)))
      (data depth).
Proof.
  unfold normalize, torch_clip, tensor_div_scalar, tensor_sub_scalar, tmap, divisor. cbn [data].
  rewrite !map_map. reflexivity.
Qed.

Lemma normalize_shape (depth : tensor f32) near far : shape (normalize depth near far) = shape depth.
Proof. reflexivity. Qed.

Lemma normalize_wf (depth : tensor f32) near far : tensor_wf depth -> tensor_wf (normalize depth near far).
Proof.
  unfold tensor_wf. rewrite normalize_data, normalize_shape, length_map. auto.
Qed.

Lemma py_or_nonempty given (l : list f32) (f : f32 -> f32 -> f32) :
  l <> [] -> exists s, py_or given (reduce f l) = Ok s.
Proof.
  intros H. destruct l as [|x l]; [congruence|].
  unfold py_or. cbn [reduce bind]. destruct given as [v|]; [destruct (truthy v)|]; eauto.
Qed.

(** ** Empty tensors and NaN *)

Section EmptyAndNaN.
Context {RT : Runtime}.

Lemma apply_colormap_empty (t : tensor f32) cmap :
  data t = [] ->
  apply_colormap t cmap =
  Err (match cm_colors cmap with Some _ => RuntimeError | None => ColormapError end).
Proof.
  intros H. unfold apply_colormap, get_colors. destruct (cm_colors cmap); [|reflexivity].
  cbn [bind]. unfold torch_min_long, scale_long, tmap. cbn [data]. rewrite H. reflexivity.
Qed.

Lemma pixel_index_nan : pixel_index S754_nan = cast_undefined S754_nan.
Proof. reflexivity. Qed.

Lemma apply_colormap_nan image cmap table :
  cm_colors cmap = Some table -> cast_undefined S754_nan < 0 ->
  In S754_nan (data image) ->
  exists m, m < 0 /\
    apply_colormap image cmap = Err (AssertionError (String.append "the min value is " (show_Z m))).
Proof.
  intros Hc Hu Hin.
  assert (Hne : data image <> []) by (intros E; rewrite E in Hin; contradiction).
  assert (Hbad : exists x, In x (data image) /\ (pixel_index x < 0 \/ 255 < pixel_index x)).
  { exists S754_nan. split; [exact Hin|]. left. rewrite pixel_index_nan. exact Hu. }
  destruct (apply_colormap_assert image cmap table Hc Hne Hbad) as (m & M & _ & _ & Hall & _ & _ & E).
  exists m. pose proof (Hall _ Hin) as Hm. rewrite pixel_index_nan in Hm.
  assert (Hlt : m < 0) by lia. split; [exact Hlt|].
  rewrite E. destruct (Z.ltb_spec m 0); [reflexivity|lia].
Qed.

End EmptyAndNaN.

Section DepthRefused.
Context {RT : Runtime}.

Lemma apply_depth_colormap_empty (t : tensor f32) acc np fp cmap :
  data t = [] ->
  apply_depth_colormap t acc np fp cmap =
  Err (match np, fp with
       | Some a, Some b =>
           if truthy a && truthy b
           then match cm_colors cmap with Some _ => RuntimeError | None => ColormapError end
           else RuntimeError
       | _, _ => RuntimeError
       end).
Proof.
  intros H. unfold apply_depth_colormap, choose_near, choose_far, torch_min, torch_max, py_or.
  rewrite H. cbn [reduce bind].
  destruct np as [a|]; [|reflexivity]. destruct (truthy a); cbn [bind andb]; [|destruct fp; reflexivity].
  destruct fp as [b|]; [|reflexivity]. destruct (truthy b); cbn [bind]; [|reflexivity].
  rewrite apply_colormap_empty by (rewrite normalize_data, H; reflexivity).
  reflexivity.
Qed.

Lemma f32_sub_nan_l y : f32_sub S754_nan y = S754_nan.
Proof. reflexivity. Qed.

Lemma f32_div_nan_l y : f32_div S754_nan y = S754_nan.
Proof. reflexivity. Qed.

Lemma normalize_nan (depth : tensor f32) near far :
  In S754_nan (data depth) -> In S754_nan (data (normalize depth near far)).
Proof.
  intros H. rewrite normalize_data. apply in_map_iff. exists S754_nan. split; [|exact H].
  rewrite f32_sub_nan_l, f32_div_nan_l. reflexivity.
Qed.

Lemma choose_planes_nonempty (depth : tensor f32) np fp :
  data depth <> [] ->
  exists near far, choose_near depth np = Ok near /\ choose_far depth fp = Ok far.
Proof.
  intros H. destruct (py_or_nonempty np _ fmin H) as [near Hn].
  destruct (py_or_nonempty fp _ fmax H) as [far Hf]. exists near, far. split; assumption.
Qed.

Lemma apply_depth_colormap_nan depth acc np fp cmap table :
  cm_colors cmap = Some table -> cast_undefined S754_nan < 0 ->
  In S754_nan (data depth) ->
  exists m, m < 0 /\
    apply_depth_colormap depth acc np fp cmap =
    Err (AssertionError (String.append "the min value is " (show_Z m))).
Proof.
  intros Hc Hu Hin.
  assert (Hne : data depth <> []) by (intros E; rewrite E in Hin; contradiction).
  destruct (choose_planes_nonempty depth np fp Hne) as (near & far & Hn & Hf).
  destruct (apply_colormap_nan (normalize depth near far) cmap table Hc Hu (normalize_nan _ _ _ Hin))
    as (m & Hm & E).
  exists m. split; [exact Hm|].
  unfold apply_depth_colormap. rewrite Hn, Hf. cbn [bind]. rewrite E. reflexivity.
Qed.

End DepthRefused.

(** ** The first channel *)

Lemma nth_error_strided {A} n k (l : list A) p :
  (p < n)%nat -> length l = (n * S k)%nat ->
  nth_error (strided n (S k) l) p = nth_error l (p * S k).
Proof.
  revert l p. induction n as [|n IH]; intros l p Hp Hl; [lia|].
  destruct l as [|x l]; [discriminate|]. cbn [strided].
  destruct p as [|p]; [reflexivity|].
  cbn [nth_error]. rewrite IH.
  - rewrite nth_error_skipn. reflexivity.
  - lia.
  - rewrite length_skipn, Hl. lia.
Qed.

Lemma select_last0_lead {A} (lead : list nat) k (d : list A) :
  select_last0 (mkTensor (lead ++ [S k]) d) = Ok (mkTensor lead (strided (numel lead) (S k) d)).
Proof.
  unfold select_last0. cbn [shape data]. rewrite rev_app_distr. cbn [rev app].
  rewrite rev_involutive. reflexivity.
Qed.

Lemma strided_In {A} n k (l : list A) x : In x (strided n k l) -> In x l.
Proof.
  revert l. induction n as [|n IH]; intros l H; [contradiction|].
  destruct l as [|y l]; [contradiction|]. cbn [strided] in H.
  destruct H as [<-|H]; [left; reflexivity|].
  apply IH in H. rewrite <- (firstn_skipn k (y :: l)). apply in_or_app. right. exact H.
Qed.

Lemma strided_map {A B} (f : A -> B) n k (l : list A) :
  strided n k (map f l) = map f (strided n k l).
Proof.
  revert l. induction n as [|n IH]; intros l; [reflexivity|].
  destruct l as [|x l]; [reflexivity|]. cbn [strided map]. f_equal.
  rewrite <- IH. f_equal. change (f x :: map f l) with (map f (x :: l)). apply skipn_map.
Qed.

Section Channels.
Context {RT : Runtime}.

(** The two assertions of lines 25-26 on an image whose indices are in range. *)
Lemma apply_colormap_checked image cmap table :
  cm_colors cmap = Some table -> data image <> [] ->
  (forall x, In x (data image) -> 0 <= pixel_index x <= 255) ->
  apply_colormap image cmap =
  (idx <- select_last0 (scale_long image) ;; index_rows table idx).
Proof.
  intros Hc Hne Hidx. unfold apply_colormap, get_colors. rewrite Hc. cbn [bind].
  assert (Hne' : data (scale_long image) <> []) by (apply map_nonempty; exact Hne).
  destruct (reduce_min_spec _ Hne') as (m & Em & Hin & _).
  destruct (reduce_max_spec _ Hne') as (M & EM & HinM & _).
  unfold torch_min_long, torch_max_long. rewrite Em, EM. cbn [bind].
  cbn [scale_long tmap data] in Hin, HinM.
  apply in_map_iff in Hin. destruct Hin as (x & <- & Hx).
  apply in_map_iff in HinM. destruct HinM as (y & <- & Hy).
  pose proof (Hidx x Hx). pose proof (Hidx y Hy).
  unfold py_assert.
  destruct (Z.leb_spec 0 (pixel_index x)); [|lia].
  destruct (Z.leb_spec (pixel_index y) 255); [|lia]. reflexivity.
Qed.

Lemma apply_colormap_channels image cmap table lead k :
  cm_colors cmap = Some table -> length table = 256%nat ->
  shape image = lead ++ [S k] -> data image <> [] ->
  (forall x, In x (data image) -> 0 <= pixel_index x <= 255) ->
  apply_colormap image cmap =
  Ok (mkTensor (lead ++ [3%nat])
        (pixels (map (fun x => color_at table (pixel_index x))
                     (strided (numel lead) (S k) (data image))))).
Proof.
  intros Hc Hlen Hs Hne Hidx. rewrite (apply_colormap_checked image cmap table Hc Hne Hidx).
  unfold scale_long, tmap. rewrite Hs, select_last0_lead. cbn [bind].
  unfold index_rows. cbn [data shape]. rewrite strided_map.
  rewrite mapM_table_row.
  2:{ intros i Hi. apply in_map_iff in Hi. destruct Hi as (z & <- & Hz).
      apply strided_In in Hz. specialize (Hidx z Hz). rewrite Hlen. lia. }
  cbn [bind]. unfold pixels. rewrite !map_map. reflexivity.
Qed.

Lemma apply_colormap_no_dimension image cmap table :
  cm_colors cmap = Some table -> shape image = [] -> data image <> [] ->
  (forall x, In x (data image) -> 0 <= pixel_index x <= 255) ->
  apply_colormap image cmap = Err IndexError.
Proof.
  intros Hc Hs Hne Hidx. rewrite (apply_colormap_checked image cmap table Hc Hne Hidx).
  unfold select_last0, scale_long, tmap. cbn [shape]. rewrite Hs. reflexivity.
Qed.

End Channels.

(** ** The mask, pixel by pixel *)

Lemma flat_map_concat_map {A B} (f : A -> list B) (ll : list (list A)) :
  flat_map f (concat ll) = concat (map (flat_map f) ll).
Proof.
  induction ll as [|l ll IH]; [reflexivity|].
  cbn [concat map]. rewrite flat_map_app, IH. reflexivity.
Qed.

Lemma expand_last {A} (lead : list nat) (d : list A) :
  length d = numel lead ->
  expand (lead ++ [1%nat]) (lead ++ [3%nat]) d = per_channel d.
Proof.
  revert d. induction lead as [|n lead IH]; intros d H.
  - cbn in H. destruct d as [|a [|b d]]; try discriminate. reflexivity.
  - cbn [app expand]. rewrite Nat.eqb_refl.
    assert (Hk : numel (lead ++ [1%nat]) = numel lead) by (rewrite numel_app; cbn; lia).
    rewrite Hk.
    assert (Hd : length d = (n * numel lead)%nat) by exact H.
    rewrite <- (chunks_concat n (numel lead) d Hd) at 2.
    unfold per_channel at 1. rewrite flat_map_concat_map. f_equal.
    apply map_ext_in. intros c Hc. apply IH. eapply chunks_length; eassumption.
Qed.

Lemma per_channel_length {A} (l : list A) : length (per_channel l) = (3 * length l)%nat.
Proof. induction l as [|a l IH]; [reflexivity|]. cbn [per_channel flat_map app length] in *. unfold per_channel in IH. lia. Qed.

Lemma blend_mask lead rows (acc : tensor f32) :
  length rows = numel lead -> shape acc = lead ++ [1%nat] -> tensor_wf acc ->
  blend (mkTensor (lead ++ [3%nat]) (pixels rows)) acc =
  Ok (mkTensor (lead ++ [3%nat]) (zip_with blend1 (pixels rows) (per_channel (data acc)))).
Proof.
  intros Hlen Hs Hwf.
  rewrite blend_spec; [|apply pixels_wf; exact Hlen|exact Hwf].
  cbn zeta. cbn [shape data]. rewrite Hs.
  rewrite !length_app. cbn [length]. rewrite Nat.max_id.
  rewrite !pad_left_id by (rewrite length_app; reflexivity).
  rewrite broadcast_shape_last.
  rewrite expand_id by (apply pixels_wf; exact Hlen).
  rewrite expand_last; [reflexivity|].
  unfold tensor_wf in Hwf. rewrite Hwf, Hs, numel_app. cbn. lia.
Qed.

Lemma broadcast_shape_last_mismatch s1 s2 a b :
  length s1 = length s2 -> a <> b -> a <> 1%nat -> b <> 1%nat ->
  broadcast_shape (s1 ++ [a]) (s2 ++ [b]) = None.
Proof.
  intros Hl Hab Ha Hb. revert s2 Hl. induction s1 as [|x s1 IH]; intros [|y s2] Hl; try discriminate.
  - cbn. destruct (Nat.eqb_spec a b); [contradiction|].
    destruct (Nat.eqb_spec a 1); [contradiction|]. destruct (Nat.eqb_spec b 1); [contradiction|]. reflexivity.
  - cbn [app broadcast_shape]. rewrite IH by (cbn in Hl; lia). reflexivity.
Qed.

Lemma pad_left_snoc n s a : pad_left (S n) (s ++ [a]) = pad_left n s ++ [a].
Proof.
  unfold pad_left. rewrite length_app. cbn [length].
  replace (S n - (length s + 1))%nat with (n - length s)%nat by lia.
  apply app_assoc.
Qed.

Lemma blend_mask_mismatch (colored acc : tensor f32) lead s k :
  shape colored = lead ++ [3%nat] -> shape acc = s ++ [k] -> k <> 1%nat -> k <> 3%nat ->
  blend colored acc = Err RuntimeError.
Proof.
  intros Hc Ha H1 H3. unfold blend, broadcast2 at 1. rewrite Hc, Ha.
  rewrite !length_app. cbn [length].
  replace (Nat.max (length lead + 1) (length s + 1)) with (S (Nat.max (length lead) (length s))) by lia.
  rewrite !pad_left_snoc.
  rewrite broadcast_shape_last_mismatch; [reflexivity| |congruence|discriminate|exact H1].
  rewrite !pad_left_length by lia. reflexivity.
Qed.

(** ** The divisor of line 53 *)

Lemma f32_of_f64_nan_inv x : is_nan (f32_of_f64 x) = true -> x = S754_nan.
Proof.
  destruct x as [s|s| |s m e]; try discriminate; [reflexivity|].
  cbn [f32_of_f64]. pose proof (binary_round_not_nan 24 128 eq_refl s m e) as H.
  destruct (binary_round 24 128 s m e); try discriminate. contradiction.
Qed.

Lemma is_nan_eq x : is_nan x = true -> x = S754_nan.
Proof. destruct x; try discriminate; reflexivity. Qed.

Lemma SFsub_nan_r prec emax x : SFsub prec emax x S754_nan = S754_nan.
Proof. destruct x; reflexivity. Qed.

Lemma SFsub_nan_l prec emax y : SFsub prec emax S754_nan y = S754_nan.
Proof. reflexivity. Qed.

(** A finite divisor on line 53 means that no plane is NaN. *)
Lemma divisor_finite_near near far :
  is_finite (divisor near far) = true -> is_nan (as_f32 near) = false.
Proof.
  intros H. destruct (is_nan (as_f32 near)) eqn:E; [|reflexivity]. exfalso.
  unfold divisor in H.
  destruct near as [a|a], far as [b|b]; cbn [as_f32 scalar_sub scalar_add] in *.
  - apply f32_of_f64_nan_inv in E. subst a. unfold f64_sub in H. rewrite SFsub_nan_r in H. discriminate.
  - apply is_nan_eq in E. rewrite E in H. unfold f32_sub in H. rewrite SFsub_nan_r in H. discriminate.
  - apply is_nan_eq in E. subst a. unfold f32_sub in H. rewrite SFsub_nan_r in H. discriminate.
  - apply is_nan_eq in E. subst a. unfold f32_sub in H. rewrite SFsub_nan_r in H. discriminate.
Qed.

Lemma finite_nonzero x :
  is_finite x = true -> feq x f32_zero = false -> exists s m e, x = S754_finite s m e.
Proof. destruct x as [s|s| |s m e]; try discriminate; eauto. Qed.

Lemma as_f32_valid s : scalar_valid s -> f32_valid (as_f32 s) = true.
Proof.
  destruct s as [a|a]; cbn [scalar_valid as_f32]; [intros _|auto].
  destruct a; try reflexivity. apply (binary_round_valid 24 128 eq_refl).
Qed.

(** Lines 53-54 on a finite depth value with a finite non-zero divisor. *)
Lemma normalize1_unit x n den :
  is_finite x = true -> is_nan n = false ->
  is_finite den = true -> feq den f32_zero = false ->
  f32_valid (clip1 (f32_of_Z 0) (f32_of_Z 1) (f32_div (f32_sub x n) den)) = true /\
  in_unit (clip1 (f32_of_Z 0) (f32_of_Z 1) (f32_div (f32_sub x n) den)) = true.
Proof.
  intros Hx Hn Hd Hz. destruct (finite_nonzero den Hd Hz) as (s & m & e & ->).
  apply clip1_unit; [apply f32_div_valid|].
  apply (SFdiv_not_nan 24 128 eq_refl). apply f32_sub_not_nan; assumption.
Qed.

(** *** Signs *)

Lemma nonpos_finish s m1 e1 : s = true -> nonpos (finish 24 128 s m1 e1) = true.
Proof.
  intros ->. destruct (finish_cases 24 128 true m1 e1) as [->|[->|(m & e & ->)]]; reflexivity.
Qed.

Lemma fle_neg_swap mx ex my ey :
  fle (S754_finite true mx ex) (S754_finite true my ey) =
  fle (S754_finite false my ey) (S754_finite false mx ex).
Proof.
  unfold fle, SFleb, SFcompare.
  rewrite (Z.compare_antisym ex ey).
  destruct (Z.compare_spec ex ey) as [->|E|E]; cbn [CompOpp]; try reflexivity.
  change (Pos.compare_cont Eq mx my) with (Pos.compare mx my).
  change (Pos.compare_cont Eq my mx) with (Pos.compare my mx).
  rewrite (Pos.compare_antisym mx my). destruct (Pos.compare mx my); reflexivity.
Qed.

Lemma fle_aligned_pos mx ex my ey :
  bounded 24 128 mx ex = true -> bounded 24 128 my ey = true ->
  fle (S754_finite false mx ex) (S754_finite false my ey) = true ->
  Z.pos mx * 2 ^ (ex - Z.min ex ey) <= Z.pos my * 2 ^ (ey - Z.min ex ey).
Proof.
  intros Hx Hy H. pose proof (fle_scaled mx ex my ey Hx Hy H) as Hs. unfold scaled in Hs.
  destruct (f32_bounded_facts mx ex Hx) as (Hex & _). destruct (f32_bounded_facts my ey Hy) as (Hey & _).
  set (ez := Z.min ex ey) in *.
  assert (Hp : 0 < 2 ^ (ez + 400)) by (apply pow2_pos; lia).
  replace (ex + 400) with ((ex - ez) + (ez + 400)) in Hs by lia.
  replace (ey + 400) with ((ey - ez) + (ez + 400)) in Hs by lia.
  rewrite (Z.pow_add_r 2 (ex - ez)), (Z.pow_add_r 2 (ey - ez)) in Hs by lia.
  rewrite !Z.mul_assoc in Hs.
  apply Z.mul_le_mono_pos_r in Hs; assumption.
Qed.

(** [x - n] for [x <= n]. *)
Lemma sub_nonpos x n :
  f32_valid x = true -> f32_valid n = true -> is_finite x = true ->
  fle x n = true -> nonpos (f32_sub x n) = true.
Proof.
  intros Hvx Hvn Hfx Hle.
  destruct x as [sx|sx| |sx mx ex]; try discriminate;
    destruct n as [sn|sn| |sn mn en]; try discriminate.
  - destruct sx, sn; reflexivity.
  - destruct sn; [discriminate|reflexivity].
  - destruct sn; [discriminate|reflexivity].
  - destruct sx; [reflexivity|discriminate].
  - destruct sn; [destruct sx; discriminate|reflexivity].
  - cbn [f32_valid valid_binary] in Hvx, Hvn.
    unfold f32_sub. cbn [SFsub].
    destruct (shl_align_spec mx ex (Z.min ex en)) as [_ Hax].
    destruct (shl_align_spec mn en (Z.min ex en)) as [_ Han].
    replace (Z.min ex (Z.min ex en)) with (Z.min ex en) in Hax by lia.
    replace (Z.min en (Z.min ex en)) with (Z.min ex en) in Han by lia.
    assert (Hd : cond_Zopp sx (Z.pos (fst (shl_align mx ex (Z.min ex en)))) -
                 cond_Zopp sn (Z.pos (fst (shl_align mn en (Z.min ex en)))) <= 0).
    { rewrite Hax, Han.
      assert (0 < 2 ^ (ex - Z.min ex en)) by (apply pow2_pos; lia).
      assert (0 < 2 ^ (en - Z.min ex en)) by (apply pow2_pos; lia).
      destruct sx, sn; cbn [cond_Zopp].
      - rewrite fle_neg_swap in Hle.
        pose proof (fle_aligned_pos mn en mx ex Hvn Hvx Hle) as Hp.
        rewrite (Z.min_comm en ex) in Hp. lia.
      - nia.
      - discriminate.
      - pose proof (fle_aligned_pos mx ex mn en Hvx Hvn Hle). lia. }
    destruct (cond_Zopp sx _ - cond_Zopp sn _) as [|p|p] eqn:E; [reflexivity|lia|].
    cbn [binary_normalize]. rewrite (binary_round_eq 24 128).
    pose proof (binary_round_aligned 24 128 p (Z.min ex en)) as (Ha & _).
    rewrite (binary_round_aux_exact 24 128 eq_refl) by (try exact Ha; lia).
    apply nonpos_finish. reflexivity.
Qed.

(** A quotient by a positive finite number keeps the sign. *)
Lemma div_nonpos s md ed :
  nonpos s = true -> nonpos (f32_div s (S754_finite false md ed)) = true.
Proof.
  intros H. destruct s as [ss|ss| |ss ms es]; try discriminate.
  - reflexivity.
  - destruct ss; [reflexivity|discriminate].
  - destruct ss; [|discriminate]. unfold f32_div. cbn [SFdiv xorb].
    pose proof (SFdiv_core_aligned 24 128 eq_refl ms es md ed) as Hal. cbn zeta in Hal.
    destruct (SFdiv_core_binary 24 128 (Z.pos ms) es (Z.pos md) ed) as [[mz ez] lz].
    cbn [fst snd] in Hal. destruct Hal as [H0 Hal].
    destruct (binary_round_aux_finish 24 128 eq_refl true mz ez lz H0 Hal) as (m1 & _ & _ & ->).
    apply nonpos_finish. reflexivity.
Qed.

Lemma clip_nonpos q :
  nonpos q = true -> exists s, clip1 (f32_of_Z 0) (f32_of_Z 1) q = S754_zero s.
Proof.
  destruct q as [s|s| |s m e]; try discriminate; intros H.
  - exists s. reflexivity.
  - destruct s; [|discriminate]. exists false. reflexivity.
  - destruct s; [|discriminate]. exists false. reflexivity.
Qed.

Section NearPlane.
Context {RT : Runtime}.

Lemma pixel_index_zero s : pixel_index (S754_zero s) = 0.
Proof. reflexivity. Qed.

Lemma pixel_index_one : pixel_index f32_one = 255.
Proof. reflexivity. Qed.

(** Lines 53-54 and 22 on a depth value at or below the near plane. *)
Lemma normalize1_below x n md ed :
  f32_valid x = true -> f32_valid n = true -> is_finite x = true ->
  fle x n = true ->
  pixel_index (clip1 (f32_of_Z 0) (f32_of_Z 1) (f32_div (f32_sub x n) (S754_finite false md ed))) = 0.
Proof.
  intros Hvx Hvn Hfx Hle.
  destruct (clip_nonpos _ (div_nonpos _ md ed (sub_nonpos x n Hvx Hvn Hfx Hle))) as [s ->].
  apply pixel_index_zero.
Qed.

End NearPlane.

(** ** A constant depth, a finite divisor *)

Lemma fle_refl_finite x : is_finite x = true -> fle x x = true.
Proof.
  destruct x as [s|s| |s m e]; try discriminate; intros _; [reflexivity|].
  unfold fle, SFleb, SFcompare. rewrite Z.compare_refl.
  change (Pos.compare_cont Eq m m) with (Pos.compare m m). rewrite Pos.compare_refl.
  destruct s; reflexivity.
Qed.

Lemma fold_left_same {A} (f : A -> A -> A) (c : A) (l : list A) :
  f c c = c -> Forall (fun d => d = c) l -> fold_left f l c = c.
Proof.
  intros Hc H. induction H as [|x l -> _ IH]; [reflexivity|]. cbn [fold_left]. rewrite Hc. exact IH.
Qed.

Lemma fmin_same c : fmin c c = c.
Proof. unfold fmin. destruct (is_nan c); [reflexivity|]. destruct (flt c c); reflexivity. Qed.

Lemma fmax_same c : fmax c c = c.
Proof. unfold fmax. destruct (is_nan c); [reflexivity|]. destruct (flt c c); reflexivity. Qed.

Lemma divisor_same c :
  f32_valid c = true -> is_finite c = true -> divisor (Tensor0 c) (Tensor0 c) = f32_eps.
Proof.
  intros Hv Hf. unfold divisor. cbn [scalar_sub scalar_add as_f32].
  destruct (SFsub_same_zero 24 128 c c (or_introl eq_refl) Hf) as [s Hs].
  unfold f32_sub. rewrite Hs. destruct s; reflexivity.
Qed.

Section FiniteDivisor.
Context {RT : Runtime}.

(** Lines 53-57 without a mask, for a finite depth and a finite
    non-zero divisor: the clip of line 54 keeps every index in range. *)
Lemma colorize_finite_divisor depth cmap table lead near far :
  cm_colors cmap = Some table -> length table = 256%nat ->
  shape depth = lead ++ [1%nat] -> tensor_wf depth -> data depth <> [] ->
  Forall (fun d => is_finite d = true) (data depth) ->
  is_finite (divisor near far) = true -> feq (divisor near far) f32_zero = false ->
  apply_colormap (normalize depth near far) cmap =
  Ok (mkTensor (lead ++ [3%nat])
        (pixels (map (fun x => color_at table (pixel_index x)) (data (normalize depth near far))))).
Proof.
  intros Hc Hlen Hs Hwf Hne Hall Hfin Hnz.
  apply (apply_colormap_ok _ cmap table lead Hc Hlen).
  - rewrite normalize_shape. exact Hs.
  - apply normalize_wf. exact Hwf.
  - rewrite normalize_data. apply map_nonempty. exact Hne.
  - intros v Hv. rewrite normalize_data in Hv. apply in_map_iff in Hv. destruct Hv as (x & <- & Hx).
    rewrite Forall_forall in Hall.
    destruct (normalize1_unit x (as_f32 near) (divisor near far) (Hall x Hx)
                (divisor_finite_near near far Hfin) Hfin Hnz) as [Hv Hu].
    apply pixel_index_unit; assumption.
Qed.

End FiniteDivisor.

(** ** Rounding is monotone *)

Lemma rne_tie k n : 1 <= n -> rne (k * 2 ^ n + 2 ^ (n - 1)) n = if Z.odd k then k + 1 else k.
Proof.
  intros Hn. unfold rne.
  pose proof (pow2_pos (n - 1) ltac:(lia)) as Hp.
  pose proof (pow2_double n Hn) as Hd.
  assert (Hq : (k * 2 ^ n + 2 ^ (n - 1)) / 2 ^ n = k).
  { symmetry. apply (Z.div_unique _ _ _ (2 ^ (n - 1))); lia. }
  assert (Hr : (k * 2 ^ n + 2 ^ (n - 1)) mod 2 ^ n = 2 ^ (n - 1)).
  { symmetry. apply (Z.mod_unique _ _ k); lia. }
  cbv zeta. rewrite Hq, Hr.
  destruct (Z.ltb_spec (2 ^ n) (2 * 2 ^ (n - 1))); [lia|].
  destruct (Z.eqb_spec (2 ^ n) (2 * 2 ^ (n - 1))); [|lia].
  cbn [orb andb]. reflexivity.
Qed.

Lemma rne_mono M1 n1 M2 n2 :
  0 <= n1 -> 0 <= n2 -> M1 * 2 ^ n2 <= M2 * 2 ^ n1 -> rne M1 n1 <= rne M2 n2.
Proof.
  intros H1 H2 Hle.
  pose proof (pow2_pos n1 H1) as P1. pose proof (pow2_pos n2 H2) as P2.
  pose proof (rne_error M2 n2 H2) as [Hlo _].
  set (k := rne M2 n2) in *.
  assert (Hk : 2 * M2 <= (2 * k + 1) * 2 ^ n2) by lia.
  assert (Hm : 2 * M1 <= (2 * k + 1) * 2 ^ n1).
  { apply (Z.mul_le_mono_pos_r _ _ (2 ^ n2) P2).
    apply Z.le_trans with (2 * M2 * 2 ^ n1); [lia|].
    replace ((2 * k + 1) * 2 ^ n1 * 2 ^ n2) with ((2 * k + 1) * 2 ^ n2 * 2 ^ n1) by ring.
    apply Z.mul_le_mono_nonneg_r; lia. }
  destruct (Z.eq_dec (2 * M1) ((2 * k + 1) * 2 ^ n1)) as [E|NE].
  2:{ apply rne_below; [exact H1|lia]. }
  (* a tie on both sides *)
  assert (E2 : 2 * M2 = (2 * k + 1) * 2 ^ n2).
  { apply Z.le_antisymm; [exact Hk|].
    apply (Z.mul_le_mono_pos_r _ _ (2 ^ n1) P1).
    replace ((2 * k + 1) * 2 ^ n2 * 2 ^ n1) with ((2 * k + 1) * 2 ^ n1 * 2 ^ n2) by ring.
    rewrite <- E. lia. }
  assert (N1 : 1 <= n1).
  { destruct (Z.eq_dec n1 0) as [Z0|]; [|lia]. rewrite Z0 in E. change (2 ^ 0) with 1 in E. lia. }
  assert (N2 : 1 <= n2).
  { destruct (Z.eq_dec n2 0) as [Z0|]; [|lia]. rewrite Z0 in E2. change (2 ^ 0) with 1 in E2. lia. }
  pose proof (pow2_double n1 N1) as D1. pose proof (pow2_double n2 N2) as D2.
  assert (F1 : M1 = k * 2 ^ n1 + 2 ^ (n1 - 1)) by lia.
  assert (F2 : M2 = k * 2 ^ n2 + 2 ^ (n2 - 1)) by lia.
  pose proof (rne_tie k n2 N2) as T2. rewrite <- F2 in T2. fold k in T2.
  rewrite F1, (rne_tie k n1 N1).
  destruct (Z.odd k); lia.
Qed.

Lemma digits_value_le M1 E1 M2 E2 :
  0 < M1 -> 0 < M2 ->
  M1 * 2 ^ (E1 - Z.min E1 E2) <= M2 * 2 ^ (E2 - Z.min E1 E2) ->
  Zdigits2 M1 + E1 <= Zdigits2 M2 + E2.
Proof.
  intros H1 H2 Hle.
  pose proof (Zdigits2_bounds M1 H1) as [B1 _]. pose proof (Zdigits2_bounds M2 H2) as [_ B2].
  pose proof (Zdigits2_pos M1 H1) as D1. pose proof (Zdigits2_pos M2 H2) as D2.
  set (mu := Z.min E1 E2) in *.
  pose proof (pow2_pos (E1 - mu) ltac:(lia)) as P1. pose proof (pow2_pos (E2 - mu) ltac:(lia)) as P2.
  assert (Hlt : 2 ^ (Zdigits2 M1 - 1 + (E1 - mu)) < 2 ^ (Zdigits2 M2 + (E2 - mu))).
  { rewrite !Z.pow_add_r by lia.
    apply Z.le_lt_trans with (M1 * 2 ^ (E1 - mu)); [apply Z.mul_le_mono_nonneg_r; lia|].
    apply Z.le_lt_trans with (M2 * 2 ^ (E2 - mu)); [exact Hle|].
    apply Z.mul_lt_mono_pos_r; lia. }
  apply Z.pow_lt_mono_r_iff in Hlt; lia.
Qed.

Lemma SFleb_opp x y : SFleb (SFopp x) (SFopp y) = SFleb y x.
Proof.
  unfold SFleb, SFcompare.
  destruct x as [sx|sx| |sx mx ex], y as [sy|sy| |sy my ey]; cbn [SFopp];
    try destruct sx; try destruct sy; cbn [negb]; try reflexivity.
  - rewrite (Z.compare_antisym ey ex).
    destruct (Z.compare ey ex); cbn [CompOpp]; try reflexivity.
    change (Pos.compare_cont Eq mx my) with (Pos.compare mx my).
    change (Pos.compare_cont Eq my mx) with (Pos.compare my mx).
    rewrite (Pos.compare_antisym my mx). destruct (Pos.compare my mx); reflexivity.
  - rewrite (Z.compare_antisym ey ex).
    destruct (Z.compare ey ex); cbn [CompOpp]; try reflexivity.
    change (Pos.compare_cont Eq mx my) with (Pos.compare mx my).
    change (Pos.compare_cont Eq my mx) with (Pos.compare my mx).
    rewrite (Pos.compare_antisym my mx). destruct (Pos.compare my mx); reflexivity.
Qed.

Lemma finish_opp prec emax s m e : finish prec emax (negb s) m e = SFopp (finish prec emax s m e).
Proof.
  unfold finish. destruct (m =? 0); [reflexivity|].
  destruct (m <? 2 ^ prec).
  - destruct (e <=? emax - prec); reflexivity.
  - destruct (e + 1 <=? emax - prec); reflexivity.
Qed.

Section RoundMono.
Variables prec emax : Z.
Hypothesis Hprec : 0 < prec.

Local Abbreviation fexp := (fexp prec emax).
Local Abbreviation emin := (emin prec emax).

Lemma SFleb_zero_finish s m e : SFleb (S754_zero s) (finish prec emax false m e) = true.
Proof.
  destruct (finish_cases prec emax false m e) as [->|[->|(m' & e' & ->)]]; reflexivity.
Qed.

Lemma SFleb_pos_refl m e : SFleb (S754_finite false m e) (S754_finite false m e) = true.
Proof. apply SFleb_pos_finite. right. split; [reflexivity|lia]. Qed.

(** Two rounded mantissas at one exponent. *)
Lemma finish_le_mantissa a b e :
  0 <= a <= b -> b <= 2 ^ prec ->
  SFleb (finish prec emax false a e) (finish prec emax false b e) = true.
Proof.
  intros Hab Hb.
  destruct (Z.eq_dec a 0) as [->|Ha]; [apply SFleb_zero_finish|].
  pose proof (pow2_pos (prec - 1) ltac:(lia)) as Hp.
  unfold finish.
  destruct (Z.eqb_spec a 0); [contradiction|]. destruct (Z.eqb_spec b 0); [lia|].
  destruct (Z.ltb_spec a (2 ^ prec)), (Z.ltb_spec b (2 ^ prec)); try lia.
  - destruct (Z.leb_spec e (emax - prec)); [|reflexivity].
    apply SFleb_pos_finite. right. split; [reflexivity|]. rewrite !Z2Pos.id by lia. lia.
  - destruct (Z.leb_spec e (emax - prec)), (Z.leb_spec (e + 1) (emax - prec)); try lia; try reflexivity.
    apply SFleb_pos_finite. left. lia.
  - destruct (Z.leb_spec (e + 1) (emax - prec)); [apply SFleb_pos_refl|reflexivity].
Qed.

(** A rounded mantissa against a normal one at a larger exponent. *)
Lemma finish_le_exponent a e1 b e2 :
  0 <= a <= 2 ^ prec -> 2 ^ (prec - 1) <= b <= 2 ^ prec -> e1 < e2 ->
  SFleb (finish prec emax false a e1) (finish prec emax false b e2) = true.
Proof.
  intros Ha Hb He.
  destruct (Z.eq_dec a 0) as [->|Ha0]; [apply SFleb_zero_finish|].
  pose proof (pow2_pos (prec - 1) ltac:(lia)) as Hp.
  unfold finish.
  destruct (Z.eqb_spec a 0); [contradiction|]. destruct (Z.eqb_spec b 0); [lia|].
  destruct (Z.ltb_spec a (2 ^ prec)), (Z.ltb_spec b (2 ^ prec));
    repeat match goal with
           | |- context [?x <=? ?y] => destruct (Z.leb_spec x y)
           end; try lia; try reflexivity;
    apply SFleb_pos_finite; rewrite ?Z2Pos.id by lia; lia.
Qed.

(** Rounding to nearest even is monotone on the non-negative numbers
    [M * 2^E]. *)
Lemma round_mono_pos M1 E1 M2 E2 :
  0 <= M1 -> 0 <= M2 ->
  E1 <= fexp (Zdigits2 M1 + E1) -> E2 <= fexp (Zdigits2 M2 + E2) ->
  M1 * 2 ^ (E1 - Z.min E1 E2) <= M2 * 2 ^ (E2 - Z.min E1 E2) ->
  SFleb (binary_round_aux prec emax false M1 E1 loc_Exact)
        (binary_round_aux prec emax false M2 E2 loc_Exact) = true.
Proof.
  intros H1 H2 A1 A2 Hle.
  rewrite !(binary_round_aux_exact prec emax Hprec) by assumption.
  destruct (Z.eq_dec M1 0) as [->|N1].
  { unfold rne at 1. rewrite Z.div_0_l, Z.mod_0_l by (apply Z.pow_nonzero; lia).
    cbv zeta. replace ((2 ^ _ <? 2 * 0) || _) with false.
    - apply SFleb_zero_finish.
    - symmetry. apply orb_false_iff. split.
      + apply Z.ltb_ge. pose proof (pow2_pos (fexp (Zdigits2 0 + E1) - E1) ltac:(lia)). lia.
      + apply andb_false_iff. right. reflexivity. }
  pose proof (pow2_pos (E1 - Z.min E1 E2) ltac:(lia)) as P1.
  pose proof (pow2_pos (E2 - Z.min E1 E2) ltac:(lia)) as P2.
  assert (N2 : 0 < M2) by nia.
  pose proof (digits_value_le M1 E1 M2 E2 ltac:(lia) N2 Hle) as Hd.
  pose proof (fexp_mono prec emax _ _ Hd) as He.
  set (e1 := fexp (Zdigits2 M1 + E1)) in *. set (e2 := fexp (Zdigits2 M2 + E2)) in *.
  pose proof (stage1_bounds prec emax Hprec M1 E1 H1 A1) as [Q1 _].
  pose proof (stage1_bounds prec emax Hprec M2 E2 H2 A2) as [Q2 Q2n].
  cbv zeta in Q1, Q2, Q2n. fold e1 in Q1. fold e2 in Q2, Q2n.
  pose proof (rne_range M1 (e1 - E1)) as R1. pose proof (rne_range M2 (e2 - E2)) as R2.
  destruct (Z.eq_dec e1 e2) as [Ee|Ne].
  - rewrite <- Ee in *. apply finish_le_mantissa; [|lia]. split; [lia|].
    apply rne_mono; try lia.
    set (mu := Z.min E1 E2) in *.
    pose proof (pow2_pos (e1 - Z.max E1 E2) ltac:(lia)) as P3.
    replace (e1 - E2) with ((E1 - mu) + (e1 - Z.max E1 E2)) by lia.
    replace (e1 - E1) with ((E2 - mu) + (e1 - Z.max E1 E2)) by lia.
    rewrite !Z.pow_add_r by lia. rewrite !Z.mul_assoc.
    apply Z.mul_le_mono_nonneg_r; lia.
  - apply finish_le_exponent; try lia.
    pose proof (fexp_ge_emin prec emax (Zdigits2 M1 + E1)). fold e1 in H. lia.
Qed.

End RoundMono.

(** ** The order of signed numbers *)

Lemma fle_nonpos_nonneg x y : nonpos x = true -> nonneg y = true -> fle x y = true.
Proof.
  destruct x as [sx|sx| |sx mx ex], y as [sy|sy| |sy my ey]; try discriminate;
    try destruct sx; try destruct sy; try discriminate; reflexivity.
Qed.

Lemma nonneg_finish m e : nonneg (finish 24 128 false m e) = true.
Proof. destruct (finish_cases 24 128 false m e) as [->|[->|(m' & e' & ->)]]; reflexivity. Qed.

Lemma fle_not_nan x y : fle x y = true -> is_nan x = false /\ is_nan y = false.
Proof. destruct x, y; try discriminate; split; reflexivity. Qed.

Lemma fle_neg_inf y : is_nan y = false -> fle (S754_infinity true) y = true.
Proof. destruct y as [s|s| |s m e]; try discriminate; try destruct s; reflexivity. Qed.

Lemma fle_pos_inf x : is_nan x = false -> fle x (S754_infinity false) = true.
Proof. destruct x as [s|s| |s m e]; try discriminate; try destruct s; reflexivity. Qed.

Lemma fle_between_finite a x b :
  is_finite a = true -> is_finite b = true -> fle a x = true -> fle x b = true -> is_finite x = true.
Proof.
  destruct x as [s|s| |s m e]; try reflexivity; try discriminate.
  destruct s.
  - destruct a as [sa|sa| |sa ma ea]; try discriminate; try destruct sa; discriminate.
  - destruct b as [sb|sb| |sb mb eb]; try discriminate; try destruct sb; discriminate.
Qed.

(** ** Scaling is monotone *)

Lemma f32_mul_pos_round s mx ex mc ec :
  f32_mul (S754_finite s mx ex) (S754_finite false mc ec) =
  binary_round_aux 24 128 s (Z.pos mx * Z.pos mc) (ex + ec) loc_Exact.
Proof. unfold f32_mul. cbn [SFmul]. rewrite xorb_false_r. reflexivity. Qed.

Lemma round_sign_opp M E :
  0 <= M -> E <= fexp 24 128 (Zdigits2 M + E) ->
  binary_round_aux 24 128 true M E loc_Exact = SFopp (binary_round_aux 24 128 false M E loc_Exact).
Proof.
  intros H A. rewrite !(binary_round_aux_exact 24 128 eq_refl) by assumption.
  apply (finish_opp 24 128 false).
Qed.

Lemma round_nonneg M E :
  0 <= M -> E <= fexp 24 128 (Zdigits2 M + E) ->
  nonneg (binary_round_aux 24 128 false M E loc_Exact) = true.
Proof.
  intros H A. rewrite (binary_round_aux_exact 24 128 eq_refl) by assumption. apply nonneg_finish.
Qed.

Lemma round_nonpos M E :
  0 <= M -> E <= fexp 24 128 (Zdigits2 M + E) ->
  nonpos (binary_round_aux 24 128 true M E loc_Exact) = true.
Proof.
  intros H A. rewrite (binary_round_aux_exact 24 128 eq_refl) by assumption.
  apply nonpos_finish. reflexivity.
Qed.

Lemma mul_value_le mx ex my ey mc ec :
  bounded 24 128 mx ex = true -> bounded 24 128 my ey = true ->
  fle (S754_finite false mx ex) (S754_finite false my ey) = true ->
  Z.pos mx * Z.pos mc * 2 ^ (ex + ec - Z.min (ex + ec) (ey + ec)) <=
  Z.pos my * Z.pos mc * 2 ^ (ey + ec - Z.min (ex + ec) (ey + ec)).
Proof.
  intros Hx Hy Hle. pose proof (fle_aligned_pos mx ex my ey Hx Hy Hle) as H.
  replace (ex + ec - Z.min (ex + ec) (ey + ec)) with (ex - Z.min ex ey) by lia.
  replace (ey + ec - Z.min (ex + ec) (ey + ec)) with (ey - Z.min ex ey) by lia.
  nia.
Qed.

(** [x * c] is monotone in [x] for a positive float32 [c]. *)
Lemma f32_mul_mono x y mc ec :
  f32_valid x = true -> f32_valid y = true -> bounded 24 128 mc ec = true ->
  fle x y = true ->
  fle (f32_mul x (S754_finite false mc ec)) (f32_mul y (S754_finite false mc ec)) = true.
Proof.
  intros Hvx Hvy Hc Hle.
  destruct x as [sx|sx| |sx mx ex]; try discriminate;
    destruct y as [sy|sy| |sy my ey]; try discriminate;
    try (destruct sx; destruct sy; try discriminate; reflexivity);
    cbn [f32_valid valid_binary] in Hvx, Hvy.
  - (* zero, number *)
    destruct sy; [destruct sx; discriminate|].
    rewrite f32_mul_pos_round. apply fle_nonpos_nonneg; [destruct sx; reflexivity|].
    apply round_nonneg; [lia|]. rewrite <- Pos2Z.inj_mul. apply (mul_aligned 24 128 eq_refl eq_refl); assumption.
  - (* -inf, number *)
    destruct sx; [|destruct sy; discriminate].
    apply fle_neg_inf. rewrite f32_mul_pos_round.
    pose proof (binary_round_aux_not_nan 24 128 eq_refl sy (Z.pos my * Z.pos mc) (ey + ec) loc_Exact) as H.
    destruct (binary_round_aux 24 128 sy _ _ _); try reflexivity.
    exfalso. apply H; [lia|]. rewrite <- Pos2Z.inj_mul. apply (mul_aligned 24 128 eq_refl eq_refl); assumption.
  - (* number, zero *)
    destruct sx; [|destruct sy; discriminate].
    rewrite f32_mul_pos_round. apply fle_nonpos_nonneg; [|destruct sy; reflexivity].
    apply round_nonpos; [lia|]. rewrite <- Pos2Z.inj_mul. apply (mul_aligned 24 128 eq_refl eq_refl); assumption.
  - (* number, +inf *)
    destruct sy; [destruct sx; discriminate|].
    apply fle_pos_inf. rewrite f32_mul_pos_round.
    pose proof (binary_round_aux_not_nan 24 128 eq_refl sx (Z.pos mx * Z.pos mc) (ex + ec) loc_Exact) as H.
    destruct (binary_round_aux 24 128 sx _ _ _); try reflexivity.
    exfalso. apply H; [lia|]. rewrite <- Pos2Z.inj_mul. apply (mul_aligned 24 128 eq_refl eq_refl); assumption.
  - (* two numbers *)
    rewrite !f32_mul_pos_round.
    assert (Ax : ex + ec <= fexp 24 128 (Zdigits2 (Z.pos mx * Z.pos mc) + (ex + ec))).
    { rewrite <- Pos2Z.inj_mul. apply (mul_aligned 24 128 eq_refl eq_refl); assumption. }
    assert (Ay : ey + ec <= fexp 24 128 (Zdigits2 (Z.pos my * Z.pos mc) + (ey + ec))).
    { rewrite <- Pos2Z.inj_mul. apply (mul_aligned 24 128 eq_refl eq_refl); assumption. }
    destruct sx, sy.
    + rewrite !round_sign_opp by (assumption || lia). unfold fle. rewrite SFleb_opp.
      apply (round_mono_pos 24 128 eq_refl); try assumption; try lia.
      rewrite fle_neg_swap in Hle. rewrite (Z.min_comm (ey + ec)).
      pose proof (mul_value_le my ey mx ex mc ec Hvy Hvx Hle) as H.
      rewrite (Z.min_comm (ey + ec)) in H. exact H.
    + apply fle_nonpos_nonneg; [apply round_nonpos|apply round_nonneg]; assumption || lia.
    + discriminate.
    + apply (round_mono_pos 24 128 eq_refl); try assumption; try lia.
      apply mul_value_le; assumption.
Qed.

(** ** Truncation is monotone *)

Lemma trunc_pos_floor m e mu :
  mu <= 0 -> mu <= e ->
  trunc (S754_finite false m e) = Z.pos m * 2 ^ (e - mu) / 2 ^ (- mu).
Proof.
  intros Hmu He. cbn [trunc cond_Zopp].
  pose proof (pow2_pos (- mu) ltac:(lia)) as Pm.
  destruct (Z.leb_spec 0 e).
  - replace (e - mu) with (e + - mu) by lia. rewrite Z.pow_add_r by lia.
    rewrite Z.mul_assoc, Z.div_mul by lia. reflexivity.
  - pose proof (pow2_pos (e - mu) ltac:(lia)) as Pe.
    replace (- mu) with ((- e) + (e - mu)) by lia. rewrite Z.pow_add_r by lia.
    rewrite Z.div_mul_cancel_r by lia. reflexivity.
Qed.

Lemma trunc_pos_nonneg m e : 0 <= trunc (S754_finite false m e).
Proof.
  cbn [trunc cond_Zopp]. destruct (Z.leb_spec 0 e).
  - pose proof (pow2_pos e ltac:(lia)). lia.
  - apply Z.div_pos; [lia|]. apply pow2_pos. lia.
Qed.

Lemma trunc_neg m e : trunc (S754_finite true m e) = - trunc (S754_finite false m e).
Proof. reflexivity. Qed.

Lemma trunc_mono_pos mx ex my ey :
  bounded 24 128 mx ex = true -> bounded 24 128 my ey = true ->
  fle (S754_finite false mx ex) (S754_finite false my ey) = true ->
  trunc (S754_finite false mx ex) <= trunc (S754_finite false my ey).
Proof.
  intros Hx Hy Hle. pose proof (fle_aligned_pos mx ex my ey Hx Hy Hle) as H.
  set (mu := Z.min (Z.min ex ey) 0).
  rewrite (trunc_pos_floor mx ex mu), (trunc_pos_floor my ey mu) by lia.
  apply Z.div_le_mono; [apply pow2_pos; lia|].
  pose proof (pow2_pos (Z.min ex ey - mu) ltac:(lia)) as P.
  replace (ex - mu) with ((ex - Z.min ex ey) + (Z.min ex ey - mu)) by lia.
  replace (ey - mu) with ((ey - Z.min ex ey) + (Z.min ex ey - mu)) by lia.
  rewrite !Z.pow_add_r by lia. rewrite !Z.mul_assoc.
  apply Z.mul_le_mono_nonneg_r; lia.
Qed.

Lemma trunc_mono x y :
  f32_valid x = true -> f32_valid y = true -> is_finite x = true -> is_finite y = true ->
  fle x y = true -> trunc x <= trunc y.
Proof.
  intros Hvx Hvy Hfx Hfy Hle.
  destruct x as [sx|sx| |sx mx ex]; try discriminate;
    destruct y as [sy|sy| |sy my ey]; try discriminate.
  - destruct sy; [destruct sx; discriminate|]. pose proof (trunc_pos_nonneg my ey). cbn [trunc] in *. lia.
  - destruct sx; [|destruct sy; discriminate].
    rewrite trunc_neg. pose proof (trunc_pos_nonneg mx ex). cbn [trunc] in *. lia.
  - cbn [f32_valid valid_binary] in Hvx, Hvy. destruct sx, sy.
    + rewrite fle_neg_swap in Hle. rewrite !trunc_neg.
      pose proof (trunc_mono_pos my ey mx ex Hvy Hvx Hle). lia.
    + rewrite trunc_neg. pose proof (trunc_pos_nonneg mx ex). pose proof (trunc_pos_nonneg my ey). lia.
    + discriminate.
    + apply trunc_mono_pos; assumption.
Qed.

(** ** The index is monotone *)

Section IndexOrder.
Context {RT : Runtime}.

Lemma f32_255_bounded : bounded 24 128 16711680 (-16) = true.
Proof. reflexivity. Qed.

Lemma scale_mono x y :
  f32_valid x = true -> f32_valid y = true -> fle x y = true ->
  fle (f32_mul x f32_255) (f32_mul y f32_255) = true.
Proof. intros Hx Hy H. apply f32_mul_mono; try assumption. exact f32_255_bounded. Qed.

(** Line 22 between two values with indices in int64. *)
Lemma pixel_index_between a x b :
  f32_valid a = true -> f32_valid x = true -> f32_valid b = true ->
  is_finite (f32_mul a f32_255) = true -> is_finite (f32_mul b f32_255) = true ->
  in_int64 (trunc (f32_mul a f32_255)) = true -> in_int64 (trunc (f32_mul b f32_255)) = true ->
  fle a x = true -> fle x b = true ->
  pixel_index x = trunc (f32_mul x f32_255) /\
  trunc (f32_mul a f32_255) <= pixel_index x <= trunc (f32_mul b f32_255).
Proof.
  intros Hva Hvx Hvb Hfa Hfb Hia Hib Hax Hxb.
  pose proof (scale_mono a x Hva Hvx Hax) as H1. pose proof (scale_mono x b Hvx Hvb Hxb) as H2.
  pose proof (fle_between_finite _ _ _ Hfa Hfb H1 H2) as Hfx.
  assert (Hv : forall z, f32_valid z = true -> f32_valid (f32_mul z f32_255) = true)
    by (intros z Hz; apply f32_mul_valid; [exact Hz|reflexivity]).
  pose proof (trunc_mono _ _ (Hv a Hva) (Hv x Hvx) Hfa Hfx H1) as T1.
  pose proof (trunc_mono _ _ (Hv x Hvx) (Hv b Hvb) Hfx Hfb H2) as T2.
  assert (Hi : in_int64 (trunc (f32_mul x f32_255)) = true).
  { unfold in_int64 in *. apply andb_true_iff in Hia, Hib. destruct Hia as [Ha1 _], Hib as [_ Hb2].
    apply Z.leb_le in Ha1, Hb2. apply andb_true_intro. split; apply Z.leb_le; lia. }
  unfold pixel_index. rewrite (to_long_trunc _ Hfx Hi). split; [reflexivity|lia].
Qed.

Lemma pixel_index_accepted x :
  f32_valid x = true -> fle accepted_lo x = true -> fle x accepted_hi = true ->
  pixel_index x = trunc (f32_mul x f32_255) /\ 0 <= pixel_index x <= 255.
Proof.
  intros Hv H1 H2.
  apply (pixel_index_between accepted_lo x accepted_hi); try assumption; reflexivity.
Qed.

Lemma pixel_index_mono x y :
  f32_valid x = true -> f32_valid y = true ->
  fle accepted_lo x = true -> fle x y = true -> fle y accepted_hi = true ->
  pixel_index x <= pixel_index y.
Proof.
  intros Hvx Hvy H1 H2 H3.
  destruct (fle_not_nan _ _ H1) as [_ Nx]. destruct (fle_not_nan _ _ H3) as [Ny _].
  assert (Hxh : fle x accepted_hi = true) by (apply (fle_trans x y); trivial).
  assert (Hly : fle accepted_lo y = true) by (apply (fle_trans _ x); trivial).
  destruct (pixel_index_between accepted_lo x y) as [Ex [_ Hx]]; try assumption; try reflexivity.
  - destruct (pixel_index_accepted y Hvy Hly H3) as [Ey _].
    apply (fle_between_finite (f32_mul accepted_lo f32_255) _ (f32_mul accepted_hi f32_255));
      try reflexivity; apply scale_mono; try assumption; reflexivity.
  - destruct (pixel_index_accepted y Hvy Hly H3) as [Ey Hr]. rewrite <- Ey.
    unfold in_int64, int64_min, int64_max. apply andb_true_intro. split; apply Z.leb_le; lia.
  - destruct (pixel_index_accepted y Hvy Hly H3) as [Ey _]. rewrite Ey. exact Hx.
Qed.

(** Outside the two bounds the index is not in 0..255, or the
    conversion is the undefined one. *)
Lemma below_accepted_lo x :
  is_nan x = false -> fle accepted_lo x = false -> fle x below_accepted = true.
Proof.
  intros Hn H. apply (fle_key x below_accepted Hn eq_refl).
  assert (K : ~ key_le (fkey accepted_lo) (fkey x)).
  { intros K. apply (fle_key accepted_lo x eq_refl Hn) in K. rewrite K in H. discriminate. }
  destruct x as [s|s| |s m e]; try discriminate; try destruct s;
    unfold key_le, fkey, accepted_lo, below_accepted in *; lia.
Qed.

Lemma above_accepted_hi x :
  is_nan x = false -> fle x accepted_hi = false -> fle above_accepted x = true.
Proof.
  intros Hn H. apply (fle_key above_accepted x eq_refl Hn).
  assert (K : ~ key_le (fkey x) (fkey accepted_hi)).
  { intros K. apply (fle_key x accepted_hi Hn eq_refl) in K. rewrite K in H. discriminate. }
  destruct x as [s|s| |s m e]; try discriminate; try destruct s;
    unfold key_le, fkey, accepted_hi, above_accepted in *; lia.
Qed.

Lemma to_long_le r bnd :
  f32_valid r = true -> f32_valid bnd = true -> is_finite bnd = true ->
  fle r bnd = true ->
  to_long r <= trunc bnd \/ to_long r = cast_undefined r.
Proof.
  intros Hv Hb Hf Hle. destruct r as [s|s| |s m e]; try (right; reflexivity).
  - left. cbn [to_long]. change 0 with (trunc (S754_zero s)). apply trunc_mono; trivial.
  - cbn [to_long]. destruct (in_int64 (trunc (S754_finite s m e))); [left|right; reflexivity].
    apply trunc_mono; trivial.
Qed.

Lemma to_long_ge r bnd :
  f32_valid r = true -> f32_valid bnd = true -> is_finite bnd = true ->
  fle bnd r = true ->
  trunc bnd <= to_long r \/ to_long r = cast_undefined r.
Proof.
  intros Hv Hb Hf Hle. destruct r as [s|s| |s m e]; try (right; reflexivity).
  - left. cbn [to_long]. change 0 with (trunc (S754_zero s)). apply trunc_mono; trivial.
  - cbn [to_long]. destruct (in_int64 (trunc (S754_finite s m e))); [left|right; reflexivity].
    apply trunc_mono; trivial.
Qed.

Lemma pixel_index_rejected x :
  f32_valid x = true ->
  (forall y, cast_undefined y < 0 \/ 255 < cast_undefined y) ->
  fle accepted_lo x && fle x accepted_hi = false ->
  pixel_index x < 0 \/ 255 < pixel_index x.
Proof.
  intros Hv Hu H.
  destruct (is_nan x) eqn:Hn.
  { apply is_nan_eq in Hn. subst x. apply Hu. }
  assert (Hvm : f32_valid (f32_mul x f32_255) = true) by (apply f32_mul_valid; [exact Hv|reflexivity]).
  apply andb_false_iff in H. destruct H as [H|H].
  - pose proof (scale_mono x below_accepted Hv eq_refl (below_accepted_lo x Hn H)) as Hs.
    destruct (to_long_le _ (f32_mul below_accepted f32_255) Hvm eq_refl eq_refl Hs) as [T|T].
    + left. change (trunc (f32_mul below_accepted f32_255)) with (-1) in T. unfold pixel_index. lia.
    + unfold pixel_index. rewrite T. apply Hu.
  - pose proof (scale_mono above_accepted x eq_refl Hv (above_accepted_hi x Hn H)) as Hs.
    destruct (to_long_ge _ (f32_mul above_accepted f32_255) Hvm eq_refl eq_refl Hs) as [T|T].
    + right. change (trunc (f32_mul above_accepted f32_255)) with 256 in T. unfold pixel_index. lia.
    + unfold pixel_index. rewrite T. apply Hu.
Qed.

End IndexOrder.

(** ** Rounding a quotient *)

Lemma rne_rne_q M n : rne M n = rne_q M (2 ^ n).
Proof. reflexivity. Qed.

Lemma rne_q_range A D : A / D <= rne_q A D <= A / D + 1.
Proof. unfold rne_q. cbv zeta. destruct (_ || _); lia. Qed.

Lemma rne_q_error A D : 0 < D -> 2 * A - D <= 2 * (rne_q A D * D) <= 2 * A + D.
Proof.
  intros HD. unfold rne_q.
  pose proof (Z.div_mod A D ltac:(lia)) as Hdm.
  pose proof (Z.mod_pos_bound A D HD) as Hb. cbv zeta.
  destruct (Z.ltb_spec D (2 * (A mod D))); cbn [orb].
  - nia.
  - destruct (Z.eqb_spec D (2 * (A mod D))); cbn [andb]; [destruct (Z.odd _)|]; nia.
Qed.

Lemma rne_q_below A D mb : 0 < D -> 2 * A < (2 * mb + 1) * D -> rne_q A D <= mb.
Proof.
  intros HD Hlt. unfold rne_q.
  pose proof (Z.div_mod A D ltac:(lia)) as Hdm.
  pose proof (Z.mod_pos_bound A D HD) as Hb.
  assert (Hq : A / D <= mb) by nia. cbv zeta.
  destruct (Z.ltb_spec D (2 * (A mod D))); cbn [orb].
  - nia.
  - destruct (Z.eqb_spec D (2 * (A mod D))); cbn [andb]; [destruct (Z.odd _)|]; nia.
Qed.

Lemma rne_q_tie A D k : 0 < D -> 2 * A = (2 * k + 1) * D -> rne_q A D = if Z.odd k then k + 1 else k.
Proof.
  intros HD E. unfold rne_q.
  pose proof (Z.div_mod A D ltac:(lia)) as Hdm.
  pose proof (Z.mod_pos_bound A D HD) as Hb.
  assert (Hq : A / D = k) by nia.
  assert (Hr : 2 * (A mod D) = D) by nia.
  cbv zeta. rewrite Hq, Hr.
  rewrite Z.ltb_irrefl, Z.eqb_refl. reflexivity.
Qed.

Lemma rne_q_mono A1 D1 A2 D2 :
  0 < D1 -> 0 < D2 -> A1 * D2 <= A2 * D1 -> rne_q A1 D1 <= rne_q A2 D2.
Proof.
  intros P1 P2 Hle.
  pose proof (rne_q_error A2 D2 P2) as [Hlo _].
  set (k := rne_q A2 D2) in *.
  assert (Hk : 2 * A2 <= (2 * k + 1) * D2) by lia.
  assert (Hm : 2 * A1 <= (2 * k + 1) * D1).
  { apply (Z.mul_le_mono_pos_r _ _ D2 P2).
    apply Z.le_trans with (2 * A2 * D1); [lia|].
    replace ((2 * k + 1) * D1 * D2) with ((2 * k + 1) * D2 * D1) by ring.
    apply Z.mul_le_mono_nonneg_r; lia. }
  destruct (Z.eq_dec (2 * A1) ((2 * k + 1) * D1)) as [E|NE].
  2:{ apply rne_q_below; [exact P1|lia]. }
  assert (E2 : 2 * A2 = (2 * k + 1) * D2).
  { apply Z.le_antisymm; [exact Hk|].
    apply (Z.mul_le_mono_pos_r _ _ D1 P1).
    replace ((2 * k + 1) * D2 * D1) with ((2 * k + 1) * D1 * D2) by ring.
    rewrite <- E. lia. }
  pose proof (rne_q_tie A2 D2 k P2 E2) as T2. fold k in T2.
  rewrite (rne_q_tie A1 D1 k P1 E).
  destruct (Z.odd k); lia.
Qed.

(** ** Rounding with a location *)

Lemma round_of_repr N k r :
  0 <= N -> shr_repr N k r ->
  round_nearest_even (shr_m r) (loc_of_shr_record r) = rne N k.
Proof.
  intros HN (Hk & Hm & Hr & Hs).
  pose proof (pow2_pos (k - 1) ltac:(lia)) as Hp1.
  pose proof (pow2_double k Hk) as Hdbl.
  rewrite Z.testbit_odd, Z.shiftr_div_pow2 in Hr by lia.
  unfold rne.
  assert (Hrem : N mod 2 ^ k = N mod 2 ^ (k - 1) + 2 ^ (k - 1) * ((N / 2 ^ (k - 1)) mod 2)).
  { rewrite Hdbl. rewrite (Z.mul_comm 2). apply Z.rem_mul_r; lia. }
  rewrite <- Z.bit0_mod, Z.bit0_odd in Hrem.
  pose proof (Z.mod_pos_bound N (2 ^ (k - 1)) Hp1) as Hlo.
  rewrite Hrem, <- Hm.
  destruct r as [m rr ss]. cbn [shr_m shr_r shr_s] in *.
  rewrite <- Hr.
  destruct rr, ss; cbn [loc_of_shr_record round_nearest_even Z.b2z].
  - symmetry in Hs. apply negb_true_iff, Z.eqb_neq in Hs.
    destruct (Z.ltb_spec (2 ^ k) (2 * (N mod 2 ^ (k - 1) + 2 ^ (k - 1) * 1))); [reflexivity|lia].
  - symmetry in Hs. apply negb_false_iff, Z.eqb_eq in Hs. rewrite Hs.
    destruct (Z.ltb_spec (2 ^ k) (2 * (0 + 2 ^ (k - 1) * 1))); [lia|].
    destruct (Z.eqb_spec (2 ^ k) (2 * (0 + 2 ^ (k - 1) * 1))); [|lia].
    cbn [orb andb]. rewrite <- Z.negb_even. destruct (Z.even m); reflexivity.
  - symmetry in Hs. apply negb_true_iff, Z.eqb_neq in Hs.
    destruct (Z.ltb_spec (2 ^ k) (2 * (N mod 2 ^ (k - 1) + 2 ^ (k - 1) * 0))); [lia|].
    destruct (Z.eqb_spec (2 ^ k) (2 * (N mod 2 ^ (k - 1) + 2 ^ (k - 1) * 0))); [lia|]. reflexivity.
  - symmetry in Hs. apply negb_false_iff, Z.eqb_eq in Hs. rewrite Hs.
    destruct (Z.ltb_spec (2 ^ k) (2 * (0 + 2 ^ (k - 1) * 0))); [lia|].
    destruct (Z.eqb_spec (2 ^ k) (2 * (0 + 2 ^ (k - 1) * 0))); [lia|]. reflexivity.
Qed.

Lemma loc_code_range l : 0 <= loc_code l <= 3.
Proof. destruct l as [|[]]; cbn; lia. Qed.

Lemma loc_repr m l : 0 <= m -> shr_repr (4 * m + loc_code l) 2 (shr_record_of_loc m l).
Proof.
  intros Hm. pose proof (loc_code_range l) as Hc. unfold shr_repr. split; [lia|].
  change (2 ^ 2) with 4. change (2 - 1) with 1. change (2 ^ 1) with 2.
  assert (Hq : (4 * m + loc_code l) / 4 = m).
  { symmetry. apply (Z.div_unique _ _ _ (loc_code l)); lia. }
  assert (Hb1 : Z.testbit (4 * m + loc_code l) 1 = Z.testbit (loc_code l) 1).
  { replace (4 * m + loc_code l) with (loc_code l + (2 * m) * 2 ^ 1) by (change (2 ^ 1) with 2; lia).
    rewrite Z.testbit_odd, Z.shiftr_div_pow2, Z.div_add by (try lia; change (2 ^ 1) with 2; lia).
    rewrite Z.odd_add_mul_2. rewrite Z.testbit_odd, Z.shiftr_div_pow2 by lia. reflexivity. }
  assert (Hb0 : (4 * m + loc_code l) mod 2 = loc_code l mod 2).
  { replace (4 * m + loc_code l) with (loc_code l + (2 * m) * 2) by lia. apply Z.mod_add. lia. }
  rewrite Hq, Hb1, Hb0.
  destruct l as [|[]]; cbn; repeat split.
Qed.

Section RoundLoc.
Variables prec emax : Z.
Hypothesis Hprec : 0 < prec.

Local Abbreviation fexp := (fexp prec emax).

Lemma stage1_loc_rne m e l :
  0 <= m -> e <= fexp (Zdigits2 m + e) ->
  round_nearest_even (shr_m (fst (shr_fexp prec emax m e l)))
    (loc_of_shr_record (fst (shr_fexp prec emax m e l)))
  = rne (4 * m + loc_code l) (fexp (Zdigits2 m + e) - e + 2).
Proof.
  intros Hm He. pose proof (loc_code_range l) as Hc.
  assert (HN : 0 <= 4 * m + loc_code l) by lia.
  unfold shr_fexp, shr.
  destruct (fexp (Zdigits2 m + e) - e) as [|p|p] eqn:En; cbn [fst]; [| |lia].
  - apply (round_of_repr _ 2); [exact HN|]. apply loc_repr. exact Hm.
  - apply round_of_repr; [exact HN|].
    replace (Z.pos p + 2) with (2 + Z.pos p) by lia.
    apply shr_repr_iter; [exact HN|]. apply loc_repr. exact Hm.
Qed.

(** Rounding with a location is rounding of the number with two more
    bits. *)
Lemma binary_round_aux_loc s m e l :
  0 <= m -> e <= fexp (Zdigits2 m + e) ->
  binary_round_aux prec emax s m e l =
  finish prec emax s (rne (4 * m + loc_code l) (fexp (Zdigits2 m + e) - e + 2))
    (fexp (Zdigits2 m + e)).
Proof.
  intros Hm He.
  destruct (binary_round_aux_finish prec emax Hprec s m e l Hm He) as (m1 & _ & E1 & ->).
  rewrite E1, stage1_loc_rne by assumption. reflexivity.
Qed.

End RoundLoc.

(** The rounding of [(B*q + r) / (B * 2^n)] from the quotient [q] and
    the place of the remainder [r]. *)
Lemma rne_sticky B q r n c :
  0 < B -> 0 <= q -> 0 <= r < B -> 0 <= n ->
  c = (if r =? 0 then 0 else if 2 * r <? B then 1 else if 2 * r =? B then 2 else 3) ->
  rne (4 * q + c) (n + 2) = rne_q (B * q + r) (B * 2 ^ n).
Proof.
  intros HB Hq Hr Hn Hc.
  pose proof (pow2_pos n Hn) as Pn.
  assert (Hc03 : 0 <= c <= 3).
  { subst c. destruct (r =? 0); [lia|]. destruct (2 * r <? B); [lia|]. destruct (2 * r =? B); lia. }
  set (Q := q / 2 ^ n). set (rho := q mod 2 ^ n).
  pose proof (Z.div_mod q (2 ^ n) ltac:(lia)) as Hdm. fold Q rho in Hdm.
  pose proof (Z.mod_pos_bound q (2 ^ n) Pn) as Hrho. fold rho in Hrho.
  assert (P4 : 2 ^ (n + 2) = 4 * 2 ^ n) by (rewrite Z.pow_add_r by lia; change (2 ^ 2) with 4; lia).
  (* the left side *)
  assert (L1 : (4 * q + c) / 2 ^ (n + 2) = Q).
  { symmetry. apply (Z.div_unique _ _ _ (4 * rho + c)); [lia|]. rewrite P4. lia. }
  assert (L2 : (4 * q + c) mod 2 ^ (n + 2) = 4 * rho + c).
  { symmetry. apply (Z.mod_unique _ _ Q); [lia|]. rewrite P4. lia. }
  (* the right side *)
  assert (R1 : (B * q + r) / (B * 2 ^ n) = Q).
  { symmetry. apply (Z.div_unique _ _ _ (B * rho + r)); [nia|nia]. }
  assert (R2 : (B * q + r) mod (B * 2 ^ n) = B * rho + r).
  { symmetry. apply (Z.mod_unique _ _ Q); [nia|nia]. }
  unfold rne, rne_q. cbv zeta. rewrite L1, L2, R1, R2, P4.
  assert (Hcmp : (4 * 2 ^ n <? 2 * (4 * rho + c)) = (B * 2 ^ n <? 2 * (B * rho + r)) /\
                 (4 * 2 ^ n =? 2 * (4 * rho + c)) = (B * 2 ^ n =? 2 * (B * rho + r))).
  { destruct (Z.eq_dec n 0) as [->|Hn0].
    - change (2 ^ 0) with 1 in *. assert (rho = 0) by lia. subst rho. clear Hdm.
      replace (2 * (4 * (q mod 1) + c)) with (2 * c) by lia.
      replace (2 * (B * (q mod 1) + r)) with (2 * r) by lia.
      rewrite !Z.mul_1_r.
      subst c. destruct (Z.eqb_spec r 0).
      + split; [destruct (Z.ltb_spec 4 (2 * 0)), (Z.ltb_spec B (2 * r)); lia || reflexivity|
                destruct (Z.eqb_spec 4 (2 * 0)), (Z.eqb_spec B (2 * r)); lia || reflexivity].
      + destruct (Z.ltb_spec (2 * r) B).
        * split; [destruct (Z.ltb_spec 4 (2 * 1)), (Z.ltb_spec B (2 * r)); lia || reflexivity|
                  destruct (Z.eqb_spec 4 (2 * 1)), (Z.eqb_spec B (2 * r)); lia || reflexivity].
        * destruct (Z.eqb_spec (2 * r) B).
          -- split; [destruct (Z.ltb_spec 4 (2 * 2)), (Z.ltb_spec B (2 * r)); lia || reflexivity|
                     destruct (Z.eqb_spec 4 (2 * 2)), (Z.eqb_spec B (2 * r)); lia || reflexivity].
          -- split; [destruct (Z.ltb_spec 4 (2 * 3)), (Z.ltb_spec B (2 * r)); lia || reflexivity|
                     destruct (Z.eqb_spec 4 (2 * 3)), (Z.eqb_spec B (2 * r)); lia || reflexivity].
    - pose proof (pow2_double n ltac:(lia)) as Hd. set (h := 2 ^ (n - 1)) in *.
      assert (Hc0 : c = 0 <-> r = 0).
      { subst c. destruct (Z.eqb_spec r 0); [tauto|]. destruct (2 * r <? B); [lia|].
        destruct (2 * r =? B); lia. }
      destruct (Z.lt_trichotomy rho h) as [Hl|[He|Hg]].
      + split.
        * destruct (Z.ltb_spec (4 * 2 ^ n) (2 * (4 * rho + c))), (Z.ltb_spec (B * 2 ^ n) (2 * (B * rho + r)));
            try reflexivity; nia.
        * destruct (Z.eqb_spec (4 * 2 ^ n) (2 * (4 * rho + c))), (Z.eqb_spec (B * 2 ^ n) (2 * (B * rho + r)));
            try reflexivity; nia.
      + split.
        * destruct (Z.ltb_spec (4 * 2 ^ n) (2 * (4 * rho + c))), (Z.ltb_spec (B * 2 ^ n) (2 * (B * rho + r)));
            try reflexivity; nia.
        * destruct (Z.eqb_spec (4 * 2 ^ n) (2 * (4 * rho + c))), (Z.eqb_spec (B * 2 ^ n) (2 * (B * rho + r)));
            try reflexivity; nia.
      + split.
        * destruct (Z.ltb_spec (4 * 2 ^ n) (2 * (4 * rho + c))), (Z.ltb_spec (B * 2 ^ n) (2 * (B * rho + r)));
            try reflexivity; nia.
        * destruct (Z.eqb_spec (4 * 2 ^ n) (2 * (4 * rho + c))), (Z.eqb_spec (B * 2 ^ n) (2 * (B * rho + r)));
            try reflexivity; nia. }
  destruct Hcmp as [-> ->]. reflexivity.
Qed.

(** ** Division *)

Lemma new_location_code B r :
  0 < B -> 0 <= r < B ->
  loc_code (new_location B r) =
  if r =? 0 then 0 else if 2 * r <? B then 1 else if 2 * r =? B then 2 else 3.
Proof.
  intros HB Hr. unfold new_location.
  destruct (Z.even B) eqn:Ev.
  - unfold new_location_even. destruct (Z.eqb_spec r 0); [reflexivity|].
    destruct (Z.compare_spec (2 * r) B) as [C|C|C]; cbn [loc_code].
    + destruct (Z.ltb_spec (2 * r) B); [lia|]. destruct (Z.eqb_spec (2 * r) B); [reflexivity|lia].
    + destruct (Z.ltb_spec (2 * r) B); [reflexivity|lia].
    + destruct (Z.ltb_spec (2 * r) B); [lia|]. destruct (Z.eqb_spec (2 * r) B); [lia|reflexivity].
  - unfold new_location_odd. destruct (Z.eqb_spec r 0); [reflexivity|].
    assert (Hne : 2 * r <> B).
    { intros E. rewrite <- E, Z.even_mul in Ev. discriminate. }
    destruct (Z.compare_spec (2 * r + 1) B) as [C|C|C]; cbn [loc_code].
    + destruct (Z.ltb_spec (2 * r) B); [reflexivity|lia].
    + destruct (Z.ltb_spec (2 * r) B); [reflexivity|lia].
    + destruct (Z.ltb_spec (2 * r) B); [lia|]. destruct (Z.eqb_spec (2 * r) B); [lia|reflexivity].
Qed.

(** Three facts on integers, used for the quotients below. *)
Lemma quot_scaled_lt A1 A2 B P1 P2 :
  0 < B -> 0 < P1 -> 0 < P2 -> A1 * P1 <= A2 * P2 ->
  (A1 / B) * P1 < (A2 / B + 1) * P2.
Proof.
  intros HB H1 H2 HV.
  apply (Z.mul_lt_mono_pos_l B); [exact HB|].
  apply Z.le_lt_trans with (A1 * P1).
  - rewrite Z.mul_assoc. apply Z.mul_le_mono_nonneg_r; [apply Z.lt_le_incl; exact H1|].
    apply Z.mul_div_le; exact HB.
  - apply Z.le_lt_trans with (A2 * P2); [exact HV|].
    rewrite Z.mul_assoc. apply Z.mul_lt_mono_pos_r; [exact H2|].
    apply (Z.mul_succ_div_gt A2 B HB).
Qed.

Lemma cross_scaled_le A1 A2 B P1 P2 P3 :
  0 < B -> 0 < P3 -> A1 * P1 <= A2 * P2 ->
  A1 * (B * (P1 * P3)) <= A2 * (B * (P2 * P3)).
Proof.
  intros HB H3 HV.
  replace (A1 * (B * (P1 * P3))) with (A1 * P1 * (B * P3)) by ring.
  replace (A2 * (B * (P2 * P3))) with (A2 * P2 * (B * P3)) by ring.
  apply Z.mul_le_mono_nonneg_r; [|exact HV].
  apply Z.lt_le_incl, Z.mul_pos_pos; assumption.
Qed.

Lemma min_max_split a b g :
  g - b = (a - Z.min a b) + (g - Z.max a b) /\
  g - a = (b - Z.min a b) + (g - Z.max a b).
Proof. lia. Qed.

Section Division.
Variables prec emax : Z.
Hypothesis Hprec : 0 < prec.

Local Abbreviation fexp := (fexp prec emax).
Local Abbreviation emin := (emin prec emax).

Lemma SFdiv_core_spec m1 e1 m2 e2 :
  let e' := Z.min (fexp (Zdigits2 (Z.pos m1) + e1 - (Zdigits2 (Z.pos m2) + e2))) (e1 - e2) in
  let A := Z.pos m1 * 2 ^ (e1 - e2 - e') in
  SFdiv_core_binary prec emax (Z.pos m1) e1 (Z.pos m2) e2 =
  (A / Z.pos m2, e', new_location (Z.pos m2) (A mod Z.pos m2)).
Proof.
  intros e' A. unfold SFdiv_core_binary. fold e'.
  set (sh := e1 - e2 - e') in *.
  assert (Hsh : 0 <= sh) by (unfold sh, e'; lia).
  set (m' := match sh with Z.pos _ => Z.shiftl (Z.pos m1) sh | 0 => Z.pos m1 | Z.neg _ => 0 end).
  assert (Hm' : m' = A).
  { unfold m', A. destruct sh as [|p|p] eqn:E.
    - rewrite Z.pow_0_r. lia.
    - rewrite Z.shiftl_mul_pow2 by lia. reflexivity.
    - lia. }
  change (match sh with 0 => Z.pos m1 | Z.pos _ => IntDef.Z.shiftl (Z.pos m1) sh | Z.neg _ => 0 end)
    with m'.
  rewrite Hm'. unfold Z.div, Z.modulo.
  change (IntDef.Z.div_eucl A (Z.pos m2)) with (Z.div_eucl A (Z.pos m2)).
  destruct (Z.div_eucl A (Z.pos m2)) as [q r]. reflexivity.
Qed.

(** The quotient of two finite numbers: the exact quotient, rounded
    once. *)
Lemma SFdiv_finite_eq sx mx ex sy my ey :
  let e' := Z.min (fexp (Zdigits2 (Z.pos mx) + ex - (Zdigits2 (Z.pos my) + ey))) (ex - ey) in
  let A := Z.pos mx * 2 ^ (ex - ey - e') in
  let e := fexp (Zdigits2 (A / Z.pos my) + e') in
  e' <= e /\ 0 <= A / Z.pos my /\
  SFdiv prec emax (S754_finite sx mx ex) (S754_finite sy my ey) =
  finish prec emax (xorb sx sy) (rne_q A (Z.pos my * 2 ^ (e - e'))) e.
Proof.
  intros e' A e.
  pose proof (SFdiv_core_aligned prec emax Hprec mx ex my ey) as Hal. cbv zeta in Hal.
  cbn [SFdiv]. rewrite SFdiv_core_spec in *. fold e' A in Hal |- *. cbn [fst snd] in Hal.
  destruct Hal as [H0 Hal]. fold e in Hal.
  split; [exact Hal|]. split; [exact H0|].
  rewrite (binary_round_aux_loc prec emax Hprec) by assumption. fold e.
  f_equal.
  pose proof (Z.div_mod A (Z.pos my) ltac:(lia)) as Hdm.
  pose proof (Z.mod_pos_bound A (Z.pos my) ltac:(lia)) as Hb.
  rewrite (rne_sticky (Z.pos my) (A / Z.pos my) (A mod Z.pos my) (e - e')); try lia.
  - rewrite <- Hdm. reflexivity.
  - apply new_location_code; lia.
Qed.

(** An exponent that is no larger than its rounding exponent is
    rounded at the least exponent. *)
Lemma fexp_small e : e <= fexp e -> fexp e = emin.
Proof. unfold SpecFloat.fexp. lia. Qed.

(** Division by a positive number is monotone on the positive
    numbers. *)
Lemma SFdiv_mono_pos m1 e1 m2 e2 md ed :
  Z.pos m1 * 2 ^ (e1 - Z.min e1 e2) <= Z.pos m2 * 2 ^ (e2 - Z.min e1 e2) ->
  SFleb (SFdiv prec emax (S754_finite false m1 e1) (S754_finite false md ed))
        (SFdiv prec emax (S754_finite false m2 e2) (S754_finite false md ed)) = true.
Proof.
  intros Hle.
  pose proof (SFdiv_finite_eq false m1 e1 false md ed) as (Ha1 & Hq1 & ->).
  pose proof (SFdiv_finite_eq false m2 e2 false md ed) as (Ha2 & Hq2 & ->).
  cbn [xorb].
  set (dd := Zdigits2 (Z.pos md) + ed) in *.
  set (f1 := Z.min (fexp (Zdigits2 (Z.pos m1) + e1 - dd)) (e1 - ed)) in *.
  set (f2 := Z.min (fexp (Zdigits2 (Z.pos m2) + e2 - dd)) (e2 - ed)) in *.
  assert (Hf1 : f1 <= e1 - ed) by (unfold f1; apply Z.le_min_r).
  assert (Hf2 : f2 <= e2 - ed) by (unfold f2; apply Z.le_min_r).
  clearbody f1 f2. clear dd.
  set (B := Z.pos md) in *. assert (HB : 0 < B) by (unfold B; reflexivity).
  clearbody B.
  set (nu := Z.min f1 f2).
  assert (Hn1 : 0 <= f1 - nu) by (unfold nu; lia).
  assert (Hn2 : 0 <= f2 - nu) by (unfold nu; lia).
  pose proof (pow2_pos (f1 - nu) Hn1) as P1.
  pose proof (pow2_pos (f2 - nu) Hn2) as P2.
  (* the numerators, at a common exponent *)
  assert (HV : Z.pos m1 * 2 ^ (e1 - ed - f1) * 2 ^ (f1 - nu) <=
               Z.pos m2 * 2 ^ (e2 - ed - f2) * 2 ^ (f2 - nu)).
  { clear Ha1 Ha2 Hq1 Hq2 P1 P2.
    rewrite <- !Z.mul_assoc, <- !Z.pow_add_r by lia.
    set (mu := Z.min e1 e2) in *.
    assert (Hmu : 0 <= mu - ed - nu) by (unfold nu, mu; lia).
    assert (Hm1 : 0 <= e1 - mu) by (unfold mu; lia).
    assert (Hm2 : 0 <= e2 - mu) by (unfold mu; lia).
    pose proof (pow2_pos (mu - ed - nu) Hmu) as P.
    replace (e1 - ed - f1 + (f1 - nu)) with ((e1 - mu) + (mu - ed - nu)) by lia.
    replace (e2 - ed - f2 + (f2 - nu)) with ((e2 - mu) + (mu - ed - nu)) by lia.
    rewrite !Z.pow_add_r by assumption. rewrite !Z.mul_assoc.
    apply Z.mul_le_mono_nonneg_r; [apply Z.lt_le_incl; exact P|exact Hle]. }
  clear Hle.
  set (A1 := Z.pos m1 * 2 ^ (e1 - ed - f1)) in *.
  set (A2 := Z.pos m2 * 2 ^ (e2 - ed - f2)) in *.
  clearbody A1 A2.
  set (q1 := A1 / B) in *. set (q2 := A2 / B) in *.
  assert (Hlt : q1 * 2 ^ (f1 - nu) < (q2 + 1) * 2 ^ (f2 - nu)).
  { apply quot_scaled_lt; assumption. }
  pose proof (stage1_bounds prec emax Hprec q1 f1 Hq1 Ha1) as [S1 _].
  pose proof (stage1_bounds prec emax Hprec q2 f2 Hq2 Ha2) as [S2 S2n].
  cbv zeta in S1, S2, S2n.
  pose proof (fexp_ge_emin prec emax (Zdigits2 q1 + f1)) as E1.
  pose proof (fexp_ge_emin prec emax (Zdigits2 q2 + f2)) as E2.
  (* the exponents of the results *)
  assert (Hg : fexp (Zdigits2 q1 + f1) <= fexp (Zdigits2 q2 + f2)).
  { clear S1 S2 S2n E1 HV. clearbody q1 q2.
    destruct (Z.eq_dec q1 0) as [Z1|N1].
    - rewrite Z1 in *. cbn [Zdigits2] in *.
      rewrite (fexp_small (0 + f1) Ha1). exact E2.
    - apply fexp_mono. clear E2 Ha1 Ha2.
      assert (D1 : 2 ^ (Zdigits2 q1 - 1) <= q1)
        by (apply (Zdigits2_bounds q1); lia).
      assert (D1p : 0 < Zdigits2 q1) by (apply Zdigits2_pos; lia).
      pose proof (Zdigits2_nonneg q2) as D2n.
      assert (D2 : q2 + 1 <= 2 ^ Zdigits2 q2).
      { destruct (Z.eq_dec q2 0) as [->|N2]; [cbn; lia|].
        pose proof (Zdigits2_bounds q2 ltac:(lia)). lia. }
      assert (Hp : 2 ^ (Zdigits2 q1 - 1 + (f1 - nu)) < 2 ^ (Zdigits2 q2 + (f2 - nu))).
      { rewrite !Z.pow_add_r by lia.
        apply Z.le_lt_trans with (q1 * 2 ^ (f1 - nu));
          [apply Z.mul_le_mono_nonneg_r; [apply Z.lt_le_incl; exact P1|exact D1]|].
        apply Z.lt_le_trans with ((q2 + 1) * 2 ^ (f2 - nu)); [exact Hlt|].
        apply Z.mul_le_mono_nonneg_r; [apply Z.lt_le_incl; exact P2|exact D2]. }
      apply Z.pow_lt_mono_r_iff in Hp; [|lia|lia].
      clear - Hp. unfold nu in Hp. lia. }
  clear Hlt.
  (* the two mantissas *)
  set (g1 := fexp (Zdigits2 q1 + f1)) in *. set (g2 := fexp (Zdigits2 q2 + f2)) in *.
  clearbody g1 g2.
  assert (Hg1 : 0 <= g1 - f1) by lia. assert (Hg2 : 0 <= g2 - f2) by lia.
  pose proof (pow2_pos (g1 - f1) Hg1) as G1. pose proof (pow2_pos (g2 - f2) Hg2) as G2.
  pose proof (rne_q_range A1 (B * 2 ^ (g1 - f1))) as R1.
  pose proof (rne_q_range A2 (B * 2 ^ (g2 - f2))) as R2.
  rewrite <- Z.div_div in R1, R2 by lia. fold q1 in R1. fold q2 in R2.
  clearbody q1 q2.
  set (a1 := rne_q A1 (B * 2 ^ (g1 - f1))) in *.
  set (a2 := rne_q A2 (B * 2 ^ (g2 - f2))) in *.
  assert (Ba1 : 0 <= a1 <= 2 ^ prec) by (clear - S1 R1; lia).
  assert (Ba2 : a2 <= 2 ^ prec) by (clear - S2 R2; lia).
  assert (Bn2 : emin < g2 -> 2 ^ (prec - 1) <= a2) by (clear - S2n R2; lia).
  clear S1 S2 S2n R1 R2 Hq1 Hq2.
  destruct (Z.eq_dec g1 g2) as [Eg|Ng].
  - subst g2. apply (finish_le_mantissa prec emax Hprec); [|exact Ba2].
    split; [apply Ba1|].
    assert (H3 : 0 <= g1 - Z.max f1 f2) by lia.
    pose proof (pow2_pos (g1 - Z.max f1 f2) H3) as P3.
    destruct (min_max_split f1 f2 g1) as [M1 M2]. fold nu in M1, M2.
    unfold a1, a2. apply rne_q_mono.
    + apply Z.mul_pos_pos; assumption.
    + apply Z.mul_pos_pos; assumption.
    + rewrite M1, M2, !Z.pow_add_r by assumption.
      apply cross_scaled_le; assumption.
  - apply (finish_le_exponent prec emax Hprec).
    + exact Ba1.
    + split; [apply Bn2; clear - Hg Ng E1; lia|exact Ba2].
    + clear - Hg Ng. lia.
Qed.

End Division.

(** ** Subtraction and division are monotone *)

(** The order of [a1 * 2^x1] and [a2 * 2^x2] does not depend on the
    exponent at which the two are compared. *)
Lemma value_le_base a1 x1 a2 x2 b b' :
  b <= x1 -> b <= x2 -> b' <= x1 -> b' <= x2 ->
  a1 * 2 ^ (x1 - b) <= a2 * 2 ^ (x2 - b) -> a1 * 2 ^ (x1 - b') <= a2 * 2 ^ (x2 - b').
Proof.
  intros H1 H2 H1' H2' H.
  set (c := Z.min b b').
  assert (Hc : a1 * 2 ^ (x1 - c) <= a2 * 2 ^ (x2 - c)).
  { pose proof (pow2_pos (b - c) ltac:(unfold c; lia)) as P.
    replace (x1 - c) with ((x1 - b) + (b - c)) by lia.
    replace (x2 - c) with ((x2 - b) + (b - c)) by lia.
    rewrite !Z.pow_add_r by (unfold c; lia). rewrite !Z.mul_assoc.
    apply Z.mul_le_mono_nonneg_r; lia. }
  pose proof (pow2_pos (b' - c) ltac:(unfold c; lia)) as P.
  replace (x1 - c) with ((x1 - b') + (b' - c)) in Hc by lia.
  replace (x2 - c) with ((x2 - b') + (b' - c)) in Hc by lia.
  rewrite !Z.pow_add_r in Hc by (unfold c; lia). rewrite !Z.mul_assoc in Hc.
  apply Z.mul_le_mono_pos_r in Hc; assumption.
Qed.

Lemma cond_Zopp_mul s a b : cond_Zopp s a * b = cond_Zopp s (a * b).
Proof. destruct s; cbn [cond_Zopp]; lia. Qed.

(** The order of two valid finite numbers, on their signed mantissas. *)
Lemma fle_signed_value sx mx ex sy my ey b :
  bounded 24 128 mx ex = true -> bounded 24 128 my ey = true ->
  fle (S754_finite sx mx ex) (S754_finite sy my ey) = true ->
  b <= ex -> b <= ey ->
  cond_Zopp sx (Z.pos mx) * 2 ^ (ex - b) <= cond_Zopp sy (Z.pos my) * 2 ^ (ey - b).
Proof.
  intros Hx Hy Hle Hbx Hby.
  pose proof (pow2_pos (ex - b) ltac:(lia)) as Px. pose proof (pow2_pos (ey - b) ltac:(lia)) as Py.
  destruct sx, sy; cbn [cond_Zopp].
  - rewrite fle_neg_swap in Hle. pose proof (fle_aligned_pos my ey mx ex Hy Hx Hle) as H.
    apply (value_le_base _ _ _ _ _ b) in H; lia.
  - nia.
  - discriminate.
  - pose proof (fle_aligned_pos mx ex my ey Hx Hy Hle) as H.
    apply (value_le_base _ _ _ _ _ b) in H; lia.
Qed.

Lemma binary_round_aux_of_round s p E :
  exists M Ez,
    binary_round 24 128 s p E = binary_round_aux 24 128 s M Ez loc_Exact /\
    0 < M /\ Ez <= fexp 24 128 (Zdigits2 M + Ez) /\ Ez <= E /\ M = Z.pos p * 2 ^ (E - Ez).
Proof.
  pose proof (binary_round_aligned 24 128 p E) as (Ha & _ & Hm & He). cbv zeta in *.
  eexists _, _. split; [apply binary_round_eq|]. split; [lia|]. split; [exact Ha|]. split; [exact He|exact Hm].
Qed.

(** [binary_normalize] is monotone on the numbers [V * 2^E]. *)
Lemma normalize_mono V1 E1 V2 E2 :
  V1 * 2 ^ (E1 - Z.min E1 E2) <= V2 * 2 ^ (E2 - Z.min E1 E2) ->
  fle (binary_normalize 24 128 V1 E1 false) (binary_normalize 24 128 V2 E2 false) = true.
Proof.
  intros Hle.
  pose proof (pow2_pos (E1 - Z.min E1 E2) ltac:(lia)) as P1.
  pose proof (pow2_pos (E2 - Z.min E1 E2) ltac:(lia)) as P2.
  destruct V1 as [|p1|p1], V2 as [|p2|p2]; cbn [binary_normalize]; try reflexivity; try lia.
  - (* 0, positive *)
    destruct (binary_round_aux_of_round false p2 E2) as (M & Ez & -> & HM & HA & _).
    apply fle_nonpos_nonneg; [reflexivity|apply round_nonneg; lia || assumption].
  - (* positive, positive *)
    destruct (binary_round_aux_of_round false p1 E1) as (M1 & Z1 & -> & HM1 & HA1 & HE1 & HV1).
    destruct (binary_round_aux_of_round false p2 E2) as (M2 & Z2 & -> & HM2 & HA2 & HE2 & HV2).
    apply (round_mono_pos 24 128 eq_refl); try lia; try assumption.
    rewrite HV1, HV2, <- !Z.mul_assoc, <- !Z.pow_add_r by lia.
    replace (E1 - Z1 + (Z1 - Z.min Z1 Z2)) with (E1 - Z.min Z1 Z2) by lia.
    replace (E2 - Z2 + (Z2 - Z.min Z1 Z2)) with (E2 - Z.min Z1 Z2) by lia.
    apply (value_le_base _ _ _ _ (Z.min E1 E2)); lia || assumption.
  - (* negative, 0 *)
    destruct (binary_round_aux_of_round true p1 E1) as (M & Ez & -> & HM & HA & _).
    apply fle_nonpos_nonneg; [apply round_nonpos; lia || assumption|reflexivity].
  - (* negative, positive *)
    destruct (binary_round_aux_of_round true p1 E1) as (M1 & Z1 & -> & HM1 & HA1 & _).
    destruct (binary_round_aux_of_round false p2 E2) as (M2 & Z2 & -> & HM2 & HA2 & _).
    apply fle_nonpos_nonneg; [apply round_nonpos|apply round_nonneg]; lia || assumption.
  - (* negative, negative *)
    destruct (binary_round_aux_of_round true p1 E1) as (M1 & Z1 & -> & HM1 & HA1 & HE1 & HV1).
    destruct (binary_round_aux_of_round true p2 E2) as (M2 & Z2 & -> & HM2 & HA2 & HE2 & HV2).
    rewrite !round_sign_opp by (lia || assumption). unfold fle. rewrite SFleb_opp.
    apply (round_mono_pos 24 128 eq_refl); try lia; try assumption.
    rewrite HV1, HV2, <- !Z.mul_assoc, <- !Z.pow_add_r by lia.
    replace (E1 - Z1 + (Z1 - Z.min Z2 Z1)) with (E1 - Z.min Z2 Z1) by lia.
    replace (E2 - Z2 + (Z2 - Z.min Z2 Z1)) with (E2 - Z.min Z2 Z1) by lia.
    apply (value_le_base _ _ _ _ (Z.min E1 E2)); try lia.
Qed.

Lemma binary_round_id s m e :
  bounded 24 128 m e = true -> binary_round 24 128 s m e = S754_finite s m e.
Proof.
  intros Hb.
  destruct (bounded_facts 24 128 eq_refl m e Hb) as (Hc & _).
  rewrite binary_round_eq, Hc.
  destruct (shl_align_spec m e e) as [Hs Hm].
  rewrite Z.min_id in Hs, Hm. rewrite Z.sub_diag, Z.pow_0_r, Z.mul_1_r in Hm.
  rewrite Hs, Hm.
  rewrite (binary_round_aux_exact 24 128 eq_refl) by (rewrite ?Hc; lia).
  rewrite Hc, Z.sub_diag, rne_0. apply finish_bounded; [reflexivity|exact Hb].
Qed.

(** The difference of a finite number and a finite non-zero one, as
    the rounding of the exact difference. *)
Lemma f32_sub_normalize x sn mn en :
  f32_valid x = true -> is_finite x = true -> bounded 24 128 mn en = true ->
  exists V E,
    f32_sub x (S754_finite sn mn en) = binary_normalize 24 128 V E false /\
    E <= en /\
    match x with
    | S754_finite sx mx ex =>
        E <= ex /\ V = cond_Zopp sx (Z.pos mx) * 2 ^ (ex - E) - cond_Zopp sn (Z.pos mn) * 2 ^ (en - E)
    | _ => V = - cond_Zopp sn (Z.pos mn) * 2 ^ (en - E)
    end.
Proof.
  intros Hv Hf Hn. destruct x as [sx|sx| |sx mx ex]; try discriminate.
  - exists (- cond_Zopp sn (Z.pos mn)), en. split; [|split; [lia|]].
    + unfold f32_sub. cbn [SFsub].
      destruct sn; cbn [cond_Zopp negb Z.opp binary_normalize]; symmetry; apply binary_round_id; exact Hn.
    + rewrite Z.sub_diag, Z.pow_0_r. lia.
  - exists (cond_Zopp sx (Z.pos (fst (shl_align mx ex (Z.min ex en)))) -
            cond_Zopp sn (Z.pos (fst (shl_align mn en (Z.min ex en))))), (Z.min ex en).
    split; [reflexivity|]. split; [lia|]. split; [lia|].
    destruct (shl_align_spec mx ex (Z.min ex en)) as [_ Hax].
    destruct (shl_align_spec mn en (Z.min ex en)) as [_ Han].
    replace (Z.min ex (Z.min ex en)) with (Z.min ex en) in Hax by lia.
    replace (Z.min en (Z.min ex en)) with (Z.min ex en) in Han by lia.
    rewrite Hax, Han, !cond_Zopp_mul. reflexivity.
Qed.

(** [x - n] is monotone in [x]. *)
Lemma f32_sub_mono x y n :
  f32_valid x = true -> f32_valid y = true -> f32_valid n = true ->
  is_finite x = true -> is_finite y = true -> is_nan n = false ->
  fle x y = true -> fle (f32_sub x n) (f32_sub y n) = true.
Proof.
  intros Hvx Hvy Hvn Hfx Hfy Hnn Hle.
  destruct n as [sn|sn| |sn mn en]; try discriminate.
  - (* n = 0 *)
    assert (E : forall z, is_finite z = true ->
                  f32_sub z (S754_zero sn) = z \/ exists s s', z = S754_zero s /\ f32_sub z (S754_zero sn) = S754_zero s').
    { intros z Hz. destruct z as [s|s| |s m e]; try discriminate.
      - right. exists s. destruct s, sn; eexists; split; reflexivity.
      - left. reflexivity. }
    destruct (E x Hfx) as [->|(s1 & s1' & -> & ->)], (E y Hfy) as [->|(s2 & s2' & -> & ->)];
      try exact Hle; reflexivity.
  - (* n infinite *)
    destruct x as [sx|sx| |sx mx ex]; try discriminate;
      destruct y as [sy|sy| |sy my ey]; try discriminate; destruct sn; reflexivity.
  - cbn [f32_valid valid_binary] in Hvn.
    destruct (f32_sub_normalize x sn mn en Hvx Hfx Hvn) as (V1 & E1 & -> & He1 & H1).
    destruct (f32_sub_normalize y sn mn en Hvy Hfy Hvn) as (V2 & E2 & -> & He2 & H2).
    apply normalize_mono.
    set (mu := Z.min E1 E2).
    pose proof (pow2_pos (E1 - mu) ltac:(unfold mu; lia)) as P1.
    pose proof (pow2_pos (E2 - mu) ltac:(unfold mu; lia)) as P2.
    assert (HN : forall E, mu <= E -> E <= en ->
                   cond_Zopp sn (Z.pos mn) * 2 ^ (en - E) * 2 ^ (E - mu) = cond_Zopp sn (Z.pos mn) * 2 ^ (en - mu)).
    { intros E Ha Hb. rewrite <- Z.mul_assoc, <- Z.pow_add_r by lia. f_equal. f_equal. lia. }
    assert (HX : forall s m e E, mu <= E -> E <= e ->
                   cond_Zopp s (Z.pos m) * 2 ^ (e - E) * 2 ^ (E - mu) = cond_Zopp s (Z.pos m) * 2 ^ (e - mu)).
    { intros s m e E Ha Hb. rewrite <- Z.mul_assoc, <- Z.pow_add_r by lia. f_equal. f_equal. lia. }
    destruct x as [sx|sx| |sx mx ex]; try discriminate;
      destruct y as [sy|sy| |sy my ey]; try discriminate.
    + subst V1 V2. rewrite !Z.mul_opp_l, !HN by (unfold mu; lia). lia.
    + destruct H2 as [Hy2 ->]. subst V1.
      rewrite Z.mul_sub_distr_r, !Z.mul_opp_l, !HN, HX by (unfold mu; lia).
      assert (0 <= cond_Zopp sy (Z.pos my) * 2 ^ (ey - mu)).
      { destruct sy; [destruct sx; discriminate|]. cbn [cond_Zopp].
        pose proof (pow2_pos (ey - mu) ltac:(unfold mu; lia)). lia. }
      lia.
    + destruct H1 as [Hx1 ->]. subst V2.
      rewrite Z.mul_sub_distr_r, !Z.mul_opp_l, !HN, HX by (unfold mu; lia).
      assert (cond_Zopp sx (Z.pos mx) * 2 ^ (ex - mu) <= 0).
      { destruct sx; [|destruct sy; discriminate]. cbn [cond_Zopp].
        pose proof (pow2_pos (ex - mu) ltac:(unfold mu; lia)). lia. }
      lia.
    + destruct H1 as [Hx1 ->]. destruct H2 as [Hy2 ->].
      rewrite !Z.mul_sub_distr_r, !HN, !HX by (unfold mu; lia).
      cbn [f32_valid valid_binary] in Hvx, Hvy.
      pose proof (fle_signed_value sx mx ex sy my ey mu Hvx Hvy Hle ltac:(unfold mu; lia) ltac:(unfold mu; lia)).
      lia.
Qed.

Lemma f32_div_pos_finish sx mx ex md ed :
  exists m1 e1, f32_div (S754_finite sx mx ex) (S754_finite false md ed) = finish 24 128 sx m1 e1.
Proof.
  pose proof (SFdiv_finite_eq 24 128 eq_refl sx mx ex false md ed) as (_ & _ & E).
  rewrite xorb_false_r in E. eexists _, _. exact E.
Qed.

Lemma f32_div_sign mx ex md ed :
  f32_div (S754_finite true mx ex) (S754_finite false md ed) =
  SFopp (f32_div (S754_finite false mx ex) (S754_finite false md ed)).
Proof.
  pose proof (SFdiv_finite_eq 24 128 eq_refl true mx ex false md ed) as (_ & _ & E1).
  pose proof (SFdiv_finite_eq 24 128 eq_refl false mx ex false md ed) as (_ & _ & E2).
  unfold f32_div. rewrite E1, E2. cbn [xorb]. apply (finish_opp 24 128 false).
Qed.

(** [x / d] is monotone in [x] for a positive finite [d]. *)
Lemma f32_div_mono x y md ed :
  f32_valid x = true -> f32_valid y = true ->
  fle x y = true ->
  fle (f32_div x (S754_finite false md ed)) (f32_div y (S754_finite false md ed)) = true.
Proof.
  intros Hvx Hvy Hle.
  destruct x as [sx|sx| |sx mx ex]; try discriminate;
    destruct y as [sy|sy| |sy my ey]; try discriminate;
    try (destruct sx; destruct sy; try discriminate; reflexivity);
    cbn [f32_valid valid_binary] in Hvx, Hvy.
  - (* zero, number *)
    destruct sy; [destruct sx; discriminate|].
    destruct (f32_div_pos_finish false my ey md ed) as (m1 & e1 & ->).
    apply fle_nonpos_nonneg; [destruct sx; reflexivity|apply nonneg_finish].
  - (* -inf, number *)
    destruct sx; [|destruct sy; discriminate].
    destruct (f32_div_pos_finish sy my ey md ed) as (m1 & e1 & ->).
    apply fle_neg_inf.
    destruct (finish_cases 24 128 sy m1 e1) as [->|[->|(m' & e' & ->)]]; reflexivity.
  - (* number, zero *)
    destruct sx; [|destruct sy; discriminate].
    destruct (f32_div_pos_finish true mx ex md ed) as (m1 & e1 & ->).
    apply fle_nonpos_nonneg; [apply nonpos_finish; reflexivity|destruct sy; reflexivity].
  - (* number, +inf *)
    destruct sy; [destruct sx; discriminate|].
    destruct (f32_div_pos_finish sx mx ex md ed) as (m1 & e1 & ->).
    apply fle_pos_inf.
    destruct (finish_cases 24 128 sx m1 e1) as [->|[->|(m' & e' & ->)]]; reflexivity.
  - destruct sx, sy.
    + rewrite !f32_div_sign. unfold fle. rewrite SFleb_opp.
      apply (SFdiv_mono_pos 24 128 eq_refl).
      rewrite fle_neg_swap in Hle. apply (fle_aligned_pos my ey mx ex Hvy Hvx Hle).
    + destruct (f32_div_pos_finish true mx ex md ed) as (m1 & e1 & ->).
      destruct (f32_div_pos_finish false my ey md ed) as (m2 & e2 & ->).
      apply fle_nonpos_nonneg; [apply nonpos_finish; reflexivity|apply nonneg_finish].
    + discriminate.
    + apply (SFdiv_mono_pos 24 128 eq_refl). apply (fle_aligned_pos mx ex my ey Hvx Hvy Hle).
Qed.

(** ** The clip and the normalized depth are monotone *)

Lemma clip1_mono a b :
  f32_valid b = true -> fle a b = true ->
  fle (clip1 (f32_of_Z 0) (f32_of_Z 1) a) (clip1 (f32_of_Z 0) (f32_of_Z 1) b) = true.
Proof.
  intros Hvb Hle. destruct (fle_not_nan a b Hle) as [Na Nb].
  pose proof (proj1 (fle_key a b Na Nb) Hle) as Kab.
  destruct (clip1_unit b Hvb Nb) as [_ Hub].
  unfold in_unit in Hub. apply andb_true_iff in Hub. destruct Hub as [Hb0 Hb1].
  unfold clip1 in *. rewrite Na, Nb in *.
  change (f32_of_Z 0) with f32_zero in *. change (f32_of_Z 1) with f32_one in *.
  destruct (flt a f32_zero) eqn:A0.
  - change (flt f32_one f32_zero) with false. cbv iota. exact Hb0.
  - pose proof (proj1 (flt_key a f32_zero Na eq_refl) A0) as K0a.
    assert (B0 : flt b f32_zero = false).
    { apply (flt_key b f32_zero Nb eq_refl). eapply key_le_trans; eassumption. }
    rewrite B0 in *.
    destruct (flt f32_one a) eqn:A1.
    + assert (B1 : flt f32_one b = true).
      { destruct (flt f32_one b) eqn:B1; [reflexivity|exfalso].
        pose proof (proj1 (flt_key f32_one b eq_refl Nb) B1) as Kb1.
        assert (flt f32_one a = false) as F; [|rewrite F in A1; discriminate].
        apply (flt_key f32_one a eq_refl Na). eapply key_le_trans; eassumption. }
      rewrite B1. reflexivity.
    + pose proof (proj1 (flt_key f32_one a eq_refl Na) A1) as Ka1.
      destruct (flt f32_one b) eqn:B1.
      * apply (fle_key a f32_one Na eq_refl). exact Ka1.
      * exact Hle.
Qed.

Lemma f32_div_neg x md ed :
  f32_div x (S754_finite true md ed) = SFopp (f32_div x (S754_finite false md ed)).
Proof.
  destruct x as [sx|sx| |sx mx ex]; try (destruct sx; reflexivity); try reflexivity.
  pose proof (SFdiv_finite_eq 24 128 eq_refl sx mx ex true md ed) as (_ & _ & E1).
  pose proof (SFdiv_finite_eq 24 128 eq_refl sx mx ex false md ed) as (_ & _ & E2).
  unfold f32_div. rewrite E1, E2. rewrite xorb_false_r, xorb_true_r. apply finish_opp.
Qed.

Lemma in_unit_accepted v :
  in_unit v = true -> fle accepted_lo v = true /\ fle v accepted_hi = true.
Proof.
  intros H. unfold in_unit in H. apply andb_true_iff in H. destruct H as [H0 H1].
  destruct (fle_not_nan _ _ H0) as [_ Nv]. split.
  - apply (fle_trans _ f32_zero); trivial.
  - apply (fle_trans _ f32_one); trivial.
Qed.

(** Lines 53-54 on two depth values, for a positive and for a negative
    divisor. *)
Lemma normalize1_mono x y n sd md ed :
  f32_valid x = true -> f32_valid y = true -> f32_valid n = true ->
  is_finite x = true -> is_finite y = true -> is_nan n = false ->
  fle x y = true ->
  let v z := clip1 (f32_of_Z 0) (f32_of_Z 1) (f32_div (f32_sub z n) (S754_finite sd md ed)) in
  if sd then fle (v y) (v x) = true else fle (v x) (v y) = true.
Proof.
  intros Hvx Hvy Hvn Hfx Hfy Hnn Hle v. unfold v.
  pose proof (f32_sub_mono x y n Hvx Hvy Hvn Hfx Hfy Hnn Hle) as Hs.
  pose proof (f32_div_mono _ _ md ed (f32_sub_valid x n Hvx Hvn) (f32_sub_valid y n Hvy Hvn) Hs) as Hd.
  destruct sd.
  - apply clip1_mono; [apply f32_div_valid|].
    rewrite !f32_div_neg. unfold fle. rewrite SFleb_opp. exact Hd.
  - apply clip1_mono; [apply f32_div_valid|exact Hd].
Qed.

Section DepthOrder.
Context {RT : Runtime}.

Lemma normalize1_index_mono x y n sd md ed :
  f32_valid x = true -> f32_valid y = true -> f32_valid n = true ->
  is_finite x = true -> is_finite y = true -> is_nan n = false ->
  fle x y = true ->
  let i z := pixel_index (clip1 (f32_of_Z 0) (f32_of_Z 1) (f32_div (f32_sub z n) (S754_finite sd md ed))) in
  if sd then i y <= i x else i x <= i y.
Proof.
  intros Hvx Hvy Hvn Hfx Hfy Hnn Hle i. unfold i.
  pose proof (normalize1_mono x y n sd md ed Hvx Hvy Hvn Hfx Hfy Hnn Hle) as H. cbv zeta in H.
  assert (U : forall z, is_finite z = true ->
                let w := clip1 (f32_of_Z 0) (f32_of_Z 1) (f32_div (f32_sub z n) (S754_finite sd md ed)) in
                f32_valid w = true /\ fle accepted_lo w = true /\ fle w accepted_hi = true).
  { intros z Hz w. destruct (normalize1_unit z n (S754_finite sd md ed) Hz Hnn eq_refl) as [Hv Hu].
    - destruct sd; reflexivity.
    - split; [exact Hv|]. apply in_unit_accepted. exact Hu. }
  destruct (U x Hfx) as (Vx & Lx & Ux). destruct (U y Hfy) as (Vy & Ly & Uy).
  destruct sd; apply pixel_index_mono; assumption.
Qed.

End DepthOrder.

(** ** One pixel of a masked image *)

Lemma nth_error_per_channel {A} (l : list A) p c :
  (c < 3)%nat -> nth_error (per_channel l) (3 * p + c) = nth_error l p.
Proof.
  intros Hc. revert p. induction l as [|a l IH]; intros p.
  - cbn [per_channel flat_map]. rewrite !nth_error_nil. reflexivity.
  - destruct p as [|p].
    + cbn [per_channel flat_map app]. destruct c as [|[|[|c]]]; try lia; reflexivity.
    + change (per_channel (a :: l)) with (a :: a :: a :: per_channel l).
      replace (3 * S p + c)%nat with (S (S (S (3 * p + c)))) by lia.
      cbn [nth_error]. apply IH.
Qed.

Lemma nth_error_zip_with {A B C} (f : A -> B -> C) l1 l2 k :
  nth_error (zip_with f l1 l2) k =
  match nth_error l1 k, nth_error l2 k with
  | Some x, Some y => Some (f x y)
  | _, _ => None
  end.
Proof.
  revert l2 k. induction l1 as [|x l1 IH]; intros l2 k.
  - cbn [zip_with]. rewrite !nth_error_nil. reflexivity.
  - destruct l2 as [|y l2].
    + cbn [zip_with]. rewrite !nth_error_nil. destruct (nth_error (x :: l1) k); reflexivity.
    + destruct k as [|k]; [reflexivity|]. cbn [zip_with nth_error]. apply IH.
Qed.

(** ** The far end of the table *)

(** A float32 of at least [2^-9] plus [1e-10] is the float32 itself. *)
Lemma f32_add_eps_absorbed s :
  f32_valid s = true -> is_finite s = true -> fle absorbs_eps s = true ->
  f32_add s f32_eps = s.
Proof.
  intros Hv Hf Hle. destruct s as [ss|ss| |ss ms es]; try discriminate.
  destruct ss; [discriminate|].
  cbn [f32_valid valid_binary] in Hv.
  unfold fle, absorbs_eps in Hle. apply SFleb_pos_finite in Hle.
  destruct (f32_bounded_facts ms es Hv) as (He & Hm & Hn).
  assert (Hes : -32 <= es) by lia.
  assert (Hms : 2 ^ 23 <= Z.pos ms) by (apply Hn; lia).
  destruct (bounded_facts 24 128 eq_refl ms es Hv) as (Hc & _).
  unfold f32_add, f32_eps. cbn [SFadd cond_Zopp].
  destruct (shl_align_spec ms es (Z.min es (-57))) as [_ Ha].
  destruct (shl_align_spec 14411519 (-57) (Z.min es (-57))) as [_ Hb].
  replace (Z.min es (Z.min es (-57))) with (-57) in Ha by lia.
  replace (Z.min (-57) (Z.min es (-57))) with (-57) in Hb by lia.
  replace (Z.min es (-57)) with (-57) in * by lia.
  change (-57 - -57) with 0 in Hb. rewrite Z.pow_0_r, Z.mul_1_r in Hb.
  set (n := es - -57) in *. assert (Hn25 : 25 <= n) by (unfold n; lia).
  pose proof (pow2_pos n ltac:(lia)) as Pn.
  assert (P25 : 2 ^ 25 <= 2 ^ n) by (apply Z.pow_le_mono_r; lia).
  change (2 ^ 25) with 33554432 in P25.
  set (M := Z.pos (fst (shl_align ms es (-57))) + Z.pos (fst (shl_align 14411519 (-57) (-57)))).
  assert (HM : M = Z.pos ms * 2 ^ n + 14411519) by (unfold M; rewrite Ha, Hb; reflexivity).
  assert (HM0 : 0 < M) by (rewrite HM; nia).
  assert (Hd : Zdigits2 M = 24 + n).
  { apply Zdigits2_unique; [|exact HM0].
    replace (24 + n - 1) with (23 + n) by lia. rewrite !Z.pow_add_r by lia.
    change (2 ^ 23) with 8388608 in *. change (2 ^ 24) with 16777216 in *. rewrite HM. nia. }
  destruct M as [|pM|pM] eqn:EM; try lia.
  cbn [binary_normalize].
  assert (Hfe : fexp 24 128 (Zdigits2 (Z.pos pM) + -57) = es).
  { rewrite Hd. unfold fexp, emin, n. lia. }
  rewrite binary_round_eq, Hfe.
  destruct (shl_align_spec pM (-57) es) as [Hs1 Hs2].
  replace (Z.min (-57) es) with (-57) in Hs1, Hs2 by lia.
  change (-57 - -57) with 0 in Hs2. rewrite Z.pow_0_r, Z.mul_1_r in Hs2.
  rewrite Hs1, Hs2.
  rewrite (binary_round_aux_exact 24 128 eq_refl) by (rewrite ?Hfe; lia).
  rewrite Hfe. fold n.
  assert (Hr : rne (Z.pos pM) n = Z.pos ms).
  { apply Z.le_antisymm.
    - apply rne_below; [lia|]. rewrite HM. nia.
    - apply rne_above; [lia|]. rewrite HM. nia. }
  rewrite Hr. apply finish_bounded; [reflexivity|exact Hv].
Qed.

(** A positive float32 divided by itself is 1. *)
Lemma f32_div_self ms es :
  f32_div (S754_finite false ms es) (S754_finite false ms es) = f32_one.
Proof.
  pose proof (SFdiv_finite_eq 24 128 eq_refl false ms es false ms es) as (_ & _ & E).
  unfold f32_div. rewrite E. clear E. cbn [xorb].
  replace (Zdigits2 (Z.pos ms) + es - (Zdigits2 (Z.pos ms) + es)) with 0 by lia.
  replace (es - es) with 0 by lia.
  change (Z.min (fexp 24 128 0) 0) with (-24). change (0 - -24) with 24.
  assert (Hq : Z.pos ms * 2 ^ 24 / Z.pos ms = 2 ^ 24).
  { rewrite Z.mul_comm. apply Z.div_mul. lia. }
  rewrite Hq. change (fexp 24 128 (Zdigits2 (2 ^ 24) + -24)) with (-23).
  change (-23 - -24) with 1. change (2 ^ 1) with 2.
  assert (Hr : rne_q (Z.pos ms * 2 ^ 24) (Z.pos ms * 2) = 2 ^ 23).
  { unfold rne_q. cbv zeta.
    assert (Hd : Z.pos ms * 2 ^ 24 / (Z.pos ms * 2) = 2 ^ 23).
    { symmetry. apply (Z.div_unique _ _ _ 0); [lia|]. change (2 ^ 24) with (2 * 2 ^ 23). ring. }
    assert (Hm : (Z.pos ms * 2 ^ 24) mod (Z.pos ms * 2) = 0).
    { symmetry. apply (Z.mod_unique _ _ (2 ^ 23)); [lia|]. change (2 ^ 24) with (2 * 2 ^ 23). ring. }
    rewrite Hd, Hm.
    destruct (Z.ltb_spec (Z.pos ms * 2) (2 * 0)); [lia|].
    destruct (Z.eqb_spec (Z.pos ms * 2) (2 * 0)); [lia|]. reflexivity. }
  rewrite Hr. reflexivity.
Qed.

(** Lines 53-54 on a depth value that lies a divisor or more behind
    the near plane. *)
Lemma normalize1_saturated a md ed :
  f32_valid a = true -> fle (S754_finite false md ed) a = true ->
  bounded 24 128 md ed = true ->
  clip1 (f32_of_Z 0) (f32_of_Z 1) (f32_div a (S754_finite false md ed)) = f32_one.
Proof.
  intros Hva Hle Hvd.
  pose proof (f32_div_mono (S754_finite false md ed) a md ed Hvd Hva Hle) as H. rewrite f32_div_self in H.
  set (q := f32_div a (S754_finite false md ed)) in *.
  destruct (fle_not_nan _ _ H) as [_ Nq].
  unfold clip1. rewrite Nq.
  change (f32_of_Z 0) with f32_zero. change (f32_of_Z 1) with f32_one.
  assert (Q0 : flt q f32_zero = false).
  { apply (flt_key q f32_zero Nq eq_refl).
    apply (key_le_trans _ (fkey f32_one)); [cbn; lia|]. apply (fle_key f32_one q eq_refl Nq). exact H. }
  rewrite Q0. destruct (flt f32_one q) eqn:Q1; [reflexivity|].
  assert (Hq1 : fle q f32_one = true).
  { apply (fle_key q f32_one Nq eq_refl). apply (flt_key f32_one q eq_refl Nq). exact Q1. }
  assert (Heq : feq f32_one q = true).
  { unfold feq, SFeqb. unfold flt, SFltb in Q1. unfold fle, SFleb in H.
    destruct (SFcompare f32_one q) as [[]|]; try discriminate; reflexivity. }
  destruct (feq_same _ _ Heq) as [<-|[[s Hs] _]]; [reflexivity|discriminate].
Qed.

(** ** A colormap that is missing, a table that is short *)

Lemma table_row_out table i :
  Z.of_nat (length table) <= i -> table_row table i = Err IndexError.
Proof.
  intros H. unfold table_row. destruct (Z.ltb_spec i (Z.of_nat (length table))); [lia|].
  rewrite andb_false_r. reflexivity.
Qed.

Lemma table_row_cases table i :
  table_row table i = Ok (color_at table i) \/ table_row table i = Err IndexError.
Proof.
  unfold table_row. destruct (_ && _) eqn:E; [|right; reflexivity].
  apply andb_true_iff in E. destruct E as [E1 E2]. apply Z.leb_le in E1. apply Z.ltb_lt in E2.
  left. fold (table_row table i). unfold color_at.
  destruct (nth_error table (Z.to_nat i)) eqn:En.
  - rewrite (nth_error_nth _ _ _ En). reflexivity.
  - apply nth_error_None in En. lia.
Qed.

Lemma mapM_table_row_out table l :
  (exists i, In i l /\ Z.of_nat (length table) <= i) ->
  mapM (table_row table) l = Err IndexError.
Proof.
  induction l as [|j l IH]; intros (i & Hi & Hout); [contradiction|].
  cbn [mapM]. destruct (table_row_cases table j) as [E|E]; rewrite E; cbn [bind]; [|reflexivity].
  destruct Hi as [<-|Hi].
  - rewrite table_row_out in E by exact Hout. discriminate.
  - rewrite IH by eauto. reflexivity.
Qed.

Lemma forallb_false_In {A} (f : A -> bool) (l : list A) :
  forallb f l = false -> exists x, In x l /\ f x = false.
Proof.
  induction l as [|a l IH]; [discriminate|]. cbn [forallb]. intros H.
  destruct (f a) eqn:E.
  - destruct (IH H) as (x & Hx & Hf). exists x. split; [right; exact Hx|exact Hf].
  - exists a. split; [left; reflexivity|exact E].
Qed.

Section Lookup.
Context {RT : Runtime}.

Lemma apply_colormap_missing image cmap :
  cm_colors cmap = None -> apply_colormap image cmap = Err ColormapError.
Proof. intros H. unfold apply_colormap, get_colors. rewrite H. reflexivity. Qed.

Lemma apply_depth_colormap_missing depth acc np fp cmap :
  cm_colors cmap = None -> data depth <> [] ->
  apply_depth_colormap depth acc np fp cmap = Err ColormapError.
Proof.
  intros H Hne. destruct (choose_planes_nonempty depth np fp Hne) as (near & far & Hn & Hf).
  unfold apply_depth_colormap. rewrite Hn, Hf. cbn [bind].
  rewrite apply_colormap_missing by exact H. reflexivity.
Qed.

Lemma apply_colormap_short_table image cmap table lead :
  cm_colors cmap = Some table ->
  shape image = lead ++ [1%nat] -> tensor_wf image -> data image <> [] ->
  (forall x, In x (data image) -> 0 <= pixel_index x <= 255) ->
  (exists x, In x (data image) /\ Z.of_nat (length table) <= pixel_index x) ->
  apply_colormap image cmap = Err IndexError.
Proof.
  intros Hc Hs Hwf Hne Hidx (x & Hx & Hout).
  rewrite (apply_colormap_checked image cmap table Hc Hne Hidx).
  unfold scale_long, tmap. rewrite Hs, select_last0_unit.
  2:{ rewrite length_map. unfold tensor_wf in Hwf. rewrite Hwf, Hs, numel_app. cbn. lia. }
  cbn [bind]. unfold index_rows. cbn [data shape].
  rewrite mapM_table_row_out; [reflexivity|].
  exists (pixel_index x). split; [apply in_map; exact Hx|exact Hout].
Qed.

Lemma apply_colormap_any_table image cmap table lead :
  cm_colors cmap = Some table ->
  shape image = lead ++ [1%nat] -> tensor_wf image -> data image <> [] ->
  (forall x, In x (data image) -> 0 <= pixel_index x <= 255) ->
  (forall x, In x (data image) -> pixel_index x < Z.of_nat (length table)) ->
  apply_colormap image cmap =
  Ok (mkTensor (lead ++ [3%nat]) (pixels (map (fun x => color_at table (pixel_index x)) (data image)))).
Proof.
  intros Hc Hs Hwf Hne Hidx Hin.
  rewrite (apply_colormap_checked image cmap table Hc Hne Hidx).
  unfold scale_long, tmap. rewrite Hs, select_last0_unit.
  2:{ rewrite length_map. unfold tensor_wf in Hwf. rewrite Hwf, Hs, numel_app. cbn. lia. }
  cbn [bind]. unfold index_rows. cbn [data shape].
  rewrite mapM_table_row.
  2:{ intros i Hi. apply in_map_iff in Hi. destruct Hi as (z & <- & Hz).
      specialize (Hidx z Hz). specialize (Hin z Hz). lia. }
  cbn [bind]. unfold pixels. rewrite !map_map. reflexivity.
Qed.

End Lookup.

(** * The claims *)

(** C1 (the code departs from its docstring).  The docstring of
    [apply_depth_colormap] gives [near_plane] as the closest depth to
    consider and the minimum of the image only when it is None.  On the
    depth column (0.5, 1.0) with [near_plane = 0] and [far_plane = 1]
    given, line 50 replaces the given 0 by the data minimum 0.5: the
    first pixel gets row 0 of the table, whereas [apply_colormap] of the
    depth clipped to [0,1] gives it row 127, and the two rows differ. *)
Theorem zero_near_plane_overridden :
  let depth := column [f64_decimal 5 1; f64_decimal 1 0] in
  @apply_depth_colormap x86_64 depth None (Some (f64_of_Z 0)) (Some (f64_of_Z 1)) "turbo" =
    Ok (mkTensor [2%nat; 3%nat] (pixels [color_at gray_ramp 0; color_at gray_ramp 255]))
  /\
  @apply_colormap x86_64 (torch_clip depth 0 1) "turbo" =
    Ok (mkTensor [2%nat; 3%nat] (pixels [color_at gray_ramp 127; color_at gray_ramp 255]))
  /\
  color_at gray_ramp 0 <> color_at gray_ramp 127.
Proof.
  split; [vm_compute; reflexivity|]. split; [vm_compute; reflexivity|].
  vm_compute. discriminate.
Qed.

(** C2, as amended.  [apply_colormap] fails on a non-empty image
    whenever some value, scaled by 255 in float32 and truncated toward
    zero to an integer, is below 0 or above 255.  The failure is the
    assertion of line 25 with the message "the min value is <m>" when the
    least index [m] is negative, and otherwise the assertion of line 26
    with the message "the max value is <M>" for the greatest index [M];
    [m] and [M] are indices of elements of the image. *)
Theorem apply_colormap_index_out_of_range :
  forall (RT : Runtime) (image : tensor f32) (cmap : string) (table : list rgb),
    cm_colors cmap = Some table -> data image <> [] ->
    (exists x, In x (data image) /\ (pixel_index x < 0 \/ 255 < pixel_index x)) ->
    exists m M,
      torch_min_long (scale_long image) = Ok m /\ torch_max_long (scale_long image) = Ok M /\
      (forall x, In x (data image) -> m <= pixel_index x <= M) /\
      (exists x, In x (data image) /\ pixel_index x = m) /\
      (exists x, In x (data image) /\ pixel_index x = M) /\
      apply_colormap image cmap =
      Err (AssertionError (if m <? 0 then String.append "the min value is " (show_Z m)
                           else String.append "the max value is " (show_Z M))).
Proof. intros RT image cmap table. apply apply_colormap_assert. Qed.

(* An image with the elements -0.01 and 1.1. *)
Lemma apply_colormap_index_out_of_range_witness :
  exists m M,
    torch_min_long (@scale_long x86_64 (column [f64_decimal (-1) 2; f64_decimal 11 1])) = Ok m /\
    torch_max_long (@scale_long x86_64 (column [f64_decimal (-1) 2; f64_decimal 11 1])) = Ok M /\
    (forall x, In x (data (column [f64_decimal (-1) 2; f64_decimal 11 1])) ->
               m <= @pixel_index x86_64 x <= M) /\
    (exists x, In x (data (column [f64_decimal (-1) 2; f64_decimal 11 1])) /\ @pixel_index x86_64 x = m) /\
    (exists x, In x (data (column [f64_decimal (-1) 2; f64_decimal 11 1])) /\ @pixel_index x86_64 x = M) /\
    @apply_colormap x86_64 (column [f64_decimal (-1) 2; f64_decimal 11 1]) "viridis" =
    Err (AssertionError (if m <? 0 then String.append "the min value is " (show_Z m)
                         else String.append "the max value is " (show_Z M))).
Proof.
  apply (apply_colormap_index_out_of_range x86_64 _ "viridis" gray_ramp).
  - reflexivity.
  - discriminate.
  - exists (f32_of_f64 (f64_decimal (-1) 2)). split; [left; reflexivity|].
    left. vm_compute. reflexivity.
Defined.

(** C2 as stated fails: in the image (-0.001, 1.003) the first value
    scaled by 255 is negative and the second exceeds 255, both as
    float32 comparisons, and [apply_colormap] returns the rows 0 and
    255 all the same, because the scaled values truncate to 0 and 255. *)
Lemma apply_colormap_fraction_passes :
  let image := column [f64_decimal (-1) 3; f64_decimal 1003 3] in
  flt (f32_mul (f32_of_f64 (f64_decimal (-1) 3)) f32_255) f32_zero = true /\
  flt f32_255 (f32_mul (f32_of_f64 (f64_decimal 1003 3)) f32_255) = true /\
  @apply_colormap x86_64 image "viridis" =
    Ok (mkTensor [2%nat; 3%nat] (pixels [color_at gray_ramp 0; color_at gray_ramp 255])).
Proof. split; [vm_compute; reflexivity|]. split; vm_compute; reflexivity. Qed.

(** C3.  A non-empty depth tensor without NaN has a least element [lo]
    and a greatest element [hi] such that, for every call, the near
    plane chosen on line 50 is the given [near_plane] when it is given
    and truthy and the zero-dimensional tensor [lo] otherwise, the far
    plane of line 51 is the given [far_plane] or [hi] in the same way,
    and the result of [apply_depth_colormap] is lines 53-62 run with
    these two planes.  In particular a given plane of exactly 0 (of
    either sign) is replaced by [lo], respectively [hi]. *)
Theorem planes_by_truthiness :
  forall (RT : Runtime) (depth : tensor f32),
    data depth <> [] -> Forall (fun y => is_nan y = false) (data depth) ->
    exists lo hi,
      is_least lo (data depth) /\ is_greatest hi (data depth) /\
      (forall accumulation near_plane far_plane cmap,
          choose_near depth near_plane = Ok (spec_plane near_plane lo) /\
          choose_far depth far_plane = Ok (spec_plane far_plane hi) /\
          apply_depth_colormap depth accumulation near_plane far_plane cmap =
          colorize depth accumulation (spec_plane near_plane lo) (spec_plane far_plane hi) cmap) /\
      (forall s, choose_near depth (Some (S754_zero s)) = Ok (Tensor0 lo) /\
                 choose_far depth (Some (S754_zero s)) = Ok (Tensor0 hi)).
Proof.
  intros RT depth Hne Hnn.
  destruct (torch_min_least depth Hne Hnn) as (lo & Elo & Hlo).
  destruct (torch_max_greatest depth Hne Hnn) as (hi & Ehi & Hhi).
  exists lo, hi. split; [exact Hlo|]. split; [exact Hhi|]. split.
  - intros acc np fp cmap.
    pose proof (py_or_spec np _ lo Elo) as Hn.
    pose proof (py_or_spec fp _ hi Ehi) as Hf.
    split; [exact Hn|]. split; [exact Hf|].
    unfold apply_depth_colormap, colorize, choose_near, choose_far. rewrite Hn, Hf. reflexivity.
  - intros s. split.
    + rewrite (py_or_spec _ _ lo Elo : choose_near depth _ = _). destruct s; reflexivity.
    + rewrite (py_or_spec _ _ hi Ehi : choose_far depth _ = _). destruct s; reflexivity.
Qed.

(* The depth column (0.5, 1.0). *)
Lemma planes_by_truthiness_witness :
  exists lo hi,
    is_least lo (data (column [f64_decimal 5 1; f64_decimal 1 0])) /\
    is_greatest hi (data (column [f64_decimal 5 1; f64_decimal 1 0])) /\
    (forall accumulation near_plane far_plane cmap,
        choose_near (column [f64_decimal 5 1; f64_decimal 1 0]) near_plane = Ok (spec_plane near_plane lo) /\
        choose_far (column [f64_decimal 5 1; f64_decimal 1 0]) far_plane = Ok (spec_plane far_plane hi) /\
        @apply_depth_colormap x86_64 (column [f64_decimal 5 1; f64_decimal 1 0]) accumulation near_plane far_plane cmap =
        @colorize x86_64 (column [f64_decimal 5 1; f64_decimal 1 0]) accumulation
          (spec_plane near_plane lo) (spec_plane far_plane hi) cmap) /\
    (forall s, choose_near (column [f64_decimal 5 1; f64_decimal 1 0]) (Some (S754_zero s)) = Ok (Tensor0 lo) /\
               choose_far (column [f64_decimal 5 1; f64_decimal 1 0]) (Some (S754_zero s)) = Ok (Tensor0 hi)).
Proof.
  apply (planes_by_truthiness x86_64 (column [f64_decimal 5 1; f64_decimal 1 0])).
  - discriminate.
  - repeat constructor.
Defined.

(** C4.  On a non-empty single-channel image whose indices all pass the
    two assertions, [apply_colormap] returns one table row per element,
    and for every index [i] of 0..255 an element that is the float32
    nearest to [i/255], or the Python float [i/255] stored as float32,
    gets row [i] of the 256-row table. *)
Theorem apply_colormap_quotient_rows :
  forall (RT : Runtime) (image : tensor f32) (cmap : string) (table : list rgb) (lead : list nat),
    cm_colors cmap = Some table -> length table = 256%nat ->
    shape image = lead ++ [1%nat] -> tensor_wf image -> data image <> [] ->
    (forall x, In x (data image) -> 0 <= pixel_index x <= 255) ->
    exists rows,
      apply_colormap image cmap = Ok (mkTensor (lead ++ [3%nat]) (pixels rows)) /\
      length rows = length (data image) /\
      forall (p : nat) (i : Z),
        0 <= i <= 255 ->
        nth_error (data image) p = Some (quotient255 i) \/
        nth_error (data image) p = Some (python_quotient255 i) ->
        nth_error rows p = Some (color_at table i).
Proof.
  intros RT image cmap table lead Hc Hlen Hs Hwf Hne Hidx.
  exists (map (fun x => color_at table (pixel_index x)) (data image)).
  split; [apply (apply_colormap_ok image cmap table lead Hc Hlen Hs Hwf Hne Hidx)|].
  split; [apply length_map|].
  intros p i Hi Hp. rewrite nth_error_map.
  destruct Hp as [-> | ->]; cbn [option_map].
  - rewrite pixel_index_quotient255 by exact Hi. reflexivity.
  - rewrite pixel_index_python_quotient255 by exact Hi. reflexivity.
Qed.

(* The image (0/255, 128/255, 255/255). *)
Lemma apply_colormap_quotient_rows_witness :
  exists rows,
    @apply_colormap x86_64 (mkTensor ([3%nat] ++ [1%nat]) [quotient255 0; python_quotient255 128; quotient255 255])
      "viridis" = Ok (mkTensor ([3%nat] ++ [3%nat]) (pixels rows)) /\
    length rows = length (data (mkTensor ([3%nat] ++ [1%nat]) [quotient255 0; python_quotient255 128; quotient255 255])) /\
    forall (p : nat) (i : Z),
      0 <= i <= 255 ->
      nth_error (data (mkTensor ([3%nat] ++ [1%nat]) [quotient255 0; python_quotient255 128; quotient255 255])) p
        = Some (quotient255 i) \/
      nth_error (data (mkTensor ([3%nat] ++ [1%nat]) [quotient255 0; python_quotient255 128; quotient255 255])) p
        = Some (python_quotient255 i) ->
      nth_error rows p = Some (color_at gray_ramp i).
Proof.
  apply (apply_colormap_quotient_rows x86_64 _ "viridis" gray_ramp [3%nat]).
  - reflexivity.
  - reflexivity.
  - reflexivity.
  - reflexivity.
  - discriminate.
  - intros x Hx. cbn [data In] in Hx.
    destruct Hx as [<-|[<-|[<-|[]]]]; vm_compute; split; discriminate.
Defined.

(** C5, as amended.  For every non-empty image of shape [lead + (1,)]
    whose values are float32 numbers of [0,1], [apply_colormap] with a
    256-row table returns a tensor of shape [lead + (3,)] that holds
    three values per element of the image. *)
Theorem apply_colormap_shape :
  forall (RT : Runtime) (image : tensor f32) (cmap : string) (table : list rgb) (lead : list nat),
    cm_colors cmap = Some table -> length table = 256%nat ->
    shape image = lead ++ [1%nat] -> tensor_wf image -> data image <> [] ->
    Forall (fun x => f32_valid x = true /\ in_unit x = true) (data image) ->
    exists out, apply_colormap image cmap = Ok out /\
                shape out = lead ++ [3%nat] /\ tensor_wf out.
Proof.
  intros RT image cmap table lead Hc Hlen Hs Hwf Hne Hall.
  rewrite Forall_forall in Hall.
  eexists. split; [|split].
  - apply (apply_colormap_ok image cmap table lead Hc Hlen Hs Hwf Hne).
    intros x Hx. destruct (Hall x Hx). apply pixel_index_unit; assumption.
  - reflexivity.
  - apply pixels_wf. rewrite length_map. unfold tensor_wf in Hwf. rewrite Hwf, Hs, numel_app. cbn. lia.
Qed.

(* The image (0.0, 0.5, 1.0). *)
Lemma apply_colormap_shape_witness :
  exists out, @apply_colormap x86_64 (column [f64_decimal 0 0; f64_decimal 5 1; f64_decimal 1 0]) "viridis" = Ok out /\
              shape out = [3%nat] ++ [3%nat] /\ tensor_wf out.
Proof.
  apply (apply_colormap_shape x86_64 _ "viridis" gray_ramp [3%nat]).
  - reflexivity.
  - reflexivity.
  - reflexivity.
  - reflexivity.
  - discriminate.
  - repeat constructor.
Defined.

(** C5 as stated fails on the empty image of shape (0, 1): its trailing
    dimension is 1 and all of its values are in [0,1], and
    [torch.min] of line 23 refuses the empty tensor. *)
Lemma apply_colormap_empty_fails :
  let image : tensor f32 := mkTensor [0%nat; 1%nat] [] in
  shape image = [0%nat] ++ [1%nat] /\ tensor_wf image /\
  Forall (fun x => f32_valid x = true /\ in_unit x = true) (data image) /\
  @apply_colormap x86_64 image "viridis" = Err RuntimeError.
Proof. repeat split. constructor. Qed.

(** C6, as amended.  For every non-empty depth tensor of shape
    [lead + (1,)] with finite values, when the two planes chosen on
    lines 50-51 are equal, as numbers, and finite, [apply_depth_colormap]
    without a mask raises nothing: the divisor of line 53 is the float32
    of [1e-10], and the call returns an image of shape [lead + (3,)]
    whose values are entries of the table, all finite when the table's
    colors are in [0,1]. *)
Theorem equal_planes_no_nan :
  forall (RT : Runtime) (depth : tensor f32) (near_plane far_plane : option f64)
         (cmap : string) (table : list rgb) (lead : list nat) (near far : scalar),
    cm_colors cmap = Some table -> table_ok table = true ->
    shape depth = lead ++ [1%nat] -> tensor_wf depth -> data depth <> [] ->
    Forall (fun d => f32_valid d = true /\ is_finite d = true) (data depth) ->
    choose_near depth near_plane = Ok near -> choose_far depth far_plane = Ok far ->
    feq (scalar_value near) (scalar_value far) = true ->
    is_finite (scalar_value near) = true ->
    exists out,
      apply_depth_colormap depth None near_plane far_plane cmap = Ok out /\
      shape out = lead ++ [3%nat] /\ tensor_wf out /\
      Forall (fun v => is_finite v = true) (data out).
Proof.
  intros RT depth np fp cmap table lead near far Hc Ht Hs Hwf Hne Hall Hn Hf Heq Hfin.
  destruct (table_ok_spec table Ht) as [Hlen Hcol].
  pose proof (choose_near_valid depth np near Hall Hn) as Hvn.
  pose proof (choose_far_valid depth fp far Hall Hf) as Hvf.
  unfold apply_depth_colormap. rewrite Hn, Hf. cbn [bind].
  assert (Hidx : forall x, In x (data (normalize depth near far)) -> 0 <= pixel_index x <= 255).
  { intros x Hx. destruct (normalize_equal_planes depth near far x Hall Hvn Hvf Heq Hfin Hx).
    apply pixel_index_unit; assumption. }
  rewrite (apply_colormap_ok _ cmap table lead Hc Hlen).
  - cbn [bind]. eexists. split; [reflexivity|]. split; [reflexivity|]. split.
    + apply pixels_wf. rewrite length_map.
      unfold normalize, torch_clip, tensor_div_scalar, tensor_sub_scalar, tmap. cbn [data].
      rewrite !length_map. unfold tensor_wf in Hwf. rewrite Hwf, Hs, numel_app. cbn. lia.
    + cbn [data]. apply Forall_forall. intros v Hv.
      destruct (pixels_In _ v Hv) as (c & Hcr & Hvc).
      apply in_map_iff in Hcr. destruct Hcr as (x & <- & Hx).
      specialize (Hidx x Hx).
      assert (Hin : In (color_at table (pixel_index x)) table) by (apply color_at_In; rewrite Hlen; lia).
      destruct (color_ok_spec table _ v Hcol Hin Hvc) as [_ Hu].
      apply in_unit_finite. exact Hu.
  - exact Hs.
  - unfold tensor_wf, normalize, torch_clip, tensor_div_scalar, tensor_sub_scalar, tmap in *.
    cbn [data shape]. rewrite !length_map. exact Hwf.
  - unfold normalize, torch_clip, tensor_div_scalar, tensor_sub_scalar, tmap. cbn [data].
    destruct (data depth); [congruence|discriminate].
  - exact Hidx.
Qed.

(* The depth column (0.5, 2.5) with near_plane = far_plane = 3. *)
Lemma equal_planes_no_nan_witness :
  exists out,
    @apply_depth_colormap x86_64 (column [f64_decimal 5 1; f64_decimal 25 1]) None
      (Some (f64_of_Z 3)) (Some (f64_of_Z 3)) "turbo" = Ok out /\
    shape out = [2%nat] ++ [3%nat] /\ tensor_wf out /\
    Forall (fun v => is_finite v = true) (data out).
Proof.
  apply (equal_planes_no_nan x86_64 _ (Some (f64_of_Z 3)) (Some (f64_of_Z 3)) "turbo" gray_ramp [2%nat]
           (PyFloat (f64_of_Z 3)) (PyFloat (f64_of_Z 3))).
  - reflexivity.
  - exact gray_ramp_ok.
  - reflexivity.
  - reflexivity.
  - discriminate.
  - repeat constructor.
  - reflexivity.
  - reflexivity.
  - reflexivity.
  - reflexivity.
Defined.

(** C6 as stated fails, on an x86-64 CPU, in three ways: on the empty
    depth tensor with near_plane = far_plane = 5 ([torch.min] of line 23
    refuses it); on the depth (inf) with both planes taken from the data,
    where inf - inf is NaN; and on the depth (1.0) with both planes given
    as inf.  In the last two the NaN converts to -2^63 and the assertion
    of line 25 fails. *)
Lemma equal_planes_failures :
  @apply_depth_colormap x86_64 (mkTensor [0%nat; 1%nat] []) None
     (Some (f64_of_Z 5)) (Some (f64_of_Z 5)) "turbo" = Err RuntimeError
  /\
  (let depth := mkTensor [1%nat; 1%nat] [S754_infinity false] in
   (exists near far, @choose_near depth None = Ok near /\ @choose_far depth None = Ok far /\
                     feq (scalar_value near) (scalar_value far) = true) /\
   @apply_depth_colormap x86_64 depth None None None "turbo" =
     Err (AssertionError "the min value is -9223372036854775808"))
  /\
  (let depth := column [f64_of_Z 1] in
   feq (S754_infinity false) (S754_infinity false) = true /\
   @apply_depth_colormap x86_64 depth None (Some (S754_infinity false)) (Some (S754_infinity false)) "turbo" =
     Err (AssertionError "the min value is -9223372036854775808")).
Proof.
  split; [reflexivity|]. split.
  - split; [|vm_compute; reflexivity].
    exists (Tensor0 (S754_infinity false)), (Tensor0 (S754_infinity false)).
    repeat split.
  - split; [reflexivity|vm_compute; reflexivity].
Qed.

(** C7, as amended.  For a depth tensor of shape [lead + (1,)] and a
    table of finite colors without a negative zero, [apply_depth_colormap]
    with the mask of the same shape that is 1 everywhere gives exactly
    what the same call gives without a mask, the same image or the same
    error.  With the mask that is 0 everywhere it returns the white
    image, 1 in every channel, exactly when the call without a mask
    returns, and fails with that call's error otherwise.  The call
    returns, and the zero mask gives the white image of shape
    [lead + (3,)], for every non-empty depth tensor with finite values
    whose divisor of line 53 is finite and not zero, with a table of 256
    rows. *)
Theorem blend_all_ones_all_zeros :
  forall (RT : Runtime) (depth : tensor f32) (near_plane far_plane : option f64)
         (cmap : string) (table : list rgb) (lead : list nat),
    cm_colors cmap = Some table -> forallb plain_color table = true ->
    shape depth = lead ++ [1%nat] -> tensor_wf depth ->
    apply_depth_colormap depth (Some (full lead f32_one)) near_plane far_plane cmap =
      apply_depth_colormap depth None near_plane far_plane cmap
    /\
    apply_depth_colormap depth (Some (full lead f32_zero)) near_plane far_plane cmap =
      (out <- apply_depth_colormap depth None near_plane far_plane cmap ;; Ok (white_like out))
    /\
    (forall near far : scalar,
       length table = 256%nat -> data depth <> [] ->
       Forall (fun d => is_finite d = true) (data depth) ->
       choose_near depth near_plane = Ok near -> choose_far depth far_plane = Ok far ->
       is_finite (divisor near far) = true -> feq (divisor near far) f32_zero = false ->
       apply_depth_colormap depth (Some (full lead f32_zero)) near_plane far_plane cmap =
         Ok (mkTensor (lead ++ [3%nat]) (repeat f32_one (3 * numel lead)))).
Proof.
  intros RT depth np fp cmap table lead Hc Ht Hs Hwf.
  assert (Hmask :
    apply_depth_colormap depth (Some (full lead f32_one)) np fp cmap =
      apply_depth_colormap depth None np fp cmap
    /\
    apply_depth_colormap depth (Some (full lead f32_zero)) np fp cmap =
      (out <- apply_depth_colormap depth None np fp cmap ;; Ok (white_like out))).
  { unfold apply_depth_colormap.
    destruct (choose_near depth np) as [near|e]; [|split; reflexivity]. cbn [bind].
    destruct (choose_far depth fp) as [far|e]; [|split; reflexivity]. cbn [bind].
    destruct (apply_colormap (normalize depth near far) cmap) as [colored|e] eqn:E; [|split; reflexivity].
    cbn [bind].
    assert (Hs' : shape (normalize depth near far) = lead ++ [1%nat]) by exact Hs.
    assert (Hwf' : tensor_wf (normalize depth near far)).
    { unfold tensor_wf, normalize, torch_clip, tensor_div_scalar, tensor_sub_scalar, tmap in *.
      cbn [data shape]. rewrite !length_map. exact Hwf. }
    destruct (apply_colormap_rows _ cmap table lead colored Hc Hs' Hwf' E) as (rows & -> & Hlen & Hin).
    split.
    - rewrite (blend_full lead rows f32_one (fun x => x) Hlen).
      + rewrite map_id. reflexivity.
      + intros x Hx. destruct (pixels_In rows x Hx) as (c & Hcr & Hxc).
        destruct (plain_color_spec table c x Ht (Hin c Hcr) Hxc) as (Hv & _ & Hz).
        apply blend1_one; assumption.
    - rewrite (blend_full lead rows f32_zero (fun _ => f32_one) Hlen).
      + reflexivity.
      + intros x Hx. destruct (pixels_In rows x Hx) as (c & Hcr & Hxc).
        destruct (plain_color_spec table c x Ht (Hin c Hcr) Hxc) as (_ & Hf & _).
        apply blend1_zero. exact Hf. }
  destruct Hmask as [Hone Hzero]. split; [exact Hone|]. split; [exact Hzero|].
  intros near far Hlen Hne Hall Hn Hf Hfin Hnz.
  rewrite Hzero. unfold apply_depth_colormap. rewrite Hn, Hf. cbn [bind].
  rewrite (colorize_finite_divisor depth cmap table lead near far) by assumption.
  cbn [bind]. unfold white_like. cbn [shape data]. do 2 f_equal.
  rewrite map_const, length_pixels, length_map, normalize_data, length_map.
  unfold tensor_wf in Hwf. rewrite Hwf, Hs, numel_app. cbn. rewrite Nat.mul_1_r. reflexivity.
Qed.

(* The depth column (0.5, 2.5), planes from the data: the divisor is 2. *)
Lemma blend_all_ones_all_zeros_witness :
  let depth := column [f64_decimal 5 1; f64_decimal 25 1] in
  @apply_depth_colormap x86_64 depth (Some (full [2%nat] f32_one)) None None "turbo" =
    @apply_depth_colormap x86_64 depth None None None "turbo"
  /\
  @apply_depth_colormap x86_64 depth (Some (full [2%nat] f32_zero)) None None "turbo" =
    (out <- @apply_depth_colormap x86_64 depth None None None "turbo" ;; Ok (white_like out))
  /\
  @apply_depth_colormap x86_64 depth (Some (full [2%nat] f32_zero)) None None "turbo" =
    Ok (mkTensor [2%nat; 3%nat] (repeat f32_one 6)).
Proof.
  destruct (blend_all_ones_all_zeros x86_64
              (column [f64_decimal 5 1; f64_decimal 25 1]) None None "turbo" gray_ramp [2%nat])
    as (Hone & Hzero & Hwhite).
  - reflexivity.
  - exact gray_ramp_plain.
  - reflexivity.
  - reflexivity.
  - split; [exact Hone|]. split; [exact Hzero|].
    apply (Hwhite (Tensor0 (f32_of_f64 (f64_decimal 5 1))) (Tensor0 (f32_of_f64 (f64_decimal 25 1)))).
    + reflexivity.
    + discriminate.
    + repeat constructor.
    + reflexivity.
    + reflexivity.
    + reflexivity.
    + reflexivity.
Defined.

(** C7 as stated fails where the call without a mask fails, and the mask
    of zeros does not turn the failure into a white image: on the empty
    depth of shape (0, 1), with the planes from the data or given as 1
    and 2, [torch.min] refuses the empty tensor; on the depth (NaN) the
    NaN passes the clip, converts to -2^63 and fails the assertion of
    line 25. *)
Lemma zero_mask_not_white :
  (let depth : tensor f32 := mkTensor [0%nat; 1%nat] [] in
   shape depth = [0%nat] ++ [1%nat] /\ tensor_wf depth /\
   @apply_depth_colormap x86_64 depth (Some (full [0%nat] f32_zero)) None None "turbo" =
     Err RuntimeError /\
   @apply_depth_colormap x86_64 depth (Some (full [0%nat] f32_zero))
      (Some (f64_of_Z 1)) (Some (f64_of_Z 2)) "turbo" = Err RuntimeError)
  /\
  (let depth : tensor f32 := mkTensor [1%nat; 1%nat] [S754_nan] in
   shape depth = [1%nat] ++ [1%nat] /\ tensor_wf depth /\
   @apply_depth_colormap x86_64 depth (Some (full [1%nat] f32_zero))
      (Some (f64_of_Z 1)) (Some (f64_of_Z 2)) "turbo" =
     Err (AssertionError "the min value is -9223372036854775808")).
Proof.
  split.
  - repeat split.
  - split; [reflexivity|]. split; [reflexivity|]. vm_compute. reflexivity.
Qed.

(** C8.  On the object store, neither function writes to an object that
    existed before the call: the store after [apply_colormap_st] and after
    [apply_depth_colormap_st] is the store before with new objects behind
    it, so the image, depth and mask tensors hold the values they held.
    The run agrees with the value-level function: it fails with the same
    error, or returns a reference that did not exist before the call and
    that holds the image the value-level function returns. *)
Theorem inputs_not_mutated :
  forall (RT : Runtime) (h : heap) (image : ref) (t : tensor f32)
         (accumulation : option (ref * tensor f32))
         (near_plane far_plane : option f64) (cmap : string),
    nth_error h image = Some (FloatTensor t) ->
    match accumulation with
    | Some (a, av) => nth_error h a = Some (FloatTensor av)
    | None => True
    end ->
    (let run := apply_colormap_st image cmap h in
     extends h (snd run) /\
     (forall x o, nth_error h x = Some o -> nth_error (snd run) x = Some o) /\
     match apply_colormap t cmap with
     | Ok out => exists out_ref, fst run = Ok out_ref /\ (length h <= out_ref)%nat /\
                                 nth_error (snd run) out_ref = Some (FloatTensor out)
     | Err e => fst run = Err e
     end)
    /\
    (let run := apply_depth_colormap_st image (option_map fst accumulation)
                  near_plane far_plane cmap h in
     extends h (snd run) /\
     (forall x o, nth_error h x = Some o -> nth_error (snd run) x = Some o) /\
     match apply_depth_colormap t (option_map snd accumulation) near_plane far_plane cmap with
     | Ok out => exists out_ref, fst run = Ok out_ref /\ (length h <= out_ref)%nat /\
                                 nth_error (snd run) out_ref = Some (FloatTensor out)
     | Err e => fst run = Err e
     end).
Proof.
  intros RT h image t accumulation np fp cmap Hi Hacc. split.
  - destruct (apply_colormap_st_run h image t cmap Hi) as (new & Hs & Hr).
    cbn zeta. rewrite Hs. split; [apply extends_app|]. split.
    + intros x o Hx. apply (extends_lookup h); [apply extends_app|exact Hx].
    + exact Hr.
  - destruct (apply_depth_colormap_st_run h image t accumulation np fp cmap Hi Hacc) as (new & Hs & Hr).
    cbn zeta. rewrite Hs. split; [apply extends_app|]. split.
    + intros x o Hx. apply (extends_lookup h); [apply extends_app|exact Hx].
    + exact Hr.
Qed.

(* A store with a depth column and a mask column. *)
Lemma inputs_not_mutated_witness :
  let depth := column [f64_decimal 5 1; f64_decimal 25 1] in
  let mask := column [f64_decimal 25 2; f64_decimal 1 0] in
  let h := [FloatTensor depth; FloatTensor mask] in
  (let run := @apply_colormap_st x86_64 0%nat "turbo" h in
   extends h (snd run) /\
   (forall x o, nth_error h x = Some o -> nth_error (snd run) x = Some o) /\
   match @apply_colormap x86_64 depth "turbo" with
   | Ok out => exists out_ref, fst run = Ok out_ref /\ (length h <= out_ref)%nat /\
                               nth_error (snd run) out_ref = Some (FloatTensor out)
   | Err e => fst run = Err e
   end)
  /\
  (let run := @apply_depth_colormap_st x86_64 0%nat (option_map fst (Some (1%nat, mask))) None None "turbo" h in
   extends h (snd run) /\
   (forall x o, nth_error h x = Some o -> nth_error (snd run) x = Some o) /\
   match @apply_depth_colormap x86_64 depth (option_map snd (Some (1%nat, mask))) None None "turbo" with
   | Ok out => exists out_ref, fst run = Ok out_ref /\ (length h <= out_ref)%nat /\
                               nth_error (snd run) out_ref = Some (FloatTensor out)
   | Err e => fst run = Err e
   end).
Proof.
  apply (inputs_not_mutated x86_64
           [FloatTensor (column [f64_decimal 5 1; f64_decimal 25 1]);
            FloatTensor (column [f64_decimal 25 2; f64_decimal 1 0])]
           0%nat (column [f64_decimal 5 1; f64_decimal 25 1])
           (Some (1%nat, column [f64_decimal 25 2; f64_decimal 1 0])) None None "turbo").
  - reflexivity.
  - reflexivity.
Defined.

(** C9, as amended.  For every non-empty image of shape [lead + (1,)]
    whose values are float32 numbers strictly between -1/255 and 0,
    [apply_colormap] with a 256-row table does not fail: every index is
    0, so are the minimum and the maximum of lines 23-24, and every
    pixel of the result is row 0 of the table. *)
Theorem apply_colormap_small_negative :
  forall (RT : Runtime) (image : tensor f32) (cmap : string) (table : list rgb) (lead : list nat),
    cm_colors cmap = Some table -> length table = 256%nat ->
    shape image = lead ++ [1%nat] -> tensor_wf image -> data image <> [] ->
    Forall (fun x => f32_valid x = true /\ (- (1 # 255) < F2Q x)%Q /\ (F2Q x < 0)%Q) (data image) ->
    Forall (fun i => i = 0) (data (scale_long image)) /\
    torch_min_long (scale_long image) = Ok 0 /\
    torch_max_long (scale_long image) = Ok 0 /\
    apply_colormap image cmap =
    Ok (mkTensor (lead ++ [3%nat]) (pixels (map (fun _ => color_at table 0) (data image)))).
Proof.
  intros RT image cmap table lead Hc Hlen Hs Hwf Hne Hall.
  rewrite Forall_forall in Hall.
  assert (Hidx : forall x, In x (data image) -> pixel_index x = 0).
  { intros x Hx. destruct (Hall x Hx) as (Hv & Hlo & Hhi).
    apply pixel_index_small_negative; assumption. }
  assert (Hzero : Forall (fun i => i = 0) (data (scale_long image))).
  { apply Forall_forall. cbn [scale_long tmap data]. intros i Hi.
    apply in_map_iff in Hi. destruct Hi as (x & <- & Hx). apply Hidx. exact Hx. }
  assert (Hne' : data (scale_long image) <> []).
  { cbn [scale_long tmap data]. destruct (data image); [congruence|discriminate]. }
  rewrite Forall_forall in Hzero.
  split; [apply Forall_forall; exact Hzero|]. split; [|split].
  - destruct (reduce_min_spec _ Hne') as (m & Em & Hin & _).
    unfold torch_min_long. rewrite Em. f_equal. apply Hzero. exact Hin.
  - destruct (reduce_max_spec _ Hne') as (m & Em & Hin & _).
    unfold torch_max_long. rewrite Em. f_equal. apply Hzero. exact Hin.
  - rewrite (apply_colormap_ok image cmap table lead Hc Hlen Hs Hwf Hne).
    + f_equal. f_equal. f_equal. apply map_ext_in. intros x Hx. rewrite Hidx by exact Hx. reflexivity.
    + intros x Hx. rewrite Hidx by exact Hx. lia.
Qed.

(* The image (-0.001, -0.0039). *)
Lemma apply_colormap_small_negative_witness :
  let image := column [f64_decimal (-1) 3; f64_decimal (-39) 4] in
  Forall (fun i => i = 0) (data (@scale_long x86_64 image)) /\
  torch_min_long (@scale_long x86_64 image) = Ok 0 /\
  torch_max_long (@scale_long x86_64 image) = Ok 0 /\
  @apply_colormap x86_64 image "viridis" =
  Ok (mkTensor ([2%nat] ++ [3%nat]) (pixels (map (fun _ => color_at gray_ramp 0) (data image)))).
Proof.
  apply (apply_colormap_small_negative x86_64 _ "viridis" gray_ramp [2%nat]).
  - reflexivity.
  - reflexivity.
  - reflexivity.
  - reflexivity.
  - discriminate.
  - repeat constructor; vm_compute; reflexivity.
Defined.

(** C9 as stated fails on the empty image of shape (3, 0, 1), whose
    values are vacuously in the interval: line 23 raises. *)
Lemma apply_colormap_small_negative_empty_fails :
  let image : tensor f32 := mkTensor [3%nat; 0%nat; 1%nat] [] in
  tensor_wf image /\
  Forall (fun x => f32_valid x = true /\ (- (1 # 255) < F2Q x)%Q /\ (F2Q x < 0)%Q) (data image) /\
  @apply_colormap x86_64 image "viridis" = Err RuntimeError.
Proof. repeat split. constructor. Qed.

(** C10.  With a table of colors in [0,1] and, when a mask is given, mask
    values in [0,1], every value of the image [apply_depth_colormap]
    returns is a float32 number of [0,1]; the mask may have any shape
    that broadcasts against the colored image. *)
Theorem apply_depth_colormap_unit_range :
  forall (RT : Runtime) (depth : tensor f32) (accumulation : option (tensor f32))
         (near_plane far_plane : option f64) (cmap : string) (table : list rgb) (out : tensor f32),
    cm_colors cmap = Some table -> forallb color_ok table = true ->
    tensor_wf depth ->
    match accumulation with
    | Some acc => tensor_wf acc /\ Forall (fun a => f32_valid a = true /\ in_unit a = true) (data acc)
    | None => True
    end ->
    apply_depth_colormap depth accumulation near_plane far_plane cmap = Ok out ->
    Forall (fun v => f32_valid v = true /\ in_unit v = true) (data out).
Proof.
  intros RT depth accumulation np fp cmap table out Hc Ht Hwf Hacc H.
  unfold apply_depth_colormap in H.
  destruct (choose_near depth np) as [near|e]; [|discriminate]. cbn [bind] in H.
  destruct (choose_far depth fp) as [far|e]; [|discriminate]. cbn [bind] in H.
  destruct (apply_colormap (normalize depth near far) cmap) as [colored|e] eqn:E; [|discriminate].
  cbn [bind] in H.
  destruct (apply_colormap_inv _ cmap colored E) as (table' & idx & rows & Hc' & Hsel & Hm & -> & _).
  rewrite Hc in Hc'. injection Hc' as <-.
  destruct (rows_in_table table _ rows Hm) as [Hl Hin].
  assert (Hcol : forall x, In x (pixels rows) -> f32_valid x = true /\ in_unit x = true).
  { intros x Hx. destruct (pixels_In rows x Hx) as (c & Hcr & Hxc).
    apply (color_ok_spec table c x Ht (Hin c Hcr) Hxc). }
  destruct accumulation as [acc|].
  - destruct Hacc as [Hwa Hmask]. rewrite Forall_forall in Hmask.
    rewrite blend_spec in H; [|idtac|exact Hwa].
    + cbn zeta in H. destruct (broadcast_shape _ _) as [s|]; [|discriminate].
      injection H as <-. cbn [data].
      apply zip_with_Forall. intros x y Hx Hy.
      apply expand_In in Hx. apply expand_In in Hy. cbn [data] in Hx.
      destruct (Hcol x Hx) as [Hvx Hux]. destruct (Hmask y Hy) as [Hvy Huy].
      split; [|apply blend1_unit; assumption].
      unfold blend1. apply f32_add_valid; [apply f32_mul_valid; assumption|].
      apply f32_sub_valid; [reflexivity|assumption].
    + assert (Hwi : tensor_wf idx).
      { apply (select_last0_wf (scale_long (normalize depth near far))); [|exact Hsel].
        unfold tensor_wf, scale_long, normalize, torch_clip, tensor_div_scalar, tensor_sub_scalar, tmap in *.
        cbn [data shape]. rewrite !length_map. exact Hwf. }
      apply pixels_wf. rewrite Hl. exact Hwi.
  - injection H as <-. cbn [data]. apply Forall_forall. exact Hcol.
Qed.

(* The depth column (0.5, 2.5) under the mask (0.25, 1.0). *)
Lemma apply_depth_colormap_unit_range_witness :
  Forall (fun v => f32_valid v = true /\ in_unit v = true)
    (pixels [(f32_of_f64 (f64_decimal 75 2), f32_of_f64 (f64_decimal 75 2), f32_of_f64 (f64_decimal 75 2));
             (f32_one, f32_one, f32_one)]).
Proof.
  apply (apply_depth_colormap_unit_range x86_64
           (column [f64_decimal 5 1; f64_decimal 25 1])
           (Some (column [f64_decimal 25 2; f64_decimal 1 0]))
           None None "turbo" gray_ramp
           (mkTensor [2%nat; 3%nat]
              (pixels [(f32_of_f64 (f64_decimal 75 2), f32_of_f64 (f64_decimal 75 2), f32_of_f64 (f64_decimal 75 2));
                       (f32_one, f32_one, f32_one)]))).
  - reflexivity.
  - apply (proj2 (table_ok_spec gray_ramp gray_ramp_ok)).
  - reflexivity.
  - split; [reflexivity|]. repeat constructor.
  - vm_compute. reflexivity.
Defined.

(** * Further properties of the two functions *)

(** X1.  An empty tensor, of any shape, is refused: with a colormap
    that exists, [apply_colormap] raises the RuntimeError of
    [torch.min] on line 23, and [apply_depth_colormap] raises a
    RuntimeError whatever the mask and the planes are, on line 50 or 51
    when a plane is taken from the data and on line 23 otherwise. *)
Theorem empty_tensor_refused :
  forall (RT : Runtime) (t : tensor f32) (accumulation : option (tensor f32))
         (near_plane far_plane : option f64) (cmap : string) (table : list rgb),
    data t = [] -> cm_colors cmap = Some table ->
    apply_colormap t cmap = Err RuntimeError /\
    apply_depth_colormap t accumulation near_plane far_plane cmap = Err RuntimeError.
Proof.
  intros RT t acc np fp cmap table Ht Hc. split.
  - rewrite apply_colormap_empty, Hc by exact Ht. reflexivity.
  - rewrite apply_depth_colormap_empty, Hc by exact Ht.
    destruct np as [a|], fp as [b|]; try reflexivity. destruct (truthy a && truthy b); reflexivity.
Qed.

(* The empty image of shape (0, 1), planes 1 and 5. *)
Lemma empty_tensor_refused_witness :
  @apply_colormap x86_64 (mkTensor [0%nat; 1%nat] []) "turbo" = Err RuntimeError /\
  @apply_depth_colormap x86_64 (mkTensor [0%nat; 1%nat] []) None
    (Some (f64_of_Z 1)) (Some (f64_of_Z 5)) "turbo" = Err RuntimeError.
Proof.
  apply (empty_tensor_refused x86_64 (mkTensor [0%nat; 1%nat] []) None
           (Some (f64_of_Z 1)) (Some (f64_of_Z 5)) "turbo" gray_ramp).
  - reflexivity.
  - reflexivity.
Defined.

(** X2.  A NaN is not cleaned away (line 55 is commented out).  Where
    the conversion of a NaN to int64 gives a negative number, as on
    x86-64, an image with a NaN element makes [apply_colormap] fail on
    the assertion of line 25, and a depth tensor with a NaN element
    makes [apply_depth_colormap] fail on that assertion for every mask
    and every choice of planes: the NaN goes through lines 53 and 54. *)
Theorem nan_fails_min_assertion :
  forall (RT : Runtime) (t : tensor f32) (accumulation : option (tensor f32))
         (near_plane far_plane : option f64) (cmap : string) (table : list rgb),
    cm_colors cmap = Some table -> cast_undefined S754_nan < 0 ->
    In S754_nan (data t) ->
    (exists m, m < 0 /\
       apply_colormap t cmap =
       Err (AssertionError (String.append "the min value is " (show_Z m)))) /\
    (exists m, m < 0 /\
       apply_depth_colormap t accumulation near_plane far_plane cmap =
       Err (AssertionError (String.append "the min value is " (show_Z m)))).
Proof.
  intros RT t acc np fp cmap table Hc Hu Hin. split.
  - apply (apply_colormap_nan t cmap table Hc Hu Hin).
  - apply (apply_depth_colormap_nan t acc np fp cmap table Hc Hu Hin).
Qed.

(* The column (0.5, NaN) with the planes 0.25 and 4. *)
Lemma nan_fails_min_assertion_witness :
  (exists m, m < 0 /\
     @apply_colormap x86_64 (mkTensor [2%nat; 1%nat] [f32_of_f64 (f64_decimal 5 1); S754_nan]) "turbo" =
     Err (AssertionError (String.append "the min value is " (show_Z m)))) /\
  (exists m, m < 0 /\
     @apply_depth_colormap x86_64 (mkTensor [2%nat; 1%nat] [f32_of_f64 (f64_decimal 5 1); S754_nan])
       None (Some (f64_decimal 25 2)) (Some (f64_of_Z 4)) "turbo" =
     Err (AssertionError (String.append "the min value is " (show_Z m)))).
Proof.
  apply (nan_fails_min_assertion x86_64 _ None (Some (f64_decimal 25 2)) (Some (f64_of_Z 4))
           "turbo" gray_ramp).
  - reflexivity.
  - reflexivity.
  - right. left. reflexivity.
Defined.

(** X3.  The clip of line 54 keeps the assertions of [apply_colormap]
    from failing.  For a non-empty depth tensor of shape [lead + (1,)]
    with finite values, whenever the divisor of line 53,
    [far_plane - near_plane + 1e-10], is a finite number other than
    zero, [apply_depth_colormap] without a mask returns the image of
    shape [lead + (3,)] that holds, for every depth value, the table
    row at the index of its normalized value, an index of 0..255. *)
Theorem finite_divisor_returns :
  forall (RT : Runtime) (depth : tensor f32) (near_plane far_plane : option f64)
         (cmap : string) (table : list rgb) (lead : list nat) (near far : scalar),
    cm_colors cmap = Some table -> length table = 256%nat ->
    shape depth = lead ++ [1%nat] -> tensor_wf depth -> data depth <> [] ->
    Forall (fun d => is_finite d = true) (data depth) ->
    choose_near depth near_plane = Ok near -> choose_far depth far_plane = Ok far ->
    is_finite (divisor near far) = true -> feq (divisor near far) f32_zero = false ->
    apply_depth_colormap depth None near_plane far_plane cmap =
      Ok (mkTensor (lead ++ [3%nat])
            (pixels (map (fun v => color_at table (pixel_index v))
                         (data (normalize depth near far))))) /\
    Forall (fun v => 0 <= pixel_index v <= 255) (data (normalize depth near far)).
Proof.
  intros RT depth np fp cmap table lead near far Hc Hlen Hs Hwf Hne Hall Hn Hf Hfin Hnz. split.
  - unfold apply_depth_colormap. rewrite Hn, Hf. cbn [bind].
    rewrite (colorize_finite_divisor depth cmap table lead near far) by assumption. reflexivity.
  - apply Forall_forall. intros v Hv. rewrite normalize_data in Hv.
    apply in_map_iff in Hv. destruct Hv as (x & <- & Hx).
    rewrite Forall_forall in Hall.
    destruct (normalize1_unit x (as_f32 near) (divisor near far) (Hall x Hx)
                (divisor_finite_near near far Hfin) Hfin Hnz) as [Hv Hu].
    apply pixel_index_unit; assumption.
Qed.

(* The depth column (0.5, 2.5, 7) with the planes 4 and 1: the far plane
   lies before the near plane and the divisor is negative. *)
Lemma finite_divisor_returns_witness :
  let depth := column [f64_decimal 5 1; f64_decimal 25 1; f64_of_Z 7] in
  let near := PyFloat (f64_of_Z 4) in
  let far := PyFloat (f64_of_Z 1) in
  @apply_depth_colormap x86_64 depth None (Some (f64_of_Z 4)) (Some (f64_of_Z 1)) "turbo" =
    Ok (mkTensor ([3%nat] ++ [3%nat])
          (pixels (map (fun v => color_at gray_ramp (@pixel_index x86_64 v))
                       (data (normalize depth near far))))) /\
  Forall (fun v => 0 <= @pixel_index x86_64 v <= 255) (data (normalize depth near far)).
Proof.
  apply (finite_divisor_returns x86_64 (column [f64_decimal 5 1; f64_decimal 25 1; f64_of_Z 7])
           (Some (f64_of_Z 4)) (Some (f64_of_Z 1)) "turbo" gray_ramp [3%nat]
           (PyFloat (f64_of_Z 4)) (PyFloat (f64_of_Z 1))).
  - reflexivity.
  - reflexivity.
  - reflexivity.
  - reflexivity.
  - discriminate.
  - repeat constructor.
  - reflexivity.
  - reflexivity.
  - reflexivity.
  - reflexivity.
Defined.

(** X4.  [apply_colormap] takes an image with more than one channel:
    for a non-empty image of shape [lead + (k+1,)] whose indices are all
    in 0..255, the assertions of lines 25-26 look at every channel, and
    [image_long[..., 0]] of line 27 colors the first channel only: the
    result has the shape [lead + (3,)], and its pixel [p] is the table
    row for element [p * (k+1)] of the image. *)
Theorem apply_colormap_first_channel :
  forall (RT : Runtime) (image : tensor f32) (cmap : string) (table : list rgb)
         (lead : list nat) (k : nat),
    cm_colors cmap = Some table -> length table = 256%nat ->
    shape image = lead ++ [S k] -> tensor_wf image -> data image <> [] ->
    (forall x, In x (data image) -> 0 <= pixel_index x <= 255) ->
    exists rows,
      apply_colormap image cmap = Ok (mkTensor (lead ++ [3%nat]) (pixels rows)) /\
      length rows = numel lead /\
      forall p, (p < numel lead)%nat ->
        nth_error rows p =
        option_map (fun x => color_at table (pixel_index x)) (nth_error (data image) (p * S k)).
Proof.
  intros RT image cmap table lead k Hc Hlen Hs Hwf Hne Hidx.
  assert (Hl : length (data image) = (numel lead * S k)%nat).
  { unfold tensor_wf in Hwf. rewrite Hwf, Hs, numel_app. cbn. lia. }
  exists (map (fun x => color_at table (pixel_index x)) (strided (numel lead) (S k) (data image))).
  split; [apply (apply_colormap_channels image cmap table lead k); assumption|]. split.
  - rewrite length_map. apply strided_length. exact Hl.
  - intros p Hp. rewrite nth_error_map, nth_error_strided by assumption. reflexivity.
Qed.

(* Two pixels of three channels: (0.0, 0.5, 1.0) and (1.0, 0.25, 0.0). *)
Lemma apply_colormap_first_channel_witness :
  let image := mkTensor ([2%nat] ++ [3%nat])
                 (map f32_of_f64 [f64_of_Z 0; f64_decimal 5 1; f64_of_Z 1;
                                  f64_of_Z 1; f64_decimal 25 2; f64_of_Z 0]) in
  exists rows,
    @apply_colormap x86_64 image "viridis" = Ok (mkTensor ([2%nat] ++ [3%nat]) (pixels rows)) /\
    length rows = numel [2%nat] /\
    forall p, (p < numel [2%nat])%nat ->
      nth_error rows p =
      option_map (fun x => color_at gray_ramp (@pixel_index x86_64 x)) (nth_error (data image) (p * 3)).
Proof.
  apply (apply_colormap_first_channel x86_64 _ "viridis" gray_ramp [2%nat] 2%nat).
  - reflexivity.
  - reflexivity.
  - reflexivity.
  - reflexivity.
  - discriminate.
  - intros x Hx. cbn [data map In] in Hx.
    destruct Hx as [<-|[<-|[<-|[<-|[<-|[<-|[]]]]]]]; vm_compute; split; discriminate.
Defined.

(** X5.  A tensor without dimensions is refused by the indexing of
    line 27: when its values pass the two assertions, [apply_colormap]
    raises the IndexError of [image_long[..., 0]]. *)
Theorem apply_colormap_no_dimension_refused :
  forall (RT : Runtime) (image : tensor f32) (cmap : string) (table : list rgb),
    cm_colors cmap = Some table -> shape image = [] -> data image <> [] ->
    (forall x, In x (data image) -> 0 <= pixel_index x <= 255) ->
    apply_colormap image cmap = Err IndexError.
Proof. intros RT image cmap table. apply apply_colormap_no_dimension. Qed.

(* torch.tensor(0.5) *)
Lemma apply_colormap_no_dimension_refused_witness :
  @apply_colormap x86_64 (mkTensor [] [f32_of_f64 (f64_decimal 5 1)]) "viridis" = Err IndexError.
Proof.
  apply (apply_colormap_no_dimension_refused x86_64 _ "viridis" gray_ramp).
  - reflexivity.
  - reflexivity.
  - discriminate.
  - intros x [<-|[]]. vm_compute. split; discriminate.
Defined.

(** X6.  The blend of line 60, pixel by pixel.  For a depth tensor and a
    mask of the same shape [lead + (1,)], [apply_depth_colormap] with
    the mask returns the image of the call without the mask in which
    every channel [c] of a pixel is replaced by [c * a + (1 - a)] for the
    mask value [a] of that pixel; it fails where the call without the
    mask fails, with the same error. *)
Theorem mask_blend_per_pixel :
  forall (RT : Runtime) (depth acc : tensor f32) (near_plane far_plane : option f64)
         (cmap : string) (lead : list nat),
    shape depth = lead ++ [1%nat] -> tensor_wf depth ->
    shape acc = lead ++ [1%nat] -> tensor_wf acc ->
    apply_depth_colormap depth (Some acc) near_plane far_plane cmap =
    (out <- apply_depth_colormap depth None near_plane far_plane cmap ;;
     Ok (mkTensor (shape out) (zip_with blend1 (data out) (per_channel (data acc))))).
Proof.
  intros RT depth acc np fp cmap lead Hs Hwf Hsa Hwa.
  unfold apply_depth_colormap.
  destruct (choose_near depth np) as [near|e]; [|reflexivity]. cbn [bind].
  destruct (choose_far depth fp) as [far|e]; [|reflexivity]. cbn [bind].
  destruct (apply_colormap (normalize depth near far) cmap) as [colored|e] eqn:E; [|reflexivity].
  cbn [bind].
  destruct (apply_colormap_inv _ cmap colored E) as (table & _ & _ & Hc & _).
  destruct (apply_colormap_rows (normalize depth near far) cmap table lead colored Hc Hs (normalize_wf depth near far Hwf) E)
    as (rows & -> & Hlen & _).
  cbn [shape data]. apply blend_mask; assumption.
Qed.

(* The depth column (0.5, 2.5) under the mask (0.25, 1.0). *)
Lemma mask_blend_per_pixel_witness :
  let depth := column [f64_decimal 5 1; f64_decimal 25 1] in
  let acc := column [f64_decimal 25 2; f64_of_Z 1] in
  @apply_depth_colormap x86_64 depth (Some acc) None None "turbo" =
  (out <- @apply_depth_colormap x86_64 depth None None None "turbo" ;;
   Ok (mkTensor (shape out) (zip_with blend1 (data out) (per_channel (data acc))))).
Proof.
  apply (mask_blend_per_pixel x86_64 _ _ None None "turbo" [2%nat]).
  - reflexivity.
  - reflexivity.
  - reflexivity.
  - reflexivity.
Defined.

(** X7.  A mask whose last dimension is neither 1 nor 3 does not
    broadcast against the colored image on line 60: the call fails with
    torch's RuntimeError, after [apply_colormap] has run, whose own
    error comes first. *)
Theorem mask_last_dimension_refused :
  forall (RT : Runtime) (depth acc : tensor f32) (near_plane far_plane : option f64)
         (cmap : string) (lead s : list nat) (k : nat),
    shape depth = lead ++ [1%nat] -> tensor_wf depth ->
    shape acc = s ++ [k] -> k <> 1%nat -> k <> 3%nat ->
    apply_depth_colormap depth (Some acc) near_plane far_plane cmap =
    (apply_depth_colormap depth None near_plane far_plane cmap ;;; Err RuntimeError).
Proof.
  intros RT depth acc np fp cmap lead s k Hs Hwf Hsa H1 H3.
  unfold apply_depth_colormap.
  destruct (choose_near depth np) as [near|e]; [|reflexivity]. cbn [bind].
  destruct (choose_far depth fp) as [far|e]; [|reflexivity]. cbn [bind].
  destruct (apply_colormap (normalize depth near far) cmap) as [colored|e] eqn:E; [|reflexivity].
  cbn [bind].
  destruct (apply_colormap_inv _ cmap colored E) as (table & _ & _ & Hc & _).
  destruct (apply_colormap_rows (normalize depth near far) cmap table lead colored Hc Hs (normalize_wf depth near far Hwf) E)
    as (rows & -> & _ & _).
  apply (blend_mask_mismatch _ acc lead s k); [reflexivity|assumption..].
Qed.

(* A depth of shape (2, 1) with a mask of shape (2,). *)
Lemma mask_last_dimension_refused_witness :
  let depth := column [f64_decimal 5 1; f64_decimal 25 1] in
  let acc := mkTensor ([] ++ [2%nat]) [f32_one; f32_one] in
  @apply_depth_colormap x86_64 depth (Some acc) None None "turbo" =
  (@apply_depth_colormap x86_64 depth None None None "turbo" ;;; Err RuntimeError).
Proof.
  apply (mask_last_dimension_refused x86_64 _ _ None None "turbo" [2%nat] [] 2%nat).
  - reflexivity.
  - reflexivity.
  - reflexivity.
  - discriminate.
  - discriminate.
Defined.

(** X8.  Depth at or below the near plane gets the first row.  For a
    non-empty depth tensor of shape [lead + (1,)] with finite values,
    when the divisor of line 53 is a positive finite number,
    [apply_depth_colormap] without a mask returns an image in which
    every pixel whose depth is not above the near plane holds row 0 of
    the table. *)
Theorem at_or_below_near_plane :
  forall (RT : Runtime) (depth : tensor f32) (near_plane far_plane : option f64)
         (cmap : string) (table : list rgb) (lead : list nat) (near far : scalar),
    cm_colors cmap = Some table -> length table = 256%nat ->
    shape depth = lead ++ [1%nat] -> tensor_wf depth -> data depth <> [] ->
    Forall (fun d => f32_valid d = true /\ is_finite d = true) (data depth) ->
    choose_near depth near_plane = Ok near -> choose_far depth far_plane = Ok far ->
    is_finite (divisor near far) = true -> flt f32_zero (divisor near far) = true ->
    exists rows,
      apply_depth_colormap depth None near_plane far_plane cmap =
        Ok (mkTensor (lead ++ [3%nat]) (pixels rows)) /\
      length rows = length (data depth) /\
      forall p x, nth_error (data depth) p = Some x -> fle x (as_f32 near) = true ->
                  nth_error rows p = Some (color_at table 0).
Proof.
  intros RT depth np fp cmap table lead near far Hc Hlen Hs Hwf Hne Hall Hn Hf Hfin Hpos.
  assert (Hnz : feq (divisor near far) f32_zero = false).
  { destruct (divisor near far) as [s|s| |s m e]; try discriminate. destruct s; reflexivity. }
  assert (Hfin' : Forall (fun d => is_finite d = true) (data depth)).
  { eapply Forall_impl; [|exact Hall]. intros d [_ Hd]. exact Hd. }
  exists (map (fun v => color_at table (pixel_index v)) (data (normalize depth near far))).
  split; [|split].
  - unfold apply_depth_colormap. rewrite Hn, Hf. cbn [bind].
    rewrite (colorize_finite_divisor depth cmap table lead near far) by assumption. reflexivity.
  - rewrite length_map, normalize_data, length_map. reflexivity.
  - intros p x Hp Hle. rewrite nth_error_map, normalize_data, nth_error_map, Hp. cbn [option_map].
    rewrite Forall_forall in Hall. destruct (Hall x (nth_error_In _ _ Hp)) as [Hvx Hfx].
    pose proof (as_f32_valid near (choose_near_valid depth np near (proj2 (Forall_forall _ _) Hall) Hn)) as Hvn.
    destruct (divisor near far) as [s|s| |s m e]; try discriminate.
    destruct s; [discriminate|].
    rewrite normalize1_below by assumption. reflexivity.
Qed.

(* The depth column (0.5, 1.5, 2.5) with the planes 1.5 and 4. *)
Lemma at_or_below_near_plane_witness :
  let depth := column [f64_decimal 5 1; f64_decimal 15 1; f64_decimal 25 1] in
  exists rows,
    @apply_depth_colormap x86_64 depth None (Some (f64_decimal 15 1)) (Some (f64_of_Z 4)) "turbo" =
      Ok (mkTensor ([3%nat] ++ [3%nat]) (pixels rows)) /\
    length rows = length (data depth) /\
    forall p x, nth_error (data depth) p = Some x ->
                fle x (as_f32 (PyFloat (f64_decimal 15 1))) = true ->
                nth_error rows p = Some (color_at gray_ramp 0).
Proof.
  apply (at_or_below_near_plane x86_64 (column [f64_decimal 5 1; f64_decimal 15 1; f64_decimal 25 1])
           (Some (f64_decimal 15 1)) (Some (f64_of_Z 4)) "turbo" gray_ramp [3%nat]
           (PyFloat (f64_decimal 15 1)) (PyFloat (f64_of_Z 4))).
  - reflexivity.
  - reflexivity.
  - reflexivity.
  - reflexivity.
  - discriminate.
  - repeat constructor.
  - reflexivity.
  - reflexivity.
  - reflexivity.
  - reflexivity.
Defined.

(** X9.  A depth image of one finite value, with both planes taken from
    the data, is colored with row 0 of the table everywhere: the two
    planes coincide, the divisor of line 53 is the float32 of [1e-10],
    and every normalized value is zero. *)
Theorem constant_depth_first_row :
  forall (RT : Runtime) (depth : tensor f32) (c : f32) (cmap : string) (table : list rgb)
         (lead : list nat),
    cm_colors cmap = Some table -> length table = 256%nat ->
    shape depth = lead ++ [1%nat] -> tensor_wf depth -> data depth <> [] ->
    f32_valid c = true -> is_finite c = true ->
    Forall (fun d => d = c) (data depth) ->
    apply_depth_colormap depth None None None cmap =
      Ok (mkTensor (lead ++ [3%nat]) (pixels (map (fun _ => color_at table 0) (data depth)))).
Proof.
  intros RT depth c cmap table lead Hc Hlen Hs Hwf Hne Hvc Hfc Hall.
  assert (Hmin : torch_min depth = Ok c).
  { unfold torch_min. destruct (data depth) as [|x l]; [congruence|].
    inversion Hall as [|? ? -> Hl]; subst. cbn [reduce]. f_equal.
    apply fold_left_same; [apply fmin_same|exact Hl]. }
  assert (Hmax : torch_max depth = Ok c).
  { unfold torch_max. destruct (data depth) as [|x l]; [congruence|].
    inversion Hall as [|? ? -> Hl]; subst. cbn [reduce]. f_equal.
    apply fold_left_same; [apply fmax_same|exact Hl]. }
  unfold apply_depth_colormap, choose_near, choose_far, py_or. rewrite Hmin, Hmax. cbn [bind].
  assert (Hd : divisor (Tensor0 c) (Tensor0 c) = f32_eps) by (apply divisor_same; assumption).
  rewrite (colorize_finite_divisor depth cmap table lead (Tensor0 c) (Tensor0 c)); try assumption.
  - cbn [bind]. f_equal. f_equal. f_equal. rewrite normalize_data, map_map, Hd.
    apply map_ext_in. intros x Hx. rewrite Forall_forall in Hall. rewrite (Hall x Hx).
    cbn [as_f32]. unfold f32_eps.
    rewrite normalize1_below; [reflexivity|assumption..|apply fle_refl_finite; assumption].
  - eapply Forall_impl; [|exact Hall]. intros d ->. exact Hfc.
  - rewrite Hd. reflexivity.
  - rewrite Hd. reflexivity.
Qed.

(* The depth (1.5, 1.5, 1.5). *)
Lemma constant_depth_first_row_witness :
  let depth := column [f64_decimal 15 1; f64_decimal 15 1; f64_decimal 15 1] in
  @apply_depth_colormap x86_64 depth None None None "turbo" =
    Ok (mkTensor ([3%nat] ++ [3%nat]) (pixels (map (fun _ => color_at gray_ramp 0) (data depth)))).
Proof.
  apply (constant_depth_first_row x86_64 _ (f32_of_f64 (f64_decimal 15 1)) "turbo" gray_ramp [3%nat]).
  - reflexivity.
  - reflexivity.
  - reflexivity.
  - reflexivity.
  - discriminate.
  - reflexivity.
  - reflexivity.
  - repeat constructor.
Defined.

(** X10.  The row follows the value.  On a non-empty image of shape
    [lead + (1,)] whose values are float32 numbers between
    [accepted_lo] and [accepted_hi], [apply_colormap] returns one table
    row per element, at an index of 0..255, and the index never
    decreases when the value increases: for two elements [x <= y] the
    index of [x] is at most that of [y]. *)
Theorem apply_colormap_monotone :
  forall (RT : Runtime) (image : tensor f32) (cmap : string) (table : list rgb) (lead : list nat),
    cm_colors cmap = Some table -> length table = 256%nat ->
    shape image = lead ++ [1%nat] -> tensor_wf image -> data image <> [] ->
    Forall (fun x => f32_valid x = true /\ fle accepted_lo x = true /\ fle x accepted_hi = true)
           (data image) ->
    exists idx : list Z,
      apply_colormap image cmap = Ok (mkTensor (lead ++ [3%nat]) (pixels (map (color_at table) idx))) /\
      length idx = length (data image) /\
      Forall (fun i => 0 <= i <= 255) idx /\
      forall p q x y i j,
        nth_error (data image) p = Some x -> nth_error (data image) q = Some y ->
        nth_error idx p = Some i -> nth_error idx q = Some j ->
        fle x y = true -> i <= j.
Proof.
  intros RT image cmap table lead Hc Hlen Hs Hwf Hne Hall.
  rewrite Forall_forall in Hall.
  exists (map pixel_index (data image)). split; [|split; [|split]].
  - rewrite map_map. apply (apply_colormap_ok image cmap table lead Hc Hlen Hs Hwf Hne).
    intros x Hx. destruct (Hall x Hx) as (Hv & H1 & H2). apply pixel_index_accepted; assumption.
  - apply length_map.
  - apply Forall_forall. intros i Hi. apply in_map_iff in Hi. destruct Hi as (x & <- & Hx).
    destruct (Hall x Hx) as (Hv & H1 & H2). apply pixel_index_accepted; assumption.
  - intros p q x y i j Hp Hq Hi Hj Hle.
    rewrite nth_error_map, Hp in Hi. rewrite nth_error_map, Hq in Hj.
    injection Hi as <-. injection Hj as <-.
    destruct (Hall x (nth_error_In _ _ Hp)) as (Hvx & Hx1 & _).
    destruct (Hall y (nth_error_In _ _ Hq)) as (Hvy & _ & Hy2).
    apply pixel_index_mono; assumption.
Qed.

(* The image (0.7, 0.2, 1.0). *)
Lemma apply_colormap_monotone_witness :
  let image := column [f64_decimal 7 1; f64_decimal 2 1; f64_of_Z 1] in
  exists idx : list Z,
    @apply_colormap x86_64 image "viridis" =
      Ok (mkTensor ([3%nat] ++ [3%nat]) (pixels (map (color_at gray_ramp) idx))) /\
    length idx = length (data image) /\
    Forall (fun i => 0 <= i <= 255) idx /\
    forall p q x y i j,
      nth_error (data image) p = Some x -> nth_error (data image) q = Some y ->
      nth_error idx p = Some i -> nth_error idx q = Some j ->
      fle x y = true -> i <= j.
Proof.
  apply (apply_colormap_monotone x86_64 _ "viridis" gray_ramp [3%nat]).
  - reflexivity.
  - reflexivity.
  - reflexivity.
  - reflexivity.
  - discriminate.
  - repeat constructor.
Defined.

(** X11.  What [apply_colormap] accepts.  Where the conversion to int64
    of a NaN, an infinity or a number outside int64 is never an index
    of 0..255 (on x86-64 it is -2^63), [apply_colormap] returns on a
    non-empty image of shape [lead + (k+1,)] exactly when every value
    is a float32 number between [accepted_lo], the least float32 above
    -1/255, and [accepted_hi], the greatest float32 below 256/255: the
    assertions of lines 25-26 allow more than the interval [0,1]. *)
Theorem apply_colormap_accepted_range :
  forall (RT : Runtime) (image : tensor f32) (cmap : string) (table : list rgb)
         (lead : list nat) (k : nat),
    cm_colors cmap = Some table -> length table = 256%nat ->
    shape image = lead ++ [S k] -> data image <> [] ->
    Forall (fun x => f32_valid x = true) (data image) ->
    (forall y, cast_undefined y < 0 \/ 255 < cast_undefined y) ->
    (is_ok (apply_colormap image cmap) = true <->
     Forall (fun x => fle accepted_lo x = true /\ fle x accepted_hi = true) (data image)) /\
    (forall x, is_nan x = false -> fle accepted_lo x = false -> fle x below_accepted = true) /\
    (forall x, is_nan x = false -> fle x accepted_hi = false -> fle above_accepted x = true) /\
    (F2Q below_accepted < - (1 # 255) < F2Q accepted_lo)%Q /\
    (F2Q accepted_hi < 256 # 255 < F2Q above_accepted)%Q.
Proof.
  intros RT image cmap table lead k Hc Hlen Hs Hne Hv Hu.
  rewrite Forall_forall in Hv.
  split; [|split; [exact below_accepted_lo|split; [exact above_accepted_hi|]]].
  - split.
    + intros Hok. destruct (apply_colormap image cmap) as [out|] eqn:E; [|discriminate].
      destruct (apply_colormap_inv image cmap out E) as (t' & idx & rows & _ & _ & _ & _ & Hidx).
      apply Forall_forall. intros x Hx. specialize (Hidx x Hx).
      destruct (fle accepted_lo x && fle x accepted_hi) eqn:B.
      * apply andb_true_iff in B. exact B.
      * pose proof (pixel_index_rejected x (Hv x Hx) Hu B). lia.
    + intros Hall. rewrite Forall_forall in Hall.
      rewrite (apply_colormap_channels image cmap table lead k Hc Hlen Hs Hne); [reflexivity|].
      intros x Hx. destruct (Hall x Hx) as [H1 H2].
      apply pixel_index_accepted; [apply Hv; exact Hx|assumption..].
  - split; split; reflexivity.
Qed.

(* The image (-0.0039, 1.0039) on x86-64. *)
Lemma apply_colormap_accepted_range_witness :
  let image := column [f64_decimal (-39) 4; f64_decimal 10039 4] in
  (is_ok (@apply_colormap x86_64 image "viridis") = true <->
   Forall (fun x => fle accepted_lo x = true /\ fle x accepted_hi = true) (data image)) /\
  (forall x, is_nan x = false -> fle accepted_lo x = false -> fle x below_accepted = true) /\
  (forall x, is_nan x = false -> fle x accepted_hi = false -> fle above_accepted x = true) /\
  (F2Q below_accepted < - (1 # 255) < F2Q accepted_lo)%Q /\
  (F2Q accepted_hi < 256 # 255 < F2Q above_accepted)%Q.
Proof.
  apply (apply_colormap_accepted_range x86_64 _ "viridis" gray_ramp [2%nat] 0%nat).
  - reflexivity.
  - reflexivity.
  - reflexivity.
  - discriminate.
  - repeat constructor.
  - intros y. left. reflexivity.
Defined.

(** X12.  The row follows the depth.  For a non-empty depth tensor of
    shape [lead + (1,)] with finite values, when the divisor of line 53
    is a finite number other than zero, [apply_depth_colormap] without a
    mask returns one table row per depth value, at an index of 0..255,
    and the index is monotone in the depth, with float32 rounding at
    every step of lines 53, 54 and 22: for a positive divisor a deeper
    pixel never gets an earlier row, and for a negative divisor (the far
    plane before the near plane) it never gets a later one. *)
Theorem depth_order_in_rows :
  forall (RT : Runtime) (depth : tensor f32) (near_plane far_plane : option f64)
         (cmap : string) (table : list rgb) (lead : list nat) (near far : scalar),
    cm_colors cmap = Some table -> length table = 256%nat ->
    shape depth = lead ++ [1%nat] -> tensor_wf depth -> data depth <> [] ->
    Forall (fun d => f32_valid d = true /\ is_finite d = true) (data depth) ->
    choose_near depth near_plane = Ok near -> choose_far depth far_plane = Ok far ->
    is_finite (divisor near far) = true -> feq (divisor near far) f32_zero = false ->
    exists idx : list Z,
      apply_depth_colormap depth None near_plane far_plane cmap =
        Ok (mkTensor (lead ++ [3%nat]) (pixels (map (color_at table) idx))) /\
      length idx = length (data depth) /\
      Forall (fun i => 0 <= i <= 255) idx /\
      forall p q x y i j,
        nth_error (data depth) p = Some x -> nth_error (data depth) q = Some y ->
        nth_error idx p = Some i -> nth_error idx q = Some j ->
        fle x y = true ->
        if flt f32_zero (divisor near far) then i <= j else j <= i.
Proof.
  intros RT depth np fp cmap table lead near far Hc Hlen Hs Hwf Hne Hall Hn Hf Hfin Hnz.
  assert (Hfin' : Forall (fun d => is_finite d = true) (data depth)).
  { eapply Forall_impl; [|exact Hall]. intros d [_ Hd]. exact Hd. }
  pose proof (as_f32_valid near (choose_near_valid depth np near Hall Hn)) as Hvn.
  pose proof (divisor_finite_near near far Hfin) as Hnn.
  rewrite Forall_forall in Hall, Hfin'.
  exists (map pixel_index (data (normalize depth near far))). split; [|split; [|split]].
  - unfold apply_depth_colormap. rewrite Hn, Hf. cbn [bind].
    rewrite (colorize_finite_divisor depth cmap table lead near far); try assumption.
    + rewrite map_map. reflexivity.
    + apply Forall_forall. exact Hfin'.
  - rewrite length_map, normalize_data, length_map. reflexivity.
  - apply Forall_forall. intros i Hi. apply in_map_iff in Hi. destruct Hi as (v & <- & Hv).
    rewrite normalize_data in Hv. apply in_map_iff in Hv. destruct Hv as (x & <- & Hx).
    destruct (normalize1_unit x (as_f32 near) (divisor near far) (Hfin' x Hx) Hnn Hfin Hnz) as [Hv Hu].
    apply pixel_index_unit; assumption.
  - intros p q x y i j Hp Hq Hi Hj Hle.
    rewrite nth_error_map, normalize_data, nth_error_map, Hp in Hi.
    rewrite nth_error_map, normalize_data, nth_error_map, Hq in Hj.
    injection Hi as <-. injection Hj as <-.
    destruct (Hall x (nth_error_In _ _ Hp)) as [Hvx Hfx].
    destruct (Hall y (nth_error_In _ _ Hq)) as [Hvy Hfy].
    destruct (finite_nonzero _ Hfin Hnz) as (sd & md & ed & ->).
    pose proof (normalize1_index_mono x y (as_f32 near) sd md ed Hvx Hvy Hvn Hfx Hfy Hnn Hle) as H.
    cbv zeta in H. destruct sd; exact H.
Qed.

(* The depth column (0.5, 2.5, 7) with the planes 1 and 4. *)
Lemma depth_order_in_rows_witness :
  let depth := column [f64_decimal 5 1; f64_decimal 25 1; f64_of_Z 7] in
  let near := PyFloat (f64_of_Z 1) in
  let far := PyFloat (f64_of_Z 4) in
  exists idx : list Z,
    @apply_depth_colormap x86_64 depth None (Some (f64_of_Z 1)) (Some (f64_of_Z 4)) "turbo" =
      Ok (mkTensor ([3%nat] ++ [3%nat]) (pixels (map (color_at gray_ramp) idx))) /\
    length idx = length (data depth) /\
    Forall (fun i => 0 <= i <= 255) idx /\
    forall p q x y i j,
      nth_error (data depth) p = Some x -> nth_error (data depth) q = Some y ->
      nth_error idx p = Some i -> nth_error idx q = Some j ->
      fle x y = true ->
      if flt f32_zero (divisor near far) then i <= j else j <= i.
Proof.
  apply (depth_order_in_rows x86_64 (column [f64_decimal 5 1; f64_decimal 25 1; f64_of_Z 7])
           (Some (f64_of_Z 1)) (Some (f64_of_Z 4)) "turbo" gray_ramp [3%nat]
           (PyFloat (f64_of_Z 1)) (PyFloat (f64_of_Z 4))).
  - reflexivity.
  - reflexivity.
  - reflexivity.
  - reflexivity.
  - discriminate.
  - repeat constructor.
  - reflexivity.
  - reflexivity.
  - reflexivity.
  - reflexivity.
Defined.

(** X13.  One pixel under any mask.  For a depth tensor and a mask of
    the same shape [lead + (1,)] and a table of finite colors without a
    negative zero, when the call without the mask returns, the call with
    the mask returns an image of the same shape in which a pixel whose
    mask value is 1 has, in each channel, the value it has without the
    mask, and a pixel whose mask value is 0 is white, whatever the mask
    holds elsewhere. *)
Theorem mask_one_keeps_zero_whitens :
  forall (RT : Runtime) (depth acc : tensor f32) (near_plane far_plane : option f64)
         (cmap : string) (table : list rgb) (lead : list nat) (unmasked : tensor f32),
    cm_colors cmap = Some table -> forallb plain_color table = true ->
    shape depth = lead ++ [1%nat] -> tensor_wf depth ->
    shape acc = lead ++ [1%nat] -> tensor_wf acc ->
    apply_depth_colormap depth None near_plane far_plane cmap = Ok unmasked ->
    exists out,
      apply_depth_colormap depth (Some acc) near_plane far_plane cmap = Ok out /\
      shape out = shape unmasked /\
      forall (p c : nat) (a v : f32),
        (c < 3)%nat -> nth_error (data acc) p = Some a ->
        nth_error (data unmasked) (3 * p + c) = Some v ->
        (a = f32_one -> nth_error (data out) (3 * p + c) = Some v) /\
        (a = f32_zero -> nth_error (data out) (3 * p + c) = Some f32_one).
Proof.
  intros RT depth acc np fp cmap table lead unmasked Hc Ht Hs Hwf Hsa Hwa H.
  unfold apply_depth_colormap in *.
  destruct (choose_near depth np) as [near|e]; [|discriminate]. cbn [bind] in *.
  destruct (choose_far depth fp) as [far|e]; [|discriminate]. cbn [bind] in *.
  destruct (apply_colormap (normalize depth near far) cmap) as [colored|e] eqn:E; [|discriminate].
  cbn [bind] in *. injection H as <-.
  destruct (apply_colormap_rows (normalize depth near far) cmap table lead colored Hc Hs
              (normalize_wf depth near far Hwf) E) as (rows & -> & Hlen & Hin).
  eexists. split; [apply blend_mask; assumption|]. split; [reflexivity|].
  cbn [data]. intros p c a v Hlt Ha Hv.
  rewrite nth_error_zip_with, Hv, nth_error_per_channel, Ha by exact Hlt.
  destruct (pixels_In rows v (nth_error_In _ _ Hv)) as (rgb0 & Hr & Hvr).
  destruct (plain_color_spec table rgb0 v Ht (Hin rgb0 Hr) Hvr) as (Hvv & Hfv & Hzv).
  split; intros ->; f_equal.
  - apply blend1_one; assumption.
  - apply blend1_zero. exact Hfv.
Qed.

(* The depth column (0.5, 1.5, 2.5) under the mask (1, 0.25, 0). *)
Lemma mask_one_keeps_zero_whitens_witness :
  let depth := column [f64_decimal 5 1; f64_decimal 15 1; f64_decimal 25 1] in
  let acc := column [f64_of_Z 1; f64_decimal 25 2; f64_of_Z 0] in
  let unmasked := mkTensor [3%nat; 3%nat]
                    (pixels [color_at gray_ramp 0; color_at gray_ramp 127; color_at gray_ramp 255]) in
  exists out,
    @apply_depth_colormap x86_64 depth (Some acc) None None "turbo" = Ok out /\
    shape out = shape unmasked /\
    forall (p c : nat) (a v : f32),
      (c < 3)%nat -> nth_error (data acc) p = Some a ->
      nth_error (data unmasked) (3 * p + c) = Some v ->
      (a = f32_one -> nth_error (data out) (3 * p + c) = Some v) /\
      (a = f32_zero -> nth_error (data out) (3 * p + c) = Some f32_one).
Proof.
  apply (mask_one_keeps_zero_whitens x86_64
           (column [f64_decimal 5 1; f64_decimal 15 1; f64_decimal 25 1])
           (column [f64_of_Z 1; f64_decimal 25 2; f64_of_Z 0]) None None "turbo" gray_ramp [3%nat]).
  - reflexivity.
  - exact gray_ramp_plain.
  - reflexivity.
  - reflexivity.
  - reflexivity.
  - reflexivity.
  - vm_compute. reflexivity.
Defined.

(** X14.  With both planes taken from the data the image uses the whole
    table.  Let [lo] and [hi] be the [torch.min] and the [torch.max] of a
    non-empty depth tensor of shape [lead + (1,)] with finite values.
    When the float32 difference [hi - lo] is finite and at least [2^-9],
    the addition of [1e-10] on line 53 changes nothing: the divisor is
    [hi - lo], and [apply_depth_colormap] without a mask and without
    planes returns an image in which every pixel of the least depth holds
    row 0 and every pixel of the greatest depth holds row 255 of the
    table. *)
Theorem data_planes_whole_table :
  forall (RT : Runtime) (depth : tensor f32) (cmap : string) (table : list rgb)
         (lead : list nat) (lo hi : f32),
    cm_colors cmap = Some table -> length table = 256%nat ->
    shape depth = lead ++ [1%nat] -> tensor_wf depth -> data depth <> [] ->
    Forall (fun d => f32_valid d = true /\ is_finite d = true) (data depth) ->
    torch_min depth = Ok lo -> torch_max depth = Ok hi ->
    is_finite (f32_sub hi lo) = true -> fle absorbs_eps (f32_sub hi lo) = true ->
    is_least lo (data depth) /\ is_greatest hi (data depth) /\
    divisor (Tensor0 lo) (Tensor0 hi) = f32_sub hi lo /\
    exists rows,
      apply_depth_colormap depth None None None cmap =
        Ok (mkTensor (lead ++ [3%nat]) (pixels rows)) /\
      length rows = length (data depth) /\
      forall p x, nth_error (data depth) p = Some x ->
        (fle x lo = true -> nth_error rows p = Some (color_at table 0)) /\
        (fle hi x = true -> nth_error rows p = Some (color_at table 255)).
Proof.
  intros RT depth cmap table lead lo hi Hc Hlen Hs Hwf Hne Hall Elo Ehi Hfs Hls.
  assert (Hnn : Forall (fun y => is_nan y = false) (data depth)).
  { eapply Forall_impl; [|exact Hall]. intros d [_ Hd]. destruct d; try discriminate; reflexivity. }
  assert (Hfin' : Forall (fun d => is_finite d = true) (data depth)).
  { eapply Forall_impl; [|exact Hall]. intros d [_ Hd]. exact Hd. }
  destruct (torch_min_least depth Hne Hnn) as (lo' & Elo' & Hlo).
  destruct (torch_max_greatest depth Hne Hnn) as (hi' & Ehi' & Hhi).
  rewrite Elo in Elo'. injection Elo' as <-. rewrite Ehi in Ehi'. injection Ehi' as <-.
  split; [exact Hlo|]. split; [exact Hhi|].
  rewrite Forall_forall in Hall.
  destruct (Hall lo (proj1 Hlo)) as [Hvlo Hflo]. destruct (Hall hi (proj1 Hhi)) as [Hvhi Hfhi].
  assert (Hnlo : is_nan lo = false) by (destruct lo; try discriminate; reflexivity).
  pose proof (f32_sub_valid hi lo Hvhi Hvlo) as Hvs.
  assert (Hd : divisor (Tensor0 lo) (Tensor0 hi) = f32_sub hi lo).
  { unfold divisor. cbn [scalar_sub scalar_add as_f32].
    change (f32_of_f64 py_1e_10) with f32_eps. apply f32_add_eps_absorbed; assumption. }
  split; [exact Hd|].
  exists (map (fun v => color_at table (pixel_index v)) (data (normalize depth (Tensor0 lo) (Tensor0 hi)))).
  assert (Hform : exists ms es, f32_sub hi lo = S754_finite false ms es).
  { destruct (f32_sub hi lo) as [s|s| |s ms es]; try discriminate. destruct s; [discriminate|]. eauto. }
  destruct Hform as (ms & es & Es).
  split; [|split].
  - unfold apply_depth_colormap, choose_near, choose_far, py_or. rewrite Elo, Ehi. cbn [bind].
    rewrite (colorize_finite_divisor depth cmap table lead (Tensor0 lo) (Tensor0 hi)); try assumption.
    + reflexivity.
    + rewrite Hd. exact Hfs.
    + rewrite Hd, Es. reflexivity.
  - rewrite length_map, normalize_data, length_map. reflexivity.
  - intros p x Hp. destruct (Hall x (nth_error_In _ _ Hp)) as [Hvx Hfx].
    rewrite nth_error_map, normalize_data, nth_error_map, Hp, Hd. cbn [option_map as_f32].
    split; intros Hle; f_equal; f_equal.
    + rewrite Es. apply normalize1_below; assumption.
    + pose proof (f32_sub_mono hi x lo Hvhi Hvx Hvlo Hfhi Hfx Hnlo Hle) as Hm.
      rewrite Es in Hm, Hvs |- *.
      rewrite normalize1_saturated; [reflexivity|apply f32_sub_valid; assumption|exact Hm|exact Hvs].
Qed.

(* The depth column (0.5, 2.5, 1.5). *)
Lemma data_planes_whole_table_witness :
  let depth := column [f64_decimal 5 1; f64_decimal 25 1; f64_decimal 15 1] in
  let lo := f32_of_f64 (f64_decimal 5 1) in
  let hi := f32_of_f64 (f64_decimal 25 1) in
  is_least lo (data depth) /\ is_greatest hi (data depth) /\
  divisor (Tensor0 lo) (Tensor0 hi) = f32_sub hi lo /\
  exists rows,
    @apply_depth_colormap x86_64 depth None None None "turbo" =
      Ok (mkTensor ([3%nat] ++ [3%nat]) (pixels rows)) /\
    length rows = length (data depth) /\
    forall p x, nth_error (data depth) p = Some x ->
      (fle x lo = true -> nth_error rows p = Some (color_at gray_ramp 0)) /\
      (fle hi x = true -> nth_error rows p = Some (color_at gray_ramp 255)).
Proof.
  apply (data_planes_whole_table x86_64 (column [f64_decimal 5 1; f64_decimal 25 1; f64_decimal 15 1])
           "turbo" gray_ramp [3%nat] (f32_of_f64 (f64_decimal 5 1)) (f32_of_f64 (f64_decimal 25 1))).
  - reflexivity.
  - reflexivity.
  - reflexivity.
  - reflexivity.
  - discriminate.
  - repeat constructor.
  - reflexivity.
  - reflexivity.
  - reflexivity.
  - reflexivity.
Defined.

(** X15.  A colormap that is missing.  [apply_colormap] looks the
    colormap up first (line 20): when the lookup fails, the call fails
    with the lookup's error for every image, an empty one included.
    [apply_depth_colormap] chooses the planes and normalizes before
    (lines 50-54), and fails with the lookup's error for every non-empty
    depth tensor, every mask and every pair of planes. *)
Theorem missing_colormap_refused :
  forall (RT : Runtime) (image depth : tensor f32) (accumulation : option (tensor f32))
         (near_plane far_plane : option f64) (cmap : string),
    cm_colors cmap = None -> data depth <> [] ->
    apply_colormap image cmap = Err ColormapError /\
    apply_depth_colormap depth accumulation near_plane far_plane cmap = Err ColormapError.
Proof.
  intros RT image depth acc np fp cmap Hc Hne. split.
  - apply apply_colormap_missing. exact Hc.
  - apply apply_depth_colormap_missing; assumption.
Qed.

(* The empty image and the depth (0.5, NaN), with a name that is not a colormap. *)
Lemma missing_colormap_refused_witness :
  @apply_colormap x86_64 (mkTensor [0%nat; 1%nat] []) "depth" = Err ColormapError /\
  @apply_depth_colormap x86_64 (mkTensor [2%nat; 1%nat] [f32_of_f64 (f64_decimal 5 1); S754_nan])
    None None None "depth" = Err ColormapError.
Proof.
  apply (missing_colormap_refused x86_64 (mkTensor [0%nat; 1%nat] [])
           (mkTensor [2%nat; 1%nat] [f32_of_f64 (f64_decimal 5 1); S754_nan]) None None None "depth").
  - reflexivity.
  - discriminate.
Defined.

(** X16.  A table of fewer than 256 rows.  The assertion of line 26 lets
    every index up to 255 through, whatever the length of the table: on
    a non-empty image of shape [lead + (1,)] whose indices are in
    0..255, [apply_colormap] returns the rows of the table when every
    index is below the number of rows, and raises the IndexError of
    line 27 as soon as one index is not. *)
Theorem short_table_index_error :
  forall (RT : Runtime) (image : tensor f32) (cmap : string) (table : list rgb) (lead : list nat),
    cm_colors cmap = Some table ->
    shape image = lead ++ [1%nat] -> tensor_wf image -> data image <> [] ->
    (forall x, In x (data image) -> 0 <= pixel_index x <= 255) ->
    apply_colormap image cmap =
    if forallb (fun x => pixel_index x <? Z.of_nat (length table)) (data image)
    then Ok (mkTensor (lead ++ [3%nat])
               (pixels (map (fun x => color_at table (pixel_index x)) (data image))))
    else Err IndexError.
Proof.
  intros RT image cmap table lead Hc Hs Hwf Hne Hidx.
  destruct (forallb _ (data image)) eqn:E.
  - apply (apply_colormap_any_table image cmap table lead Hc Hs Hwf Hne Hidx).
    intros x Hx. rewrite forallb_forall in E. apply Z.ltb_lt. apply E. exact Hx.
  - apply (apply_colormap_short_table image cmap table lead Hc Hs Hwf Hne Hidx).
    destruct (forallb_false_In _ _ E) as (x & Hx & Hf).
    exists x. split; [exact Hx|]. apply Z.ltb_ge. exact Hf.
Qed.

(* The image (0.0, 0.5) with a table of ten rows: the index 127 is refused. *)
Lemma short_table_index_error_witness :
  let RT := with_table "tab10" short_ramp x86_64 in
  let image := column [f64_of_Z 0; f64_decimal 5 1] in
  @apply_colormap RT image "tab10" =
  if forallb (fun x => @pixel_index RT x <? Z.of_nat (length short_ramp)) (data image)
  then Ok (mkTensor ([2%nat] ++ [3%nat])
             (pixels (map (fun x => color_at short_ramp (@pixel_index RT x)) (data image))))
  else Err IndexError.
Proof.
  apply (short_table_index_error (with_table "tab10" short_ramp x86_64)
           (column [f64_of_Z 0; f64_decimal 5 1]) "tab10" short_ramp [2%nat]).
  - reflexivity.
  - reflexivity.
  - reflexivity.
  - discriminate.
  - intros x Hx. cbn [data column map In] in Hx.
    destruct Hx as [<-|[<-|[]]]; vm_compute; split; discriminate.
Defined.
